(** * Policy configuration core of robinhood: [src/cfg_parsing/rbh_cfg.c]

    A shallow embedding of the scalar extractors, the criteria compiler,
    the boolean and set-expression builders and [FreeBoolExpr], with the
    properties of the configuration specification stated over it; then of
    the rest of the file: the table reader, the conditions made by hand,
    the printers, the module drivers and the check of unknown parameters,
    with properties read off the code.

    Conventions.
    - C integers are [Z]; where the C type wraps, the wrap-around is written
      out ([u64]).  Flag words are [Z] tested with [Z.land].
    - C strings are [string]; a bounded copy is [rh_strncpy].
    - Heap objects ([bool_node_t], [compare_triplet_t]) live in a store
      [cells : gmap N object]; a pointer is an address, [NULL] is [0].
      [malloc] hands out the addresses [brk], [brk + 1], ... and fails from
      [limit] on; [free] removes a cell and records the address; a [free]
      or an access that hits no cell raises the sticky [fault] flag
      (undefined behaviour in C).
    - [*p_attr_mask] and [err_msg], which the C code reaches through
      pointers of the caller, are fields of the state.
    - A write past the end of a local or embedded array ([tmpbuf] of the
      extractors, [val.str] of a triplet) and a [sprintf] that is given
      no buffer are undefined behaviour as well: they raise the flag of
      the state they belong to ([o_fault], [c_fault]). *)

From Stdlib Require Import ZArith Ascii String Lia.
From stdpp Require Import gmap strings list pretty.
From Equations Require Import Equations.

Local Open Scope string_scope.
Local Open Scope Z_scope.
#[local] Set Warnings "-clear-no-such-hyp,-register-all".

(** ** errno values *)

Definition ENOENT : Z := 2.
Definition ENOMEM : Z := 12.
Definition EFAULT : Z := 14.
Definition EINVAL : Z := 22.
Definition ENOTSUP : Z := 95.

(** ** Machine integers *)

(** Conversion to [uint64_t] / [unsigned long long]. *)
Definition u64 (z : Z) : Z := z mod 2 ^ 64.

(** [flags & bit], as a C condition. *)
Definition has_flag (flags bit : Z) : bool := negb (Z.land flags bit =? 0).

(** ** Types of the compiled expressions (policy_rules.h) *)

Inductive compare_direction_t :=
| COMP_NONE
| COMP_GRTHAN
| COMP_GRTHAN_EQ
| COMP_LSTHAN
| COMP_LSTHAN_EQ
| COMP_EQUAL
| COMP_DIFF
| COMP_LIKE
| COMP_UNLIKE.

#[global] Instance compare_direction_eq_dec : EqDecision compare_direction_t.
Proof. solve_decision. Defined.

Inductive compare_criteria_t :=
| NO_CRITERIA
| CRITERIA_TREE
| CRITERIA_PATH
| CRITERIA_FILENAME
| CRITERIA_TYPE
| CRITERIA_OWNER
| CRITERIA_GROUP
| CRITERIA_SIZE
| CRITERIA_DEPTH
| CRITERIA_DIRCOUNT
| CRITERIA_LAST_ACCESS
| CRITERIA_LAST_MOD
| CRITERIA_LAST_ARCHIVE
| CRITERIA_LAST_RESTORE
| CRITERIA_CREATION
| CRITERIA_POOL
| CRITERIA_OST
| CRITERIA_XATTR
| CRITERIA_STATUS.

Inductive obj_type_t :=
| TYPE_NONE
| TYPE_LINK
| TYPE_DIR
| TYPE_FILE
| TYPE_CHR
| TYPE_BLK
| TYPE_FIFO
| TYPE_SOCK.

(** The union [compare_value_t]: the member last written. *)
Inductive compare_value_t :=
| VAL_UNDEF
| VAL_STR (str : string)
| VAL_SIZE (size : Z)
| VAL_INTEGER (integer : Z)
| VAL_DURATION (duration : Z)
| VAL_TYPE (type : obj_type_t).

Record compare_triplet_t := mk_triplet {
  t_flags : Z;
  t_crit : compare_criteria_t;
  t_op : compare_direction_t;
  t_val : compare_value_t;
  t_xattr_name : string
}.

Definition CMP_FLG_ANY_LEVEL : Z := 1.

Inductive node_type_t := NODE_CONDITION | NODE_UNARY_EXPR | NODE_BINARY_EXPR.

Inductive bool_op_t := BOOL_ERR | BOOL_NOT | BOOL_OR | BOOL_AND.

(** [bool_node_t].  [content_u] is a union of [condition] and the struct
    [bool_expr]; the two members are kept side by side, the code reads a
    member only under the [node_type] that it was written for.  The bit
    [owner] lies behind [expr2], past the bytes of [condition]. *)
Record bool_node_t := mk_bool_node {
  node_type : node_type_t;
  condition : N;
  bool_op : bool_op_t;
  expr1 : N;
  expr2 : N;
  owner : bool
}.

Definition set_node_type (v : node_type_t) (n : bool_node_t) : bool_node_t :=
  mk_bool_node v (condition n) (bool_op n) (expr1 n) (expr2 n) (owner n).
Definition set_condition (v : N) (n : bool_node_t) : bool_node_t :=
  mk_bool_node (node_type n) v (bool_op n) (expr1 n) (expr2 n) (owner n).
Definition set_bool_op (v : bool_op_t) (n : bool_node_t) : bool_node_t :=
  mk_bool_node (node_type n) (condition n) v (expr1 n) (expr2 n) (owner n).
Definition set_expr1 (v : N) (n : bool_node_t) : bool_node_t :=
  mk_bool_node (node_type n) (condition n) (bool_op n) v (expr2 n) (owner n).
Definition set_expr2 (v : N) (n : bool_node_t) : bool_node_t :=
  mk_bool_node (node_type n) (condition n) (bool_op n) (expr1 n) v (owner n).
Definition set_owner (v : bool) (n : bool_node_t) : bool_node_t :=
  mk_bool_node (node_type n) (condition n) (bool_op n) (expr1 n) (expr2 n) v.

(** ** The store *)

Definition NULL : N := 0%N.

Inductive object :=
| ObjNode (n : bool_node_t)
| ObjTriplet (t : compare_triplet_t).

Record world := mk_world {
  cells : gmap N object;
  brk : N;
  limit : N;
  junk_node : bool_node_t;
  junk_triplet : compare_triplet_t;
  attr_mask : Z;
  err_msg : string;
  frees : list N;
  fault : bool
}.

Definition set_cells (c : gmap N object) (w : world) : world :=
  mk_world c (brk w) (limit w) (junk_node w) (junk_triplet w)
           (attr_mask w) (err_msg w) (frees w) (fault w).
Definition set_attr_mask (m : Z) (w : world) : world :=
  mk_world (cells w) (brk w) (limit w) (junk_node w) (junk_triplet w)
           m (err_msg w) (frees w) (fault w).
Definition set_err_msg (s : string) (w : world) : world :=
  mk_world (cells w) (brk w) (limit w) (junk_node w) (junk_triplet w)
           (attr_mask w) s (frees w) (fault w).
Definition raise_fault (w : world) : world :=
  mk_world (cells w) (brk w) (limit w) (junk_node w) (junk_triplet w)
           (attr_mask w) (err_msg w) (frees w) true.

(** The cell [malloc] hands out, holding indeterminate content [o]. *)
Definition alloc (o : object) (w : world) : world :=
  mk_world (<[brk w := o]> (cells w)) (brk w + 1)%N (limit w)
           (junk_node w) (junk_triplet w)
           (attr_mask w) (err_msg w) (frees w) (fault w).

(** [malloc(size)]: a fresh cell, or [NULL] when memory is exhausted. *)
Definition malloc (o : object) (w : world) : N * world :=
  if (brk w <? limit w)%N then (brk w, alloc o w) else (NULL, w).

Definition malloc_node (w : world) : N * world := malloc (ObjNode (junk_node w)) w.
Definition malloc_triplet (w : world) : N * world :=
  malloc (ObjTriplet (junk_triplet w)) w.

(** [free(p)]: nothing for [NULL]; a cell is released and the call logged;
    releasing what is not allocated (a double free) is a fault. *)
Definition free (p : N) (w : world) : world :=
  if (p =? NULL)%N then w
  else
    mk_world (delete p (cells w)) (brk w) (limit w)
             (junk_node w) (junk_triplet w)
             (attr_mask w) (err_msg w) (frees w ++ [p])
             (match cells w !! p with Some _ => fault w | None => true end).

Definition load_node (p : N) (w : world) : option bool_node_t :=
  match cells w !! p with
  | Some (ObjNode n) => Some n
  | _ => None
  end.

Definition load_triplet (p : N) (w : world) : option compare_triplet_t :=
  match cells w !! p with
  | Some (ObjTriplet t) => Some t
  | _ => None
  end.

(** A field assignment [p->f = v], and the struct assignment [*p = n]. *)
Definition store_node (p : N) (f : bool_node_t → bool_node_t) (w : world) : world :=
  match load_node p w with
  | Some n => set_cells (<[p := ObjNode (f n)]> (cells w)) w
  | None => raise_fault w
  end.

Definition store_triplet (p : N) (f : compare_triplet_t → compare_triplet_t)
    (w : world) : world :=
  match load_triplet p w with
  | Some t => set_cells (<[p := ObjTriplet (f t)]> (cells w)) w
  | None => raise_fault w
  end.

(** [free(p->content_u.bool_expr.expr1)] and the same for [expr2], on the
    error paths of the builders. *)
Definition free_expr1 (p : N) (w : world) : world :=
  match load_node p w with
  | Some n => free (expr1 n) w
  | None => raise_fault w
  end.

Definition free_expr2 (p : N) (w : world) : world :=
  match load_node p w with
  | Some n => free (expr2 n) w
  | None => raise_fault w
  end.

(** ** C string functions *)

Definition tolower (c : ascii) : ascii :=
  let n := N_of_ascii c in
  if ((65 <=? n) && (n <=? 90))%N then ascii_of_N (n + 32) else c.

(** [strcasecmp]: zero exactly when the strings agree up to letter case. *)
Fixpoint strcasecmp (s1 s2 : string) : Z :=
  match s1, s2 with
  | EmptyString, EmptyString => 0
  | EmptyString, String c2 _ => - Z.of_N (N_of_ascii (tolower c2))
  | String c1 _, EmptyString => Z.of_N (N_of_ascii (tolower c1))
  | String c1 r1, String c2 r2 =>
      let d := Z.of_N (N_of_ascii (tolower c1)) - Z.of_N (N_of_ascii (tolower c2)) in
      if d =? 0 then strcasecmp r1 r2 else d
  end.

(** [strchr(s, c) != NULL]. *)
Fixpoint has_char (c : ascii) (s : string) : bool :=
  match s with
  | EmptyString => false
  | String a r => if Ascii.eqb a c then true else has_char c r
  end.

(** [strchr(s, c)]: the string from the first [c] on, or [NULL]. *)
Fixpoint strchr (s : string) (c : ascii) : option string :=
  match s with
  | EmptyString => None
  | String a r => if Ascii.eqb a c then Some s else strchr r c
  end.

(** [strstr(s + pos, pat)], as the index of the match in [s]. *)
Definition strstr_from (s : string) (pos : nat) (pat : string) : option nat :=
  String.index pos pat s.

Definition isspace (c : ascii) : bool :=
  let n := N_of_ascii c in ((n =? 32) || ((9 <=? n) && (n <=? 13)))%N.

Definition isdigit (c : ascii) : bool :=
  let n := N_of_ascii c in ((48 <=? n) && (n <=? 57))%N.

Definition digit_val (c : ascii) : Z := Z.of_N (N_of_ascii c) - 48.

Fixpoint skip_spaces (s : string) : string :=
  match s with
  | String c r => if isspace c then skip_spaces r else s
  | EmptyString => EmptyString
  end.

(** The digits at the head of [s]: their value on top of [acc], how many
    they are, and the rest of the string. *)
Fixpoint scan_digits (s : string) (acc : Z) (n : nat) : Z * nat * string :=
  match s with
  | String c r =>
      if isdigit c then scan_digits r (10 * acc + digit_val c) (S n)
      else (acc, n, s)
  | EmptyString => (acc, n, s)
  end.

(** The conversion [%256s]: white space is skipped, then up to [width]
    characters that are not white space are read; they are stored with a
    terminator behind them, which makes [width + 1] bytes at most. *)
Fixpoint scan_word (s : string) (width : nat) : string :=
  match width, s with
  | S w, String c r => if isspace c then EmptyString else String c (scan_word r w)
  | _, _ => EmptyString
  end.

(** An optional sign and a decimal number at the head of the input, white
    space skipped: [None] when no digit is there, else whether a minus was
    read, the value of the digits and the rest. *)
Definition scan_number (s : string) : option (bool * Z * string) :=
  let s := skip_spaces s in
  let '(neg, s) :=
    match s with
    | String "-" r => (true, r)
    | String "+" r => (false, r)
    | _ => (false, s)
    end in
  match scan_digits s 0 0 with
  | (_, O, _) => None
  | (v, _, rest) => Some (neg, v, rest)
  end.

(** The second conversion of the formats below: [1] conversion when no
    word follows the number, [2] and the word otherwise.  The word may
    have all of 256 characters; what becomes of it in the array of the
    caller is [tmpbuf_store] below. *)
Definition scan_suffix (v : Z) (rest : string) : Z * Z * string :=
  match scan_word (skip_spaces rest) 256 with
  | EmptyString => (1, v, EmptyString)
  | word => (2, v, word)
  end.

(** The array [char tmpbuf[256]] of the extractors is full with a word of
    256 characters: there is no room for the terminator. *)
Definition tmpbuf_full (tmpbuf : string) : bool :=
  (256 <=? String.length tmpbuf)%nat.

Arguments tmpbuf_full : simpl never.

(** Wrap-around to [int]. *)
Definition int32 (z : Z) : Z := (z + 2 ^ 31) mod 2 ^ 32 - 2 ^ 31.

(** [sscanf(value, "%d%256s", &intval, tmpbuf)]: the number of
    conversions, [intval] and [tmpbuf].  A value out of the range of
    [int] is stored wrapped. *)
Definition sscanf_d_s (value : string) : Z * Z * string :=
  match scan_number value with
  | None => (0, 0, EmptyString)
  | Some (neg, v, rest) => scan_suffix (int32 (if neg then - v else v)) rest
  end.

(** [sscanf(value, "%" SCNu64 "%256s", &intval, tmpbuf)].  As [strtoull]
    does, a value past [UINT64_MAX] is stored as [UINT64_MAX], and a
    minus sign negates modulo [2^64]. *)
Definition sscanf_u64_s (value : string) : Z * Z * string :=
  match scan_number value with
  | None => (0, 0, EmptyString)
  | Some (neg, v, rest) =>
      let v := Z.min v (2 ^ 64 - 1) in
      scan_suffix (if neg then u64 (- v) else v) rest
  end.

(** ** String macros and helpers (rbh_misc.h, rbh_cfg.h) *)

(** Modelled from the spec: the macros below are defined in headers that
    are not among the sources.  [EMPTY_STRING] is the empty string,
    [IS_ABSOLUTE_PATH] a string starting with [/], [WILDCARDS_IN] a string
    with one of [*], [?], [[], [ANY_LEVEL_MATCH] a string with the token
    [**], [SLASH_IN] a string with a [/]; [FINAL_SLASH] is a trailing [/]
    that is not the root and [REMOVE_FINAL_SLASH] strips it; [rh_strncpy]
    is a copy bounded by the capacity of the target, terminator
    included. *)
Definition EMPTY_STRING (s : string) : bool :=
  match s with EmptyString => true | _ => false end.

Definition IS_ABSOLUTE_PATH (s : string) : bool :=
  match s with String "/" _ => true | _ => false end.

Definition SLASH_IN (s : string) : bool := has_char "/" s.

Definition WILDCARDS_IN (s : string) : bool :=
  has_char "*" s || has_char "?" s || has_char "[" s.

Definition ANY_LEVEL_MATCH (s : string) : bool :=
  match strstr_from s 0 "**" with Some _ => true | None => false end.

Definition FINAL_SLASH (s : string) : bool :=
  (1 <? String.length s)%nat
  && bool_decide (String.get (String.length s - 1) s = Some "/"%char).

Definition REMOVE_FINAL_SLASH (s : string) : string :=
  substring 0 (String.length s - 1) s.

Definition rh_strncpy (src : string) (size : nat) : string :=
  substring 0 (size - 1) src.

(** ** The syntax tree of the parser (analyze.h) *)

Inductive operator_t :=
| OP_EQUAL
| OP_DIFF
| OP_GT
| OP_GT_EQ
| OP_LT
| OP_LT_EQ
| OP_CMD.

Record type_key_value := mk_key_value {
  varname : string;
  varvalue : string;
  op_type : operator_t;
  arg_flag : Z;
  arg_list : list string
}.

Inductive bool_operator_t :=
| BOOL_OP_NONE
| BOOL_OP_IDENTITY
| BOOL_OP_NOT
| BOOL_OP_AND
| BOOL_OP_OR.

(** [type_bool_expr]: the tag [type] with the members of [expr_u] it uses;
    [BoolInvalid] is any other value of the tag. *)
Inductive type_bool_expr :=
| BoolCondition (key_value : type_key_value)
| BoolUnary (oper : bool_operator_t) (expr1 : type_bool_expr)
| BoolBinary (oper : bool_operator_t) (expr1 expr2 : type_bool_expr)
| BoolInvalid (type : Z).

Inductive set_operator_t := SET_OP_NOT | SET_OP_UNION | SET_OP_INTER.

(** [type_set]: [set_type] is [SET_SINGLETON], [SET_NEGATION] or a binary
    form, each with the members of [set_u] it uses. *)
Inductive type_set :=
| SetSingleton (name : string)
| SetNegation (oper : set_operator_t) (set1 : type_set)
| SetBinary (oper : set_operator_t) (set1 set2 : type_set).

(** [generic_item]: the tag [type] with the member of [item] it selects.
    The [next] pointer of an item is the tail of the list it stands in. *)
Inductive generic_item :=
| TYPE_BLOCK (line : Z) (block_name : string) (block_content : list generic_item)
| TYPE_AFFECT (line : Z) (affect : type_key_value)
| TYPE_BOOL_EXPR (line : Z) (bool_expr : type_bool_expr)
| TYPE_SET (line : Z) (set : type_set).

(** [config_item_t] is a pointer to an item, or [NULL]. *)
Definition config_item_t : Type := option generic_item.

(** ** Parameter descriptors and flags (rbh_cfg.h) *)

Inductive cfg_param_type :=
| PT_STRING
| PT_BOOL
| PT_DURATION
| PT_SIZE
| PT_INT
| PT_INT64
| PT_FLOAT
| PT_TYPE.

(** Modelled from the spec: rbh_cfg.h, which gives the [PFLG_] flags their
    values, is not among the sources.  The flags of the specification's
    table (and [PFLG_NO_SLASH], which the code tests) are distinct bits of
    the flag word. *)
Definition PFLG_MANDATORY : Z := 1.
Definition PFLG_NOT_EMPTY : Z := 2.
Definition PFLG_POSITIVE : Z := 4.
Definition PFLG_NOT_NULL : Z := 8.
Definition PFLG_ABSOLUTE_PATH : Z := 16.
Definition PFLG_NO_WILDCARDS : Z := 32.
Definition PFLG_ALLOW_ANY_DEPTH : Z := 64.
Definition PFLG_ALLOW_PCT_SIGN : Z := 128.
Definition PFLG_STDIO_ALLOWED : Z := 256.
Definition PFLG_MAIL : Z := 512.
Definition PFLG_REMOVE_FINAL_SLASH : Z := 1024.
Definition PFLG_XATTR : Z := 2048.
Definition PFLG_STATUS : Z := 4096.
Definition PFLG_COMPARABLE : Z := 8192.
Definition PFLG_NO_SLASH : Z := 16384.

(** ** Status managers and the criteria table (status_manager.h, policy_rules.h) *)

Record status_manager_t := mk_status_manager {
  sm_name : string;
  status_enum : list string
}.

Record sm_instance_t := mk_sm_instance {
  smi_index : Z;
  sm : status_manager_t
}.

Record criteria_descr_t := mk_criteria_descr {
  cd_attr_mask : Z;
  cd_type : cfg_param_type;
  cd_parsing_flags : Z
}.

(** ** What the file takes from other modules

    The parsers of rbh_misc.c, the accessors of the configuration parser
    and the tables of the policy module are declared in headers and
    defined in files that are not among the sources.  The functions of
    rbh_cfg.c are stated over this interface; [spec_env] below is an
    instance modelled from the specification. *)
Class rbh_env := {
  (* sizes of [compare_triplet_t.val.str] and [compare_triplet_t.xattr_name] *)
  RBH_PATH_MAX : nat;
  RBH_NAME_MAX : nat;
  (* rbh_misc.h *)
  str2bool : string → Z;
  str2int : string → Z;
  str2size : string → Z;
  str2duration : string → Z;
  str2type : string → obj_type_t;
  str_replace : string → string → string → string;
  (* the double read by [sscanf("%lf%256s")]: number of conversions,
     value, trailing word *)
  double : Type;
  sscanf_lf_s : string → Z * double * string;
  double_ltb0 : double → bool;
  double_eqb0 : double → bool;
  double_fmt2 : double → string;
  (* config_parsing.h *)
  rh_config_GetItemByName : config_item_t → string → config_item_t;
  rh_config_GetItemLine : config_item_t → Z;
  rh_config_GetKeyValue : generic_item → Z * string * string * Z;
  rh_config_GetExtraArgs : generic_item → list string;
  rh_config_GetErrorMsg : string;
  (* policy_rules.h, status_manager.h *)
  str2criteria : string → compare_criteria_t;
  criteria_descr : compare_criteria_t → criteria_descr_t;
  SMI_MASK : Z → Z;
  get_status_str : status_manager_t → string → option string;
  allowed_status_str : status_manager_t → string
}.

(** ** Scalar extractors *)

(** What an extractor reaches through its pointer arguments: the target,
    the sinks [extra_args_tab] and [nb_extra_args] ([None] when the caller
    passes [NULL]) and the buffer [err_msg].  [o_fault] records a write
    past the end of the local array [tmpbuf]: undefined behaviour. *)
Record param_out (A : Type) := mk_param_out {
  target : A;
  extra_args_tab : option (list string);
  nb_extra_args : option Z;
  o_err_msg : string;
  o_fault : bool
}.

Arguments mk_param_out {A}.
Arguments target {A}.
Arguments extra_args_tab {A}.
Arguments nb_extra_args {A}.
Arguments o_err_msg {A}.
Arguments o_fault {A}.

Definition set_target {A : Type} (v : A) (st : param_out A) : param_out A :=
  mk_param_out v (extra_args_tab st) (nb_extra_args st) (o_err_msg st) (o_fault st).

Definition set_o_err_msg {A : Type} (msg : string) (st : param_out A) : param_out A :=
  mk_param_out (target st) (extra_args_tab st) (nb_extra_args st) msg (o_fault st).

(** [if (nb_extra_args) *nb_extra_args = 0;
     if (extra_args_tab) *extra_args_tab = NULL;] *)
Definition reset_extra_args {A : Type} (st : param_out A) : param_out A :=
  mk_param_out (target st)
               (match extra_args_tab st with Some _ => Some [] | None => None end)
               (match nb_extra_args st with Some _ => Some 0 | None => None end)
               (o_err_msg st) (o_fault st).

(** [char tmpbuf[256]] as the target of the conversion [%256s]: [sscanf]
    stores the word it read and a terminator.  A word of 256 characters
    fills the array, and the terminator is written past its end. *)
Definition tmpbuf_store {A : Type} (nb_read : Z) (tmpbuf : string)
    (st : param_out A) : param_out A :=
  mk_param_out (target st) (extra_args_tab st) (nb_extra_args st) (o_err_msg st)
               (o_fault st || ((1 <? nb_read) && tmpbuf_full tmpbuf)).

Section Params.

Context `{rbh_env}.

(** The lines every extractor starts with: the item is looked up by name
    and its key and value are read.  [inl] is a [return]. *)
Definition find_param {A : Type} (block : config_item_t)
    (block_name var_name : string) (flags : Z) (st : param_out A)
    : (Z * param_out A) + (generic_item * string * Z) :=
  match rh_config_GetItemByName block var_name with
  | None =>
      (* return ENOENT in any case *)
      inl (ENOENT,
           if has_flag flags PFLG_MANDATORY then
             set_o_err_msg ("Missing mandatory parameter '" +:+ var_name
                            +:+ "' in block '" +:+ block_name +:+ "', line "
                            +:+ pretty (rh_config_GetItemLine block)) st
           else st)
  | Some curr_item =>
      let '(rc, name, value, extra) := rh_config_GetKeyValue curr_item in
      if negb (rc =? 0) then
        inl (rc,
             set_o_err_msg ("Error retrieving parameter value for '" +:+ block_name
                            +:+ "::" +:+ var_name +:+ "', line "
                            +:+ pretty (rh_config_GetItemLine (Some curr_item))
                            +:+ ":" +:+ String "010" rh_config_GetErrorMsg) st)
      else inr (curr_item, value, extra)
  end.

(** The lines [if (extra) { ... }] every extractor has. *)
Definition take_extra_args {A : Type} (curr_item : generic_item) (extra : Z)
    (block_name var_name : string) (st : param_out A)
    : (Z * param_out A) + param_out A :=
  if negb (extra =? 0) then
    match extra_args_tab st, nb_extra_args st with
    | Some _, Some _ =>
        let args := rh_config_GetExtraArgs curr_item in
        inr (mk_param_out (target st) (Some args)
                          (Some (Z.of_nat (length args))) (o_err_msg st) (o_fault st))
    | _, _ =>
        inl (EINVAL,
             set_o_err_msg ("Unexpected options for parameter '" +:+ block_name
                            +:+ "::" +:+ var_name +:+ "', line "
                            +:+ pretty (rh_config_GetItemLine (Some curr_item))) st)
    end
  else inr st.

Definition param_error {A : Type} (text : string) (curr_item : generic_item)
    (block_name var_name tail : string) (st : param_out A) : Z * param_out A :=
  (EINVAL,
   set_o_err_msg (text +:+ "'" +:+ block_name +:+ "::" +:+ var_name +:+ "', line "
                  +:+ pretty (rh_config_GetItemLine (Some curr_item)) +:+ tail) st).

(** [(flags & PFLG_MAIL)]: there is an arobase, and this arobase has text
    before and after. *)
Definition bad_mail (target : string) : bool :=
  match strchr target "@" with
  | None => true
  | Some arob =>
      (String.length arob =? String.length target)%nat
      || match arob with String _ EmptyString => true | _ => false end
  end.

Definition GetStringParam (block : config_item_t) (block_name var_name : string)
    (flags : Z) (target_size : nat) (st : param_out string) : Z * param_out string :=
  let st := set_o_err_msg "" st in
  let st := reset_extra_args st in
  match find_param block block_name var_name flags st with
  | inl r => r
  | inr (curr_item, value, extra) =>
      let st := set_target (rh_strncpy value target_size) st in
      match take_extra_args curr_item extra block_name var_name st with
      | inl r => r
      | inr st =>
          (* checks *)
          if has_flag flags PFLG_NOT_EMPTY && EMPTY_STRING (target st) then
            param_error "Unexpected empty parameter " curr_item block_name var_name "" st
          else if has_flag flags PFLG_STDIO_ALLOWED
                  && ((strcasecmp (target st) "stdout" =? 0)
                      || (strcasecmp (target st) "stderr" =? 0)
                      || (strcasecmp (target st) "syslog" =? 0)) then
            (* are stdio names allowed ? *)
            (0, st)
          else if has_flag flags PFLG_ABSOLUTE_PATH
                  && negb (IS_ABSOLUTE_PATH (target st)) then
            param_error "Absolute path expected for parameter " curr_item
                        block_name var_name "" st
          else if has_flag flags PFLG_NO_WILDCARDS && WILDCARDS_IN (target st) then
            param_error "Wildcards are not allowed in " curr_item
                        block_name var_name "" st
          else if has_flag flags PFLG_MAIL && bad_mail (target st) then
            param_error "Invalid mail address in " curr_item block_name var_name "" st
          else if has_flag flags PFLG_REMOVE_FINAL_SLASH && FINAL_SLASH (target st) then
            (0, set_target (REMOVE_FINAL_SLASH (target st)) st)
          else (0, st)
      end
  end.

Definition GetBoolParam (block : config_item_t) (block_name var_name : string)
    (flags : Z) (st : param_out bool) : Z * param_out bool :=
  let st := set_o_err_msg "" st in
  match find_param block block_name var_name flags st with
  | inl r => r
  | inr (curr_item, value, extra) =>
      let tmp_bool := str2bool value in
      if tmp_bool =? -1 then
        param_error "Invalid value for " curr_item block_name var_name
          ": boolean expected (0, 1, true, false, yes, no, enabled, disabled)" st
      else
        let st := set_target (negb (tmp_bool =? 0)) st in
        match take_extra_args curr_item extra block_name var_name st with
        | inl r => r
        | inr st => (0, st)
        end
  end.

(** Retrieve a duration parameter and check its format. *)
Definition GetDurationParam (block : config_item_t) (block_name var_name : string)
    (flags : Z) (st : param_out Z) : Z * param_out Z :=
  let st := set_o_err_msg "" st in
  let st := reset_extra_args st in
  match find_param block block_name var_name flags st with
  | inl r => r
  | inr (curr_item, value, extra) =>
      let timeval := str2duration value in
      if timeval =? -1 then
        param_error "Invalid value for " curr_item block_name var_name
                    ": duration expected. Eg: 10s" st
      else if has_flag flags PFLG_POSITIVE && (timeval <? 0) then
        param_error "Positive value expected for " curr_item block_name var_name "." st
      else if has_flag flags PFLG_NOT_NULL && (timeval =? 0) then
        (EINVAL,
         set_o_err_msg ("'" +:+ block_name +:+ "::" +:+ var_name
                        +:+ "' must not be null, line "
                        +:+ pretty (rh_config_GetItemLine (Some curr_item)) +:+ ".") st)
      else
        let st := set_target timeval st in
        match take_extra_args curr_item extra block_name var_name st with
        | inl r => r
        | inr st => (0, st)
        end
  end.

(** Retrieve a size parameter and check its format. *)
Definition GetSizeParam (block : config_item_t) (block_name var_name : string)
    (flags : Z) (st : param_out Z) : Z * param_out Z :=
  let st := set_o_err_msg "" st in
  let st := reset_extra_args st in
  match find_param block block_name var_name flags st with
  | inl r => r
  | inr (curr_item, value, extra) =>
      let sizeval := u64 (str2size value) in
      if sizeval =? u64 (-1) then
        param_error "Invalid value for " curr_item block_name var_name
                    ": size expected. Eg: 10MB" st
      else if has_flag flags PFLG_NOT_NULL && (sizeval =? 0) then
        (EINVAL,
         set_o_err_msg ("'" +:+ block_name +:+ "::" +:+ var_name
                        +:+ "' must not be null, line "
                        +:+ pretty (rh_config_GetItemLine (Some curr_item)) +:+ ".") st)
      else
        let st := set_target sizeval st in
        match take_extra_args curr_item extra block_name var_name st with
        | inl r => r
        | inr st => (0, st)
        end
  end.

(** Retrieve an integer parameter and check its format. *)
Definition GetIntParam (block : config_item_t) (block_name var_name : string)
    (flags : Z) (st : param_out Z) : Z * param_out Z :=
  let st := set_o_err_msg "" st in
  let st := reset_extra_args st in
  match find_param block block_name var_name flags st with
  | inl r => r
  | inr (curr_item, value, extra) =>
      let '(nb_read, intval, tmpbuf) := sscanf_d_s value in
      let st := tmpbuf_store nb_read tmpbuf st in
      if nb_read <? 1 then
        param_error "Invalid value for " curr_item block_name var_name
                    ": integer expected." st
      else if (1 <? nb_read) && negb (EMPTY_STRING tmpbuf) then
        param_error "Invalid value for " curr_item block_name var_name
                    (": extra characters '" +:+ tmpbuf +:+ "' found after integer "
                     +:+ pretty intval +:+ ".") st
      else if has_flag flags PFLG_POSITIVE && (intval <? 0) then
        param_error "Positive value expected for " curr_item block_name var_name "." st
      else if has_flag flags PFLG_NOT_NULL && (intval =? 0) then
        (EINVAL,
         set_o_err_msg ("'" +:+ block_name +:+ "::" +:+ var_name
                        +:+ "' must not be null, line "
                        +:+ pretty (rh_config_GetItemLine (Some curr_item)) +:+ ".") st)
      else
        let st := set_target intval st in
        match take_extra_args curr_item extra block_name var_name st with
        | inl r => r
        | inr st => (0, st)
        end
  end.

(** The suffix check of [GetInt64Param]: the factor of [intval *= ...],
    [None] for the [else] branch. *)
Definition int64_suffix (tmpbuf : string) : option Z :=
  if strcasecmp tmpbuf "k" =? 0 then Some 1000              (* thousand *)
  else if strcasecmp tmpbuf "M" =? 0 then Some 1000000      (* million *)
  else if strcasecmp tmpbuf "G" =? 0 then Some 1000000000   (* billion *)
  else if strcasecmp tmpbuf "T" =? 0 then Some 1000000000000 (* trillion *)
  else None.

(** Retrieve a long integer parameter and check its format.
    (a suffix can be used in config file). *)
Definition GetInt64Param (block : config_item_t) (block_name var_name : string)
    (flags : Z) (st : param_out Z) : Z * param_out Z :=
  let st := set_o_err_msg "" st in
  let st := reset_extra_args st in
  match find_param block block_name var_name flags st with
  | inl r => r
  | inr (curr_item, value, extra) =>
      let '(nb_read, intval, tmpbuf) := sscanf_u64_s value in
      let st := tmpbuf_store nb_read tmpbuf st in
      if nb_read <? 1 then
        param_error "Invalid value for " curr_item block_name var_name
                    ": integer expected." st
      else
        let suffixed :=
          if (1 <? nb_read) && negb (EMPTY_STRING tmpbuf) then
            (* check suffix *)
            match int64_suffix tmpbuf with
            | Some factor => inr (u64 (intval * factor))
            | None =>
                inl (param_error "Invalid suffix for " curr_item block_name var_name
                       (": '" +:+ tmpbuf +:+ "'. "
                        +:+ "Only 'k', 'M', 'G' or 'T' are allowed.") st)
            end
          else inr intval in
        match suffixed with
        | inl r => r
        | inr intval =>
            if has_flag flags PFLG_NOT_NULL && (intval =? 0) then
              (EINVAL,
               set_o_err_msg ("'" +:+ block_name +:+ "::" +:+ var_name
                              +:+ "' must not be null, line "
                              +:+ pretty (rh_config_GetItemLine (Some curr_item))
                              +:+ ".") st)
            else
              let st := set_target intval st in
              match take_extra_args curr_item extra block_name var_name st with
              | inl r => r
              | inr st => (0, st)
              end
        end
  end.

(** Retrieve a float parameter and check its format. *)
Definition GetFloatParam (block : config_item_t) (block_name var_name : string)
    (flags : Z) (st : param_out double) : Z * param_out double :=
  let st := set_o_err_msg "" st in
  let st := reset_extra_args st in
  match find_param block block_name var_name flags st with
  | inl r => r
  | inr (curr_item, value, extra) =>
      let '(nb_read, val, tmpbuf) := sscanf_lf_s value in
      let st := tmpbuf_store nb_read tmpbuf st in
      if nb_read <? 1 then
        param_error "Invalid value for " curr_item block_name var_name
                    ": float expected." st
      else if (1 <? nb_read)
              && ((negb (has_flag flags PFLG_ALLOW_PCT_SIGN)
                   && negb (EMPTY_STRING tmpbuf))           (* no sign allowed *)
                  || (has_flag flags PFLG_ALLOW_PCT_SIGN
                      && negb (String.eqb tmpbuf "%")))      (* '%' allowed *)
      then
        param_error "Invalid value for " curr_item block_name var_name
                    (": extra characters '" +:+ tmpbuf +:+ "' found after float "
                     +:+ double_fmt2 val +:+ ".") st
      else if has_flag flags PFLG_POSITIVE && double_ltb0 val then
        param_error "Positive value expected for " curr_item block_name var_name "." st
      else if has_flag flags PFLG_NOT_NULL && double_eqb0 val then
        (EINVAL,
         set_o_err_msg ("'" +:+ block_name +:+ "::" +:+ var_name
                        +:+ "' must not be null, line "
                        +:+ pretty (rh_config_GetItemLine (Some curr_item)) +:+ ".") st)
      else
        let st := set_target val st in
        match take_extra_args curr_item extra block_name var_name st with
        | inl r => r
        | inr st => (0, st)
        end
  end.

End Params.

(** ** The criteria compiler *)

(** What [criteria2condition] and [interpret_condition] reach through
    their pointer arguments: the triplet [*p_triplet], the running mask
    [*p_attr_mask] and the buffer [err_msg].  [c_fault] records undefined
    behaviour: a [sprintf] that was given no buffer and writes over its
    format literal, a pointer computed from [NULL], a text rewritten past
    the end of the array [val.str]. *)
Record cond_state := mk_cond {
  c_triplet : compare_triplet_t;
  c_attr_mask : Z;
  c_err_msg : string;
  c_fault : bool
}.

Definition with_triplet (f : compare_triplet_t → compare_triplet_t)
    (st : cond_state) : cond_state :=
  mk_cond (f (c_triplet st)) (c_attr_mask st) (c_err_msg st) (c_fault st).

(** [*p_attr_mask |= m]. *)
Definition or_attr_mask (m : Z) (st : cond_state) : cond_state :=
  mk_cond (c_triplet st) (Z.lor (c_attr_mask st) (u64 m)) (c_err_msg st) (c_fault st).

(** [sprintf(err_msg, ...)] with the text already formatted. *)
Definition sprintf_err (msg : string) (st : cond_state) : cond_state :=
  mk_cond (c_triplet st) (c_attr_mask st) msg (c_fault st).

(** Undefined behaviour. *)
Definition cond_fault (st : cond_state) : cond_state :=
  mk_cond (c_triplet st) (c_attr_mask st) (c_err_msg st) true.

(** A text was written into [val.str]; [over] when it went past the end
    of the array. *)
Definition val_str_fault (over : bool) (st : cond_state) : cond_state :=
  mk_cond (c_triplet st) (c_attr_mask st) (c_err_msg st) (c_fault st || over).

(** [sprintf("...", key_value->varname)]: the first argument is the format
    literal itself; the call writes over the literal and [err_msg] is not
    written. *)
Definition sprintf_literal (st : cond_state) : cond_state := cond_fault st.

Definition set_t_flags (v : Z) (t : compare_triplet_t) : compare_triplet_t :=
  mk_triplet v (t_crit t) (t_op t) (t_val t) (t_xattr_name t).
Definition set_t_crit (v : compare_criteria_t) (t : compare_triplet_t) : compare_triplet_t :=
  mk_triplet (t_flags t) v (t_op t) (t_val t) (t_xattr_name t).
Definition set_t_op (v : compare_direction_t) (t : compare_triplet_t) : compare_triplet_t :=
  mk_triplet (t_flags t) (t_crit t) v (t_val t) (t_xattr_name t).
Definition set_t_val (v : compare_value_t) (t : compare_triplet_t) : compare_triplet_t :=
  mk_triplet (t_flags t) (t_crit t) (t_op t) v (t_xattr_name t).
Definition set_t_xattr_name (v : string) (t : compare_triplet_t) : compare_triplet_t :=
  mk_triplet (t_flags t) (t_crit t) (t_op t) (t_val t) v.

(** convert the syntaxic code for comparator to the configuration
    equivalent code *)
Definition syntax2conf_comparator (op : operator_t) : compare_direction_t :=
  match op with
  | OP_EQUAL => COMP_EQUAL
  | OP_DIFF => COMP_DIFF
  | OP_GT => COMP_GRTHAN
  | OP_GT_EQ => COMP_GRTHAN_EQ
  | OP_LT => COMP_LSTHAN
  | OP_LT_EQ => COMP_LSTHAN_EQ
  | OP_CMD => COMP_NONE
  end.

(** convert the syntaxic code for unary boolean operator to the
    configuration equivalent code *)
Definition syntax2conf_boolop (boolop : bool_operator_t) : bool_op_t :=
  match boolop with
  | BOOL_OP_NOT => BOOL_NOT
  | BOOL_OP_AND => BOOL_AND
  | BOOL_OP_OR => BOOL_OR
  | _ => BOOL_ERR
  end.

Definition inspect {A : Type} (a : A) : {b : A | a = b} := exist _ a eq_refl.

Lemma index_ge n s1 s2 m : String.index n s1 s2 = Some m → (n ≤ m)%nat.
Proof.
  revert n m. induction s2 as [|c s2 IH]; intros n m; simpl.
  - destruct n; [|done]. destruct s1; [|done]. intros [= <-]. done.
  - destruct n as [|n].
    + intros _. lia.
    + destruct (String.index n s1 s2) as [k|] eqn:E; [|done].
      intros [= <-]. apply IH in E. lia.
Qed.

Lemma substring_length s : ∀ m k,
  String.length (substring m k s) = Nat.min k (String.length s - m).
Proof.
  induction s as [|c s IH]; intros [|m] [|k]; simpl; try done.
  all: rewrite IH; lia.
Qed.

Lemma index_fits n s1 s2 m :
  (0 < String.length s1)%nat →
  String.index n s1 s2 = Some m → (m + String.length s1 ≤ String.length s2)%nat.
Proof.
  intros Hpos H.
  apply index_correct1 in H.
  apply (f_equal String.length) in H. rewrite substring_length in H. lia.
Qed.

(** The first loop of [process_any_level_condition], from the search
    position [pos]: [true] when it runs to its end, [false] when it
    returns [EINVAL].  Before a match at [curr] there must be a [/] unless
    [curr] is the start of the string, behind it a [/] unless [curr + 2] is
    its end; the search goes on at [curr + 2]. *)
Equations? any_level_loop (regexpr : string) (pos : nat) : bool
  by wf (String.length regexpr - pos)%nat lt :=
  any_level_loop regexpr pos with inspect (strstr_from regexpr pos "**") := {
    | exist _ None _ => true;
    | exist _ (Some curr) Hcurr =>
        if (0 <? curr)%nat
           && negb (bool_decide (String.get (curr - 1) regexpr = Some "/"%char))
        then false
        else if (curr + 2 <=? String.length regexpr - 1)%nat
                && negb (bool_decide (String.get (curr + 2) regexpr = Some "/"%char))
        then false
        else any_level_loop regexpr (curr + 2) }.
Proof.
  unfold strstr_from in Hcurr.
  pose proof (index_ge _ _ _ _ Hcurr) as H1.
  assert (H0 : (0 < String.length "**")%nat) by (simpl; lia).
  pose proof (index_fits _ _ _ _ H0 Hcurr) as H2. simpl in H2.
  clear any_level_loop. lia.
Qed.

Section Criteria.

Context `{rbh_env}.

(** The result is the return code, the content of [regexpr] and
    [err_msg]. *)
Definition process_any_level_condition (regexpr : string) (err_msg : string)
    : Z * string * string :=
  if any_level_loop regexpr 0 then
    (* non escaped '?' must be replaced by '[!/]'
       '**' must be replaced by '*' *)
    let regexpr := str_replace regexpr "?" "[!/]" in
    let regexpr := str_replace regexpr "**" "*" in
    (0, regexpr, err_msg)
  else
    (EINVAL, regexpr,
     "Character before and after '**' must be a '/' in '" +:+ regexpr +:+ "'").

(** [process_any_level_condition] rewrites [regexpr] where it stands, and
    [criteria2condition] gives it the array [val.str], of [RBH_PATH_MAX]
    bytes: [true] when one of the two calls of [str_replace] leaves a text
    that the array cannot hold with its terminator. *)
Definition val_str_overrun (regexpr : string) : bool :=
  any_level_loop regexpr 0
  && ((RBH_PATH_MAX <=? String.length (str_replace regexpr "?" "[!/]"))%nat
      || (RBH_PATH_MAX <=? String.length
            (str_replace (str_replace regexpr "?" "[!/]") "**" "*"))%nat).

(** The macro [CHECK_INT_VALUE]: [Some] is its [return]. *)
Definition CHECK_INT_VALUE (v flg : Z) (key_value : type_key_value)
    (st : cond_state) : option (Z * cond_state) :=
  if has_flag flg PFLG_POSITIVE && (v <? 0) then
    Some (EINVAL,
          sprintf_err ("Positive value expected for " +:+ varname key_value
                       +:+ " criteria") st)
  else if has_flag flg PFLG_NOT_NULL && (v =? 0) then
    Some (EINVAL,
          sprintf_err ("Null value not allowed for " +:+ varname key_value
                       +:+ " criteria") st)
  else None.

(** The end of [criteria2condition]. *)
Definition check_comparable (key_value : type_key_value) (flags : Z)
    (st : cond_state) : Z * cond_state :=
  if negb (has_flag flags PFLG_COMPARABLE)
     && negb (bool_decide (t_op (c_triplet st) = COMP_EQUAL))
     && negb (bool_decide (t_op (c_triplet st) = COMP_DIFF))
     && negb (bool_decide (t_op (c_triplet st) = COMP_LIKE))
     && negb (bool_decide (t_op (c_triplet st) = COMP_UNLIKE))
  then
    (EINVAL,
     sprintf_err ("Illegal comparator for " +:+ varname key_value
                  +:+ " criteria: == or != expected") st)
  else (0, st).

(** In the [PT_STRING] case: in case the string contains regexpr, those
    comparators are changed to LIKE / UNLIKE.  [inl] is a [return]. *)
Definition string_wildcards (key_value : type_key_value) (flags : Z)
    (st : cond_state) : (Z * cond_state) + cond_state :=
  if WILDCARDS_IN (varvalue key_value) then
    if has_flag flags PFLG_NO_WILDCARDS then
      inl (EINVAL,
           sprintf_err ("No wildcard is allowed in " +:+ varname key_value
                        +:+ " criteria") st)
    else
      match t_op (c_triplet st) with
      | COMP_EQUAL => inr (with_triplet (set_t_op COMP_LIKE) st)
      | COMP_DIFF => inr (with_triplet (set_t_op COMP_UNLIKE) st)
      | _ => inr st
      end
  else inr st.

(** In the [PT_STRING] case: the copy of the value into [val.str] and what
    follows it, up to the [break]. *)
Definition string_value (key_value : type_key_value) (flags : Z)
    (smi : option sm_instance_t) (st : cond_state)
    : (Z * cond_state) + cond_state :=
  let str := rh_strncpy (varvalue key_value) RBH_PATH_MAX in
  let st := with_triplet (set_t_val (VAL_STR str)) st in
  if has_flag flags PFLG_XATTR then
    match strchr (varname key_value) "." with
    | Some (String _ p_xattr) =>
        inr (with_triplet (set_t_xattr_name (rh_strncpy p_xattr RBH_NAME_MAX)) st)
    | _ =>
        (* no dot in the name: [p_xattr] is [NULL + 1] *)
        inr (cond_fault st)
    end
  else if has_flag flags PFLG_STATUS then
    match smi with
    | Some smi =>
        match get_status_str (sm smi) str with
        | None =>
            if (0 <? String.length str)%nat then
              (* non empty config parameter with NULL match =>
                 invalid status name *)
              inl (EINVAL,
                   sprintf_err
                     ("Invalid status '" +:+ varvalue key_value +:+ "' for '"
                      +:+ sm_name (sm smi)
                      +:+ "' status manager: allowed values are "
                      +:+ allowed_status_str (sm smi)) st)
            else inr st
        | Some _ => inr st
        end
    | None => inr (cond_fault st)
    end
  else if ANY_LEVEL_MATCH str then
    (* don't care for xattr and status value *)
    if has_flag flags PFLG_ALLOW_ANY_DEPTH then
      (* check the expression and adapt it to fnmatch *)
      let over := val_str_overrun str in
      let '(rc, str, msg) := process_any_level_condition str (c_err_msg st) in
      let st := sprintf_err msg (with_triplet (set_t_val (VAL_STR str)) st) in
      let st := val_str_fault over st in
      if negb (rc =? 0) then inl (rc, st)
      else
        inr (with_triplet
               (fun t => set_t_flags (Z.lor (t_flags t) CMP_FLG_ANY_LEVEL) t) st)
    else inl (EINVAL, sprintf_literal st)
  else inr st.

(** The [PT_STRING] case of [criteria2condition], up to its [break]. *)
Definition criteria2condition_string (key_value : type_key_value)
    (flags : Z) (smi : option sm_instance_t) (st : cond_state)
    : (Z * cond_state) + cond_state :=
  if has_flag flags PFLG_NOT_EMPTY && EMPTY_STRING (varvalue key_value) then
    inl (EINVAL, sprintf_literal st)
  else if has_flag flags PFLG_NO_SLASH && SLASH_IN (varvalue key_value) then
    inl (EINVAL, sprintf_literal st)
  else
    match string_wildcards key_value flags st with
    | inl r => inl r
    | inr st => string_value key_value flags smi st
    end.

(** The head of [criteria2condition]: unexpected status in this context. *)
Definition criteria2condition_status (key_value : type_key_value)
    (attr_mask : Z) (flags : Z) (smi : option sm_instance_t) (st : cond_state)
    : (Z * cond_state) + cond_state :=
  if has_flag flags PFLG_STATUS then
    match smi with
    | None =>
        inl (EINVAL,
             sprintf_err ("'" +:+ varname key_value
                          +:+ "' criteria is not expected in this context") st)
    | Some smi => inr (or_attr_mask (SMI_MASK (smi_index smi)) st)
    end
  else inr (or_attr_mask attr_mask st).

(** The [switch (type)] of [criteria2condition]: [inl] is a [return],
    [inr] a [break]. *)
Definition criteria2condition_value (key_value : type_key_value)
    (type : cfg_param_type) (flags : Z) (smi : option sm_instance_t)
    (st : cond_state) : (Z * cond_state) + cond_state :=
  match type with
  | PT_STRING => criteria2condition_string key_value flags smi st
  | PT_SIZE =>
      (* a size is expected *)
      let size := u64 (str2size (varvalue key_value)) in
      let st := with_triplet (set_t_val (VAL_SIZE size)) st in
      if size =? u64 (-1) then
        inl (EINVAL,
             sprintf_err (varname key_value
                          +:+ " criteria: invalid format for size: '"
                          +:+ varvalue key_value +:+ "'") st)
      else
        match CHECK_INT_VALUE size flags key_value st with
        | Some r => inl r
        | None => inr st
        end
  | PT_INT =>
      let integer := str2int (varvalue key_value) in
      let st := with_triplet (set_t_val (VAL_INTEGER integer)) st in
      if integer =? -1 then
        inl (EINVAL,
             sprintf_err (varname key_value +:+ " criteria: integer expected: '"
                          +:+ varvalue key_value +:+ "'") st)
      else
        match CHECK_INT_VALUE integer flags key_value st with
        | Some r => inl r
        | None => inr st
        end
  | PT_DURATION =>
      let duration := str2duration (varvalue key_value) in
      let st := with_triplet (set_t_val (VAL_DURATION duration)) st in
      if duration =? -1 then
        inl (EINVAL,
             sprintf_err (varname key_value +:+ " criteria: duration expected: '"
                          +:+ varvalue key_value +:+ "'") st)
      else
        match CHECK_INT_VALUE duration flags key_value st with
        | Some r => inl r
        | None => inr st
        end
  | PT_TYPE =>
      let type := str2type (varvalue key_value) in
      let st := with_triplet (set_t_val (VAL_TYPE type)) st in
      match type with
      | TYPE_NONE =>
          inl (EINVAL,
               sprintf_err ("Illegal condition on type: file, directory, "
                            +:+ "symlink, chr, blk, fifo or sock expected.") st)
      | _ => inr st
      end
  | _ =>
      inl (ENOTSUP,
           sprintf_err ("Unsupported criteria type for " +:+ varname key_value) st)
  end.

Definition criteria2condition (key_value : type_key_value) (st : cond_state)
    (crit : compare_criteria_t) (type : cfg_param_type) (attr_mask : Z)
    (flags : Z) (smi : option sm_instance_t) : Z * cond_state :=
  match criteria2condition_status key_value attr_mask flags smi st with
  | inl r => r
  | inr st =>
      let st := with_triplet (set_t_crit crit) st in
      let st := with_triplet (set_t_op (syntax2conf_comparator (op_type key_value))) st in
      let st := or_attr_mask attr_mask st in
      match criteria2condition_value key_value type flags smi st with
      | inl r => r
      | inr st =>
          (* > or < for a non comparable item *)
          check_comparable key_value flags st
      end
  end.

(** interpret and check a condition. *)
Definition interpret_condition (key_value : type_key_value) (st : cond_state)
    (smi : option sm_instance_t) : Z * cond_state :=
  (* check the name for the condition *)
  let crit := str2criteria (varname key_value) in
  match crit with
  | NO_CRITERIA =>
      (EINVAL,
       sprintf_err ("Unknown or unsupported criteria '" +:+ varname key_value +:+ "'") st)
  | _ =>
      let st := with_triplet (set_t_flags 0) st in
      let pcrit := criteria_descr crit in
      criteria2condition key_value st crit (cd_type pcrit) (cd_attr_mask pcrit)
                         (cd_parsing_flags pcrit) smi
  end.

End Criteria.

(** ** File classes (policy_rules.h) and the set-expression builder *)

Record fileset_item_t := mk_fileset {
  fileset_id : string;
  definition : bool_node_t;
  fs_attr_mask : Z
}.

Record policies_t := mk_policies {
  fileset_list : list fileset_item_t
}.

(** The loop [for (i = 0; i < policies->fileset_count; i++)] of
    [build_set_expr]: the first class whose id matches. *)
Fixpoint find_fileset (l : list fileset_item_t) (name : string) : option fileset_item_t :=
  match l with
  | [] => None
  | c :: rest =>
      if strcasecmp (fileset_id c) name =? 0 then Some c
      else find_fileset rest name
  end.

(** Recursive function for building boolean expression, from a
    union/intersection of defined classes. *)
Fixpoint build_set_expr (p_in_set : type_set) (p_out_node : N)
    (policies : policies_t) (w : world) : Z * world :=
  match p_in_set with
  | SetSingleton name =>
      match find_fileset (fileset_list policies) name with
      | Some c =>
          let w := store_node p_out_node (fun _ => definition c) w in
          let w := set_attr_mask (Z.lor (attr_mask w) (fs_attr_mask c)) w in
          let w := store_node p_out_node (set_owner false) w in
          (0, w)
      | None =>
          (ENOENT, set_err_msg ("FileClass '" +:+ name +:+ "' is undefined") w)
      end
  | SetNegation oper set1 =>
      let w := store_node p_out_node (set_node_type NODE_UNARY_EXPR) w in
      match oper with
      | SET_OP_NOT =>
          let w := store_node p_out_node (set_bool_op BOOL_NOT) w in
          let w := store_node p_out_node (set_owner true) w in
          let '(e1, w) := malloc_node w in
          let w := store_node p_out_node (set_expr1 e1) w in
          if (e1 =? NULL)%N
          then (ENOMEM, set_err_msg "Could not allocate memory" w)
          else
            let w := store_node p_out_node (set_expr2 NULL) w in
            let '(rc, w) := build_set_expr set1 e1 policies w in
            if rc =? 0 then (0, w)
            else (rc, free_expr1 p_out_node w)
      | _ =>
          (EINVAL, set_err_msg "Unexpected set operator in unary expression" w)
      end
  | SetBinary oper set1 set2 =>
      let w := store_node p_out_node (set_node_type NODE_BINARY_EXPR) w in
      let op :=
        match oper with
        | SET_OP_UNION => Some BOOL_OR
        | SET_OP_INTER => Some BOOL_AND
        | SET_OP_NOT => None
        end in
      match op with
      | None => (EINVAL, set_err_msg "Unexpected set operator in expression" w)
      | Some bop =>
          let w := store_node p_out_node (set_bool_op bop) w in
          let w := store_node p_out_node (set_owner true) w in
          let '(e1, w) := malloc_node w in
          let w := store_node p_out_node (set_expr1 e1) w in
          if (e1 =? NULL)%N
          then (ENOMEM, set_err_msg "Could not allocate memory" w)
          else
            let '(rc, w) := build_set_expr set1 e1 policies w in
            if rc =? 0 then
              let '(e2, w) := malloc_node w in
              let w := store_node p_out_node (set_expr2 e2) w in
              if (e2 =? NULL)%N
              then (ENOMEM, set_err_msg "Could not allocate memory" w)
              else
                let '(rc, w) := build_set_expr set2 e2 policies w in
                if rc =? 0 then (0, w)
                else (rc, free_expr1 p_out_node (free_expr2 p_out_node w))
            else (rc, free_expr1 p_out_node w)
      end
  end.

(** Recursive function for freeing boolean expression.  The recursion
    follows the pointers of the store, so the model carries fuel; [None]
    is fuel exhausted. *)
Fixpoint FreeBoolExpr (fuel : nat) (p_expr : N) (free_top_node : bool)
    (w : world) : option (Z * world) :=
  match fuel with
  | O => None
  | S fuel =>
      if (p_expr =? NULL)%N then Some (- EFAULT, w)
      else
        match load_node p_expr w with
        | None => Some (0, raise_fault w)
        | Some n =>
            let children :=
              match node_type n with
              | NODE_CONDITION => Some (free (condition n) w)
              | NODE_UNARY_EXPR =>
                  if owner n then
                    match FreeBoolExpr fuel (expr1 n) true w with
                    | Some (_, w1) => Some w1
                    | None => None
                    end
                  else Some w
              | NODE_BINARY_EXPR =>
                  if owner n then
                    match FreeBoolExpr fuel (expr1 n) true w with
                    | Some (_, w1) =>
                        match load_node p_expr w1 with
                        | Some n1 =>
                            match FreeBoolExpr fuel (expr2 n1) true w1 with
                            | Some (_, w2) => Some w2
                            | None => None
                            end
                        | None => Some (raise_fault w1)
                        end
                    | None => None
                    end
                  else Some w
              end in
            match children with
            | Some w' => Some (0, if free_top_node then free p_expr w' else w')
            | None => None
            end
        end
  end.

(** ** The boolean builder *)

Definition set_fault (b : bool) (w : world) : world :=
  mk_world (cells w) (brk w) (limit w) (junk_node w) (junk_triplet w)
           (attr_mask w) (err_msg w) (frees w) b.

(** [free(p_out_node->content_u.condition)]. *)
Definition free_condition (p : N) (w : world) : world :=
  match load_node p w with
  | Some n => free (condition n) w
  | None => raise_fault w
  end.

(** [strcpy(err_msg, ...)] / [sprintf(err_msg, ...)] and [return rc]. *)
Definition fail (rc : Z) (msg : string) (w : world) : Z * world :=
  (rc, set_err_msg msg w).

Section Builders.

Context `{rbh_env}.

(** The call [interpret_condition(key_value, p_triplet, p_attr_mask,
    err_msg, smi)] with the triplet in the store. *)
Definition interpret_condition_at (key_value : type_key_value) (p_triplet : N)
    (smi : option sm_instance_t) (w : world) : Z * world :=
  match load_triplet p_triplet w with
  | Some t =>
      let '(rc, st) :=
        interpret_condition key_value
          (mk_cond t (attr_mask w) (err_msg w) (fault w)) smi in
      (rc,
       mk_world (<[p_triplet := ObjTriplet (c_triplet st)]> (cells w))
                (brk w) (limit w) (junk_node w) (junk_triplet w)
                (c_attr_mask st) (c_err_msg st) (frees w) (c_fault st))
  | None =>
      let '(rc, st) :=
        interpret_condition key_value
          (mk_cond (junk_triplet w) (attr_mask w) (err_msg w) true) smi in
      (rc,
       mk_world (cells w) (brk w) (limit w) (junk_node w) (junk_triplet w)
                (c_attr_mask st) (c_err_msg st) (frees w) true)
  end.

(** Recursive function for building boolean expression. *)
Fixpoint build_bool_expr (p_in_bool_expr : type_bool_expr) (p_out_node : N)
    (smi : option sm_instance_t) (w : world) : Z * world :=
  match p_in_bool_expr with
  | BoolCondition key_value =>
      let w := store_node p_out_node (set_node_type NODE_CONDITION) w in
      let '(c, w) := malloc_triplet w in
      let w := store_node p_out_node (set_condition c) w in
      if (c =? NULL)%N then fail ENOMEM "Could not allocate memory" w
      else
        let '(rc, w) := interpret_condition_at key_value c smi w in
        if rc =? 0 then (0, w)
        else (rc, free_condition p_out_node w)
  | BoolUnary oper expr1 =>
      match oper with
      | BOOL_OP_IDENTITY =>
          (* in case of identity, directly return sub expression *)
          build_bool_expr expr1 p_out_node smi w
      | _ =>
          let w := store_node p_out_node (set_node_type NODE_UNARY_EXPR) w in
          let w := store_node p_out_node (set_bool_op (syntax2conf_boolop oper)) w in
          match syntax2conf_boolop oper with
          | BOOL_ERR => fail EINVAL "Unexpected boolean operator in expression" w
          | _ =>
              let w := store_node p_out_node (set_owner true) w in
              let '(e1, w) := malloc_node w in
              let w := store_node p_out_node (set_expr1 e1) w in
              if (e1 =? NULL)%N then fail ENOMEM "Could not allocate memory" w
              else
                let w := store_node p_out_node (set_expr2 NULL) w in
                let '(rc, w) := build_bool_expr expr1 e1 smi w in
                if rc =? 0 then (0, w)
                else (rc, free_expr1 p_out_node w)
          end
      end
  | BoolBinary oper expr1 expr2 =>
      let w := store_node p_out_node (set_node_type NODE_BINARY_EXPR) w in
      let w := store_node p_out_node (set_bool_op (syntax2conf_boolop oper)) w in
      match syntax2conf_boolop oper with
      | BOOL_ERR => fail EINVAL "Unexpected boolean operator in expression" w
      | _ =>
          let w := store_node p_out_node (set_owner true) w in
          let '(e1, w) := malloc_node w in
          let w := store_node p_out_node (set_expr1 e1) w in
          if (e1 =? NULL)%N then fail ENOMEM "Could not allocate memory" w
          else
            let '(rc, w) := build_bool_expr expr1 e1 smi w in
            if rc =? 0 then
              let '(e2, w) := malloc_node w in
              let w := store_node p_out_node (set_expr2 e2) w in
              if (e2 =? NULL)%N then fail ENOMEM "Could not allocate memory" w
              else
                let '(rc, w) := build_bool_expr expr2 e2 smi w in
                if rc =? 0 then (0, w)
                else (rc, free_expr1 p_out_node (free_expr2 p_out_node w))
            else (rc, free_expr1 p_out_node w)
      end
  | BoolInvalid type =>
      fail EINVAL ("Invalid boolean node type " +:+ pretty type +:+ " while parsing") w
  end.

(** [GetBoolExpr], with the builder it calls as an argument. *)
Definition GetBoolExpr_with
    (builder : type_bool_expr → N → option sm_instance_t → world → Z * world)
    (block : config_item_t) (block_name : string) (p_bool_node : N)
    (smi : option sm_instance_t) (w : world) : Z * world :=
  (* initialize attr mask *)
  let w := set_attr_mask 0 w in
  match block with
  | Some (TYPE_BLOCK _ _ block_content) =>
      match block_content with
      | [] =>
          (* Check the block contains something *)
          fail ENOENT ("'" +:+ block_name +:+ "' block is empty, line "
                       +:+ pretty (rh_config_GetItemLine block)) w
      | subitem :: next =>
          match subitem with
          | TYPE_BOOL_EXPR _ bool_expr =>
              match next with
              | _ :: _ =>
                  fail EINVAL ("A single boolean expression is expected in block '"
                               +:+ block_name +:+ "', line "
                               +:+ pretty (rh_config_GetItemLine (Some subitem))) w
              | [] =>
                  (* now we can analyze the boolean expression *)
                  let '(rc, w) := builder bool_expr p_bool_node smi w in
                  if rc =? 0 then (rc, w)
                  else
                    (rc,
                     set_err_msg (err_msg w +:+ ", line "
                                  +:+ pretty (rh_config_GetItemLine (Some subitem))) w)
              end
          | _ =>
              fail EINVAL ("Boolean expression expected in block '" +:+ block_name
                           +:+ "', line "
                           +:+ pretty (rh_config_GetItemLine (Some subitem))) w
          end
      end
  | _ =>
      (* check it is a block *)
      fail EINVAL ("'" +:+ block_name +:+ "' is expected to be a block") w
  end.

(** Build a policy boolean expression from the given block. *)
Definition GetBoolExpr (block : config_item_t) (block_name : string)
    (p_bool_node : N) (smi : option sm_instance_t) (w : world) : Z * world :=
  GetBoolExpr_with build_bool_expr block block_name p_bool_node smi w.

End Builders.

(** ** The set-expression builder against its specification *)

(** The bool tree as the specification describes it.  A leaf [ClassCopy n]
    is the root node [n] of a file class copied into the tree; below it the
    store holds the class definition itself. *)
Inductive bool_tree :=
| ClassCopy (n : bool_node_t)
| Unary (op : bool_op_t) (own : bool) (t : bool_tree)
| Binary (op : bool_op_t) (own : bool) (t1 t2 : bool_tree).

(** The tree and the attribute mask of a set expression, for a given way
    [lookup] of resolving a class name: a singleton is the shallow copy of
    the class root with [owner = false], or [ENOENT]; [NOT] is
    [UNARY(NOT, _)], [UNION] is [BINARY(OR, _, _)], [INTER] is
    [BINARY(AND, _, _)], each with [owner = true]; the mask collects the
    masks of the classes. *)
Fixpoint set_expr_tree_with (lookup : string → option fileset_item_t)
    (s : type_set) : Z + bool_tree :=
  match s with
  | SetSingleton name =>
      match lookup name with
      | Some c => inr (ClassCopy (set_owner false (definition c)))
      | None => inl ENOENT
      end
  | SetNegation SET_OP_NOT s1 =>
      match set_expr_tree_with lookup s1 with
      | inr t => inr (Unary BOOL_NOT true t)
      | inl e => inl e
      end
  | SetNegation _ _ => inl EINVAL
  | SetBinary SET_OP_NOT _ _ => inl EINVAL
  | SetBinary oper s1 s2 =>
      match set_expr_tree_with lookup s1 with
      | inr t1 =>
          match set_expr_tree_with lookup s2 with
          | inr t2 =>
              inr (Binary (match oper with SET_OP_UNION => BOOL_OR | _ => BOOL_AND end)
                          true t1 t2)
          | inl e => inl e
          end
      | inl e => inl e
      end
  end.

Fixpoint set_expr_mask_with (lookup : string → option fileset_item_t)
    (s : type_set) (m : Z) : Z :=
  match s with
  | SetSingleton name =>
      match lookup name with
      | Some c => Z.lor m (fs_attr_mask c)
      | None => m
      end
  | SetNegation _ s1 => set_expr_mask_with lookup s1 m
  | SetBinary _ s1 s2 =>
      set_expr_mask_with lookup s2 (set_expr_mask_with lookup s1 m)
  end.

(** Lower-case form of a string, and the strings C can hold: no NUL. *)
Fixpoint string_lower (s : string) : string :=
  match s with
  | EmptyString => EmptyString
  | String c r => String (tolower c) (string_lower r)
  end.

Fixpoint cstring (s : string) : Prop :=
  match s with
  | EmptyString => True
  | String c r => c ≠ Ascii.zero ∧ cstring r
  end.

(** The specification's lookup: the first class of the table whose id is
    the name up to letter case. *)
Definition class_of (policies : policies_t) (name : string) : option fileset_item_t :=
  List.find (λ c, String.eqb (string_lower (fileset_id c)) (string_lower name))
            (fileset_list policies).

(** What the specification asks of the builder. *)
Definition set_expr_tree (policies : policies_t) (s : type_set) : Z + bool_tree :=
  set_expr_tree_with (class_of policies) s.

Definition set_expr_mask (policies : policies_t) (s : type_set) (m : Z) : Z :=
  set_expr_mask_with (class_of policies) s m.

(** The class names an expression mentions. *)
Fixpoint set_names (s : type_set) : list string :=
  match s with
  | SetSingleton name => [name]
  | SetNegation _ s1 => set_names s1
  | SetBinary _ s1 s2 => set_names s1 ++ set_names s2
  end.

(** Number of nodes the builder allocates for an expression (the root is
    the caller's), and number of nodes of the resulting tree. *)
Fixpoint set_allocs (s : type_set) : N :=
  match s with
  | SetSingleton _ => 0
  | SetNegation _ s1 => 1 + set_allocs s1
  | SetBinary _ s1 s2 => 2 + set_allocs s1 + set_allocs s2
  end%N.


(** [tree_at cs p t fp]: in the store [cs] the node at [p] and the nodes
    below it spell the tree [t]; [fp] lists their addresses, children
    first, and no address occurs twice. *)
Inductive tree_at (cs : gmap N object) : N → bool_tree → list N → Prop :=
| tree_at_copy p n :
    cs !! p = Some (ObjNode n) →
    tree_at cs p (ClassCopy n) [p]
| tree_at_unary p n op own t fp :
    cs !! p = Some (ObjNode n) →
    node_type n = NODE_UNARY_EXPR →
    bool_op n = op → owner n = own → expr2 n = NULL →
    tree_at cs (expr1 n) t fp →
    p ∉ fp →
    tree_at cs p (Unary op own t) (fp ++ [p])
| tree_at_binary p n op own t1 t2 fp1 fp2 :
    cs !! p = Some (ObjNode n) →
    node_type n = NODE_BINARY_EXPR →
    bool_op n = op → owner n = own →
    tree_at cs (expr1 n) t1 fp1 →
    tree_at cs (expr2 n) t2 fp2 →
    (∀ a, a ∈ fp1 → a ∉ fp2) →
    p ∉ fp1 → p ∉ fp2 →
    tree_at cs p (Binary op own t1 t2) (fp1 ++ fp2 ++ [p]).


(** The allocator's invariant: nothing lives at [NULL] or from [brk] on. *)
Definition wf_world (w : world) : Prop :=
  cells w !! NULL = None ∧ (0 < brk w)%N ∧
  ∀ a, (brk w ≤ a)%N → cells w !! a = None.

(** [free] applied to a list of addresses, in order. *)
Definition free_all (fp : list N) (w : world) : world :=
  foldl (λ w a, free a w) w fp.


(** ** The any-level token *)

(** The token [**] stands at index [i] of [s]. *)
Definition double_star_at (s : string) (i : nat) : Prop := substring i 2 s = "**".

(** The token at [i] has a [/] on each side that is not an end of the
    string. *)
Definition flanked (s : string) (i : nat) : Prop :=
  (i = 0%nat ∨ String.get (i - 1) s = Some "/"%char) ∧
  ((i + 2)%nat = String.length s ∨ String.get (i + 2) s = Some "/"%char).

(** ** The criteria compiler *)

(** The operator of a string condition after the wildcard rewriting. *)
Definition rewritten_op (op : operator_t) (value : string) : compare_direction_t :=
  if WILDCARDS_IN value then
    match op with
    | OP_EQUAL => COMP_LIKE
    | OP_DIFF => COMP_UNLIKE
    | _ => syntax2conf_comparator op
    end
  else syntax2conf_comparator op.

(** The state in which [criteria2condition] enters its [switch]. *)
Definition entering (kv : type_key_value) (crit : compare_criteria_t)
    (attr_mask : Z) (st : cond_state) : cond_state :=
  or_attr_mask attr_mask
    (with_triplet (set_t_op (syntax2conf_comparator (op_type kv)))
       (with_triplet (set_t_crit crit) st)).

(** Inclusion of attribute masks, as bit sets. *)
Definition mask_le (m m' : Z) : Prop :=
  ∀ i, Z.testbit m i = true → Z.testbit m' i = true.

(** ** Values of [GetInt64Param] as the specification describes them *)









(** ** Invariants of the builders *)

(** What a builder leaves as it is, its stores to nodes apart. *)
Definition same_env (w w' : world) : Prop :=
  limit w' = limit w ∧ junk_node w' = junk_node w ∧
  junk_triplet w' = junk_triplet w ∧ err_msg w' = err_msg w ∧
  frees w' = frees w ∧ fault w' = fault w.

(** A world reached from [w] by stores to the node [p] alone. *)
Definition stored (p : N) (n : bool_node_t) (w w' : world) : Prop :=
  cells w' = <[p := ObjNode n]> (cells w) ∧
  brk w' = brk w ∧ limit w' = limit w ∧ junk_node w' = junk_node w ∧
  junk_triplet w' = junk_triplet w ∧ attr_mask w' = attr_mask w ∧
  err_msg w' = err_msg w ∧ frees w' = frees w ∧ fault w' = fault w.

(** The same after one allocation in between: the fresh cell is [brk w]. *)
Definition stored_alloc (p : N) (n : bool_node_t) (w w' : world) : Prop :=
  cells w' = <[p := ObjNode n]> (<[brk w := ObjNode (junk_node w)]> (cells w)) ∧
  brk w' = (brk w + 1)%N ∧ limit w' = limit w ∧ junk_node w' = junk_node w ∧
  junk_triplet w' = junk_triplet w ∧ attr_mask w' = attr_mask w ∧
  err_msg w' = err_msg w ∧ frees w' = frees w ∧ fault w' = fault w.

(** A successful run of the set-expression builder from [w] to [w']: the
    allocator has handed out [set_allocs s] cells, the cells below the old
    [brk] other than [out] are untouched, and the store spells at [out] the
    tree of the loop's lookup, over [out] and the fresh cells. *)
Definition built (pol : policies_t) (s : type_set) (out : N) (w w' : world) : Prop :=
  wf_world w' ∧ brk w' = (brk w + set_allocs s)%N ∧
  same_env w w' ∧
  attr_mask w' = set_expr_mask_with (find_fileset (fileset_list pol)) s (attr_mask w) ∧
  (∀ a, a ≠ out → (a < brk w)%N → cells w' !! a = cells w !! a) ∧
  ∃ t fp, set_expr_tree_with (find_fileset (fileset_list pol)) s = inr t ∧ tree_at (cells w') out t fp ∧
          (∀ a, a ∈ fp ↔ a = out ∨ (brk w ≤ a < brk w')%N).

(** ** Scenario 5: [(hot union cold) inter not cold] *)

Definition scenario5 : type_set :=
  SetBinary SET_OP_INTER
    (SetBinary SET_OP_UNION (SetSingleton "hot") (SetSingleton "cold"))
    (SetNegation SET_OP_NOT (SetSingleton "cold")).

Definition size_gt_10 : compare_triplet_t :=
  mk_triplet 0 CRITERIA_SIZE COMP_GRTHAN (VAL_SIZE 10) "".

Definition leaf (c : N) : bool_node_t :=
  mk_bool_node NODE_CONDITION c BOOL_ERR NULL NULL false.

(** [hot] is [NOT c1], [cold] is [c2 AND c3]: interior nodes. *)
Definition hot : fileset_item_t :=
  mk_fileset "hot" (mk_bool_node NODE_UNARY_EXPR NULL BOOL_NOT 1 NULL true) 4.
Definition cold : fileset_item_t :=
  mk_fileset "cold" (mk_bool_node NODE_BINARY_EXPR NULL BOOL_AND 3 5 true) 8.
Definition policies5 : policies_t := mk_policies [hot; cold].

(** The store before the build: the class definitions at 1..6, the
    caller's root node at 7. *)
Definition cells5 : gmap N object :=
  <[1%N := ObjNode (leaf 2)]> (<[2%N := ObjTriplet size_gt_10]>
  (<[3%N := ObjNode (leaf 4)]> (<[4%N := ObjTriplet size_gt_10]>
  (<[5%N := ObjNode (leaf 6)]> (<[6%N := ObjTriplet size_gt_10]>
  (<[7%N := ObjNode (leaf NULL)]> ∅)))))).

Definition world5 : world :=
  mk_world cells5 8 64 (leaf NULL) size_gt_10 0 "" [] false.

(** The same with [cold] defined by a single condition, its triplet at 4. *)
Definition cold_leaf : fileset_item_t := mk_fileset "cold" (leaf 4) 8.
Definition policies5_leaf : policies_t := mk_policies [hot; cold_leaf].

(** ** An instance of the interface, modelled from the specification *)

(** Modelled from the spec: [str2bool] of rbh_misc.c is not among the
    sources.  Case-insensitive: true/yes/enabled/1 is true,
    false/no/disabled/0 is false, anything else is the error [-1]. *)
Definition spec_str2bool (s : string) : Z :=
  if (strcasecmp s "true" =? 0) || (strcasecmp s "yes" =? 0)
     || (strcasecmp s "enabled" =? 0) || (strcasecmp s "1" =? 0) then 1
  else if (strcasecmp s "false" =? 0) || (strcasecmp s "no" =? 0)
          || (strcasecmp s "disabled" =? 0) || (strcasecmp s "0" =? 0) then 0
  else -1.

(** Modelled from the spec: [str2int] of rbh_misc.c is not among the
    sources.  Leading optional sign, digits; rejected if any
    non-whitespace remains; the error value is [-1]. *)
Definition spec_str2int (s : string) : Z :=
  match sscanf_d_s s with
  | (1, v, _) => v
  | _ => -1
  end.

(** Modelled from the spec: [str2size] of rbh_misc.c is not among the
    sources.  Digits and a unit, binary ([x 1024]) for [KB] and friends;
    the error value is [(unsigned long long) -1]. *)
Definition spec_size_unit (unit : string) : option Z :=
  if (strcasecmp unit "" =? 0) || (strcasecmp unit "B" =? 0) then Some 1
  else if (strcasecmp unit "K" =? 0) || (strcasecmp unit "KB" =? 0)
          || (strcasecmp unit "KiB" =? 0) then Some (2 ^ 10)
  else if (strcasecmp unit "M" =? 0) || (strcasecmp unit "MB" =? 0)
          || (strcasecmp unit "MiB" =? 0) then Some (2 ^ 20)
  else if (strcasecmp unit "G" =? 0) || (strcasecmp unit "GB" =? 0)
          || (strcasecmp unit "GiB" =? 0) then Some (2 ^ 30)
  else if (strcasecmp unit "T" =? 0) || (strcasecmp unit "TB" =? 0)
          || (strcasecmp unit "TiB" =? 0) then Some (2 ^ 40)
  else if (strcasecmp unit "P" =? 0) || (strcasecmp unit "PB" =? 0)
          || (strcasecmp unit "PiB" =? 0) then Some (2 ^ 50)
  else None.

Definition spec_str2size (s : string) : Z :=
  match scan_digits s 0 0 with
  | (_, O, _) => u64 (-1)
  | (v, _, unit) =>
      match spec_size_unit unit with
      | Some k => u64 (v * k)
      | None => u64 (-1)
      end
  end.

(** Modelled from the spec: [str2duration] of rbh_misc.c is not among the
    sources.  A concatenation of [<n><unit>] fragments, units
    [s, m, h, d, w, y]; a bare integer means seconds; [-1] on error. *)
Definition spec_duration_unit (c : ascii) : option Z :=
  if Ascii.eqb c "s" then Some 1
  else if Ascii.eqb c "m" then Some 60
  else if Ascii.eqb c "h" then Some 3600
  else if Ascii.eqb c "d" then Some 86400
  else if Ascii.eqb c "w" then Some 604800
  else if Ascii.eqb c "y" then Some 31536000
  else None.

Fixpoint spec_duration_fragments (fuel : nat) (s : string) (acc : Z) : Z :=
  match fuel with
  | O => -1
  | S fuel =>
      match scan_digits s 0 0 with
      | (_, O, _) => -1
      | (v, _, EmptyString) => acc + v
      | (v, _, String c EmptyString) =>
          match spec_duration_unit c with
          | Some k => acc + v * k
          | None => -1
          end
      | (v, _, String c rest) =>
          match spec_duration_unit c with
          | Some k => spec_duration_fragments fuel rest (acc + v * k)
          | None => -1
          end
      end
  end.

Definition spec_str2duration (s : string) : Z :=
  spec_duration_fragments (S (String.length s)) s 0.

(** Modelled from the spec: [str2type] of rbh_misc.c is not among the
    sources.  One of file, directory, symlink, chr, blk, fifo, sock; else
    [TYPE_NONE]. *)
Definition spec_str2type (s : string) : obj_type_t :=
  if strcasecmp s "file" =? 0 then TYPE_FILE
  else if strcasecmp s "directory" =? 0 then TYPE_DIR
  else if strcasecmp s "symlink" =? 0 then TYPE_LINK
  else if strcasecmp s "chr" =? 0 then TYPE_CHR
  else if strcasecmp s "blk" =? 0 then TYPE_BLK
  else if strcasecmp s "fifo" =? 0 then TYPE_FIFO
  else if strcasecmp s "sock" =? 0 then TYPE_SOCK
  else TYPE_NONE.

(** Modelled from the spec: [str_replace] of rbh_misc.c is not among the
    sources.  From left to right, every occurrence of [pat] that is not
    escaped by a backslash is replaced by [rep]; a backslash and the
    character it escapes are kept. *)
Fixpoint spec_str_replace_fuel (fuel : nat) (s pat rep : string) : string :=
  match fuel with
  | O => s
  | S fuel =>
      match s with
      | EmptyString => EmptyString
      | String "\" (String c rest) =>
          String "\" (String c (spec_str_replace_fuel fuel rest pat rep))
      | String c rest =>
          if (0 <? String.length pat)%nat && String.prefix pat s then
            rep +:+ spec_str_replace_fuel fuel
                      (substring (String.length pat) (String.length s) s) pat rep
          else String c (spec_str_replace_fuel fuel rest pat rep)
      end
  end.

Definition spec_str_replace (s pat rep : string) : string :=
  spec_str_replace_fuel (S (String.length s)) s pat rep.

(** Modelled from the spec: the decimal numbers [sscanf("%lf")] reads, kept
    exactly as a mantissa and a number of decimals. *)
Definition spec_double : Type := Z * nat.

Definition spec_sscanf_lf_s (s : string) : Z * spec_double * string :=
  match scan_number s with
  | None => (0, (0, O), EmptyString)
  | Some (neg, v, rest) =>
      let '(m, d, rest) :=
        match rest with
        | String "." frac =>
            let '(m, d, rest) := scan_digits frac v 0 in (m, d, rest)
        | _ => (v, O, rest)
        end in
      let '(n, _, word) := scan_suffix 0 rest in
      (n, (if neg then - m else m, d), word)
  end.

(** Modelled from the spec: the accessors of the configuration parser are
    not among the sources.  An item is looked up by name, letter case
    apart; every item carries its source line; a key/value item gives its
    name, its value and whether extra words follow. *)
Definition spec_GetItemByName (block : config_item_t) (name : string) : config_item_t :=
  match block with
  | Some (TYPE_BLOCK _ _ block_content) =>
      List.find (λ item,
                 match item with
                 | TYPE_AFFECT _ kv => strcasecmp (varname kv) name =? 0
                 | _ => false
                 end) block_content
  | _ => None
  end.

Definition spec_GetItemLine (item : config_item_t) : Z :=
  match item with
  | Some (TYPE_BLOCK line _ _) => line
  | Some (TYPE_AFFECT line _) => line
  | Some (TYPE_BOOL_EXPR line _) => line
  | Some (TYPE_SET line _) => line
  | None => 0
  end.

Definition spec_GetKeyValue (item : generic_item) : Z * string * string * Z :=
  match item with
  | TYPE_AFFECT _ kv => (0, varname kv, varvalue kv, arg_flag kv)
  | _ => (EINVAL, EmptyString, EmptyString, 0)
  end.

Definition spec_GetExtraArgs (item : generic_item) : list string :=
  match item with
  | TYPE_AFFECT _ kv => arg_list kv
  | _ => []
  end.

(** Modelled from the spec: the criteria table of the policy module is not
    among the sources.  The names are those of the specification; a
    string criterion on a path allows the any-level token; [type] is not
    comparable; sizes, counts and times are. *)
Definition spec_str2criteria (name : string) : compare_criteria_t :=
  if strcasecmp name "tree" =? 0 then CRITERIA_TREE
  else if strcasecmp name "path" =? 0 then CRITERIA_PATH
  else if strcasecmp name "filename" =? 0 then CRITERIA_FILENAME
  else if strcasecmp name "type" =? 0 then CRITERIA_TYPE
  else if strcasecmp name "owner" =? 0 then CRITERIA_OWNER
  else if strcasecmp name "group" =? 0 then CRITERIA_GROUP
  else if strcasecmp name "size" =? 0 then CRITERIA_SIZE
  else if strcasecmp name "depth" =? 0 then CRITERIA_DEPTH
  else if strcasecmp name "last_access" =? 0 then CRITERIA_LAST_ACCESS
  else if strcasecmp name "last_mod" =? 0 then CRITERIA_LAST_MOD
  else if strcasecmp name "status" =? 0 then CRITERIA_STATUS
  else if strcasecmp (substring 0 6 name) "xattr." =? 0 then CRITERIA_XATTR
  else NO_CRITERIA.

Definition spec_criteria_descr (crit : compare_criteria_t) : criteria_descr_t :=
  match crit with
  | CRITERIA_TREE | CRITERIA_PATH =>
      mk_criteria_descr 1 PT_STRING (Z.lor PFLG_ALLOW_ANY_DEPTH PFLG_NOT_EMPTY)
  | CRITERIA_FILENAME =>
      mk_criteria_descr 2 PT_STRING (Z.lor PFLG_NOT_EMPTY PFLG_NO_SLASH)
  | CRITERIA_TYPE => mk_criteria_descr 4 PT_TYPE 0
  | CRITERIA_OWNER => mk_criteria_descr 8 PT_STRING PFLG_NOT_EMPTY
  | CRITERIA_GROUP => mk_criteria_descr 16 PT_STRING PFLG_NOT_EMPTY
  | CRITERIA_POOL => mk_criteria_descr 32 PT_STRING PFLG_NOT_EMPTY
  | CRITERIA_SIZE => mk_criteria_descr 64 PT_SIZE PFLG_COMPARABLE
  | CRITERIA_DEPTH => mk_criteria_descr 128 PT_INT (Z.lor PFLG_COMPARABLE PFLG_POSITIVE)
  | CRITERIA_DIRCOUNT =>
      mk_criteria_descr 256 PT_INT (Z.lor PFLG_COMPARABLE PFLG_POSITIVE)
  | CRITERIA_OST => mk_criteria_descr 512 PT_INT (Z.lor PFLG_COMPARABLE PFLG_POSITIVE)
  | CRITERIA_LAST_ACCESS =>
      mk_criteria_descr 1024 PT_DURATION (Z.lor PFLG_COMPARABLE PFLG_POSITIVE)
  | CRITERIA_LAST_MOD =>
      mk_criteria_descr 2048 PT_DURATION (Z.lor PFLG_COMPARABLE PFLG_POSITIVE)
  | CRITERIA_LAST_ARCHIVE | CRITERIA_LAST_RESTORE | CRITERIA_CREATION =>
      mk_criteria_descr 4096 PT_DURATION (Z.lor PFLG_COMPARABLE PFLG_POSITIVE)
  | CRITERIA_XATTR => mk_criteria_descr 1 PT_STRING PFLG_XATTR
  | CRITERIA_STATUS => mk_criteria_descr 0 PT_STRING PFLG_STATUS
  | NO_CRITERIA => mk_criteria_descr 0 PT_TYPE 0
  end.

(** Modelled from the spec: a status manager owns a named, bounded set of
    states; its attribute bit is derived from its index. *)
Definition spec_get_status_str (sm : status_manager_t) (str : string) : option string :=
  List.find (λ s, strcasecmp s str =? 0) (status_enum sm).

Definition spec_allowed_status_str (sm : status_manager_t) : string :=
  String.concat "," (status_enum sm).

#[global] Instance spec_env : rbh_env := {|
  RBH_PATH_MAX := 4096;
  RBH_NAME_MAX := 256;
  str2bool := spec_str2bool;
  str2int := spec_str2int;
  str2size := spec_str2size;
  str2duration := spec_str2duration;
  str2type := spec_str2type;
  str_replace := spec_str_replace;
  double := spec_double;
  sscanf_lf_s := spec_sscanf_lf_s;
  double_ltb0 := λ d, fst d <? 0;
  double_eqb0 := λ d, fst d =? 0;
  double_fmt2 := λ d, pretty (fst d) +:+ "e-" +:+ pretty (Z.of_nat (snd d));
  rh_config_GetItemByName := spec_GetItemByName;
  rh_config_GetItemLine := spec_GetItemLine;
  rh_config_GetKeyValue := spec_GetKeyValue;
  rh_config_GetExtraArgs := spec_GetExtraArgs;
  rh_config_GetErrorMsg := "";
  str2criteria := spec_str2criteria;
  criteria_descr := spec_criteria_descr;
  SMI_MASK := λ i, Z.shiftl 1 (32 + i);
  get_status_str := spec_get_status_str;
  allowed_status_str := spec_allowed_status_str
|}.

(** ** Inputs of the examples *)

(** A condition [name op value] of a policy rule. *)
Definition cond_of (name value : string) (op : operator_t) : type_key_value :=
  mk_key_value name value op 0 [].

(** The outputs of the criteria compiler before a call. *)
Definition cond0 : cond_state :=
  mk_cond (mk_triplet 0 NO_CRITERIA COMP_NONE VAL_UNDEF "") 0 "" false.

(** The block [log { }] at line 1. *)
Definition block_log : config_item_t := Some (TYPE_BLOCK 1 "log" []).

(** The block [db { max_size = value; }]. *)
Definition block_db (value : string) : config_item_t :=
  Some (TYPE_BLOCK 1 "db" [TYPE_AFFECT 2 (cond_of "max_size" value OP_EQUAL)]).

(** A target holding [a], with no place for extra arguments. *)
Definition no_extra {A : Type} (a : A) : param_out A := mk_param_out a None None "" false.

(** The block [condition { depth == -1 }], its expression at line 2. *)
Definition block_depth : config_item_t :=
  Some (TYPE_BLOCK 1 "condition"
          [TYPE_BOOL_EXPR 2 (BoolCondition (cond_of "depth" "-1" OP_EQUAL))]).

(** ** Reading a table of scalar parameters *)

(** A descriptor of [cfg_param_t]: [ptr] is the address of the target
    and [ptrsize] its size. *)
Record cfg_param_t := mk_cfg_param {
  p_name : string;
  p_type : cfg_param_type;
  p_flags : Z;
  p_ptr : N;
  p_ptrsize : nat
}.

(** [cfg_is_err(_rc, _flgs)]. *)
Definition cfg_is_err (rc flgs : Z) : bool :=
  (negb (rc =? 0) && negb (rc =? ENOENT))
  || ((rc =? ENOENT) && has_flag flgs PFLG_MANDATORY).

Section ScalarParams.

Context `{rbh_env}.

(** The objects the descriptors point to, by the type the extractor
    writes them with. *)
Inductive cfg_value :=
| CfgString (s : string)
| CfgBool (b : bool)
| CfgDuration (t : Z)
| CfgSize (n : Z)
| CfgInt (i : Z)
| CfgInt64 (n : Z)
| CfgFloat (d : double).

(** One turn of the loop of [read_scalar_params], up to the test of
    [cfg_is_err]: the extractor of the type is called on the object at
    [ptr], with [NULL] for the two sinks of extra arguments.  [None] when
    the turn has no defined behaviour: [ptr] is not the address of an
    object of the descriptor's type, or the extractor wrote past its
    array [tmpbuf]. *)
Definition read_param (block : config_item_t) (block_name : string)
    (p : cfg_param_t) (mem : gmap N cfg_value) (msgout : string)
    : option (Z * gmap N cfg_value * string) :=
  match p_type p, mem !! p_ptr p with
  | PT_STRING, Some (CfgString old) =>
      let '(rc, st) := GetStringParam block block_name (p_name p) (p_flags p)
                         (p_ptrsize p) (mk_param_out old None None msgout false) in
      if o_fault st then None
      else Some (rc, <[p_ptr p := CfgString (target st)]> mem, o_err_msg st)
  | PT_BOOL, Some (CfgBool old) =>
      let '(rc, st) := GetBoolParam block block_name (p_name p) (p_flags p)
                         (mk_param_out old None None msgout false) in
      if o_fault st then None
      else Some (rc, <[p_ptr p := CfgBool (target st)]> mem, o_err_msg st)
  | PT_DURATION, Some (CfgDuration old) =>
      let '(rc, st) := GetDurationParam block block_name (p_name p) (p_flags p)
                         (mk_param_out old None None msgout false) in
      if o_fault st then None
      else Some (rc, <[p_ptr p := CfgDuration (target st)]> mem, o_err_msg st)
  | PT_SIZE, Some (CfgSize old) =>
      let '(rc, st) := GetSizeParam block block_name (p_name p) (p_flags p)
                         (mk_param_out old None None msgout false) in
      if o_fault st then None
      else Some (rc, <[p_ptr p := CfgSize (target st)]> mem, o_err_msg st)
  | PT_INT, Some (CfgInt old) =>
      let '(rc, st) := GetIntParam block block_name (p_name p) (p_flags p)
                         (mk_param_out old None None msgout false) in
      if o_fault st then None
      else Some (rc, <[p_ptr p := CfgInt (target st)]> mem, o_err_msg st)
  | PT_INT64, Some (CfgInt64 old) =>
      let '(rc, st) := GetInt64Param block block_name (p_name p) (p_flags p)
                         (mk_param_out old None None msgout false) in
      if o_fault st then None
      else Some (rc, <[p_ptr p := CfgInt64 (target st)]> mem, o_err_msg st)
  | PT_FLOAT, Some (CfgFloat old) =>
      let '(rc, st) := GetFloatParam block block_name (p_name p) (p_flags p)
                         (mk_param_out old None None msgout false) in
      if o_fault st then None
      else Some (rc, <[p_ptr p := CfgFloat (target st)]> mem, o_err_msg st)
  | PT_TYPE, _ =>
      Some (EINVAL, mem, "Unexpected type for " +:+ p_name p +:+ " parameter (type)")
  | _, _ => None
  end.

(** [read_scalar_params]: read all expected parameters.  The table ends
    with the descriptor whose name is [NULL], which the list leaves out. *)
Fixpoint read_scalar_params (block : config_item_t) (block_name : string)
    (params : list cfg_param_t) (mem : gmap N cfg_value) (msgout : string)
    : option (Z * gmap N cfg_value * string) :=
  match params with
  | [] => Some (0, mem, msgout)
  | p :: rest =>
      match read_param block block_name p mem msgout with
      | Some (rc, mem, msgout) =>
          if cfg_is_err rc (p_flags p) then Some (rc, mem, msgout)
          else read_scalar_params block block_name rest mem msgout
      | None => None
      end
  end.

End ScalarParams.

(** ** Runs of an extractor compared *)

(** Two runs of an extractor on targets holding [old1] and [old2]: the
    code and the message are the same, the target is either left as it
    was or written with the same value, and both runs are defined or
    none is. *)
Definition same_run {A : Type} (old1 old2 : A) (r1 r2 : Z * param_out A) : Prop :=
  fst r1 = fst r2 ∧ o_err_msg (snd r1) = o_err_msg (snd r2) ∧
  (target (snd r1) = old1 ∧ target (snd r2) = old2
   ∨ target (snd r1) = target (snd r2)) ∧
  o_fault (snd r1) = o_fault (snd r2).

(** The values that make an extractor write past [tmpbuf]: the parameter
    is in the block, its key and value can be read, and [scan], the call
    of [sscanf] of the extractor, finds behind the number a word of 256
    characters, which is what [%256s] reads of a longer one. *)
Definition overruns_tmpbuf `{rbh_env} {A : Type} (scan : string → Z * A * string)
    (block : config_item_t) (var_name : string) : bool :=
  match rh_config_GetItemByName block var_name with
  | Some item =>
      let '(rc, _, value, _) := rh_config_GetKeyValue item in
      (rc =? 0) && (1 <? fst (fst (scan value))) && tmpbuf_full (snd (scan value))
  | None => false
  end.

(** The message of an extractor that finds options it has no sink for. *)
Definition unexpected_options `{rbh_env} (block_name var_name : string)
    (item : generic_item) : string :=
  "Unexpected options for parameter '" +:+ block_name +:+ "::" +:+ var_name
  +:+ "', line " +:+ pretty (rh_config_GetItemLine (Some item)).

(** The names [GetStringParam] lets through under [PFLG_STDIO_ALLOWED]. *)
Definition stdio_name (s : string) : bool :=
  (strcasecmp s "stdout" =? 0) || (strcasecmp s "stderr" =? 0)
  || (strcasecmp s "syslog" =? 0).

(** The parameter [var_name] is in the block, its key and value can be
    read, and the value satisfies [P]. *)
Definition value_of `{rbh_env} (block : config_item_t) (var_name : string)
    (P : string → Prop) : Prop :=
  ∃ item name value extra,
    rh_config_GetItemByName block var_name = Some item ∧
    rh_config_GetKeyValue item = (0, name, value, extra) ∧ P value.

(** What a run reports: the code is zero only with an empty message, and
    the message is empty only with the code zero or for an absent
    parameter that is not mandatory. *)
Definition reports `{rbh_env} {A : Type} (block : config_item_t) (var_name : string)
    (flags : Z) (r : Z * param_out A) : Prop :=
  (fst r = 0 → o_err_msg (snd r) = "") ∧
  (o_err_msg (snd r) = "" →
     fst r = 0 ∨
     (fst r = ENOENT ∧ has_flag flags PFLG_MANDATORY = false
      ∧ rh_config_GetItemByName block var_name = None)).

(** A run leaves the target as it was, unless it stops on options it has
    no sink for, after the target was written. *)
Definition keeps_target `{rbh_env} {A : Type} (block : config_item_t)
    (block_name var_name : string) (st : param_out A) (r : Z * param_out A) : Prop :=
  fst r ≠ 0 →
  target (snd r) = target st ∨
  ∃ item, rh_config_GetItemByName block var_name = Some item ∧
          (extra_args_tab st = None ∨ nb_extra_args st = None) ∧
          o_err_msg (snd r) = unexpected_options block_name var_name item.

(** ** The table of parameters and the objects it points to *)

Section ScalarParamsSpec.

Context `{rbh_env}.

(** The type an object was written with. *)
Definition cfg_kind (v : cfg_value) : cfg_param_type :=
  match v with
  | CfgString _ => PT_STRING
  | CfgBool _ => PT_BOOL
  | CfgDuration _ => PT_DURATION
  | CfgSize _ => PT_SIZE
  | CfgInt _ => PT_INT
  | CfgInt64 _ => PT_INT64
  | CfgFloat _ => PT_FLOAT
  end.

(** Every descriptor points to an object of its type. *)
Definition well_typed (params : list cfg_param_t) (mem : gmap N cfg_value) : Prop :=
  ∀ p, p ∈ params → p_type p ≠ PT_TYPE →
       cfg_kind <$> (mem !! p_ptr p) = Some (p_type p).

(** Two memories hold objects of the same types at the same addresses. *)
Definition same_kinds (mem1 mem2 : gmap N cfg_value) : Prop :=
  ∀ a, cfg_kind <$> (mem1 !! a) = cfg_kind <$> (mem2 !! a).

(** The code and the message the extractor of [p] gives on the block. *)
Definition param_result (block : config_item_t) (block_name : string)
    (p : cfg_param_t) (mem : gmap N cfg_value) : option (Z * string) :=
  match read_param block block_name p mem "" with
  | Some (rc, _, msg) => Some (rc, msg)
  | None => None
  end.

(** The extractor of the descriptor writes past its [tmpbuf] on the
    block. *)
Definition param_overruns (block : config_item_t) (p : cfg_param_t) : bool :=
  match p_type p with
  | PT_INT => overruns_tmpbuf sscanf_d_s block (p_name p)
  | PT_INT64 => overruns_tmpbuf sscanf_u64_s block (p_name p)
  | PT_FLOAT => overruns_tmpbuf sscanf_lf_s block (p_name p)
  | _ => false
  end.

(** The descriptor is read without an error that stops the loop. *)
Definition param_ok (block : config_item_t) (block_name : string)
    (mem : gmap N cfg_value) (p : cfg_param_t) : Prop :=
  ∃ rc msg, param_result block block_name p mem = Some (rc, msg) ∧
            cfg_is_err rc (p_flags p) = false.

End ScalarParamsSpec.

(** ** Inputs of the examples on parameter tables *)

(** The block [log { log_file = /var/log/robinhood/; }]. *)
Definition block_log_file : config_item_t :=
  Some (TYPE_BLOCK 1 "log"
          [TYPE_AFFECT 2 (cond_of "log_file" "/var/log/robinhood/" OP_EQUAL)]).

(** A table of two parameters: a long integer at address 1 and a string
    of 64 bytes at address 2, which is mandatory. *)
Definition table_db : list cfg_param_t :=
  [mk_cfg_param "max_size" PT_INT64 0 1 8;
   mk_cfg_param "db_name" PT_STRING PFLG_MANDATORY 2 64].

(** The same with an optional string. *)
Definition table_db_optional : list cfg_param_t :=
  [mk_cfg_param "max_size" PT_INT64 0 1 8;
   mk_cfg_param "db_name" PT_STRING 0 2 64].

(** The objects of the table, with their default values. *)
Definition memory_db : gmap N (cfg_value (H := spec_env)) :=
  <[1%N := CfgInt64 100]> (<[2%N := CfgString "robinhood"]> ∅).

(** ** Expressions in the store *)

(** The expression a node stands for.  A leaf is a condition, or a node
    that does not own what it points to (the copy of the root of a file
    class). *)
Inductive node_tree :=
| NCond (t : compare_triplet_t)
| NShared (n : bool_node_t)
| NUnary (op : bool_op_t) (e : node_tree)
| NBinary (op : bool_op_t) (e1 e2 : node_tree).

(** [node_holds cs n e kids]: in the store [cs] the content [n] of a node
    stands for the expression [e]; [kids] lists the cells the node owns,
    in the order [FreeBoolExpr] releases them, and no cell occurs twice. *)
Inductive node_holds (cs : gmap N object) : bool_node_t → node_tree → list N → Prop :=
| holds_cond n t :
    node_type n = NODE_CONDITION →
    cs !! condition n = Some (ObjTriplet t) →
    node_holds cs n (NCond t) [condition n]
| holds_shared n :
    node_type n ≠ NODE_CONDITION → owner n = false →
    node_holds cs n (NShared n) []
| holds_unary n n1 e k1 :
    node_type n = NODE_UNARY_EXPR → owner n = true →
    cs !! expr1 n = Some (ObjNode n1) →
    node_holds cs n1 e k1 →
    expr1 n ∉ k1 →
    node_holds cs n (NUnary (bool_op n) e) (k1 ++ [expr1 n])%list
| holds_binary n n1 n2 e1 e2 k1 k2 :
    node_type n = NODE_BINARY_EXPR → owner n = true →
    cs !! expr1 n = Some (ObjNode n1) →
    cs !! expr2 n = Some (ObjNode n2) →
    node_holds cs n1 e1 k1 →
    node_holds cs n2 e2 k2 →
    expr1 n ∉ k1 → expr2 n ∉ k2 →
    (∀ a, a ∈ (k1 ++ [expr1 n])%list → a ∉ (k2 ++ [expr2 n])%list) →
    node_holds cs n (NBinary (bool_op n) e1 e2)
               ((k1 ++ [expr1 n]) ++ k2 ++ [expr2 n])%list.

(** The nodes of an expression, the conditions counted apart. *)
Fixpoint node_tree_size (e : node_tree) : nat :=
  match e with
  | NCond _ => 1
  | NShared _ => 0
  | NUnary _ e1 => S (node_tree_size e1)
  | NBinary _ e1 e2 => S (S (node_tree_size e1 + node_tree_size e2))
  end.

(** A world reached from [w] by one allocation, of a cell holding [o], and
    stores to the node [p]. *)
Definition stored_fresh (p : N) (n : bool_node_t) (o : object) (w w' : world) : Prop :=
  cells w' = <[p := ObjNode n]> (<[brk w := o]> (cells w)) ∧
  brk w' = (brk w + 1)%N ∧ limit w' = limit w ∧ junk_node w' = junk_node w ∧
  junk_triplet w' = junk_triplet w ∧ attr_mask w' = attr_mask w ∧
  err_msg w' = err_msg w ∧ frees w' = frees w ∧ fault w' = fault w.

(** The conditions of a syntax tree, left to right. *)
Fixpoint conditions_of (e : type_bool_expr) : list type_key_value :=
  match e with
  | BoolCondition kv => [kv]
  | BoolUnary _ e1 => conditions_of e1
  | BoolBinary _ e1 e2 => conditions_of e1 ++ conditions_of e2
  | BoolInvalid _ => []
  end.

Section BoolRuns.

Context `{rbh_env}.

(** Undefined behaviour inside [interpret_condition], on one of the
    conditions of [e]. *)
Definition cond_faults (smi : option sm_instance_t) (e : type_bool_expr) : Prop :=
  ∃ kv st, kv ∈ conditions_of e ∧ c_fault st = false ∧
           c_fault (snd (interpret_condition kv st smi)) = true.

(** The expression [t] is what [build_bool_expr] makes of the syntax tree
    [e]: an identity is dropped, the other operators go through
    [syntax2conf_boolop], and a leaf is a triplet that
    [interpret_condition] has filled in with return code 0. *)
Fixpoint spells (smi : option sm_instance_t) (e : type_bool_expr) (t : node_tree) : Prop :=
  match e with
  | BoolCondition kv =>
      match t with
      | NCond tr => ∃ st, fst (interpret_condition kv st smi) = 0 ∧
                          c_triplet (snd (interpret_condition kv st smi)) = tr
      | _ => False
      end
  | BoolUnary BOOL_OP_IDENTITY e1 => spells smi e1 t
  | BoolUnary oper e1 =>
      match t with
      | NUnary op t1 => op = syntax2conf_boolop oper ∧ op ≠ BOOL_ERR ∧ spells smi e1 t1
      | _ => False
      end
  | BoolBinary oper e1 e2 =>
      match t with
      | NBinary op t1 t2 =>
          op = syntax2conf_boolop oper ∧ op ≠ BOOL_ERR ∧
          spells smi e1 t1 ∧ spells smi e2 t2
      | _ => False
      end
  | BoolInvalid _ => False
  end.

(** A run of the boolean builder on [e] from [w] to [w'] with return code
    [rc]: the cells below the old [brk] are untouched, [out] apart; a
    fault comes from [interpret_condition] alone; with [rc = 0] the node
    at [out] holds an expression that spells [e], over exactly the cells
    handed out in between, and nothing was released; the cells released
    otherwise are cells handed out in between, each released once. *)
Definition bool_run (smi : option sm_instance_t) (e : type_bool_expr) (out : N)
    (w w' : world) (rc : Z) : Prop :=
  wf_world w' ∧ (brk w ≤ brk w')%N ∧ limit w' = limit w ∧
  junk_node w' = junk_node w ∧ junk_triplet w' = junk_triplet w ∧
  (∀ a, a ≠ out → (a < brk w)%N → cells w' !! a = cells w !! a) ∧
  (fault w' = true → fault w = true ∨ cond_faults smi e) ∧
  (∃ n, cells w' !! out = Some (ObjNode n) ∧
        (rc = 0 → ∃ t kids, node_holds (cells w') n t kids ∧ spells smi e t ∧
                            frees w' = frees w ∧
                            ∀ a, a ∈ kids ↔ (brk w ≤ a < brk w')%N)) ∧
  (∃ fr, frees w' = (frees w ++ fr)%list ∧ NoDup fr ∧
         ∀ a, a ∈ fr → (brk w ≤ a < brk w')%N ∧ cells w' !! a = None).

End BoolRuns.

(** The expression [depth == 3 and not (depth > 5)], and the same with
    the second operand replaced by [depth == -1], which the criteria
    compiler rejects. *)
Definition expr_depth : type_bool_expr :=
  BoolBinary BOOL_OP_AND
    (BoolCondition (cond_of "depth" "3" OP_EQUAL))
    (BoolUnary BOOL_OP_NOT (BoolCondition (cond_of "depth" "5" OP_GT))).

Definition expr_depth_bad : type_bool_expr :=
  BoolBinary BOOL_OP_AND
    (BoolCondition (cond_of "depth" "3" OP_EQUAL))
    (BoolUnary BOOL_OP_NOT (BoolCondition (cond_of "depth" "-1" OP_EQUAL))).

(** ** Conditions made by hand: [CreateBoolCond], [AppendBoolCond] *)

(** Modelled from the spec: [policy_rules.h] is not among the sources at
    hand; [NO_CRITERIA] and [COMP_NONE] stand for the enumerators of value
    0.  This is what [memset(p, 0, sizeof(compare_triplet_t))] leaves. *)
Definition zeroed_triplet : compare_triplet_t :=
  mk_triplet 0 NO_CRITERIA COMP_NONE VAL_UNDEF "".

(** Create a boolean condition. *)
Definition CreateBoolCond (p_out_node : N) (compar : compare_direction_t)
    (crit : compare_criteria_t) (val : compare_value_t) (w : world) : Z * world :=
  let w := store_node p_out_node (set_node_type NODE_CONDITION) w in
  let '(c, w) := malloc_triplet w in
  let w := store_node p_out_node (set_condition c) w in
  if (c =? NULL)%N then (- ENOMEM, w)
  else
    let w := store_triplet c (fun _ => zeroed_triplet) w in
    let w := store_triplet c (set_t_flags 0) w in
    let w := store_triplet c (set_t_crit crit) w in
    let w := store_triplet c (set_t_op compar) w in
    let w := store_triplet c (set_t_val val) w in
    (0, w).

(** The label [free_expr1] of [AppendBoolCond]:
    [FreeBoolExpr(p_in_out_node->content_u.bool_expr.expr1, true);
    return rc]. *)
Definition free_prev (fuel : nat) (p : N) (rc : Z) (w : world) : option (Z * world) :=
  match load_node p w with
  | Some n =>
      match FreeBoolExpr fuel (expr1 n) true w with
      | Some (_, w') => Some (rc, w')
      | None => None
      end
  | None => Some (rc, raise_fault w)
  end.

(** Append a boolean condition with bool op = AND.  [fuel] bounds the
    recursion of [FreeBoolExpr] on the error paths. *)
Definition AppendBoolCond (fuel : nat) (p_in_out_node : N)
    (compar : compare_direction_t) (crit : compare_criteria_t)
    (val : compare_value_t) (w : world) : option (Z * world) :=
  let '(copy_prev, w) :=
    match load_node p_in_out_node w with
    | Some n => (n, w)
    | None => (junk_node w, raise_fault w)
    end in
  let w := store_node p_in_out_node (set_node_type NODE_BINARY_EXPR) w in
  let w := store_node p_in_out_node (set_bool_op BOOL_AND) w in
  (* bool expr will be allocated *)
  let w := store_node p_in_out_node (set_owner true) w in
  (* first expression = the previous expression *)
  let '(e1, w) := malloc_node w in
  let w := store_node p_in_out_node (set_expr1 e1) w in
  if (e1 =? NULL)%N then Some (- ENOMEM, w)
  else
    let w := store_node e1 (fun _ => copy_prev) w in
    (* second expression = the appended value *)
    let '(e2, w) := malloc_node w in
    let w := store_node p_in_out_node (set_expr2 e2) w in
    if (e2 =? NULL)%N then free_prev fuel p_in_out_node (- ENOMEM) w
    else
      (* expr2 is a triplet *)
      let '(rc, w) := CreateBoolCond e2 compar crit val w in
      if rc =? 0 then Some (0, w)
      else free_prev fuel p_in_out_node rc (free_expr2 p_in_out_node w).

(** The store of scenario 5 with room for two more cells. *)
Definition world5_tight : world :=
  mk_world cells5 8 10 (leaf NULL) size_gt_10 0 "" [] false.

(** ** [GetSetExpr] *)

Section SetBlocks.

Context `{rbh_env}.

(** Build a policy boolean expression from a union/intersection of
    fileclasses. *)
Definition GetSetExpr (block : config_item_t) (block_name : string)
    (p_bool_node : N) (policies : policies_t) (w : world) : Z * world :=
  (* initialize attr mask *)
  let w := set_attr_mask 0 w in
  match block with
  | Some (TYPE_BLOCK _ _ block_content) =>
      match block_content with
      | [] =>
          (* Check the block contains something *)
          fail ENOENT ("'" +:+ block_name +:+ "' block is empty, line "
                       +:+ pretty (rh_config_GetItemLine block)) w
      | subitem :: next =>
          match subitem with
          | TYPE_SET _ set =>
              match next with
              | _ :: _ =>
                  fail EINVAL ("A single expression is expected in block '"
                               +:+ block_name +:+ "', line "
                               +:+ pretty (rh_config_GetItemLine (Some subitem))) w
              | [] =>
                  (* now we can analyze the union/intersection *)
                  let '(rc, w) := build_set_expr set p_bool_node policies w in
                  if rc =? 0 then (rc, w)
                  else
                    (rc,
                     set_err_msg (err_msg w +:+ ", line "
                                  +:+ pretty (rh_config_GetItemLine (Some subitem))) w)
              end
          | _ =>
              fail EINVAL ("Union/intersection/negation of classes expected in block '"
                           +:+ block_name +:+ "', line "
                           +:+ pretty (rh_config_GetItemLine (Some subitem))) w
          end
      end
  | _ =>
      (* check it is a block *)
      fail EINVAL ("'" +:+ block_name +:+ "' is expected to be a block") w
  end.

End SetBlocks.

(** The block [definition { (hot union cold) inter not cold }], its
    expression at line 2. *)
Definition block_scenario5 : config_item_t :=
  Some (TYPE_BLOCK 1 "definition" [TYPE_SET 2 scenario5]).

(** ** Printing expressions: [op2str], [print_condition], [BoolExpr2str] *)

Definition op2str (comp : compare_direction_t) : string :=
  match comp with
  | COMP_GRTHAN => ">"
  | COMP_GRTHAN_EQ => ">="
  | COMP_LSTHAN => "<"
  | COMP_LSTHAN_EQ => "<="
  | COMP_EQUAL => "=="
  | COMP_DIFF => "<>"
  | COMP_LIKE => " =~ "
  | COMP_UNLIKE => " !~ "
  | _ => "?"
  end.

(** The double quote of the formats. *)
Definition dquote : string := String (ascii_of_N 34) EmptyString.

(** The formatters of rbh_misc.c and policy_rules.h, which are not among
    the sources, and the attributes that config.h compiles in. *)
Class print_env := {
  criteria2str : compare_criteria_t → string;
  type2str : obj_type_t → string;
  (* the text left in [tmp_buff] *)
  FormatFileSize : Z → string;
  FormatDurationFloat : Z → string;
  XATTR_PREFIX : string;
  ATTR_INDEX_type : bool;
  ATTR_INDEX_dircount : bool;
  ATTR_INDEX_last_archive : bool;
  ATTR_INDEX_last_restore : bool;
  ATTR_INDEX_creation_time : bool
}.

(** Conversions to [size_t]; [int32] is the conversion to [int]. *)
Definition size_t (z : Z) : Z := z mod 2 ^ 64.

Definition strlen (s : string) : Z := Z.of_nat (String.length s).

(** The caller's character array: [cap] bytes from [out_str] on, and
    whether the program has written outside of it or read a member of a
    union that was not the one written (undefined behaviour). *)
Record buffer := mk_buffer {
  mem : Z → ascii;
  cap : Z;
  undefined : bool
}.

Definition char_at (i : Z) (s : string) : ascii :=
  match String.get (Z.to_nat i) s with
  | Some c => c
  | None => Ascii.zero
  end.

(** The bytes of [text], then NUL, stored from offset [off] on. *)
Definition put (off : Z) (text : string) (b : buffer) : buffer :=
  mk_buffer
    (λ i, if (off <=? i) && (i <? off + strlen text) then char_at (i - off) text
          else if i =? off + strlen text then Ascii.zero
          else mem b i)
    (cap b)
    (undefined b || negb ((0 <=? off) && (off + strlen text + 1 <=? cap b))).

(** [snprintf(out_str + off, size, ...)] with the formatted [text], as
    ISO C defines it for every [size_t] size: at most [size - 1]
    characters and a NUL are stored, nothing when [size] is 0; the return
    value is the length of the whole text. *)
Definition snprintf (off size : Z) (text : string) (b : buffer) : Z * buffer :=
  (int32 (strlen text),
   if size =? 0 then b
   else put off (substring 0 (Z.to_nat (Z.min (strlen text) (size - 1))) text) b).

Definition set_undefined (b : buffer) : buffer := mk_buffer (mem b) (cap b) true.

(** What [print_condition] formats: a text, nothing ([-EINVAL]), or a
    read of a member of [val] other than the one written. *)
Inductive cond_text := CText (s : string) | CInvalid | CUndefined.

Section Printing.

Context `{print_env}.

(** The [switch] of [print_condition] with the arguments of its
    [snprintf] calls formatted. *)
Definition condition_text (p_triplet : compare_triplet_t) : cond_text :=
  let crit := t_crit p_triplet in
  let op := t_op p_triplet in
  let str_case :=
    match t_val p_triplet with
    | VAL_STR str =>
        CText (criteria2str crit +:+ " " +:+ op2str op +:+ " " +:+ dquote +:+ str +:+ dquote)
    | _ => CUndefined
    end in
  let type_case :=
    match t_val p_triplet with
    | VAL_TYPE type =>
        CText (criteria2str crit +:+ " " +:+ op2str op +:+ " " +:+ dquote +:+ type2str type
               +:+ dquote)
    | _ => CUndefined
    end in
  let int_case :=
    match t_val p_triplet with
    | VAL_INTEGER integer =>
        CText (criteria2str crit +:+ " " +:+ op2str op +:+ " " +:+ pretty integer)
    | _ => CUndefined
    end in
  let size_case :=
    match t_val p_triplet with
    | VAL_SIZE size =>
        CText (criteria2str crit +:+ " " +:+ op2str op +:+ " " +:+ FormatFileSize size)
    | _ => CUndefined
    end in
  let duration_case :=
    match t_val p_triplet with
    | VAL_DURATION duration =>
        CText (criteria2str crit +:+ " " +:+ op2str op +:+ " "
               +:+ FormatDurationFloat duration)
    | _ => CUndefined
    end in
  match crit with
  (* str values *)
  | CRITERIA_TREE | CRITERIA_PATH | CRITERIA_FILENAME
  | CRITERIA_OWNER | CRITERIA_GROUP | CRITERIA_POOL => str_case
  | CRITERIA_TYPE => if ATTR_INDEX_type then type_case else CInvalid
  (* int values *)
  | CRITERIA_DEPTH | CRITERIA_OST => int_case
  | CRITERIA_DIRCOUNT => if ATTR_INDEX_dircount then int_case else CInvalid
  | CRITERIA_SIZE => size_case
  (* duration values *)
  | CRITERIA_LAST_ACCESS | CRITERIA_LAST_MOD => duration_case
  | CRITERIA_LAST_ARCHIVE => if ATTR_INDEX_last_archive then duration_case else CInvalid
  | CRITERIA_LAST_RESTORE => if ATTR_INDEX_last_restore then duration_case else CInvalid
  | CRITERIA_CREATION => if ATTR_INDEX_creation_time then duration_case else CInvalid
  | CRITERIA_XATTR =>
      match t_val p_triplet with
      | VAL_STR str =>
          CText (XATTR_PREFIX +:+ "." +:+ t_xattr_name p_triplet +:+ " " +:+ op2str op
                 +:+ " " +:+ str)
      | _ => CUndefined
      end
  | _ => CInvalid
  end.

Definition print_condition (p_triplet : compare_triplet_t) (off str_size : Z)
    (b : buffer) : Z * buffer :=
  match condition_text p_triplet with
  | CText text => snprintf off str_size text b
  | CInvalid => (- EINVAL, b)
  | CUndefined => (0, set_undefined b)
  end.

(** Print a boolean expression to a string: a negative value on error,
    else the number of chars written.  [out_str] is the offset [off] in
    the caller's array; the recursion follows the pointers of the store
    [cs], [None] is fuel exhausted. *)
Fixpoint BoolExpr2str (fuel : nat) (cs : gmap N object) (p_bool_node : N)
    (off str_size : Z) (b : buffer) : option (Z * buffer) :=
  match fuel with
  | O => None
  | S fuel =>
      match cs !! p_bool_node with
      | Some (ObjNode n) =>
          match node_type n with
          | NODE_UNARY_EXPR =>
              (* only BOOL_NOT is supported as unary operator *)
              match bool_op n with
              | BOOL_NOT =>
                  let '(r, b) := snprintf off str_size "NOT (" b in
                  let written := size_t r in
                  match BoolExpr2str fuel cs (expr1 n) (off + written)
                                     (size_t (str_size - written)) b with
                  | None => None
                  | Some (rc, b) =>
                      if rc <? 0 then Some (rc, b)
                      else
                        let written := size_t (written + rc) in
                        let '(r, b) := snprintf (off + written)
                                                (size_t (str_size - written)) ")" b in
                        let written := size_t (written + r) in
                        Some (int32 written, b)
                  end
              | _ => Some (- EINVAL, b)
              end
          | NODE_BINARY_EXPR =>
              let '(r, b) := snprintf off str_size "(" b in
              let written := size_t r in
              match BoolExpr2str fuel cs (expr1 n) (off + written)
                                 (size_t (str_size - written)) b with
              | None => None
              | Some (rc, b) =>
                  if rc <? 0 then Some (rc, b)
                  else
                    let written := size_t (written + rc) in
                    let '(r, b) :=
                      match bool_op n with
                      | BOOL_OR => snprintf (off + written)
                                            (size_t (str_size - written)) ") OR (" b
                      | _ => snprintf (off + written)
                                      (size_t (str_size - written)) ") AND (" b
                      end in
                    let written := size_t (written + r) in
                    match BoolExpr2str fuel cs (expr2 n) (off + written)
                                       (size_t (str_size - written)) b with
                    | None => None
                    | Some (rc, b) =>
                        if rc <? 0 then Some (rc, b)
                        else
                          let written := size_t (written + rc) in
                          let '(r, b) := snprintf (off + written)
                                                  (size_t (str_size - written)) ")" b in
                          let written := size_t (written + r) in
                          Some (int32 written, b)
                    end
              end
          | NODE_CONDITION =>
              match cs !! condition n with
              | Some (ObjTriplet t) => Some (print_condition t off str_size b)
              | _ => Some (0, set_undefined b)
              end
          end
      | _ => Some (0, set_undefined b)
      end
  end.

(** The text of an expression: [None] where [BoolExpr2str] gives up. *)
Fixpoint render (e : node_tree) : option string :=
  match e with
  | NCond t =>
      match condition_text t with
      | CText s => Some s
      | _ => None
      end
  | NShared _ => None
  | NUnary op e1 =>
      match op, render e1 with
      | BOOL_NOT, Some s1 => Some ("NOT (" +:+ s1 +:+ ")")
      | _, _ => None
      end
  | NBinary op e1 e2 =>
      match render e1, render e2 with
      | Some s1, Some s2 =>
          Some ("(" +:+ s1
                +:+ (match op with BOOL_OR => ") OR (" | _ => ") AND (" end)
                +:+ s2 +:+ ")")
      | _, _ => None
      end
  end.

End Printing.

(** The text [s] stands at offset [off] of the array, NUL after it. *)
Definition holds_text (b : buffer) (off : Z) (s : string) : Prop :=
  (∀ i, 0 ≤ i < strlen s → mem b (off + i) = char_at i s) ∧
  mem b (off + strlen s) = Ascii.zero.

(** [b'] is [b] with the text [s] and its NUL stored at [off], and
    nothing else changed. *)
Definition printed (b b' : buffer) (off : Z) (s : string) : Prop :=
  undefined b' = undefined b ∧ cap b' = cap b ∧ holds_text b' off s ∧
  ∀ j, j < off ∨ off + strlen s < j → mem b' j = mem b j.

(** Modelled from the spec: stand-ins, for the examples, for the
    formatters of rbh_misc.c and policy_rules.h, which are not among the
    sources: the criteria of the specification under their configuration
    names, sizes and durations as plain numbers, every attribute
    compiled in. *)
Definition example_criteria2str (c : compare_criteria_t) : string :=
  match c with
  | CRITERIA_TREE => "tree"
  | CRITERIA_PATH => "path"
  | CRITERIA_FILENAME => "name"
  | CRITERIA_TYPE => "type"
  | CRITERIA_OWNER => "owner"
  | CRITERIA_GROUP => "group"
  | CRITERIA_SIZE => "size"
  | CRITERIA_DEPTH => "depth"
  | CRITERIA_DIRCOUNT => "dircount"
  | CRITERIA_LAST_ACCESS => "last_access"
  | CRITERIA_LAST_MOD => "last_mod"
  | CRITERIA_LAST_ARCHIVE => "last_archive"
  | CRITERIA_LAST_RESTORE => "last_restore"
  | CRITERIA_CREATION => "creation"
  | CRITERIA_POOL => "ost_pool"
  | CRITERIA_OST => "ost_index"
  | CRITERIA_XATTR => "xattr"
  | CRITERIA_STATUS => "status"
  | NO_CRITERIA => "?"
  end.

Definition example_type2str (t : obj_type_t) : string :=
  match t with
  | TYPE_LINK => "symlink"
  | TYPE_DIR => "dir"
  | TYPE_FILE => "file"
  | TYPE_CHR => "chr"
  | TYPE_BLK => "blk"
  | TYPE_FIFO => "fifo"
  | TYPE_SOCK => "sock"
  | TYPE_NONE => "?"
  end.

#[local] Instance example_print_env : print_env := {
  criteria2str := example_criteria2str;
  type2str := example_type2str;
  FormatFileSize := pretty;
  FormatDurationFloat := pretty;
  XATTR_PREFIX := "xattr";
  ATTR_INDEX_type := true;
  ATTR_INDEX_dircount := true;
  ATTR_INDEX_last_archive := true;
  ATTR_INDEX_last_restore := true;
  ATTR_INDEX_creation_time := true
}.

(** The store of scenario 5 with the node at 1 turned into the negation
    of the condition at 3. *)
Definition not_leaf3 : bool_node_t :=
  mk_bool_node NODE_UNARY_EXPR NULL BOOL_NOT 3 NULL true.

Definition cells5_not : gmap N object := <[1%N := ObjNode not_leaf3]> cells5.

(** An array of [n] bytes that was never written. *)
Definition blank (n : Z) : buffer := mk_buffer (λ _, "x"%char) n false.

(** ** The module table and its drivers *)

(** Modelled from the spec: rbh_cfg.h and rbh_logs.h are not among the
    sources.  A module definition holds its name, its mask and its
    functions; a function acts on the state [St] that the modules share
    (their parts of the configuration structure and whatever else they
    reach), [set_default_func] and [read_func] also on the message buffer
    they are given; the two writers return the text they print to the
    stream. *)
Record module_config_def_t (St Tree : Type) := mk_module {
  module_name : string;
  flags : Z;
  set_default_func : string → St → Z * string * St;
  read_func : Tree → bool → string → St → Z * string * St;
  reload_func : St → Z * St;
  write_template_func : St → Z * string * St;
  write_default_func : St → Z * string * St
}.

Arguments module_name {St Tree}.
Arguments flags {St Tree}.
Arguments set_default_func {St Tree}.
Arguments read_func {St Tree}.
Arguments reload_func {St Tree}.
Arguments write_template_func {St Tree}.
Arguments write_default_func {St Tree}.

Inductive log_level := LVL_CRIT | LVL_EVENT.

(** What the drivers act on: the shared state of the modules, the buffer
    [err_msg_out], the entries of [DisplayLog] and the trees handed to
    [rh_config_Free]. *)
Record driver (St Tree : Type) := mk_driver {
  d_state : St;
  d_err_msg : string;
  d_log : list (log_level * string * string);
  d_freed : list Tree
}.

Arguments mk_driver {St Tree}.
Arguments d_state {St Tree}.
Arguments d_err_msg {St Tree}.
Arguments d_log {St Tree}.
Arguments d_freed {St Tree}.

Section Modules.

Context `{rbh_env}.

Variables St Tree : Type.

(** [robinhood_module_conf], up to its terminating entry, the value of
    [MODULE_MASK_ALWAYS] and the parser [rh_config_ParseFile], [None]
    being [NULL]. *)
Variable robinhood_module_conf : list (module_config_def_t St Tree).
Variable MODULE_MASK_ALWAYS : Z.
Variable rh_config_ParseFile : string → option Tree.

(** Only initialize modules with flag MODULE_MASK_ALWAYS or matching
    'module_mask' parameter. *)
Definition module_selected (module_mask : Z) (m : module_config_def_t St Tree) : bool :=
  negb (negb (flags m =? MODULE_MASK_ALWAYS) && (Z.land (flags m) module_mask =? 0)).



Definition RELOAD_TAG : string := "ReloadConfig".

(** The loop of [ReloadRobinhoodConfig], from the module [p_curr] on. *)
Fixpoint reload_modules (mods : list (module_config_def_t St Tree)) (module_mask : Z)
    (rc : Z) (d : driver St Tree) : Z * driver St Tree :=
  match mods with
  | [] => (rc, d)
  | p_curr :: rest =>
      if negb (module_selected module_mask p_curr)
      then reload_modules rest module_mask rc d
      else
        (* finally reload the configuration *)
        let '(rc_temp, st) := reload_func p_curr (d_state d) in
        if negb (rc_temp =? 0) then
          reload_modules rest module_mask rc_temp
            (mk_driver st (d_err_msg d)
               (d_log d ++ [(LVL_CRIT, RELOAD_TAG,
                             "Error " +:+ pretty rc_temp
                             +:+ " reloading configuration for module '"
                             +:+ module_name p_curr +:+ "'")])
               (d_freed d))
        else
          reload_modules rest module_mask rc
            (mk_driver st (d_err_msg d)
               (d_log d ++ [(LVL_EVENT, RELOAD_TAG,
                             "Configuration of module '" +:+ module_name p_curr
                             +:+ "' successfully reloaded")])
               (d_freed d))
  end.

(** Reload robinhood's configuration file, and change only parameters
    that can be modified on the fly. *)
Definition ReloadRobinhoodConfig (module_mask : Z) (d : driver St Tree)
    : Z * driver St Tree :=
  reload_modules robinhood_module_conf module_mask 0 d.

Definition newline : string := String (ascii_of_N 10) EmptyString.

(** The loops of [WriteConfigTemplate] and [WriteConfigDefault]; [stream]
    is the text written so far. *)
Fixpoint write_template_modules (mods : list (module_config_def_t St Tree))
    (stream : string) (st : St) : Z * string * St :=
  match mods with
  | [] => (0, stream, st)
  | p_module :: rest =>
      let stream := stream +:+ "# " +:+ module_name p_module +:+ " configuration"
                    +:+ newline in
      let '(rc, text, st) := write_template_func p_module st in
      let stream := stream +:+ text +:+ newline in
      if negb (rc =? 0) then (rc, stream, st)
      else write_template_modules rest stream st
  end.

(** Write a documented template of configuration file. *)
Definition WriteConfigTemplate (stream : string) (st : St) : Z * string * St :=
  let stream := stream +:+ "##########################################" +:+ newline in
  let stream := stream +:+ "# Robinhood configuration file template  #" +:+ newline in
  let stream := stream +:+ "##########################################" +:+ newline
                +:+ newline in
  write_template_modules robinhood_module_conf stream st.

Fixpoint write_default_modules (mods : list (module_config_def_t St Tree))
    (stream : string) (st : St) : Z * string * St :=
  match mods with
  | [] => (0, stream, st)
  | p_module :: rest =>
      let '(rc, text, st) := write_default_func p_module st in
      let stream := stream +:+ text +:+ newline in
      if negb (rc =? 0) then (rc, stream, st)
      else write_default_modules rest stream st
  end.

(** Write all default configuration values. *)
Definition WriteConfigDefault (stream : string) (st : St) : Z * string * St :=
  let stream := stream +:+ "# Default configuration values" +:+ newline in
  write_default_modules robinhood_module_conf stream st.

End Modules.

(** ** Numeric criteria *)

Section NumericCriteria.

Context `{rbh_env}.

(** What the [PT_SIZE], [PT_INT] and [PT_DURATION] cases of
    [criteria2condition] read from the value, the member of [val] they
    store it in, and the value that the parsers return on error. *)
Definition parsed_number (type : cfg_param_type) (value : string) : Z :=
  match type with
  | PT_SIZE => u64 (str2size value)
  | PT_INT => str2int value
  | _ => str2duration value
  end.

Definition number_member (type : cfg_param_type) (v : Z) : compare_value_t :=
  match type with
  | PT_SIZE => VAL_SIZE v
  | PT_INT => VAL_INTEGER v
  | _ => VAL_DURATION v
  end.

Definition number_error (type : cfg_param_type) : Z :=
  match type with
  | PT_SIZE => u64 (-1)
  | _ => -1
  end.

(** The checks a numeric condition goes through. *)
Definition number_accepted (type : cfg_param_type) (flags : Z) (kv : type_key_value)
    : bool :=
  let v := parsed_number type (varvalue kv) in
  negb (v =? number_error type)
  && negb (has_flag flags PFLG_POSITIVE && (v <? 0))
  && negb (has_flag flags PFLG_NOT_NULL && (v =? 0))
  && (has_flag flags PFLG_COMPARABLE
      || match op_type kv with OP_EQUAL | OP_DIFF => true | _ => false end).

End NumericCriteria.

(** ** Printing blocks: [print_begin_block], [print_end_block], [print_line] *)

Definition INDENT_STEP : Z := 4.

(** Conversion to [unsigned int]. *)
Definition u32 (z : Z) : Z := z mod 2 ^ 32.

Fixpoint spaces (n : nat) : string :=
  match n with
  | O => ""
  | S n => String " " (spaces n)
  end.

(** The conversion [%*s] of [fprintf]: the text padded with spaces to the
    width on its left, on its right for a negative width. *)
Definition fmt_star_s (width : Z) (s : string) : string :=
  if 0 <=? width then spaces (Z.to_nat (width - strlen s)) +:+ s
  else s +:+ spaces (Z.to_nat (- width - strlen s)).

(** [indent ? " " : ""], and [indent * INDENT_STEP] as the [int] that
    [fprintf] reads for the width. *)
Definition indent_char (indent : Z) : string := if indent =? 0 then "" else " ".
Definition indent_width (indent : Z) : Z := int32 (u32 (indent * INDENT_STEP)).

(** [output] is the text of the stream so far, [id] is [None] for [NULL]. *)
Definition print_begin_block (output : string) (indent : Z) (blockname : string)
    (id : option string) : string :=
  let output :=
    match id with
    | Some id =>
        output +:+ fmt_star_s (indent_width indent) (indent_char indent) +:+ blockname
        +:+ String (ascii_of_N 9) id +:+ newline
    | None =>
        output +:+ fmt_star_s (indent_width indent) (indent_char indent) +:+ blockname
        +:+ newline
    end in
  output +:+ fmt_star_s (indent_width indent) (indent_char indent) +:+ "{" +:+ newline.

Definition print_end_block (output : string) (indent : Z) : string :=
  output +:+ fmt_star_s (indent_width indent) (indent_char indent) +:+ "}" +:+ newline.

(** [formatted] is what [vfprintf] prints for [format] and the arguments. *)
Definition print_line (output : string) (indent : Z) (formatted : string) : string :=
  let output := output +:+ fmt_star_s (indent_width indent) (indent_char indent) in
  let output := output +:+ formatted in
  output +:+ newline.

(** ** [CheckUnknownParameters] *)

(** Modelled from the spec: config_parsing.h is not among the sources.
    [CONFIG_ITEM_OTHER] stands for every enumerator of
    [config_item_type] other than the two that the function tests. *)
Inductive config_item_type := CONFIG_ITEM_BLOCK | CONFIG_ITEM_VAR | CONFIG_ITEM_OTHER.

(** The loop over [param_array], up to its [NULL]: is [name] one of the
    allowed names? *)
Fixpoint name_found (param_array : list string) (name : string) : bool :=
  match param_array with
  | [] => false
  | p :: rest => if strcasecmp p name =? 0 then true else name_found rest name
  end.

Section UnknownParameters.

Context `{rbh_env}.

(** The accessors of the configuration parser that the function calls.
    The item at an index below [rh_config_GetNbItems] is taken to be an
    item, not [NULL]; the name of a block is [None] for [NULL]. *)
Variable rh_config_GetNbItems : config_item_t → Z.
Variable rh_config_GetItemByIndex : config_item_t → Z → generic_item.
Variable rh_config_ItemType : generic_item → config_item_type.
Variable rh_config_GetBlockName : generic_item → option string.

(** The body of the loop on the item [curr_item]; [log] holds the
    entries of [DisplayLog]. *)
Definition check_item (block_name : string) (param_array : list string)
    (curr_item : generic_item) (log : list (log_level * string * string))
    : list (log_level * string * string) :=
  match rh_config_ItemType curr_item with
  | CONFIG_ITEM_VAR =>
      let '(rc, name, value, args_flg) := rh_config_GetKeyValue curr_item in
      if rc =? 0 then
        if name_found param_array name then log
        else
          log ++ [(LVL_CRIT, "Config Check",
                   "WARNING: unknown parameter '" +:+ name +:+ "' in block '"
                   +:+ block_name +:+ "' line "
                   +:+ pretty (rh_config_GetItemLine (Some curr_item)))]
      else log
  | CONFIG_ITEM_BLOCK =>
      match rh_config_GetBlockName curr_item with
      | Some name =>
          if name_found param_array name then log
          else
            log ++ [(LVL_CRIT, "Config Check",
                     "WARNING: unknown block '" +:+ name +:+ "' as sub-block of '"
                     +:+ block_name +:+ "' line "
                     +:+ pretty (rh_config_GetItemLine (Some curr_item)))]
      | None => log
      end
  | CONFIG_ITEM_OTHER => log
  end.

(** The loop [for (i = 0; i < rh_config_GetNbItems(block); i++)], with
    [todo] iterations left. *)
Fixpoint check_items (todo : nat) (i : Z) (block : config_item_t) (block_name : string)
    (param_array : list string) (log : list (log_level * string * string))
    : list (log_level * string * string) :=
  match todo with
  | O => log
  | S todo =>
      let curr_item := rh_config_GetItemByIndex block i in
      check_items todo (i + 1) block block_name param_array
                  (check_item block_name param_array curr_item log)
  end.

(** Check that no unknown parameter or block is found. *)
Definition CheckUnknownParameters (block : config_item_t) (block_name : string)
    (param_array : list string) (log : list (log_level * string * string))
    : list (log_level * string * string) :=
  check_items (Z.to_nat (rh_config_GetNbItems block)) 0 block block_name param_array log.

(** The name that [check_item] looks up for an item, if any. *)
Definition checked_name (curr_item : generic_item) : option string :=
  match rh_config_ItemType curr_item with
  | CONFIG_ITEM_VAR =>
      let '(rc, name, _, _) := rh_config_GetKeyValue curr_item in
      if rc =? 0 then Some name else None
  | CONFIG_ITEM_BLOCK => rh_config_GetBlockName curr_item
  | CONFIG_ITEM_OTHER => None
  end.

End UnknownParameters.

(** ** The module drivers as their callers see them *)

Section ModuleCalls.

Variables St Tree : Type.

(** The calls of [reload_func] that a reload makes: one for each module
    of the table that [sel] selects, in the order of the table, each on
    the state that the call before it has left.  The result lists the
    modules called with the codes they returned, and gives the state
    after the last call. *)
Fixpoint reload_calls (sel : module_config_def_t St Tree → bool)
    (mods : list (module_config_def_t St Tree)) (st : St)
    : list (module_config_def_t St Tree * Z) * St :=
  match mods with
  | [] => ([], st)
  | m :: rest =>
      if sel m then
        let '(rc, st1) := reload_func m st in
        let '(calls, st2) := reload_calls sel rest st1 in
        ((m, rc) :: calls, st2)
      else reload_calls sel rest st
  end.

(** The code of the last call that failed, [rc] when none did. *)
Definition last_failure (rc : Z) (calls : list (module_config_def_t St Tree * Z)) : Z :=
  foldl (λ rc c, if snd c =? 0 then rc else snd c) rc calls.

(** The entry that a call leaves in the log. *)
Definition reload_entry (c : module_config_def_t St Tree * Z)
    : log_level * string * string :=
  if snd c =? 0 then
    (LVL_EVENT, RELOAD_TAG,
     "Configuration of module '" +:+ module_name (fst c) +:+ "' successfully reloaded")
  else
    (LVL_CRIT, RELOAD_TAG,
     "Error " +:+ pretty (snd c) +:+ " reloading configuration for module '"
     +:+ module_name (fst c) +:+ "'").

(** What the writers [f] of the modules [mods] print when each of them
    returns 0: for each module in turn the line [hdr] gives, the text of
    its writer, called on the state that the writer before it has left,
    and a new line.  [None] when one of the writers fails. *)
Fixpoint all_written (hdr : module_config_def_t St Tree → string)
    (f : module_config_def_t St Tree → St → Z * string * St)
    (mods : list (module_config_def_t St Tree)) (st : St) : option (string * St) :=
  match mods with
  | [] => Some (EmptyString, st)
  | m :: rest =>
      let '(rc, text, st1) := f m st in
      if rc =? 0 then
        match all_written hdr f rest st1 with
        | Some (out, st2) => Some (hdr m +:+ text +:+ newline +:+ out, st2)
        | None => None
        end
      else None
  end.

(** The line in front of a module in the template, and the lines the two
    files start with. *)
Definition template_header (m : module_config_def_t St Tree) : string :=
  "# " +:+ module_name m +:+ " configuration" +:+ newline.

Definition template_banner : string :=
  "##########################################" +:+ newline
  +:+ "# Robinhood configuration file template  #" +:+ newline
  +:+ "##########################################" +:+ newline +:+ newline.

Definition default_banner : string := "# Default configuration values" +:+ newline.

End ModuleCalls.

(** ** Inputs of the examples on the module table *)

(** Three modules that share a counter as their state.  Each reload adds
    to the counter; the reload and the writer of default values of the
    second module fail. *)
Definition example_module (name : string) (step : Z) (rc : Z) (text : string)
    : module_config_def_t Z unit :=
  mk_module Z unit name 0
    (λ msg st, (0, msg, st))
    (λ _ _ msg st, (0, msg, st))
    (λ st, (rc, st + step))
    (λ st, (0, text, st + step))
    (λ st, (rc, text, st + step)).

Definition example_modules : list (module_config_def_t Z unit) :=
  [example_module "Log" 1 0 "log { }";
   example_module "ListManager" 10 EINVAL "db { }";
   example_module "FS_Scan" 100 0 "scan { }"].

Definition driver0 : driver Z unit := mk_driver 0 "" [] [].

(** ** Inputs of the examples on the limits of the arrays *)

(** A word of 256 letters. *)
Definition long_word : string := string_of_list_ascii (replicate 256 "x"%char).

(** The interface of [spec_env] with an array [val.str] of 12 bytes. *)
Definition tight_env : rbh_env := {|
  RBH_PATH_MAX := 12;
  RBH_NAME_MAX := 256;
  str2bool := spec_str2bool;
  str2int := spec_str2int;
  str2size := spec_str2size;
  str2duration := spec_str2duration;
  str2type := spec_str2type;
  str_replace := spec_str_replace;
  double := spec_double;
  sscanf_lf_s := spec_sscanf_lf_s;
  double_ltb0 := λ d, fst d <? 0;
  double_eqb0 := λ d, fst d =? 0;
  double_fmt2 := λ d, pretty (fst d) +:+ "e-" +:+ pretty (Z.of_nat (snd d));
  rh_config_GetItemByName := spec_GetItemByName;
  rh_config_GetItemLine := spec_GetItemLine;
  rh_config_GetKeyValue := spec_GetKeyValue;
  rh_config_GetExtraArgs := spec_GetExtraArgs;
  rh_config_GetErrorMsg := "";
  str2criteria := spec_str2criteria;
  criteria_descr := spec_criteria_descr;
  SMI_MASK := λ i, Z.shiftl 1 (32 + i);
  get_status_str := spec_get_status_str;
  allowed_status_str := spec_allowed_status_str
|}.

(** ** Lemmas on the store *)

Lemma free_all_app fp1 fp2 w :
  free_all (fp1 ++ fp2) w = free_all fp2 (free_all fp1 w).
Proof. unfold free_all. apply foldl_app. Qed.

Lemma free_cells a p w :
  cells (free a w) !! p =
    if decide (a = p ∧ a ≠ NULL) then None else cells w !! p.
Proof.
  unfold free. destruct (N.eqb_spec a NULL) as [->|Hn]; simpl.
  - rewrite decide_False; [done | naive_solver].
  - case_decide as Hd.
    + destruct Hd as [-> _]. apply lookup_delete_eq.
    + apply lookup_delete_ne. naive_solver.
Qed.

Lemma free_all_cells fp : ∀ w p,
  NULL ∉ fp →
  cells (free_all fp w) !! p = if decide (p ∈ fp) then None else cells w !! p.
Proof.
  induction fp as [|a fp IH]; intros w p Hnull.
  - rewrite decide_False; [done | apply not_elem_of_nil].
  - apply not_elem_of_cons in Hnull as [Ha Hfp].
    change (free_all (a :: fp) w) with (free_all fp (free a w)).
    rewrite IH by done. rewrite free_cells.
    repeat case_decide; set_solver.
Qed.

Lemma free_all_frees fp : ∀ w, NULL ∉ fp → frees (free_all fp w) = (frees w ++ fp)%list.
Proof.
  induction fp as [|a fp IH]; intros w Hnull.
  - simpl. by rewrite app_nil_r.
  - apply not_elem_of_cons in Hnull as [Ha Hfp].
    change (free_all (a :: fp) w) with (free_all fp (free a w)).
    rewrite IH by done. unfold free.
    destruct (N.eqb_spec a NULL); [congruence|]. simpl. by rewrite <- app_assoc.
Qed.

Lemma free_all_fault fp : ∀ w,
  NoDup fp → NULL ∉ fp → (∀ a, a ∈ fp → is_Some (cells w !! a)) →
  fault (free_all fp w) = fault w.
Proof.
  induction fp as [|a fp IH]; intros w Hnd Hnull Hal; [done|].
  apply not_elem_of_cons in Hnull as [Ha Hfp].
  apply NoDup_cons in Hnd as [Hnotin Hnd].
  change (free_all (a :: fp) w) with (free_all fp (free a w)).
  rewrite IH; try done.
  - unfold free. destruct (N.eqb_spec a NULL); [congruence|]. simpl.
    destruct (Hal a) as [o ->]; [set_solver | done].
  - intros b Hb. rewrite free_cells. case_decide as Hd.
    + destruct Hd as [-> _]. done.
    + apply Hal. set_solver.
Qed.

Lemma free_all_env fp : ∀ w,
  brk (free_all fp w) = brk w ∧ limit (free_all fp w) = limit w ∧
  attr_mask (free_all fp w) = attr_mask w ∧ err_msg (free_all fp w) = err_msg w.
Proof.
  induction fp as [|a fp IH]; intros w; [done|].
  change (free_all (a :: fp) w) with (free_all fp (free a w)).
  destruct (IH (free a w)) as (-> & -> & -> & ->).
  unfold free. by destruct (a =? NULL)%N.
Qed.


Lemma tree_at_root cs p t fp : tree_at cs p t fp → p ∈ fp.
Proof. destruct 1; set_solver. Qed.



Lemma tree_at_agree cs cs' p t fp :
  tree_at cs p t fp → (∀ a, a ∈ fp → cs' !! a = cs !! a) → tree_at cs' p t fp.
Proof.
  induction 1; intros Hag.
  - constructor. rewrite Hag; [done | set_solver].
  - econstructor; eauto.
    + rewrite Hag; [done | set_solver].
    + apply IHtree_at. intros; apply Hag; set_solver.
  - econstructor; eauto.
    + rewrite Hag; [done | set_solver].
    + apply IHtree_at1. intros; apply Hag; set_solver.
    + apply IHtree_at2. intros; apply Hag; set_solver.
Qed.

Lemma load_node_cells p w n : cells w !! p = Some (ObjNode n) → load_node p w = Some n.
Proof. unfold load_node. by intros ->. Qed.


(** ** Running the set-expression builder *)

Lemma wf_lt p w o : wf_world w → cells w !! p = Some o → (0 < p < brk w)%N.
Proof.
  intros (Hnull & Hpos & Habove) Hp.
  destruct (N.eq_dec p 0%N) as [->|]; [unfold NULL in *; congruence|].
  destruct (N.lt_ge_cases p (brk w)) as [|Hge]; [lia|].
  rewrite Habove in Hp by done. done.
Qed.

Lemma load_node_Some p w n : load_node p w = Some n ↔ cells w !! p = Some (ObjNode n).
Proof.
  unfold load_node. destruct (cells w !! p) as [[]|]; naive_solver.
Qed.

(** Fields that a store to a node never changes. *)
Lemma store_node_env p f w :
  brk (store_node p f w) = brk w ∧ limit (store_node p f w) = limit w ∧
  junk_node (store_node p f w) = junk_node w ∧
  junk_triplet (store_node p f w) = junk_triplet w ∧
  attr_mask (store_node p f w) = attr_mask w ∧
  err_msg (store_node p f w) = err_msg w ∧
  frees (store_node p f w) = frees w.
Proof. unfold store_node. by destruct (load_node p w). Qed.

Lemma store_node_ok p f w n :
  load_node p w = Some n →
  cells (store_node p f w) = <[p := ObjNode (f n)]> (cells w) ∧
  fault (store_node p f w) = fault w ∧
  load_node p (store_node p f w) = Some (f n).
Proof.
  intros Hl. unfold store_node. rewrite Hl. split_and!; [done..|].
  apply load_node_Some. simpl. apply lookup_insert_eq.
Qed.

Lemma stored_first p f w n :
  load_node p w = Some n → stored p (f n) w (store_node p f w).
Proof.
  intros Hl. destruct (store_node_ok p f w n Hl) as (? & ? & ?).
  destruct (store_node_env p f w) as (? & ? & ? & ? & ? & ? & ?).
  by repeat split.
Qed.

Lemma stored_next p f w n w' :
  stored p n w w' → stored p (f n) w (store_node p f w').
Proof.
  intros (Hc & ? & ? & ? & ? & ? & ? & ? & ?).
  assert (Hl : load_node p w' = Some n).
  { apply load_node_Some. rewrite Hc. apply lookup_insert_eq. }
  destruct (store_node_ok p f w' n Hl) as (Hc' & ? & ?).
  destruct (store_node_env p f w') as (? & ? & ? & ? & ? & ? & ?).
  repeat split; try congruence.
  rewrite Hc', Hc. apply insert_insert_eq.
Qed.

Lemma stored_alloc_first p f w n w' :
  stored p n w w' → p ≠ brk w →
  stored_alloc p (f n) w (store_node p f (alloc (ObjNode (junk_node w')) w')).
Proof.
  intros (Hc & Hb & ? & Hj & ? & ? & ? & ? & ?) Hne.
  set (w1 := alloc _ w').
  assert (Hl : load_node p w1 = Some n).
  { apply load_node_Some. unfold w1, alloc. simpl.
    rewrite lookup_insert_ne by congruence. rewrite Hc. apply lookup_insert_eq. }
  destruct (store_node_ok p f w1 n Hl) as (Hc' & ? & ?).
  destruct (store_node_env p f w1) as (? & ? & ? & ? & ? & ? & ?).
  unfold stored_alloc. split_and!; try (unfold w1 in *; simpl in *; congruence).
  rewrite Hc'. unfold w1, alloc. simpl. rewrite Hc, Hb, Hj.
  rewrite (insert_insert_ne _ (brk w) p) by congruence.
  by rewrite insert_insert_eq.
Qed.

Lemma stored_alloc_next p f w n w' :
  stored_alloc p n w w' → stored_alloc p (f n) w (store_node p f w').
Proof.
  intros (Hc & ? & ? & ? & ? & ? & ? & ? & ?).
  assert (Hl : load_node p w' = Some n).
  { apply load_node_Some. rewrite Hc. apply lookup_insert_eq. }
  destruct (store_node_ok p f w' n Hl) as (Hc' & ? & ?).
  destruct (store_node_env p f w') as (? & ? & ? & ? & ? & ? & ?).
  repeat split; try congruence.
  rewrite Hc', Hc. apply insert_insert_eq.
Qed.

Lemma stored_alloc_wf p n w w' o :
  wf_world w → cells w !! p = Some o → stored_alloc p n w w' → wf_world w'.
Proof.
  intros Hwf Hp (Hc & Hb & _).
  pose proof (wf_lt _ _ _ Hwf Hp) as Hlt.
  destruct Hwf as (Hnull & Hpos & Habove).
  unfold wf_world. rewrite Hc, Hb. split_and!.
  - rewrite !lookup_insert_ne by (unfold NULL; lia). done.
  - lia.
  - intros a Ha. rewrite !lookup_insert_ne by lia. apply Habove. lia.
Qed.

Lemma stored_refl p n w : cells w !! p = Some (ObjNode n) → stored p n w w.
Proof. intros Hp. unfold stored. split_and!; try done. by rewrite insert_id. Qed.

Arguments store_node : simpl never.
Arguments malloc_node : simpl never.
Arguments free_expr1 : simpl never.
Arguments free_expr2 : simpl never.

Lemma build_set_expr_ok pol s : ∀ out w n0 w',
  wf_world w → load_node out w = Some n0 →
  build_set_expr s out pol w = (0, w') →
  built pol s out w w'.
Proof.
  induction s as [name|oper s1 IH1|oper s1 IH1 s2 IH2]; intros out w n0 w' Hwf Hout.
  - simpl. destruct find_fileset as [c|] eqn:Hc; [|discriminate].
    intros [= <-].
    pose proof (stored_first out (fun _ => definition c) w n0 Hout) as S0.
    set (w1 := store_node _ _ w) in *.
    assert (Hl1 : load_node out (set_attr_mask (Z.lor (attr_mask w1) (fs_attr_mask c)) w1)
                  = Some (definition c)).
    { apply load_node_Some. simpl. destruct S0 as (-> & _). apply lookup_insert_eq. }
    pose proof (stored_first out (set_owner false) _ _ Hl1) as S1.
    set (w2 := store_node _ _ (set_attr_mask _ _)) in *.
    destruct S0 as (Hc0 & Hb0 & ? & ? & ? & Hm0 & ? & ? & ?).
    destruct S1 as (Hc1 & Hb1 & ? & ? & ? & Hm1 & ? & ? & ?). simpl in *.
    apply load_node_Some in Hout.
    pose proof (wf_lt _ _ _ Hwf Hout) as Hlt.
    destruct Hwf as (Hnull & Hpos & Habove).
    assert (Hcells : cells w2 = <[out := ObjNode (set_owner false (definition c))]> (cells w)).
    { rewrite Hc1, Hc0. apply insert_insert_eq. }
    unfold built, same_env, wf_world. simpl. rewrite Hcells, Hc.
    assert (Hbrk : brk w2 = brk w) by congruence.
    split_and!; try congruence.
    + rewrite lookup_insert_ne by (unfold NULL; lia). done.
    + intros a Ha. rewrite lookup_insert_ne by lia. apply Habove. lia.
    + lia.
    + intros a Ha _. by rewrite lookup_insert_ne.
    + eexists _, [out]. split_and!; [done| |].
      * constructor. apply lookup_insert_eq.
      * intros a. rewrite list_elem_of_singleton. split; [auto|]. intros [?|?]; [done|lia].
  - simpl. destruct oper; try discriminate.
    pose proof (stored_first out (set_node_type NODE_UNARY_EXPR) w n0 Hout) as S0.
    apply (stored_next out (set_bool_op BOOL_NOT)) in S0.
    apply (stored_next out (set_owner true)) in S0.
    set (w2 := store_node _ _ (store_node _ _ (store_node _ _ w))) in *.
    apply load_node_Some in Hout.
    pose proof (wf_lt _ _ _ Hwf Hout) as Hlt.
    unfold malloc_node, malloc.
    assert (Hb2 : brk w2 = brk w) by apply S0.
    assert (Hl2 : limit w2 = limit w) by apply S0.
    rewrite Hb2, Hl2.
    destruct (N.ltb_spec (brk w) (limit w)) as [Hbl|Hbl].
    2:{ unfold NULL at 1. simpl. discriminate. }
    pose proof (stored_alloc_first out (set_expr1 (brk w)) _ _ _ S0 ltac:(lia)) as S1.
    apply (stored_alloc_next out (set_expr2 NULL)) in S1.
    destruct (N.eqb_spec (brk w) NULL) as [Hbn|Hbn]; [unfold NULL in Hbn; lia|].
    set (w5 := store_node _ _ (store_node _ _ (alloc _ w2))) in *.
    destruct (build_set_expr s1 (brk w) pol w5) as [rc w6] eqn:Hb1.
    destruct (Z.eqb_spec rc 0) as [->|]; [|congruence].
    intros [= <-].
    pose proof (stored_alloc_wf _ _ _ _ _ Hwf Hout S1) as Hwf5.
    destruct S1 as (Hc5 & Hb5 & ? & ? & ? & Hm5 & ? & ? & ?).
    assert (Hl5 : load_node (brk w) w5 = Some (junk_node w)).
    { apply load_node_Some. rewrite Hc5. rewrite lookup_insert_ne by lia.
      apply lookup_insert_eq. }
    destruct (IH1 _ _ _ _ Hwf5 Hl5 Hb1) as (Hwf6 & Hb6 & Henv & Hm6 & Hfr & t & fp & Ht & Htree & Hfp).
    destruct Henv as (? & ? & ? & ? & ? & ?).
    unfold built, same_env. split_and!; try congruence.
    + rewrite Hb6, Hb5. simpl. lia.
    + simpl. congruence.
    + intros a Ha Hlt'. rewrite Hfr by lia. rewrite Hc5.
      rewrite !lookup_insert_ne by lia. done.
    + simpl. rewrite Ht. eexists _, (fp ++ [out])%list. split_and!; [done| |].
      * eapply tree_at_unary with (n := set_expr2 NULL (set_expr1 (brk w) _)); try done.
        -- rewrite Hfr by lia. rewrite Hc5. apply lookup_insert_eq.
        -- done.
        -- done.
        -- done.
        -- intros Hin. apply Hfp in Hin. lia.
      * intros a. rewrite elem_of_app, list_elem_of_singleton, Hfp. lia.
  - simpl.
    destruct (match oper with SET_OP_UNION => Some BOOL_OR | SET_OP_INTER => Some BOOL_AND
                | SET_OP_NOT => None end) as [bop|] eqn:Hbop; [|discriminate].
    pose proof (stored_first out (set_node_type NODE_BINARY_EXPR) w n0 Hout) as S0.
    apply (stored_next out (set_bool_op bop)) in S0.
    apply (stored_next out (set_owner true)) in S0.
    set (w2 := store_node _ _ (store_node _ _ (store_node _ _ w))) in *.
    apply load_node_Some in Hout.
    pose proof (wf_lt _ _ _ Hwf Hout) as Hlt.
    unfold malloc_node at 1. unfold malloc.
    assert (Hb2 : brk w2 = brk w) by apply S0.
    assert (Hl2 : limit w2 = limit w) by apply S0.
    rewrite Hb2, Hl2.
    destruct (N.ltb_spec (brk w) (limit w)) as [Hbl|Hbl].
    2:{ unfold NULL at 1. simpl. discriminate. }
    pose proof (stored_alloc_first out (set_expr1 (brk w)) _ _ _ S0 ltac:(lia)) as S1.
    destruct (N.eqb_spec (brk w) NULL) as [Hbn|Hbn]; [unfold NULL in Hbn; lia|].
    set (w5 := store_node _ _ (alloc _ w2)) in *.
    destruct (build_set_expr s1 (brk w) pol w5) as [rc w6] eqn:Hb1.
    destruct (Z.eqb_spec rc 0) as [->|]; [|congruence].
    pose proof (stored_alloc_wf _ _ _ _ _ Hwf Hout S1) as Hwf5.
    destruct S1 as (Hc5 & Hb5 & ? & ? & ? & Hm5 & ? & ? & ?).
    assert (Hl5 : load_node (brk w) w5 = Some (junk_node w)).
    { apply load_node_Some. rewrite Hc5. rewrite lookup_insert_ne by lia.
      apply lookup_insert_eq. }
    destruct (IH1 _ _ _ _ Hwf5 Hl5 Hb1)
      as (Hwf6 & Hb6 & Henv6 & Hm6 & Hfr6 & t1 & fp1 & Ht1 & Htree1 & Hfp1).
    destruct Henv6 as (? & ? & ? & ? & ? & ?).
    set (n1 := set_expr1 (brk w) _) in *.
    assert (Hout6 : cells w6 !! out = Some (ObjNode n1)).
    { rewrite Hfr6 by lia. rewrite Hc5. apply lookup_insert_eq. }
    pose proof (stored_refl _ _ _ Hout6) as S6.
    unfold malloc_node, malloc.
    destruct (N.ltb_spec (brk w6) (limit w6)) as [Hbl6|Hbl6].
    2:{ unfold NULL at 1. simpl. discriminate. }
    pose proof (stored_alloc_first out (set_expr2 (brk w6)) _ _ _ S6 ltac:(lia)) as S7.
    destruct (N.eqb_spec (brk w6) NULL) as [Hbn6|Hbn6]; [unfold NULL in Hbn6; lia|].
    set (w8 := store_node _ _ (alloc _ w6)) in *.
    destruct (build_set_expr s2 (brk w6) pol w8) as [rc w9] eqn:Hb2'.
    destruct (Z.eqb_spec rc 0) as [->|]; [|congruence].
    intros [= <-].
    pose proof (stored_alloc_wf _ _ _ _ _ Hwf6 Hout6 S7) as Hwf8.
    destruct S7 as (Hc8 & Hb8 & ? & ? & ? & Hm8 & ? & ? & ?).
    assert (Hl8 : load_node (brk w6) w8 = Some (junk_node w6)).
    { apply load_node_Some. rewrite Hc8. rewrite lookup_insert_ne by lia.
      apply lookup_insert_eq. }
    destruct (IH2 _ _ _ _ Hwf8 Hl8 Hb2')
      as (Hwf9 & Hb9 & Henv9 & Hm9 & Hfr9 & t2 & fp2 & Ht2 & Htree2 & Hfp2).
    destruct Henv9 as (? & ? & ? & ? & ? & ?).
    unfold built, same_env. split_and!; try congruence.
    + rewrite Hb9, Hb8, Hb6, Hb5. simpl. lia.
    + simpl. congruence.
    + intros a Ha Hlt'. rewrite Hfr9 by lia. rewrite Hc8.
      rewrite !lookup_insert_ne by lia. rewrite Hfr6 by lia. rewrite Hc5.
      rewrite !lookup_insert_ne by lia. done.
    + assert (Hbop' : set_expr_tree_with (find_fileset (fileset_list pol)) (SetBinary oper s1 s2) =
                      inr (Binary bop true t1 t2)).
      { simpl. rewrite Ht1, Ht2. destruct oper; simpl in Hbop; congruence. }
      rewrite Hbop'. eexists _, (fp1 ++ fp2 ++ [out])%list. split_and!; [done| |].
      * eapply tree_at_binary with (n := set_expr2 (brk w6) n1).
        -- rewrite Hfr9 by lia. rewrite Hc8. apply lookup_insert_eq.
        -- done.
        -- done.
        -- done.
        -- apply (tree_at_agree (cells w6)); [exact Htree1|].
           intros a Ha. apply Hfp1 in Ha.
           rewrite Hfr9 by lia. rewrite Hc8. rewrite !lookup_insert_ne by lia. done.
        -- exact Htree2.
        -- intros a Ha1 Ha2. apply Hfp1 in Ha1. apply Hfp2 in Ha2. lia.
        -- intros Hin. apply Hfp1 in Hin. lia.
        -- intros Hin. apply Hfp2 in Hin. lia.
      * intros a. rewrite !elem_of_app, list_elem_of_singleton, Hfp1, Hfp2. lia.
Qed.

(** The return code of the builder when memory suffices. *)

Lemma build_set_expr_rc pol s : ∀ out w n0,
  wf_world w → load_node out w = Some n0 →
  (brk w + set_allocs s ≤ limit w)%N →
  fst (build_set_expr s out pol w) =
    match set_expr_tree_with (find_fileset (fileset_list pol)) s with inr _ => 0 | inl e => e end.
Proof.
  induction s as [name|oper s1 IH1|oper s1 IH1 s2 IH2]; intros out w n0 Hwf Hout Hmem.
  - simpl. by destruct find_fileset.
  - simpl. destruct oper; try done.
    pose proof (stored_first out (set_node_type NODE_UNARY_EXPR) w n0 Hout) as S0.
    apply (stored_next out (set_bool_op BOOL_NOT)) in S0.
    apply (stored_next out (set_owner true)) in S0.
    set (w2 := store_node _ _ (store_node _ _ (store_node _ _ w))) in *.
    apply load_node_Some in Hout.
    pose proof (wf_lt _ _ _ Hwf Hout) as Hlt.
    unfold malloc_node, malloc.
    assert (Hb2 : brk w2 = brk w) by apply S0.
    assert (Hl2 : limit w2 = limit w) by apply S0.
    rewrite Hb2, Hl2. simpl in Hmem.
    destruct (N.ltb_spec (brk w) (limit w)) as [Hbl|Hbl]; [|lia].
    pose proof (stored_alloc_first out (set_expr1 (brk w)) _ _ _ S0 ltac:(lia)) as S1.
    apply (stored_alloc_next out (set_expr2 NULL)) in S1.
    destruct (N.eqb_spec (brk w) NULL) as [Hbn|Hbn]; [unfold NULL in Hbn; lia|].
    set (w5 := store_node _ _ (store_node _ _ (alloc _ w2))) in *.
    pose proof (stored_alloc_wf _ _ _ _ _ Hwf Hout S1) as Hwf5.
    destruct S1 as (Hc5 & Hb5 & Hl5' & ? & ? & Hm5 & ? & ? & ?).
    assert (Hl5 : load_node (brk w) w5 = Some (junk_node w)).
    { apply load_node_Some. rewrite Hc5. rewrite lookup_insert_ne by lia.
      apply lookup_insert_eq. }
    specialize (IH1 (brk w) w5 _ Hwf5 Hl5 ltac:(lia)).
    destruct (build_set_expr s1 (brk w) pol w5) as [rc w6] eqn:Hb1.
    simpl in IH1. destruct (Z.eqb_spec rc 0) as [->|Hrc]; simpl.
    + destruct (set_expr_tree_with (find_fileset (fileset_list pol)) s1); [done|done].
    + destruct (set_expr_tree_with (find_fileset (fileset_list pol)) s1); [done|congruence].
  - simpl.
    destruct (match oper with SET_OP_UNION => Some BOOL_OR | SET_OP_INTER => Some BOOL_AND
                | SET_OP_NOT => None end) as [bop|] eqn:Hbop.
    2:{ by destruct oper. }
    pose proof (stored_first out (set_node_type NODE_BINARY_EXPR) w n0 Hout) as S0.
    apply (stored_next out (set_bool_op bop)) in S0.
    apply (stored_next out (set_owner true)) in S0.
    set (w2 := store_node _ _ (store_node _ _ (store_node _ _ w))) in *.
    apply load_node_Some in Hout.
    pose proof (wf_lt _ _ _ Hwf Hout) as Hlt.
    unfold malloc_node at 1. unfold malloc.
    assert (Hb2 : brk w2 = brk w) by apply S0.
    assert (Hl2 : limit w2 = limit w) by apply S0.
    rewrite Hb2, Hl2. simpl in Hmem.
    destruct (N.ltb_spec (brk w) (limit w)) as [Hbl|Hbl]; [|lia].
    pose proof (stored_alloc_first out (set_expr1 (brk w)) _ _ _ S0 ltac:(lia)) as S1.
    destruct (N.eqb_spec (brk w) NULL) as [Hbn|Hbn]; [unfold NULL in Hbn; lia|].
    set (w5 := store_node _ _ (alloc _ w2)) in *.
    pose proof (stored_alloc_wf _ _ _ _ _ Hwf Hout S1) as Hwf5.
    destruct S1 as (Hc5 & Hb5 & Hl5' & ? & ? & Hm5 & ? & ? & ?).
    assert (Hl5 : load_node (brk w) w5 = Some (junk_node w)).
    { apply load_node_Some. rewrite Hc5. rewrite lookup_insert_ne by lia.
      apply lookup_insert_eq. }
    pose proof (IH1 (brk w) w5 _ Hwf5 Hl5 ltac:(lia)) as Hrc1.
    destruct (build_set_expr s1 (brk w) pol w5) as [rc w6] eqn:Hb1.
    simpl in Hrc1. destruct (Z.eqb_spec rc 0) as [->|Hrc]; simpl.
    2:{ destruct (set_expr_tree_with (find_fileset (fileset_list pol)) s1); [|congruence]. by destruct oper. }
    destruct (build_set_expr_ok _ _ _ _ _ _ Hwf5 Hl5 Hb1)
      as (Hwf6 & Hb6 & Henv6 & Hm6 & Hfr6 & t1 & fp1 & Ht1 & Htree1 & Hfp1).
    destruct Henv6 as (Hl6 & ? & ? & ? & ? & ?).
    set (n1 := set_expr1 (brk w) _) in *.
    assert (Hout6 : cells w6 !! out = Some (ObjNode n1)).
    { rewrite Hfr6 by lia. rewrite Hc5. apply lookup_insert_eq. }
    pose proof (stored_refl _ _ _ Hout6) as S6.
    unfold malloc_node, malloc.
    destruct (N.ltb_spec (brk w6) (limit w6)) as [Hbl6|Hbl6]; [|lia].
    pose proof (stored_alloc_first out (set_expr2 (brk w6)) _ _ _ S6 ltac:(lia)) as S7.
    destruct (N.eqb_spec (brk w6) NULL) as [Hbn6|Hbn6]; [unfold NULL in Hbn6; lia|].
    set (w8 := store_node _ _ (alloc _ w6)) in *.
    pose proof (stored_alloc_wf _ _ _ _ _ Hwf6 Hout6 S7) as Hwf8.
    destruct S7 as (Hc8 & Hb8 & Hl8' & ? & ? & Hm8 & ? & ? & ?).
    assert (Hl8 : load_node (brk w6) w8 = Some (junk_node w6)).
    { apply load_node_Some. rewrite Hc8. rewrite lookup_insert_ne by lia.
      apply lookup_insert_eq. }
    pose proof (IH2 (brk w6) w8 _ Hwf8 Hl8 ltac:(lia)) as Hrc2.
    destruct (build_set_expr s2 (brk w6) pol w8) as [rc w9] eqn:Hb2'.
    simpl in Hrc2. rewrite Ht1.
    destruct (Z.eqb_spec rc 0) as [->|Hrc]; simpl.
    + destruct (set_expr_tree_with (find_fileset (fileset_list pol)) s2); [|by destruct oper]. by destruct oper.
    + destruct (set_expr_tree_with (find_fileset (fileset_list pol)) s2); [by destruct oper|congruence].
Qed.

(** ** Class lookup, and the shape of the specified tree *)

Lemma tolower_zero c : tolower c = Ascii.zero ↔ c = Ascii.zero.
Proof.
  split; [|by intros ->].
  unfold tolower. 
  destruct ((65 <=? N_of_ascii c) && (N_of_ascii c <=? 90))%N eqn:E; [|done].
  intros H. apply (f_equal N_of_ascii) in H.
  apply andb_true_iff in E as [E1 E2].
  apply N.leb_le in E1, E2.
  rewrite N_ascii_embedding in H by lia. simpl in H. lia.
Qed.

Lemma strcasecmp_zero s1 : ∀ s2,
  cstring s1 → cstring s2 →
  strcasecmp s1 s2 = 0 ↔ string_lower s1 = string_lower s2.
Proof.
  induction s1 as [|c1 r1 IH]; intros [|c2 r2] H1 H2; simpl in *.
  - done.
  - destruct H2 as [Hc2 _]. split; [|done]. intros H.
    assert (N_of_ascii (tolower c2) = 0%N) as H0 by lia.
    apply (f_equal ascii_of_N) in H0. rewrite ascii_N_embedding in H0.
    apply (proj1 (tolower_zero _)) in H0. destruct (Hc2 H0).
  - destruct H1 as [Hc1 _]. split; [|done]. intros H.
    assert (N_of_ascii (tolower c1) = 0%N) as H0 by lia.
    apply (f_equal ascii_of_N) in H0. rewrite ascii_N_embedding in H0.
    apply (proj1 (tolower_zero _)) in H0. destruct (Hc1 H0).
  - destruct H1 as [_ H1], H2 as [_ H2].
    destruct (Z.eqb_spec (Z.of_N (N_of_ascii (tolower c1)) - Z.of_N (N_of_ascii (tolower c2))) 0)
      as [Hd|Hd].
    + assert (tolower c1 = tolower c2) as ->.
      { assert (N_of_ascii (tolower c1) = N_of_ascii (tolower c2)) as H0 by lia.
        apply (f_equal ascii_of_N) in H0. by rewrite !ascii_N_embedding in H0. }
      rewrite IH by done. split; [by intros ->|]. by intros [= ->].
    + split; [done|]. intros [= Hc _]. rewrite Hc in Hd. lia.
Qed.

Lemma find_fileset_class_of pol name :
  (∀ c, c ∈ fileset_list pol → cstring (fileset_id c)) → cstring name →
  find_fileset (fileset_list pol) name = class_of pol name.
Proof.
  unfold class_of. induction (fileset_list pol) as [|c l IH]; intros Hids Hname; [done|].
  simpl.
  assert (Hc : cstring (fileset_id c)) by (apply Hids; set_solver).
  pose proof (strcasecmp_zero _ _ Hc Hname) as Hz.
  destruct (Z.eqb_spec (strcasecmp (fileset_id c) name) 0) as [H0|H0].
  - apply Hz in H0. rewrite H0. by rewrite String.eqb_refl.
  - destruct (String.eqb_spec (string_lower (fileset_id c)) (string_lower name)) as [E|E].
    + apply Hz in E. done.
    + apply IH; [|done]. intros; apply Hids; set_solver.
Qed.

Lemma set_expr_tree_code pol s :
  (∀ c, c ∈ fileset_list pol → cstring (fileset_id c)) →
  (∀ name, name ∈ set_names s → cstring name) →
  set_expr_tree_with (find_fileset (fileset_list pol)) s = set_expr_tree pol s ∧
  ∀ m, set_expr_mask_with (find_fileset (fileset_list pol)) s m = set_expr_mask pol s m.
Proof.
  intros Hids. unfold set_expr_tree, set_expr_mask.
  induction s as [name|oper s1 IH1|oper s1 IH1 s2 IH2]; intros Hn; simpl in *.
  - rewrite find_fileset_class_of; [done|done|]. apply Hn. set_solver.
  - destruct (IH1 Hn) as [-> Hm]. done.
  - destruct IH1 as [-> Hm1]; [intros; apply Hn; set_solver|].
    destruct IH2 as [-> Hm2]; [intros; apply Hn; set_solver|].
    split; [done|]. intros m. by rewrite Hm1, Hm2.
Qed.




(** ** The scan of [process_any_level_condition] *)

Lemma any_level_loop_step regexpr pos :
  any_level_loop regexpr pos =
    match strstr_from regexpr pos "**" with
    | None => true
    | Some curr =>
        if (0 <? curr)%nat
           && negb (bool_decide (String.get (curr - 1) regexpr = Some "/"%char))
        then false
        else if (curr + 2 <=? String.length regexpr - 1)%nat
                && negb (bool_decide (String.get (curr + 2) regexpr = Some "/"%char))
        then false
        else any_level_loop regexpr (curr + 2)
    end.
Proof.
  funelim (any_level_loop regexpr pos).
  - by rewrite Hcurr.
  - by rewrite e.
Qed.

Lemma substring_get s : ∀ i c1 c2,
  substring i 2 s = String c1 (String c2 EmptyString) →
  String.get i s = Some c1 ∧ String.get (i + 1) s = Some c2 ∧
  (i + 2 ≤ String.length s)%nat.
Proof.
  induction s as [|a s IH]; intros [|i] c1 c2; simpl; try done.
  - destruct s as [|b s]; simpl; [done|]. intros [= -> ->]. split_and!; [done..|lia].
  - intros Hs. destruct (IH _ _ _ Hs) as (? & ? & ?). split_and!; [done..|lia].
Qed.

Lemma any_level_loop_spec regexpr : ∀ n pos,
  (String.length regexpr - pos < n)%nat →
  any_level_loop regexpr pos = true ↔
  ∀ i, (pos ≤ i)%nat → double_star_at regexpr i → flanked regexpr i.
Proof.
  induction n as [|n IH]; intros pos Hn; [lia|].
  rewrite any_level_loop_step. unfold strstr_from.
  destruct (String.index pos "**" regexpr) as [curr|] eqn:Hidx.
  - pose proof (index_ge _ _ _ _ Hidx) as Hge.
    pose proof (index_correct1 _ _ _ _ Hidx) as Hat. simpl in Hat.
    pose proof (index_correct2 _ _ _ _ Hidx) as Hbefore. simpl in Hbefore.
    destruct (substring_get _ _ _ _ Hat) as (Hg0 & Hg1 & Hlen).
    destruct ((0 <? curr)%nat
              && negb (bool_decide (String.get (curr - 1) regexpr = Some "/"%char)))
      eqn:Hprev.
    { split; [done|]. intros Hall.
      destruct (Hall curr Hge Hat) as [[->|Hp] _]; [done|].
      apply andb_true_iff in Hprev as [_ Hprev].
      rewrite bool_decide_eq_true_2 in Hprev by done. done. }
    destruct ((curr + 2 <=? String.length regexpr - 1)%nat
              && negb (bool_decide (String.get (curr + 2) regexpr = Some "/"%char)))
      eqn:Hnext.
    { split; [done|]. intros Hall.
      apply andb_true_iff in Hnext as [Hle Hnext]. apply Nat.leb_le in Hle.
      destruct (Hall curr Hge Hat) as [_ [He|Hp]]; [lia|].
      rewrite bool_decide_eq_true_2 in Hnext by done. done. }
    rewrite (IH (curr + 2)%nat) by lia.
    assert (Hfl : flanked regexpr curr).
    { split.
      - destruct curr as [|c]; [by left|right].
        apply andb_false_iff in Hprev as [Hprev|Hprev]; [done|].
        apply negb_false_iff, bool_decide_eq_true in Hprev. done.
      - apply andb_false_iff in Hnext as [Hnext|Hnext].
        + left. apply Nat.leb_gt in Hnext. lia.
        + right. by apply negb_false_iff, bool_decide_eq_true in Hnext. }
    split.
    + intros Hrest i Hi Hati.
      destruct (Nat.lt_ge_cases i curr) as [Hlt|Hge'].
      { by destruct (Hbefore i Hi Hlt). }
      destruct (Nat.eq_dec i curr) as [->|Hne]; [done|].
      destruct (Nat.eq_dec i (curr + 1)%nat) as [->|Hne'].
      { destruct (substring_get _ _ _ _ Hati) as (_ & Hg2 & Hlen2).
        replace (curr + 1 + 1)%nat with (curr + 2)%nat in Hg2 by lia.
        destruct Hfl as [_ [He|Hp]]; [lia|congruence]. }
      apply Hrest; [lia|done].
    + intros Hall i Hi Hati. apply Hall; [lia|done].
  - split; [|done]. intros _ i Hi Hati.
    pose proof (index_correct3 pos i "**" regexpr Hidx) as Hno. simpl in Hno.
    destruct Hno; [done|lia|done].
Qed.

Lemma any_level_loop_flanked regexpr :
  any_level_loop regexpr 0 = true ↔
  ∀ i, double_star_at regexpr i → flanked regexpr i.
Proof.
  rewrite (any_level_loop_spec regexpr (S (String.length regexpr)) 0) by lia.
  split; intros Hall i; [apply Hall; lia | intros _; apply Hall].
Qed.

(** ** Lemmas on the criteria compiler *)

Section CriteriaLemmas.

Context `{rbh_env}.

Lemma check_comparable_inv kv flags st rc st' :
  check_comparable kv flags st = (rc, st') →
  (rc = 0 ∧ st' = st) ∨
  (rc = EINVAL ∧
   st' = sprintf_err ("Illegal comparator for " +:+ varname kv
                      +:+ " criteria: == or != expected") st).
Proof.
  unfold check_comparable. case_match; intros [= <- <-]; auto.
Qed.

Lemma string_wildcards_inv kv flags st st1 :
  string_wildcards kv flags st = inr st1 →
  t_op (c_triplet st) = syntax2conf_comparator (op_type kv) →
  (WILDCARDS_IN (varvalue kv) = true → has_flag flags PFLG_NO_WILDCARDS = false) ∧
  t_op (c_triplet st1) = rewritten_op (op_type kv) (varvalue kv) ∧
  t_flags (c_triplet st1) = t_flags (c_triplet st) ∧
  c_attr_mask st1 = c_attr_mask st ∧ c_err_msg st1 = c_err_msg st.
Proof.
  unfold string_wildcards, rewritten_op. intros Hw Hop.
  destruct (WILDCARDS_IN (varvalue kv)).
  - destruct (has_flag flags PFLG_NO_WILDCARDS); [done|].
    rewrite Hop in Hw.
    destruct (op_type kv); simpl in Hw; injection Hw as <-; simpl; by rewrite ?Hop.
  - injection Hw as <-. by rewrite Hop.
Qed.

Lemma string_wildcards_fault kv flags st st1 :
  string_wildcards kv flags st = inr st1 → c_fault st1 = c_fault st.
Proof.
  unfold string_wildcards.
  destruct (WILDCARDS_IN (varvalue kv)); [|by intros [= <-]].
  destruct (has_flag flags PFLG_NO_WILDCARDS); [done|].
  destruct (t_op (c_triplet st)); by intros [= <-].
Qed.

Lemma string_wildcards_rc kv flags st r :
  string_wildcards kv flags st = inl r → fst r = EINVAL.
Proof.
  unfold string_wildcards.
  destruct (WILDCARDS_IN (varvalue kv)); [|done].
  destruct (has_flag flags PFLG_NO_WILDCARDS); [by intros [= <-]|].
  by destruct (t_op (c_triplet st)).
Qed.

Lemma string_value_op kv flags smi st st1 :
  string_value kv flags smi st = inr st1 →
  t_op (c_triplet st1) = t_op (c_triplet st).
Proof.
  unfold string_value.
  repeat match goal with
         | |- context [if ?b then _ else _] => destruct b
         | |- context [match ?x with _ => _ end] => destruct x
         end; intros Heq; try discriminate Heq; injection Heq as <-; done.
Qed.

Lemma process_any_level_condition_inv regexpr msg :
  (any_level_loop regexpr 0 = true ∧
   process_any_level_condition regexpr msg =
     (0, str_replace (str_replace regexpr "?" "[!/]") "**" "*", msg)) ∨
  (any_level_loop regexpr 0 = false ∧
   fst (fst (process_any_level_condition regexpr msg)) = EINVAL).
Proof.
  unfold process_any_level_condition. destruct (any_level_loop regexpr 0); auto.
Qed.

(** X2: [process_any_level_condition] returns 0 exactly when every [**]
    of the expression has a [/] on each side that is not an end of the
    string; it then leaves the expression with [?] replaced by [[!/]] and
    [**] by [*], and the message untouched; otherwise it returns [EINVAL],
    leaves the expression as it is and writes its message. *)
Theorem process_any_level_condition_accepts regexpr msg :
  let r := process_any_level_condition regexpr msg in
  (fst (fst r) = 0 ↔ ∀ i, double_star_at regexpr i → flanked regexpr i) ∧
  (fst (fst r) = 0 →
     r = (0, str_replace (str_replace regexpr "?" "[!/]") "**" "*", msg)) ∧
  (fst (fst r) ≠ 0 →
     r = (EINVAL, regexpr,
          "Character before and after '**' must be a '/' in '" +:+ regexpr +:+ "'")).
Proof.
  intros r. subst r. unfold process_any_level_condition.
  rewrite <- any_level_loop_flanked.
  destruct (any_level_loop regexpr 0); simpl; split_and!; try done.
Qed.

Lemma string_value_rc kv flags smi st r :
  string_value kv flags smi st = inl r → fst r = EINVAL.
Proof.
  unfold string_value.
  destruct (has_flag flags PFLG_XATTR).
  { by repeat case_match. }
  destruct (has_flag flags PFLG_STATUS).
  { repeat case_match; try done; by intros [= <-]. }
  destruct (ANY_LEVEL_MATCH _); [|done].
  destruct (has_flag flags PFLG_ALLOW_ANY_DEPTH); [|by intros [= <-]].
  match goal with |- context [process_any_level_condition ?a ?b] =>
    destruct (process_any_level_condition_inv a b) as [[Hl Hp]|[Hl Hp]] end.
  - rewrite Hp. done.
  - destruct (process_any_level_condition _ _) as [[rc s'] m']. simpl in Hp. subst rc.
    simpl. by intros [= <-].
Qed.

Lemma string_value_any_level kv flags smi st :
  has_flag flags PFLG_XATTR = false →
  has_flag flags PFLG_STATUS = false →
  let str := rh_strncpy (varvalue kv) RBH_PATH_MAX in
  ANY_LEVEL_MATCH str = true →
  string_value kv flags smi st =
    if has_flag flags PFLG_ALLOW_ANY_DEPTH then
      if any_level_loop str 0 then
        inr (mk_cond
               (set_t_flags (Z.lor (t_flags (c_triplet st)) CMP_FLG_ANY_LEVEL)
                  (set_t_val
                     (VAL_STR (str_replace (str_replace str "?" "[!/]") "**" "*"))
                     (c_triplet st)))
               (c_attr_mask st) (c_err_msg st) (c_fault st || val_str_overrun str))
      else
        inl (EINVAL,
             mk_cond (set_t_val (VAL_STR str) (c_triplet st)) (c_attr_mask st)
               ("Character before and after '**' must be a '/' in '" +:+ str +:+ "'")
               (c_fault st))
    else
      inl (EINVAL,
           sprintf_literal (with_triplet (set_t_val (VAL_STR str)) st)).
Proof.
  intros Hx Hs str Hany. unfold string_value. fold str. rewrite Hx, Hs, Hany.
  destruct (has_flag flags PFLG_ALLOW_ANY_DEPTH); [|done].
  unfold process_any_level_condition, val_str_overrun.
  destruct (any_level_loop str 0); simpl; [done|].
  unfold val_str_fault. simpl. by rewrite orb_false_r.
Qed.

Lemma criteria2condition_no_status kv st crit type attr_mask flags smi :
  has_flag flags PFLG_STATUS = false →
  criteria2condition kv st crit type attr_mask flags smi =
    match criteria2condition_value kv type flags smi
            (entering kv crit attr_mask (or_attr_mask attr_mask st)) with
    | inl r => r
    | inr st1 => check_comparable kv flags st1
    end.
Proof.
  intros Hs. unfold criteria2condition, criteria2condition_status. by rewrite Hs.
Qed.

Lemma criteria2condition_cases kv st crit type attr_mask flags smi :
  (∃ r, criteria2condition_status kv attr_mask flags smi st = inl r ∧
        criteria2condition kv st crit type attr_mask flags smi = r ∧ fst r = EINVAL) ∨
  (∃ st0, criteria2condition_status kv attr_mask flags smi st = inr st0 ∧
          c_triplet st0 = c_triplet st ∧
          criteria2condition kv st crit type attr_mask flags smi =
            match criteria2condition_value kv type flags smi
                    (entering kv crit attr_mask st0) with
            | inl r => r
            | inr st1 => check_comparable kv flags st1
            end).
Proof.
  unfold criteria2condition, criteria2condition_status.
  destruct (has_flag flags PFLG_STATUS); [destruct smi|]; eauto.
Qed.

(** C2 (amended): for a string criterion that is neither an extended
    attribute nor a status, compiled with [PFLG_ALLOW_ANY_DEPTH], and a
    value whose bounded copy holds the token [**], that is not refused
    for a slash and that can be rewritten within [val.str]: the run has
    no undefined behaviour of its own; when the condition compiles, every
    [**] has a [/] on each side that is not an end of the string, the
    stored value is the copy with [?] replaced by [[!/]] and then [**] by
    [*], [CMP_FLG_ANY_LEVEL] is set in the flags of the triplet and the
    message is left as it was; and when some [**] lacks a [/] the result
    is [EINVAL]. *)
Theorem criteria2condition_any_level kv st crit attr_mask flags smi :
  has_flag flags PFLG_XATTR = false →
  has_flag flags PFLG_STATUS = false →
  has_flag flags PFLG_ALLOW_ANY_DEPTH = true →
  has_flag flags PFLG_NO_SLASH && SLASH_IN (varvalue kv) = false →
  let str := rh_strncpy (varvalue kv) RBH_PATH_MAX in
  ANY_LEVEL_MATCH str = true →
  val_str_overrun str = false →
  let r := criteria2condition kv st crit PT_STRING attr_mask flags smi in
  c_fault (snd r) = c_fault st ∧
  (fst r = 0 →
     (∀ i, double_star_at str i → flanked str i) ∧
     t_val (c_triplet (snd r)) =
       VAL_STR (str_replace (str_replace str "?" "[!/]") "**" "*") ∧
     t_flags (c_triplet (snd r)) = Z.lor (t_flags (c_triplet st)) CMP_FLG_ANY_LEVEL ∧
     c_err_msg (snd r) = c_err_msg st) ∧
  (¬ (∀ i, double_star_at str i → flanked str i) → fst r = EINVAL).
Proof.
  intros Hx Hs Hallow Hslash str Hany Hfit r. subst r.
  rewrite criteria2condition_no_status by done.
  unfold criteria2condition_value, criteria2condition_string.
  set (st0 := entering _ _ _ _).
  assert (Hfl0 : t_flags (c_triplet st0) = t_flags (c_triplet st)) by done.
  assert (Hm0 : c_err_msg st0 = c_err_msg st) by done.
  assert (Hf0 : c_fault st0 = c_fault st) by done.
  assert (Hne : EMPTY_STRING (varvalue kv) = false).
  { destruct (varvalue kv) as [|c v]; [|done].
    unfold str, rh_strncpy in Hany. by destruct (RBH_PATH_MAX - 1)%nat. }
  rewrite Hne, andb_false_r, Hslash.
  destruct (string_wildcards kv flags st0) as [r|st1] eqn:Hw.
  { pose proof (string_wildcards_rc _ _ _ _ Hw) as Hrc. rewrite Hrc.
    split_and!; [|done..].
    revert Hw. unfold string_wildcards.
    destruct (WILDCARDS_IN (varvalue kv)); [|done].
    destruct (has_flag flags PFLG_NO_WILDCARDS); [by intros [= <-]|].
    by destruct (t_op (c_triplet st0)). }
  destruct (string_wildcards_inv _ _ _ _ Hw eq_refl) as (_ & _ & Hfl1 & _ & Hm1).
  pose proof (string_wildcards_fault _ _ _ _ Hw) as Hf1.
  rewrite (string_value_any_level kv flags smi st1 Hx Hs Hany). fold str.
  rewrite Hallow, Hfit.
  destruct (any_level_loop str 0) eqn:Hloop.
  2:{ simpl. split_and!; [congruence|done..]. }
  pose proof (proj1 (any_level_loop_flanked str) Hloop) as Hall.
  match goal with |- context [check_comparable kv flags ?s] =>
    destruct (check_comparable kv flags s) as [rc st3] eqn:Hc end.
  destruct (check_comparable_inv _ _ _ _ _ Hc) as [[-> ->]|[-> ->]]; simpl.
  - rewrite orb_false_r. split_and!; [congruence| |by intros []].
    intros _. split_and!; [done|done|congruence..].
  - rewrite orb_false_r. split_and!; [congruence|done..].
Qed.

(** C4: in a compiled string condition the stored operator is [LIKE]
    exactly when the operator of the syntax tree is [==] and the value
    holds one of [*], [?], [[], [UNLIKE] exactly when it is [!=] and the
    value holds one, and the direct translation of the syntactic operator
    in every other case, in particular for every value without wildcard;
    a value with a wildcard compiles only without [PFLG_NO_WILDCARDS]. *)
Theorem criteria2condition_string_operator kv st crit attr_mask flags smi rc st' :
  criteria2condition kv st crit PT_STRING attr_mask flags smi = (rc, st') →
  rc = 0 →
  t_op (c_triplet st') = rewritten_op (op_type kv) (varvalue kv) ∧
  (WILDCARDS_IN (varvalue kv) = true → has_flag flags PFLG_NO_WILDCARDS = false) ∧
  (t_op (c_triplet st') = COMP_LIKE ↔
     op_type kv = OP_EQUAL ∧ WILDCARDS_IN (varvalue kv) = true) ∧
  (t_op (c_triplet st') = COMP_UNLIKE ↔
     op_type kv = OP_DIFF ∧ WILDCARDS_IN (varvalue kv) = true) ∧
  (t_op (c_triplet st') ≠ COMP_LIKE → t_op (c_triplet st') ≠ COMP_UNLIKE →
     t_op (c_triplet st') = syntax2conf_comparator (op_type kv)) ∧
  (WILDCARDS_IN (varvalue kv) = false →
     t_op (c_triplet st') = syntax2conf_comparator (op_type kv)).
Proof.
  intros Hc ->.
  assert (Hop : t_op (c_triplet st') = rewritten_op (op_type kv) (varvalue kv) ∧
          (WILDCARDS_IN (varvalue kv) = true → has_flag flags PFLG_NO_WILDCARDS = false)).
  { destruct (criteria2condition_cases kv st crit PT_STRING attr_mask flags smi)
      as [(r & _ & Hr & Hrc)|(st0 & _ & _ & Hr)].
    { rewrite Hc in Hr. subst r. done. }
    rewrite Hc in Hr. clear Hc.
    unfold criteria2condition_value, criteria2condition_string in Hr.
    destruct (has_flag flags PFLG_NOT_EMPTY && EMPTY_STRING (varvalue kv)); [done|].
    destruct (has_flag flags PFLG_NO_SLASH && SLASH_IN (varvalue kv)); [done|].
    destruct (string_wildcards kv flags _) as [r|st1] eqn:Hw.
    { apply string_wildcards_rc in Hw. subst r. done. }
    destruct (string_wildcards_inv _ _ _ _ Hw eq_refl) as (Hnw & Hop1 & _).
    destruct (string_value kv flags smi st1) as [r|st2] eqn:Hv.
    { apply string_value_rc in Hv. subst r. done. }
    apply string_value_op in Hv.
    symmetry in Hr.
    destruct (check_comparable_inv _ _ _ _ _ Hr) as [[_ ->]|[? _]]; [|done].
    split; [congruence|done]. }
  destruct Hop as [Hop Hnw]. rewrite Hop. unfold rewritten_op.
  split_and!; try done.
  - destruct (WILDCARDS_IN (varvalue kv)), (op_type kv); simpl; naive_solver.
  - destruct (WILDCARDS_IN (varvalue kv)), (op_type kv); simpl; naive_solver.
  - destruct (WILDCARDS_IN (varvalue kv)), (op_type kv); simpl; naive_solver.
  - by intros ->.
Qed.

End CriteriaLemmas.

(** ** Attribute masks, and the end of the criteria compiler *)

Lemma mask_le_refl m : mask_le m m.
Proof. by intros i. Qed.

Lemma mask_le_trans m1 m2 m3 : mask_le m1 m2 → mask_le m2 m3 → mask_le m1 m3.
Proof. intros H1 H2 i Hi. auto. Qed.

Lemma mask_le_lor m b : mask_le m (Z.lor m b).
Proof. intros i Hi. rewrite Z.lor_spec, Hi. done. Qed.

Section CriteriaTheorems.

Context `{rbh_env}.

Lemma CHECK_INT_VALUE_inv v flg kv st r :
  CHECK_INT_VALUE v flg kv st = Some r →
  fst r = EINVAL ∧ c_attr_mask (snd r) = c_attr_mask st.
Proof.
  unfold CHECK_INT_VALUE.
  destruct (_ && _); [by intros [= <-]|]. destruct (_ && _); [by intros [= <-]|done].
Qed.

Lemma string_wildcards_mask kv flags st :
  match string_wildcards kv flags st with
  | inl r => c_attr_mask (snd r) = c_attr_mask st
  | inr st1 => c_attr_mask st1 = c_attr_mask st
  end.
Proof.
  unfold string_wildcards. destruct (WILDCARDS_IN _); [|done].
  destruct (has_flag flags PFLG_NO_WILDCARDS); [done|]. by destruct (t_op _).
Qed.

Lemma process_any_level_condition_fst regexpr msg :
  ∃ rc s m, process_any_level_condition regexpr msg = (rc, s, m).
Proof. destruct (process_any_level_condition regexpr msg) as [[rc s] m]. eauto. Qed.

Lemma string_value_mask kv flags smi st :
  match string_value kv flags smi st with
  | inl r => c_attr_mask (snd r) = c_attr_mask st
  | inr st1 => c_attr_mask st1 = c_attr_mask st
  end.
Proof.
  unfold string_value.
  destruct (has_flag flags PFLG_XATTR).
  { destruct (strchr _ _) as [[|? ?]|]; done. }
  destruct (has_flag flags PFLG_STATUS).
  { destruct smi as [i|]; [|done]. destruct (get_status_str _ _); [done|].
    by destruct (0 <? _)%nat. }
  destruct (ANY_LEVEL_MATCH _); [|done].
  destruct (has_flag flags PFLG_ALLOW_ANY_DEPTH); [|done].
  destruct (process_any_level_condition _ _) as [[rc s] m].
  by destruct (negb (rc =? 0)).
Qed.

Lemma criteria2condition_value_mask kv type flags smi st :
  match criteria2condition_value kv type flags smi st with
  | inl r => c_attr_mask (snd r) = c_attr_mask st
  | inr st1 => c_attr_mask st1 = c_attr_mask st
  end.
Proof.
  unfold criteria2condition_value. destruct type; try done.
  - unfold criteria2condition_string.
    destruct (_ && _); [done|]. destruct (_ && _); [done|].
    pose proof (string_wildcards_mask kv flags st) as Hw.
    destruct (string_wildcards kv flags st) as [r|st1]; [done|].
    pose proof (string_value_mask kv flags smi st1) as Hv.
    destruct (string_value kv flags smi st1); congruence.
  - destruct (_ =? _); [done|].
    destruct (CHECK_INT_VALUE _ _ _ _) as [r|] eqn:E; [|done].
    by apply CHECK_INT_VALUE_inv in E as [_ ->].
  - destruct (_ =? _); [done|].
    destruct (CHECK_INT_VALUE _ _ _ _) as [r|] eqn:E; [|done].
    by apply CHECK_INT_VALUE_inv in E as [_ ->].
  - destruct (_ =? _); [done|].
    destruct (CHECK_INT_VALUE _ _ _ _) as [r|] eqn:E; [|done].
    by apply CHECK_INT_VALUE_inv in E as [_ ->].
  - by destruct (str2type _).
Qed.

Lemma check_comparable_mask kv flags st :
  c_attr_mask (snd (check_comparable kv flags st)) = c_attr_mask st.
Proof. unfold check_comparable. by destruct (_ && _). Qed.

(** The mask after [criteria2condition]: untouched when a status criterion
    meets no status manager, else the masks OR-ed in. *)
Lemma criteria2condition_mask kv st crit type attr_mask flags smi :
  let m' := c_attr_mask (snd (criteria2condition kv st crit type attr_mask flags smi)) in
  m' = c_attr_mask st ∨
  m' = Z.lor (Z.lor (c_attr_mask st) (u64 attr_mask)) (u64 attr_mask) ∨
  ∃ i, smi = Some i ∧ has_flag flags PFLG_STATUS = true ∧
       m' = Z.lor (Z.lor (c_attr_mask st) (u64 (SMI_MASK (smi_index i)))) (u64 attr_mask).
Proof.
  destruct (criteria2condition_cases kv st crit type attr_mask flags smi)
    as [(r & Hs & -> & _)|(st0 & Hs & _ & ->)].
  - left. unfold criteria2condition_status in Hs.
    destruct (has_flag flags PFLG_STATUS); [|done]. destruct smi; [done|].
    by injection Hs as <-.
  - right.
    assert (Hm : c_attr_mask
              (snd match criteria2condition_value kv type flags smi
                           (entering kv crit attr_mask st0) with
                   | inl r => r
                   | inr st1 => check_comparable kv flags st1
                   end) = Z.lor (c_attr_mask st0) (u64 attr_mask)).
    { pose proof (criteria2condition_value_mask kv type flags smi
                    (entering kv crit attr_mask st0)) as Hv.
      destruct (criteria2condition_value _ _ _ _ _) as [r|st1]; [done|].
      by rewrite check_comparable_mask. }
    simpl. rewrite Hm. unfold criteria2condition_status in Hs.
    destruct (has_flag flags PFLG_STATUS) eqn:Hst.
    + destruct smi as [i|]; [|done]. injection Hs as <-. right. by exists i.
    + injection Hs as <-. by left.
Qed.

Lemma criteria2condition_mask_le kv st crit type attr_mask flags smi :
  mask_le (c_attr_mask st)
          (c_attr_mask (snd (criteria2condition kv st crit type attr_mask flags smi))).
Proof.
  destruct (criteria2condition_mask kv st crit type attr_mask flags smi)
    as [->|[->|(i & _ & _ & ->)]].
  - apply mask_le_refl.
  - eapply mask_le_trans; apply mask_le_lor.
  - eapply mask_le_trans; apply mask_le_lor.
Qed.

Lemma interpret_condition_mask_le kv st smi :
  mask_le (c_attr_mask st) (c_attr_mask (snd (interpret_condition kv st smi))).
Proof.
  unfold interpret_condition.
  destruct (str2criteria (varname kv)); try apply mask_le_refl.
  all: apply (criteria2condition_mask_le kv (with_triplet (set_t_flags 0) st)).
Qed.

(** C5 (amended): on a criterion without [PFLG_COMPARABLE], once the
    status check and the parsing of the value have passed, the code
    returns [EINVAL] exactly when the operator of the triplet, after the
    rewriting of string conditions, is none of [==], [!=], [LIKE] and
    [UNLIKE]; the message is then Illegal comparator for <name> criteria:
    == or != expected, and otherwise the condition compiles. *)
Theorem criteria2condition_non_comparable kv st crit type attr_mask flags smi st0 st1 :
  has_flag flags PFLG_COMPARABLE = false →
  criteria2condition_status kv attr_mask flags smi st = inr st0 →
  criteria2condition_value kv type flags smi (entering kv crit attr_mask st0) = inr st1 →
  let r := criteria2condition kv st crit type attr_mask flags smi in
  let op := t_op (c_triplet st1) in
  (fst r = EINVAL ↔
     op ≠ COMP_EQUAL ∧ op ≠ COMP_DIFF ∧ op ≠ COMP_LIKE ∧ op ≠ COMP_UNLIKE) ∧
  (fst r = EINVAL →
     c_err_msg (snd r) =
       "Illegal comparator for " +:+ varname kv +:+ " criteria: == or != expected") ∧
  (fst r ≠ EINVAL → r = (0, st1)).
Proof.
  intros Hc Hs Hv r op. subst r.
  unfold criteria2condition. rewrite Hs. simpl.
  fold (entering kv crit attr_mask st0). rewrite Hv.
  unfold check_comparable. rewrite Hc. simpl. fold op.
  destruct op; simpl; split_and!; try done; naive_solver.
Qed.

(** A value the helper turns into [-1] is refused. *)
Lemma criteria2condition_minus_one kv st crit type attr_mask flags smi :
  (type = PT_INT ∧ str2int (varvalue kv) = -1) ∨
  (type = PT_DURATION ∧ str2duration (varvalue kv) = -1) →
  fst (criteria2condition kv st crit type attr_mask flags smi) = EINVAL.
Proof.
  intros Hm.
  destruct (criteria2condition_cases kv st crit type attr_mask flags smi)
    as [(r & _ & -> & Hr)|(st0 & _ & _ & ->)]; [done|].
  unfold criteria2condition_value.
  destruct Hm as [[-> ->]|[-> ->]]; done.
Qed.

End CriteriaTheorems.

(** ** Attribute masks through the builders *)

Lemma malloc_attr_mask o w : attr_mask (snd (malloc o w)) = attr_mask w.
Proof. unfold malloc. by destruct (brk w <? limit w)%N. Qed.

Lemma free_attr_mask p w : attr_mask (free p w) = attr_mask w.
Proof. unfold free. by destruct (p =? NULL)%N. Qed.

Lemma store_node_attr_mask p f w : attr_mask (store_node p f w) = attr_mask w.
Proof. apply store_node_env. Qed.

Lemma free_expr1_attr_mask p w : attr_mask (free_expr1 p w) = attr_mask w.
Proof. unfold free_expr1. destruct (load_node p w); [apply free_attr_mask|done]. Qed.

Lemma free_expr2_attr_mask p w : attr_mask (free_expr2 p w) = attr_mask w.
Proof. unfold free_expr2. destruct (load_node p w); [apply free_attr_mask|done]. Qed.

Lemma free_condition_attr_mask p w : attr_mask (free_condition p w) = attr_mask w.
Proof. unfold free_condition. destruct (load_node p w); [apply free_attr_mask|done]. Qed.

Lemma build_set_expr_mask_le pol s : ∀ out w,
  mask_le (attr_mask w) (attr_mask (snd (build_set_expr s out pol w))).
Proof.
  induction s as [name|oper s1 IH1|oper s1 IH1 s2 IH2]; intros out w; simpl.
  - destruct find_fileset as [c|]; simpl; [|apply mask_le_refl].
    rewrite ?store_node_attr_mask. simpl. rewrite ?store_node_attr_mask.
    apply mask_le_lor.
  - destruct oper; simpl; rewrite ?store_node_attr_mask; try apply mask_le_refl.
    unfold malloc_node.
    destruct (malloc _ _) as [e1 w1] eqn:Hm.
    assert (Hm1 : attr_mask w1 = attr_mask w).
    { change w1 with (snd (e1, w1)). rewrite <- Hm, malloc_attr_mask.
      by rewrite !store_node_attr_mask. }
    destruct (e1 =? NULL)%N; simpl.
    { rewrite store_node_attr_mask, Hm1. apply mask_le_refl. }
    specialize (IH1 e1 (store_node out (set_expr2 NULL) (store_node out (set_expr1 e1) w1))).
    rewrite !store_node_attr_mask, Hm1 in IH1.
    destruct (build_set_expr s1 e1 pol _) as [rc w2]. simpl in IH1.
    destruct (rc =? 0); simpl; by rewrite ?free_expr1_attr_mask.
  - destruct oper; simpl; rewrite ?store_node_attr_mask; try apply mask_le_refl.
    all: unfold malloc_node.
    all: destruct (malloc _ _) as [e1 w1] eqn:Hm.
    all: assert (Hm1 : attr_mask w1 = attr_mask w)
      by (change w1 with (snd (e1, w1)); rewrite <- Hm, malloc_attr_mask;
          by rewrite !store_node_attr_mask).
    all: destruct (e1 =? NULL)%N; simpl;
      [rewrite store_node_attr_mask, Hm1; apply mask_le_refl|].
    all: specialize (IH1 e1 (store_node out (set_expr1 e1) w1)).
    all: rewrite !store_node_attr_mask, Hm1 in IH1.
    all: destruct (build_set_expr s1 e1 pol _) as [rc w2]; simpl in IH1.
    all: destruct (rc =? 0); simpl; [|by rewrite ?free_expr1_attr_mask].
    all: destruct (malloc _ w2) as [e2 w3] eqn:Hm'.
    all: assert (Hm3 : attr_mask w3 = attr_mask w2)
      by (change w3 with (snd (e2, w3)); by rewrite <- Hm', malloc_attr_mask).
    all: destruct (e2 =? NULL)%N; simpl;
      [by rewrite store_node_attr_mask, Hm3|].
    all: specialize (IH2 e2 (store_node out (set_expr2 e2) w3)).
    all: rewrite !store_node_attr_mask, Hm3 in IH2.
    all: destruct (build_set_expr s2 e2 pol _) as [rc' w4]; simpl in IH2.
    all: destruct (rc' =? 0); simpl;
      rewrite ?free_expr1_attr_mask, ?free_expr2_attr_mask;
      by eapply mask_le_trans.
Qed.

Section BuilderMasks.

Context `{rbh_env}.

Lemma interpret_condition_at_mask_le kv p smi w :
  mask_le (attr_mask w) (attr_mask (snd (interpret_condition_at kv p smi w))).
Proof.
  unfold interpret_condition_at. destruct (load_triplet p w) as [t|].
  - pose proof (interpret_condition_mask_le kv
                  (mk_cond t (attr_mask w) (err_msg w) (fault w)) smi) as Hle.
    by destruct (interpret_condition _ _ _) as [rc st].
  - pose proof (interpret_condition_mask_le kv
                  (mk_cond (junk_triplet w) (attr_mask w) (err_msg w) true) smi) as Hle.
    by destruct (interpret_condition _ _ _) as [rc st].
Qed.

Lemma build_bool_expr_mask_le e : ∀ out smi w,
  mask_le (attr_mask w) (attr_mask (snd (build_bool_expr e out smi w))).
Proof.
  induction e as [kv|oper e1 IH1|oper e1 IH1 e2 IH2|ty]; intros out smi w; simpl.
  - unfold malloc_triplet.
    destruct (malloc _ _) as [c w1] eqn:Hm.
    assert (Hm1 : attr_mask w1 = attr_mask w).
    { change w1 with (snd (c, w1)). rewrite <- Hm, malloc_attr_mask.
      by rewrite !store_node_attr_mask. }
    destruct (c =? NULL)%N; simpl.
    { rewrite store_node_attr_mask, Hm1. apply mask_le_refl. }
    pose proof (interpret_condition_at_mask_le kv c smi
                  (store_node out (set_condition c) w1)) as Hle.
    rewrite store_node_attr_mask, Hm1 in Hle.
    destruct (interpret_condition_at _ _ _ _) as [rc w2]. simpl in Hle.
    destruct (rc =? 0); simpl; by rewrite ?free_condition_attr_mask.
  - destruct oper; simpl; rewrite ?store_node_attr_mask; try apply mask_le_refl;
      try apply IH1.
    all: unfold malloc_node.
    all: destruct (malloc _ _) as [e1' w1] eqn:Hm.
    all: assert (Hm1 : attr_mask w1 = attr_mask w)
      by (change w1 with (snd (e1', w1)); rewrite <- Hm, malloc_attr_mask;
          by rewrite !store_node_attr_mask).
    all: destruct (e1' =? NULL)%N; simpl;
      [rewrite store_node_attr_mask, Hm1; apply mask_le_refl|].
    all: specialize (IH1 e1' smi
           (store_node out (set_expr2 NULL) (store_node out (set_expr1 e1') w1))).
    all: rewrite !store_node_attr_mask, Hm1 in IH1.
    all: destruct (build_bool_expr e1 e1' smi _) as [rc w2]; simpl in IH1.
    all: destruct (rc =? 0); simpl; by rewrite ?free_expr1_attr_mask.
  - destruct oper; simpl; rewrite ?store_node_attr_mask; try apply mask_le_refl.
    all: unfold malloc_node.
    all: destruct (malloc _ _) as [e1' w1] eqn:Hm.
    all: assert (Hm1 : attr_mask w1 = attr_mask w)
      by (change w1 with (snd (e1', w1)); rewrite <- Hm, malloc_attr_mask;
          by rewrite !store_node_attr_mask).
    all: destruct (e1' =? NULL)%N; simpl;
      [rewrite store_node_attr_mask, Hm1; apply mask_le_refl|].
    all: specialize (IH1 e1' smi (store_node out (set_expr1 e1') w1)).
    all: rewrite !store_node_attr_mask, Hm1 in IH1.
    all: destruct (build_bool_expr e1 e1' smi _) as [rc w2]; simpl in IH1.
    all: destruct (rc =? 0); simpl; [|by rewrite ?free_expr1_attr_mask].
    all: destruct (malloc _ w2) as [e2' w3] eqn:Hm'.
    all: assert (Hm3 : attr_mask w3 = attr_mask w2)
      by (change w3 with (snd (e2', w3)); by rewrite <- Hm', malloc_attr_mask).
    all: destruct (e2' =? NULL)%N; simpl;
      [by rewrite store_node_attr_mask, Hm3|].
    all: specialize (IH2 e2' smi (store_node out (set_expr2 e2') w3)).
    all: rewrite !store_node_attr_mask, Hm3 in IH2.
    all: destruct (build_bool_expr e2 e2' smi _) as [rc' w4]; simpl in IH2.
    all: destruct (rc' =? 0); simpl;
      rewrite ?free_expr1_attr_mask, ?free_expr2_attr_mask;
      by eapply mask_le_trans.
  - apply mask_le_refl.
Qed.

(** C6: the running attribute mask only grows.  The mask after
    [criteria2condition] contains the mask before it, and is that mask,
    or that mask with the mask of the criterion OR-ed in, or, for a
    status criterion, with the bit of the status manager and the mask of
    the criterion OR-ed in (each reduced to 64 bits); the mask after the
    boolean builder and after the set-expression builder contains the mask
    before, whatever they return. *)
Theorem attr_mask_monotone :
  (∀ kv st crit type attr_mask flags smi,
     mask_le (c_attr_mask st)
             (c_attr_mask (snd (criteria2condition kv st crit type attr_mask flags smi)))) ∧
  (∀ kv st crit type attr_mask flags smi,
     let m' := c_attr_mask (snd (criteria2condition kv st crit type attr_mask flags smi)) in
     m' = c_attr_mask st ∨
     m' = Z.lor (Z.lor (c_attr_mask st) (u64 attr_mask)) (u64 attr_mask) ∨
     ∃ i, smi = Some i ∧ has_flag flags PFLG_STATUS = true ∧
          m' = Z.lor (Z.lor (c_attr_mask st) (u64 (SMI_MASK (smi_index i))))
                     (u64 attr_mask)) ∧
  (∀ e out smi w,
     mask_le (attr_mask w) (attr_mask (snd (build_bool_expr e out smi w)))) ∧
  (∀ s out pol w,
     mask_le (attr_mask w) (attr_mask (snd (build_set_expr s out pol w)))).
Proof.
  split_and!.
  - apply criteria2condition_mask_le.
  - apply criteria2condition_mask.
  - intros. apply build_bool_expr_mask_le.
  - intros. apply build_set_expr_mask_le.
Qed.

End BuilderMasks.

(** ** The boolean builder and [GetBoolExpr] *)

Section BuilderTheorems.

Context `{rbh_env}.

Lemma interpret_condition_minus_one kv smi :
  str2criteria (varname kv) ≠ NO_CRITERIA →
  (cd_type (criteria_descr (str2criteria (varname kv))) = PT_INT
   ∧ str2int (varvalue kv) = -1) ∨
  (cd_type (criteria_descr (str2criteria (varname kv))) = PT_DURATION
   ∧ str2duration (varvalue kv) = -1) →
  ∀ st, fst (interpret_condition kv st smi) = EINVAL.
Proof.
  intros Hcrit Hm st. unfold interpret_condition.
  destruct (str2criteria (varname kv)) eqn:Hc; [done|..].
  all: by apply criteria2condition_minus_one.
Qed.

Lemma build_condition_failure kv smi out w n0 :
  (∀ st, fst (interpret_condition kv st smi) = EINVAL) →
  wf_world w → load_node out w = Some n0 → (brk w < limit w)%N →
  ∃ w', build_bool_expr (BoolCondition kv) out smi w = (EINVAL, w') ∧
        cells w' !! brk w = None ∧
        frees w' = (frees w ++ [brk w])%list ∧
        (∀ p t, load_triplet p w' = Some t → load_triplet p w = Some t).
Proof.
  intros Hrc Hwf Hout Hlim.
  apply load_node_Some in Hout.
  pose proof (wf_lt _ _ _ Hwf Hout) as Hlt.
  destruct Hwf as (Hnull & Hpos & Habove).
  destruct w as [cs b l jn jt m e fr fl]. simpl in *.
  unfold build_bool_expr, malloc_triplet, malloc, store_node, load_node. simpl.
  rewrite Hout. simpl.
  apply N.ltb_lt in Hlim. rewrite Hlim. simpl.
  rewrite lookup_insert_ne by lia. rewrite lookup_insert_eq. simpl.
  destruct (N.eqb_spec b NULL) as [Hb|Hb]; [unfold NULL in Hb; lia|].
  unfold interpret_condition_at, load_triplet. simpl.
  rewrite lookup_insert_ne by lia. rewrite lookup_insert_eq.
  specialize (Hrc (mk_cond jt m e fl)).
  destruct (interpret_condition kv _ smi) as [rc st]. simpl in Hrc. subst rc.
  simpl. unfold free_condition, load_node. simpl.
  rewrite lookup_insert_ne by lia. rewrite lookup_insert_eq. simpl.
  unfold free. rewrite (proj2 (N.eqb_neq b NULL)) by done. simpl.
  eexists. split; [reflexivity|]. simpl. split_and!.
  - apply lookup_delete_eq.
  - done.
  - intros p t. unfold load_triplet. simpl.
    destruct (decide (p = b)) as [->|Hpb]; [by rewrite lookup_delete_eq|].
    rewrite lookup_delete_ne by done. rewrite lookup_insert_ne by done.
    destruct (decide (p = out)) as [->|Hpo]; [by rewrite lookup_insert_eq|].
    rewrite lookup_insert_ne by done. rewrite lookup_insert_ne by done.
    by rewrite lookup_insert_ne by done.
Qed.

(** C10: a condition on an integer or duration criterion whose value the
    helper ([str2int], [str2duration]) turns into [-1] is refused with
    [EINVAL], as malformed input is; the boolean builder then frees the
    triplet it had allocated for the condition and leaves no new triplet
    in the store. *)
Theorem minus_one_is_a_parse_error kv smi :
  str2criteria (varname kv) ≠ NO_CRITERIA →
  (cd_type (criteria_descr (str2criteria (varname kv))) = PT_INT
   ∧ str2int (varvalue kv) = -1) ∨
  (cd_type (criteria_descr (str2criteria (varname kv))) = PT_DURATION
   ∧ str2duration (varvalue kv) = -1) →
  (∀ st, fst (interpret_condition kv st smi) = EINVAL) ∧
  (∀ out w n0,
     wf_world w → load_node out w = Some n0 → (brk w < limit w)%N →
     ∃ w', build_bool_expr (BoolCondition kv) out smi w = (EINVAL, w') ∧
           cells w' !! brk w = None ∧
           frees w' = (frees w ++ [brk w])%list ∧
           (∀ p t, load_triplet p w' = Some t → load_triplet p w = Some t)).
Proof.
  intros Hcrit Hm.
  pose proof (interpret_condition_minus_one kv smi Hcrit Hm) as Hrc.
  split; [done|]. intros out w n0. by apply build_condition_failure.
Qed.

(** C7: [GetBoolExpr] calls the builder exactly when the block holds a
    single [TYPE_BOOL_EXPR] child, and then appends [", line <n>"], with
    [n] the line of the expression, to the error message of a builder that
    returns a non-zero code, which it returns; on any other block its
    result is an error that does not depend on the builder: [EINVAL] when
    the argument is not a block, [ENOENT] on an empty block, [EINVAL] when
    the first child is not a boolean expression or is followed by another
    child. *)
Theorem GetBoolExpr_invokes_builder block_name p_bool_node smi w :
  let w0 := set_attr_mask 0 w in
  (∀ l name line e,
     GetBoolExpr (Some (TYPE_BLOCK l name [TYPE_BOOL_EXPR line e]))
                 block_name p_bool_node smi w =
       let '(rc, w1) := build_bool_expr e p_bool_node smi w0 in
       (rc,
        if rc =? 0 then w1
        else set_err_msg
               (err_msg w1 +:+ ", line "
                +:+ pretty (rh_config_GetItemLine (Some (TYPE_BOOL_EXPR line e)))) w1)) ∧
  (∀ block,
     (∀ l name line e, block ≠ Some (TYPE_BLOCK l name [TYPE_BOOL_EXPR line e])) →
     ∃ rc msg,
       (rc = EINVAL ∨ rc = ENOENT) ∧
       ∀ builder,
         GetBoolExpr_with builder block block_name p_bool_node smi w =
           (rc, set_err_msg msg w0)) ∧
  (∀ builder block,
     match block with Some (TYPE_BLOCK _ _ _) => False | _ => True end →
     GetBoolExpr_with builder block block_name p_bool_node smi w =
       (EINVAL, set_err_msg ("'" +:+ block_name +:+ "' is expected to be a block") w0)) ∧
  (∀ builder l name,
     GetBoolExpr_with builder (Some (TYPE_BLOCK l name [])) block_name p_bool_node smi w =
       (ENOENT,
        set_err_msg ("'" +:+ block_name +:+ "' block is empty, line "
                     +:+ pretty (rh_config_GetItemLine (Some (TYPE_BLOCK l name [])))) w0)) ∧
  (∀ builder l name subitem next,
     match subitem with TYPE_BOOL_EXPR _ _ => False | _ => True end →
     GetBoolExpr_with builder (Some (TYPE_BLOCK l name (subitem :: next)))
                      block_name p_bool_node smi w =
       (EINVAL,
        set_err_msg ("Boolean expression expected in block '" +:+ block_name
                     +:+ "', line " +:+ pretty (rh_config_GetItemLine (Some subitem)))
                    w0)) ∧
  (∀ builder l name line e item next,
     GetBoolExpr_with builder
       (Some (TYPE_BLOCK l name (TYPE_BOOL_EXPR line e :: item :: next)))
       block_name p_bool_node smi w =
       (EINVAL,
        set_err_msg ("A single boolean expression is expected in block '"
                     +:+ block_name +:+ "', line "
                     +:+ pretty (rh_config_GetItemLine (Some (TYPE_BOOL_EXPR line e))))
                    w0)).
Proof.
  intros w0. subst w0. split_and!.
  - intros l name line e. unfold GetBoolExpr, GetBoolExpr_with.
    destruct (build_bool_expr e p_bool_node smi (set_attr_mask 0 w)) as [rc w1].
    by destruct (rc =? 0).
  - intros block Hne. unfold GetBoolExpr_with, fail.
    destruct block as [[l name content|l kv|l e|l s]|]; try by eauto.
    destruct content as [|subitem next]; [by eauto|].
    destruct subitem as [l' name' c'|l' kv|l' e|l' s]; try by eauto.
    destruct next as [|item next]; [|by eauto].
    by destruct (Hne l name l' e).
  - by intros builder [[]|].
  - done.
  - by intros builder l name [].
  - done.
Qed.

End BuilderTheorems.

(** ** The scalar extractors *)

Section ParamTheorems.

Context `{rbh_env}.

Lemma find_param_missing {A} block block_name var_name flags (st : param_out A) :
  rh_config_GetItemByName block var_name = None →
  find_param block block_name var_name flags st =
    inl (ENOENT,
         if has_flag flags PFLG_MANDATORY then
           set_o_err_msg ("Missing mandatory parameter '" +:+ var_name
                          +:+ "' in block '" +:+ block_name +:+ "', line "
                          +:+ pretty (rh_config_GetItemLine block)) st
         else st).
Proof. unfold find_param. by intros ->. Qed.

(** C8: when the variable is absent from the block, each of the seven
    scalar extractors returns [ENOENT] and leaves its target as it was;
    the error buffer holds Missing mandatory parameter '<var>' in block
    '<block>', line <n> when [PFLG_MANDATORY] is set, and is empty
    otherwise. *)
Theorem missing_parameter block block_name var_name flags :
  rh_config_GetItemByName block var_name = None →
  let msg :=
    if has_flag flags PFLG_MANDATORY then
      "Missing mandatory parameter '" +:+ var_name +:+ "' in block '"
      +:+ block_name +:+ "', line " +:+ pretty (rh_config_GetItemLine block)
    else "" in
  (∀ target_size st,
     let r := GetStringParam block block_name var_name flags target_size st in
     fst r = ENOENT ∧ target (snd r) = target st ∧ o_err_msg (snd r) = msg) ∧
  (∀ st, let r := GetBoolParam block block_name var_name flags st in
     fst r = ENOENT ∧ target (snd r) = target st ∧ o_err_msg (snd r) = msg) ∧
  (∀ st, let r := GetIntParam block block_name var_name flags st in
     fst r = ENOENT ∧ target (snd r) = target st ∧ o_err_msg (snd r) = msg) ∧
  (∀ st, let r := GetInt64Param block block_name var_name flags st in
     fst r = ENOENT ∧ target (snd r) = target st ∧ o_err_msg (snd r) = msg) ∧
  (∀ st, let r := GetSizeParam block block_name var_name flags st in
     fst r = ENOENT ∧ target (snd r) = target st ∧ o_err_msg (snd r) = msg) ∧
  (∀ st, let r := GetDurationParam block block_name var_name flags st in
     fst r = ENOENT ∧ target (snd r) = target st ∧ o_err_msg (snd r) = msg) ∧
  (∀ st, let r := GetFloatParam block block_name var_name flags st in
     fst r = ENOENT ∧ target (snd r) = target st ∧ o_err_msg (snd r) = msg).
Proof.
  intros Hmiss msg. subst msg.
  split_and!; intros; subst r.
  - unfold GetStringParam. rewrite find_param_missing by done.
    by destruct (has_flag flags PFLG_MANDATORY).
  - unfold GetBoolParam. rewrite find_param_missing by done.
    by destruct (has_flag flags PFLG_MANDATORY).
  - unfold GetIntParam. rewrite find_param_missing by done.
    by destruct (has_flag flags PFLG_MANDATORY).
  - unfold GetInt64Param. rewrite find_param_missing by done.
    by destruct (has_flag flags PFLG_MANDATORY).
  - unfold GetSizeParam. rewrite find_param_missing by done.
    by destruct (has_flag flags PFLG_MANDATORY).
  - unfold GetDurationParam. rewrite find_param_missing by done.
    by destruct (has_flag flags PFLG_MANDATORY).
  - unfold GetFloatParam. rewrite find_param_missing by done.
    by destruct (has_flag flags PFLG_MANDATORY).
Qed.



(** The extractors that call [sscanf] write past [tmpbuf] on the values
    of [overruns_tmpbuf], the others never do. *)
Lemma take_extra_args_fault {A} curr_item extra block_name var_name (st : param_out A) :
  match take_extra_args curr_item extra block_name var_name st with
  | inl r => o_fault (snd r) = o_fault st
  | inr st' => o_fault st' = o_fault st
  end.
Proof.
  unfold take_extra_args. destruct (negb (extra =? 0)); [|done].
  by destruct (extra_args_tab st), (nb_extra_args st).
Qed.

Ltac fault_tail :=
  repeat match goal with
         | |- context [if ?b then _ else _] => destruct b; simpl; try done
         end;
  try match goal with
      | |- context [take_extra_args ?a ?b ?c ?d ?e] =>
          pose proof (take_extra_args_fault a b c d e) as Ht;
          destruct (take_extra_args a b c d e) as [r'|st']; simpl in *; by rewrite Ht
      end.

Lemma GetIntParam_fault block block_name var_name flags st :
  o_fault (snd (GetIntParam block block_name var_name flags st)) =
    o_fault st || overruns_tmpbuf sscanf_d_s block var_name.
Proof.
  unfold GetIntParam, find_param, overruns_tmpbuf.
  destruct (rh_config_GetItemByName block var_name) as [item|]; simpl.
  2:{ rewrite orb_false_r. by destruct (has_flag flags PFLG_MANDATORY). }
  destruct (rh_config_GetKeyValue item) as [[[rc name] value] extra].
  destruct (Z.eqb_spec rc 0) as [->|Hrc]; simpl; [|by rewrite orb_false_r].
  destruct (sscanf_d_s value) as [[nb v] w]. simpl.
  unfold param_error. fault_tail.
Qed.

Lemma GetInt64Param_fault block block_name var_name flags st :
  o_fault (snd (GetInt64Param block block_name var_name flags st)) =
    o_fault st || overruns_tmpbuf sscanf_u64_s block var_name.
Proof.
  unfold GetInt64Param, find_param, overruns_tmpbuf.
  destruct (rh_config_GetItemByName block var_name) as [item|]; simpl.
  2:{ rewrite orb_false_r. by destruct (has_flag flags PFLG_MANDATORY). }
  destruct (rh_config_GetKeyValue item) as [[[rc name] value] extra].
  destruct (Z.eqb_spec rc 0) as [->|Hrc]; simpl; [|by rewrite orb_false_r].
  destruct (sscanf_u64_s value) as [[nb v] w]. simpl.
  unfold param_error.
  destruct (nb <? 1); simpl; [done|].
  destruct ((1 <? nb) && negb (EMPTY_STRING w)) eqn:E; simpl.
  - destruct (int64_suffix w); simpl; [|done]. fault_tail.
  - fault_tail.
Qed.

Lemma GetFloatParam_fault block block_name var_name flags st :
  o_fault (snd (GetFloatParam block block_name var_name flags st)) =
    o_fault st || overruns_tmpbuf sscanf_lf_s block var_name.
Proof.
  unfold GetFloatParam, find_param, overruns_tmpbuf.
  destruct (rh_config_GetItemByName block var_name) as [item|]; simpl.
  2:{ rewrite orb_false_r. by destruct (has_flag flags PFLG_MANDATORY). }
  destruct (rh_config_GetKeyValue item) as [[[rc name] value] extra].
  destruct (Z.eqb_spec rc 0) as [->|Hrc]; simpl; [|by rewrite orb_false_r].
  destruct (sscanf_lf_s value) as [[nb v] w]. simpl.
  unfold param_error. fault_tail.
Qed.

Lemma find_param_fault {A} block block_name var_name flags (st : param_out A) :
  match find_param block block_name var_name flags st with
  | inl r => o_fault (snd r) = o_fault st
  | inr _ => True
  end.
Proof.
  unfold find_param.
  destruct (rh_config_GetItemByName block var_name) as [item|]; simpl.
  2:{ by destruct (has_flag flags PFLG_MANDATORY). }
  destruct (rh_config_GetKeyValue item) as [[[rc name] value] extra].
  by destruct (negb (rc =? 0)).
Qed.

Lemma GetStringParam_fault block block_name var_name flags size st :
  o_fault (snd (GetStringParam block block_name var_name flags size st)) = o_fault st.
Proof.
  unfold GetStringParam.
  match goal with |- context [find_param ?a ?b ?c ?d ?e] =>
    pose proof (find_param_fault a b c d e) as Hf;
    destruct (find_param a b c d e) as [r|[[item value] extra]]; [done|] end.
  match goal with |- context [take_extra_args ?a ?b ?c ?d ?e] =>
    pose proof (take_extra_args_fault a b c d e) as Ht;
    destruct (take_extra_args a b c d e) as [r'|st']; simpl in *; [done|] end.
  unfold param_error.
  repeat match goal with
         | |- context [if ?b then _ else _] => destruct b; simpl; try done
         end.
Qed.

Lemma GetBoolParam_fault block block_name var_name flags st :
  o_fault (snd (GetBoolParam block block_name var_name flags st)) = o_fault st.
Proof.
  unfold GetBoolParam.
  match goal with |- context [find_param ?a ?b ?c ?d ?e] =>
    pose proof (find_param_fault a b c d e) as Hf;
    destruct (find_param a b c d e) as [r|[[item value] extra]]; [done|] end.
  unfold param_error. fault_tail.
Qed.

Lemma GetDurationParam_fault block block_name var_name flags st :
  o_fault (snd (GetDurationParam block block_name var_name flags st)) = o_fault st.
Proof.
  unfold GetDurationParam.
  match goal with |- context [find_param ?a ?b ?c ?d ?e] =>
    pose proof (find_param_fault a b c d e) as Hf;
    destruct (find_param a b c d e) as [r|[[item value] extra]]; [done|] end.
  unfold param_error. fault_tail.
Qed.

Lemma GetSizeParam_fault block block_name var_name flags st :
  o_fault (snd (GetSizeParam block block_name var_name flags st)) = o_fault st.
Proof.
  unfold GetSizeParam.
  match goal with |- context [find_param ?a ?b ?c ?d ?e] =>
    pose proof (find_param_fault a b c d e) as Hf;
    destruct (find_param a b c d e) as [r|[[item value] extra]]; [done|] end.
  unfold param_error. fault_tail.
Qed.














End ParamTheorems.

(** ** [FreeBoolExpr] on the trees of the set-expression builder *)


(** C3.  The set-expression builder refines its specification
    [set_expr_tree]: a singleton is resolved up to letter case in the class
    table, and becomes the shallow copy of the class root with
    [owner = false], the class mask OR-ed into the running mask, or the
    builder returns [ENOENT]; [UNION], [INTER] and [NOT] become
    [BINARY(OR)], [BINARY(AND)] and [UNARY(NOT)] nodes with
    [owner = true]. *)
Theorem build_set_expr_refines pol s out w n0 :
  wf_world w → load_node out w = Some n0 →
  (brk w + set_allocs s ≤ limit w)%N →
  (∀ c, c ∈ fileset_list pol → cstring (fileset_id c)) →
  (∀ name, name ∈ set_names s → cstring name) →
  match set_expr_tree pol s with
  | inr t =>
      ∃ w' fp, build_set_expr s out pol w = (0, w') ∧
               tree_at (cells w') out t fp ∧
               attr_mask w' = set_expr_mask pol s (attr_mask w)
  | inl e => fst (build_set_expr s out pol w) = e
  end.
Proof.
  intros Hwf Hout Hmem Hids Hnames.
  destruct (set_expr_tree_code pol s Hids Hnames) as [Htree Hmask].
  pose proof (build_set_expr_rc pol s out w n0 Hwf Hout Hmem) as Hrc.
  rewrite Htree in Hrc.
  destruct (set_expr_tree pol s) as [e|t] eqn:Ht; [done|].
  destruct (build_set_expr s out pol w) as [rc w'] eqn:Hb. simpl in Hrc. subst rc.
  destruct (build_set_expr_ok _ _ _ _ _ _ Hwf Hout Hb)
    as (_ & _ & _ & Hm & _ & t' & fp & Ht' & Htr & _).
  rewrite Htree in Ht'. injection Ht' as <-.
  exists w', fp. by rewrite <- Hmask.
Qed.

Lemma wf_world5 : wf_world world5.
Proof.
  unfold wf_world, world5, cells5; simpl. split_and!; [done|done|].
  intros a Ha. rewrite !lookup_insert_ne by lia. apply lookup_empty.
Qed.


Lemma build_scenario5 :
  ∃ w', build_set_expr scenario5 7 policies5 world5 = (0, w').
Proof. eexists. vm_compute. reflexivity. Qed.



(** With [cold] defined by a single condition, each copy of its
    root shares the triplet of the class, and [FreeBoolExpr] frees that
    triplet with the copy: the class definition loses its condition, and
    in scenario 5, where [cold] occurs twice, it is freed twice. *)
Lemma scenario5_leaf_class_double_free :
  ∃ w' w'',
    build_set_expr scenario5 7 policies5_leaf world5 = (0, w') ∧
    FreeBoolExpr 6 7 true w' = Some (0, w'') ∧
    frees w'' = [9; 4; 10; 8; 4; 12; 11; 7]%N ∧
    cells w'' !! 4%N = None ∧ cells world5 !! 4%N = Some (ObjTriplet size_gt_10) ∧
    fault w'' = true.
Proof.
  eexists _, _. split_and!.
  - vm_compute. reflexivity.
  - vm_compute. reflexivity.
  - reflexivity.
  - vm_compute. reflexivity.
  - vm_compute. reflexivity.
  - reflexivity.
Qed.

(** ** The theorems on concrete inputs *)

(** The block [log { }] and the descriptor of [file], mandatory and an
    absolute path. *)
Lemma missing_parameter_witness :
  rh_config_GetItemByName (rbh_env := spec_env) block_log "file" = None ∧
  let flags := Z.lor PFLG_MANDATORY PFLG_ABSOLUTE_PATH in
  let r := GetStringParam (H := spec_env) block_log "log" "file" flags 1024%nat (no_extra "") in
  fst r = ENOENT ∧ target (snd r) = "" ∧
  o_err_msg (snd r) = "Missing mandatory parameter 'file' in block 'log', line 1".
Proof.
  split; [reflexivity|].
  exact (proj1 (@missing_parameter spec_env block_log "log" "file"
                  (Z.lor PFLG_MANDATORY PFLG_ABSOLUTE_PATH) eq_refl)
               1024%nat (no_extra "")).
Defined.



(** The condition [path == /data/**/tmp/*.log]. *)
Lemma criteria2condition_any_level_witness :
  let kv := cond_of "path" "/data/**/tmp/*.log" OP_EQUAL in
  let flags := Z.lor PFLG_ALLOW_ANY_DEPTH PFLG_NOT_EMPTY in
  let r := criteria2condition (H := spec_env) kv cond0 CRITERIA_PATH PT_STRING 1 flags None in
  fst r = 0 ∧
  (∀ i, double_star_at "/data/**/tmp/*.log" i → flanked "/data/**/tmp/*.log" i) ∧
  c_triplet (snd r) = mk_triplet CMP_FLG_ANY_LEVEL CRITERIA_PATH COMP_LIKE
                                 (VAL_STR "/data/*/tmp/*.log") "" ∧
  c_fault (snd r) = false.
Proof.
  cbv zeta.
  pose proof (@criteria2condition_any_level spec_env
                (cond_of "path" "/data/**/tmp/*.log" OP_EQUAL) cond0 CRITERIA_PATH 1
                (Z.lor PFLG_ALLOW_ANY_DEPTH PFLG_NOT_EMPTY) None
                eq_refl eq_refl eq_refl eq_refl eq_refl eq_refl)
    as (Hft & Hok & _).
  split; [reflexivity|]. split; [exact (proj1 (Hok eq_refl))|].
  split; [reflexivity|exact Hft].
Defined.

(** On an extended attribute the token [**] is neither refused nor
    rewritten, with or without [PFLG_ALLOW_ANY_DEPTH]. *)
Lemma xattr_any_level_is_kept :
  let kv := cond_of "xattr.user.foo" "a/**/b" OP_EQUAL in
  let compile flags :=
    criteria2condition (H := spec_env) kv cond0 CRITERIA_XATTR PT_STRING 1 flags None in
  ANY_LEVEL_MATCH (varvalue kv) = true ∧
  (has_flag PFLG_XATTR PFLG_ALLOW_ANY_DEPTH = false ∧
   fst (compile PFLG_XATTR) = 0 ∧
   c_triplet (snd (compile PFLG_XATTR)) =
     mk_triplet 0 CRITERIA_XATTR COMP_LIKE (VAL_STR "a/**/b") "user.foo") ∧
  (has_flag (Z.lor PFLG_XATTR PFLG_ALLOW_ANY_DEPTH) PFLG_ALLOW_ANY_DEPTH = true ∧
   fst (compile (Z.lor PFLG_XATTR PFLG_ALLOW_ANY_DEPTH)) = 0 ∧
   c_triplet (snd (compile (Z.lor PFLG_XATTR PFLG_ALLOW_ANY_DEPTH))) =
     mk_triplet 0 CRITERIA_XATTR COMP_LIKE (VAL_STR "a/**/b") "user.foo").
Proof.
  cbv zeta. split_and!; vm_compute; reflexivity.
Qed.

(** The condition [owner != ro*]. *)
Lemma criteria2condition_string_operator_witness :
  let compile value op :=
    criteria2condition (H := spec_env) (cond_of "owner" value op) cond0
                       CRITERIA_OWNER PT_STRING 8 PFLG_NOT_EMPTY None in
  fst (compile "ro*" OP_DIFF) = 0 ∧
  WILDCARDS_IN "ro*" = true ∧
  t_op (c_triplet (snd (compile "ro*" OP_DIFF))) = COMP_UNLIKE.
Proof.
  cbv zeta.
  set (r := criteria2condition (H := spec_env) (cond_of "owner" "ro*" OP_DIFF) cond0
              CRITERIA_OWNER PT_STRING 8 PFLG_NOT_EMPTY None).
  assert (Hr : r = (0, snd r)) by (vm_compute; reflexivity).
  destruct (@criteria2condition_string_operator spec_env
              (cond_of "owner" "ro*" OP_DIFF) cond0 CRITERIA_OWNER 8 PFLG_NOT_EMPTY
              None 0 (snd r) Hr eq_refl) as (_ & _ & _ & Hunlike & _).
  split; [reflexivity|]. split; [reflexivity|].
  apply Hunlike. split; reflexivity.
Defined.

(** The condition [type > file]. *)
Lemma criteria2condition_non_comparable_witness :
  let r := criteria2condition (H := spec_env) (cond_of "type" "file" OP_GT) cond0
             CRITERIA_TYPE PT_TYPE 4 0 None in
  has_flag 0 PFLG_COMPARABLE = false ∧
  fst r = EINVAL ∧
  c_err_msg (snd r) = "Illegal comparator for type criteria: == or != expected".
Proof.
  cbv zeta.
  eassert (H0 : criteria2condition_status (H := spec_env) (cond_of "type" "file" OP_GT)
                  4 0 None cond0 = inr _) by (vm_compute; reflexivity).
  eassert (H1 : criteria2condition_value (H := spec_env) (cond_of "type" "file" OP_GT)
                  PT_TYPE 0 None (entering (cond_of "type" "file" OP_GT) CRITERIA_TYPE 4 _)
                = inr _) by (vm_compute; reflexivity).
  destruct (@criteria2condition_non_comparable spec_env (cond_of "type" "file" OP_GT)
              cond0 CRITERIA_TYPE PT_TYPE 4 0 None _ _ eq_refl H0 H1)
    as (Hiff & Hmsg & _).
  split; [reflexivity|]. split; [reflexivity|]. apply Hmsg. reflexivity.
Defined.

(** [type == foo] and, where wildcards are not allowed, [owner == ro*]
    return [EINVAL] with the operator [==]; [type > foo] returns it with
    the message of the type, not that of the comparator. *)
Lemma type_equal_unknown_is_EINVAL :
  let r := criteria2condition (H := spec_env) (cond_of "type" "foo" OP_EQUAL) cond0
             CRITERIA_TYPE PT_TYPE 4 0 None in
  let r' := criteria2condition (H := spec_env) (cond_of "owner" "ro*" OP_EQUAL) cond0
              CRITERIA_OWNER PT_STRING 8 PFLG_NO_WILDCARDS None in
  (has_flag 0 PFLG_COMPARABLE = false ∧
   fst r = EINVAL ∧ t_op (c_triplet (snd r)) = COMP_EQUAL ∧
   c_err_msg (snd r) =
     "Illegal condition on type: file, directory, symlink, chr, blk, fifo or sock expected.") ∧
  (has_flag PFLG_NO_WILDCARDS PFLG_COMPARABLE = false ∧
   fst r' = EINVAL ∧ t_op (c_triplet (snd r')) = COMP_EQUAL ∧
   c_err_msg (snd r') = "No wildcard is allowed in owner criteria") ∧
  (let r2 := criteria2condition (H := spec_env) (cond_of "type" "foo" OP_GT) cond0
               CRITERIA_TYPE PT_TYPE 4 0 None in
   fst r2 = EINVAL ∧ t_op (c_triplet (snd r2)) = COMP_GRTHAN ∧
   c_err_msg (snd r2) ≠ "Illegal comparator for type criteria: == or != expected").
Proof.
  cbv zeta. split_and!; try (vm_compute; reflexivity). vm_compute. discriminate.
Qed.

(** The condition [depth == -1]. *)
Lemma minus_one_is_a_parse_error_witness :
  str2int (rbh_env := spec_env) "-1" = -1 ∧
  fst (interpret_condition (H := spec_env) (cond_of "depth" "-1" OP_EQUAL) cond0 None)
    = EINVAL ∧
  ∃ w', build_bool_expr (H := spec_env)
          (BoolCondition (cond_of "depth" "-1" OP_EQUAL)) 7 None world5 = (EINVAL, w') ∧
        cells w' !! 8%N = None ∧ frees w' = [8%N].
Proof.
  assert (Hcrit : str2criteria (rbh_env := spec_env)
                    (varname (cond_of "depth" "-1" OP_EQUAL)) ≠ NO_CRITERIA)
    by (vm_compute; discriminate).
  destruct (@minus_one_is_a_parse_error spec_env (cond_of "depth" "-1" OP_EQUAL) None
              Hcrit (or_introl (conj eq_refl eq_refl))) as [Hrc Hbuild].
  split; [reflexivity|]. split; [apply Hrc|].
  destruct (Hbuild 7%N world5 (leaf NULL) wf_world5 eq_refl) as (w' & Hb & Hc & Hf & _).
  { reflexivity. }
  exists w'. split_and!; [exact Hb|exact Hc|exact Hf].
Defined.

(** Scenario 5 over the classes [hot] and [cold]. *)
Lemma build_set_expr_refines_witness :
  ∃ t w' fp,
    set_expr_tree policies5 scenario5 = inr t ∧
    build_set_expr scenario5 7 policies5 world5 = (0, w') ∧
    tree_at (cells w') 7 t fp ∧
    attr_mask w' = set_expr_mask policies5 scenario5 (attr_mask world5).
Proof.
  assert (Hids : ∀ c, c ∈ fileset_list policies5 → cstring (fileset_id c)).
  { intros c Hc. unfold policies5 in Hc. simpl in Hc.
    apply elem_of_cons in Hc as [->|Hc]; [simpl; repeat split; discriminate|].
    apply elem_of_cons in Hc as [->|Hc]; [simpl; repeat split; discriminate|].
    by apply elem_of_nil in Hc. }
  assert (Hnames : ∀ name, name ∈ set_names scenario5 → cstring name).
  { intros name Hn. simpl in Hn.
    repeat (apply elem_of_cons in Hn as [->|Hn]; [simpl; repeat split; discriminate|]).
    by apply elem_of_nil in Hn. }
  assert (Hmem : (brk world5 + set_allocs scenario5 ≤ limit world5)%N)
    by (vm_compute; discriminate).
  pose proof (build_set_expr_refines policies5 scenario5 7 world5 (leaf NULL)
                wf_world5 eq_refl Hmem Hids Hnames) as Href.
  eassert (Ht : set_expr_tree policies5 scenario5 = inr _) by (vm_compute; reflexivity).
  rewrite Ht in Href.
  destruct Href as (w' & fp & Hb & Htree & Hmask).
  eexists _, w', fp. split_and!; [exact Ht|exact Hb|exact Htree|exact Hmask].
Defined.

(** A block with the single expression [depth == -1] at line 2. *)
Lemma GetBoolExpr_invokes_builder_witness :
  let r := GetBoolExpr (H := spec_env) block_depth "condition" 7 None world5 in
  fst r = EINVAL ∧
  err_msg (snd r) = "depth criteria: integer expected: '-1', line 2" ∧
  r = let '(rc, w1) := build_bool_expr (H := spec_env)
                         (BoolCondition (cond_of "depth" "-1" OP_EQUAL)) 7 None
                         (set_attr_mask 0 world5) in
      (rc, if rc =? 0 then w1 else set_err_msg (err_msg w1 +:+ ", line 2") w1).
Proof.
  cbv zeta. split; [vm_compute; reflexivity|]. split; [vm_compute; reflexivity|].
  exact (proj1 (@GetBoolExpr_invokes_builder spec_env "condition" 7 None world5)
               1 "condition" 2 (BoolCondition (cond_of "depth" "-1" OP_EQUAL))).
Defined.

(** ** What the scalar extractors accept and report *)

Section ScalarParamsTheorems.

Context `{rbh_env}.

(** Case analysis on everything a run of an extractor tests, the state
    apart. *)
Ltac split_run :=
  repeat (simpl;
          match goal with
          | |- context [match ?x with _ => _ end] =>
              lazymatch x with
              | context [mk_param_out] => fail
              | context [match _ with _ => _ end] => fail
              | _ => destruct x eqn:?
              end
          | |- context [if ?x then _ else _] =>
              lazymatch x with
              | context [mk_param_out] => fail
              | context [match _ with _ => _ end] => fail
              | _ => destruct x eqn:?
              end
          end).

Ltac unfold_run :=
  unfold GetStringParam, GetBoolParam, GetDurationParam, GetSizeParam,
    GetIntParam, GetInt64Param, GetFloatParam,
    find_param, take_extra_args, param_error, tmpbuf_store; simpl.

Lemma GetStringParam_same_run block block_name var_name flags size old1 old2 m1 m2 :
  same_run old1 old2
    (GetStringParam block block_name var_name flags size (mk_param_out old1 None None m1 false))
    (GetStringParam block block_name var_name flags size (mk_param_out old2 None None m2 false)).
Proof. unfold same_run. unfold_run. split_run; simpl; split_and!; auto. Qed.

Lemma GetBoolParam_same_run block block_name var_name flags old1 old2 m1 m2 :
  same_run old1 old2
    (GetBoolParam block block_name var_name flags (mk_param_out old1 None None m1 false))
    (GetBoolParam block block_name var_name flags (mk_param_out old2 None None m2 false)).
Proof. unfold same_run. unfold_run. split_run; simpl; split_and!; auto. Qed.

Lemma GetDurationParam_same_run block block_name var_name flags old1 old2 m1 m2 :
  same_run old1 old2
    (GetDurationParam block block_name var_name flags (mk_param_out old1 None None m1 false))
    (GetDurationParam block block_name var_name flags (mk_param_out old2 None None m2 false)).
Proof. unfold same_run. unfold_run. split_run; simpl; split_and!; auto. Qed.

Lemma GetSizeParam_same_run block block_name var_name flags old1 old2 m1 m2 :
  same_run old1 old2
    (GetSizeParam block block_name var_name flags (mk_param_out old1 None None m1 false))
    (GetSizeParam block block_name var_name flags (mk_param_out old2 None None m2 false)).
Proof. unfold same_run. unfold_run. split_run; simpl; split_and!; auto. Qed.

Lemma GetIntParam_same_run block block_name var_name flags old1 old2 m1 m2 :
  same_run old1 old2
    (GetIntParam block block_name var_name flags (mk_param_out old1 None None m1 false))
    (GetIntParam block block_name var_name flags (mk_param_out old2 None None m2 false)).
Proof. unfold same_run. unfold_run. split_run; simpl; split_and!; auto. Qed.

Lemma GetInt64Param_same_run block block_name var_name flags old1 old2 m1 m2 :
  same_run old1 old2
    (GetInt64Param block block_name var_name flags (mk_param_out old1 None None m1 false))
    (GetInt64Param block block_name var_name flags (mk_param_out old2 None None m2 false)).
Proof. unfold same_run. unfold_run. split_run; simpl; split_and!; auto. Qed.

Lemma GetFloatParam_same_run block block_name var_name flags old1 old2 m1 m2 :
  same_run old1 old2
    (GetFloatParam block block_name var_name flags (mk_param_out old1 None None m1 false))
    (GetFloatParam block block_name var_name flags (mk_param_out old2 None None m2 false)).
Proof. unfold same_run. unfold_run. split_run; simpl; split_and!; auto. Qed.

Ltac solve_reports :=
  unfold reports; unfold_run; split_run; simpl;
  (split; intros Hx; simpl in *; subst; simpl in *;
   first [ done | discriminate | by left | by (right; split_and!) ]).

Lemma GetStringParam_reports block block_name var_name flags size st :
  reports block var_name flags (GetStringParam block block_name var_name flags size st).
Proof. solve_reports. Qed.

Lemma GetBoolParam_reports block block_name var_name flags st :
  reports block var_name flags (GetBoolParam block block_name var_name flags st).
Proof. solve_reports. Qed.

Lemma GetDurationParam_reports block block_name var_name flags st :
  reports block var_name flags (GetDurationParam block block_name var_name flags st).
Proof. solve_reports. Qed.

Lemma GetSizeParam_reports block block_name var_name flags st :
  reports block var_name flags (GetSizeParam block block_name var_name flags st).
Proof. solve_reports. Qed.

Lemma GetIntParam_reports block block_name var_name flags st :
  reports block var_name flags (GetIntParam block block_name var_name flags st).
Proof. solve_reports. Qed.

Lemma GetInt64Param_reports block block_name var_name flags st :
  reports block var_name flags (GetInt64Param block block_name var_name flags st).
Proof. solve_reports. Qed.

Lemma GetFloatParam_reports block block_name var_name flags st :
  reports block var_name flags (GetFloatParam block block_name var_name flags st).
Proof. solve_reports. Qed.

(** X3: every scalar extractor returns 0 only with an empty error
    message; and when it leaves the message empty, it has returned 0, or
    [ENOENT] for a parameter that is absent and not mandatory: every other
    code comes with a message.  For an integer, a long integer and a
    float this holds of the values that [sscanf] reads within [tmpbuf];
    the extractor writes past this array exactly when a word of 256
    characters or more follows the number, and the other extractors never
    do. *)
Theorem extractors_report_errors block block_name var_name flags :
  (∀ size st, let r := GetStringParam block block_name var_name flags size st in
     o_fault (snd r) = o_fault st ∧ reports block var_name flags r) ∧
  (∀ st, let r := GetBoolParam block block_name var_name flags st in
     o_fault (snd r) = o_fault st ∧ reports block var_name flags r) ∧
  (∀ st, let r := GetDurationParam block block_name var_name flags st in
     o_fault (snd r) = o_fault st ∧ reports block var_name flags r) ∧
  (∀ st, let r := GetSizeParam block block_name var_name flags st in
     o_fault (snd r) = o_fault st ∧ reports block var_name flags r) ∧
  (∀ st, let r := GetIntParam block block_name var_name flags st in
     o_fault (snd r) = o_fault st || overruns_tmpbuf sscanf_d_s block var_name ∧
     (overruns_tmpbuf sscanf_d_s block var_name = false →
      reports block var_name flags r)) ∧
  (∀ st, let r := GetInt64Param block block_name var_name flags st in
     o_fault (snd r) = o_fault st || overruns_tmpbuf sscanf_u64_s block var_name ∧
     (overruns_tmpbuf sscanf_u64_s block var_name = false →
      reports block var_name flags r)) ∧
  (∀ st, let r := GetFloatParam block block_name var_name flags st in
     o_fault (snd r) = o_fault st || overruns_tmpbuf sscanf_lf_s block var_name ∧
     (overruns_tmpbuf sscanf_lf_s block var_name = false →
      reports block var_name flags r)).
Proof.
  split_and!; intros; subst r.
  - split; [apply GetStringParam_fault|apply GetStringParam_reports].
  - split; [apply GetBoolParam_fault|apply GetBoolParam_reports].
  - split; [apply GetDurationParam_fault|apply GetDurationParam_reports].
  - split; [apply GetSizeParam_fault|apply GetSizeParam_reports].
  - split; [apply GetIntParam_fault|intros _; apply GetIntParam_reports].
  - split; [apply GetInt64Param_fault|intros _; apply GetInt64Param_reports].
  - split; [apply GetFloatParam_fault|intros _; apply GetFloatParam_reports].
Qed.

Ltac solve_keeps :=
  unfold keeps_target, unexpected_options; unfold_run; split_run; simpl;
  intros Hx; simpl in *;
  first [ by left | done | right; eexists; split_and!; [done| auto |done] ].

Lemma GetIntParam_keeps block block_name var_name flags st :
  keeps_target block block_name var_name st
    (GetIntParam block block_name var_name flags st).
Proof. solve_keeps. Qed.

Lemma GetInt64Param_keeps block block_name var_name flags st :
  keeps_target block block_name var_name st
    (GetInt64Param block block_name var_name flags st).
Proof. solve_keeps. Qed.

Lemma GetFloatParam_keeps block block_name var_name flags st :
  keeps_target block block_name var_name st
    (GetFloatParam block block_name var_name flags st).
Proof. solve_keeps. Qed.

(** X4: an extractor of a boolean, a duration, a size, an integer, a
    long integer or a float that returns a non-zero code has left its
    target as it was, but for one case: the parameter has options and the
    caller gave no sink for them, which is found after the target was
    written.  For an integer, a long integer and a float this holds of
    the values that [sscanf] reads within [tmpbuf]: no word of 256
    characters or more behind the number. *)
Theorem numeric_extractors_keep_target block block_name var_name flags :
  (∀ st, keeps_target block block_name var_name st
           (GetBoolParam block block_name var_name flags st)) ∧
  (∀ st, keeps_target block block_name var_name st
           (GetDurationParam block block_name var_name flags st)) ∧
  (∀ st, keeps_target block block_name var_name st
           (GetSizeParam block block_name var_name flags st)) ∧
  (∀ st, overruns_tmpbuf sscanf_d_s block var_name = false →
         let r := GetIntParam block block_name var_name flags st in
         o_fault (snd r) = o_fault st ∧ keeps_target block block_name var_name st r) ∧
  (∀ st, overruns_tmpbuf sscanf_u64_s block var_name = false →
         let r := GetInt64Param block block_name var_name flags st in
         o_fault (snd r) = o_fault st ∧ keeps_target block block_name var_name st r) ∧
  (∀ st, overruns_tmpbuf sscanf_lf_s block var_name = false →
         let r := GetFloatParam block block_name var_name flags st in
         o_fault (snd r) = o_fault st ∧ keeps_target block block_name var_name st r).
Proof.
  split_and!; intros.
  - solve_keeps.
  - solve_keeps.
  - solve_keeps.
  - subst r. split; [|apply GetIntParam_keeps].
    rewrite GetIntParam_fault. rewrite H0. apply orb_false_r.
  - subst r. split; [|apply GetInt64Param_keeps].
    rewrite GetInt64Param_fault. rewrite H0. apply orb_false_r.
  - subst r. split; [|apply GetFloatParam_keeps].
    rewrite GetFloatParam_fault. rewrite H0. apply orb_false_r.
Qed.

Lemma EMPTY_STRING_false s : EMPTY_STRING s = false → s ≠ "".
Proof. by destruct s. Qed.

(** X5: for a parameter that is in the block, [GetStringParam] returns 0
    or [EINVAL], and in both cases the target has been written with the
    bounded copy of the value (with its final slash removed on the one
    successful path that asks for it).  When it returns 0, the copy is not
    empty under [PFLG_NOT_EMPTY], and either it is one of stdout, stderr,
    syslog under [PFLG_STDIO_ALLOWED], or each check that the flags ask
    for has passed: absolute path, no wildcard, mail address, final slash
    removed. *)
Theorem GetStringParam_checks
    block block_name var_name flags size st item name value extra :
  rh_config_GetItemByName block var_name = Some item →
  rh_config_GetKeyValue item = (0, name, value, extra) →
  let r := GetStringParam block block_name var_name flags size st in
  let v := rh_strncpy value size in
  (fst r = 0 ∨ fst r = EINVAL) ∧
  (target (snd r) = v ∨
   fst r = 0 ∧ has_flag flags PFLG_REMOVE_FINAL_SLASH = true ∧ FINAL_SLASH v = true
   ∧ target (snd r) = REMOVE_FINAL_SLASH v) ∧
  (fst r = 0 →
     (has_flag flags PFLG_NOT_EMPTY = true → v ≠ "") ∧
     (has_flag flags PFLG_STDIO_ALLOWED = true ∧ stdio_name v = true
      ∧ target (snd r) = v
      ∨ (has_flag flags PFLG_ABSOLUTE_PATH = true → IS_ABSOLUTE_PATH v = true) ∧
        (has_flag flags PFLG_NO_WILDCARDS = true → WILDCARDS_IN v = false) ∧
        (has_flag flags PFLG_MAIL = true → bad_mail v = false) ∧
        (has_flag flags PFLG_REMOVE_FINAL_SLASH = true → FINAL_SLASH v = true →
           target (snd r) = REMOVE_FINAL_SLASH v))).
Proof.
  intros Hitem Hkv r v. subst r v. unfold stdio_name.
  unfold_run. rewrite Hitem, Hkv. simpl.
  set (v := rh_strncpy value size).
  set (st0 := reset_extra_args (set_o_err_msg "" st)).
  match goal with
  | |- context [match ?t with inl _ => _ | inr _ => _ end] =>
      assert (Ht : (∃ st1, t = inr st1 ∧ target st1 = v)
                   ∨ (∃ st1, t = inl (EINVAL, st1) ∧ target st1 = v));
      [|destruct Ht as [(st1 & -> & Ht)|(st1 & -> & Ht)]]
  end.
  { destruct (negb (extra =? 0)); [|left; by eexists].
    destruct (extra_args_tab st), (nb_extra_args st);
      first [ left; by eexists | right; by eexists ]. }
  2:{ simpl. split_and!; [by right|by left|done]. }
  simpl. rewrite Ht.
  destruct (has_flag flags PFLG_NOT_EMPTY && EMPTY_STRING v) eqn:E1.
  { simpl. split_and!; [by right|by left|done]. }
  destruct (has_flag flags PFLG_STDIO_ALLOWED
            && ((strcasecmp v "stdout" =? 0) || (strcasecmp v "stderr" =? 0)
                || (strcasecmp v "syslog" =? 0))) eqn:E2.
  { simpl. apply andb_true_iff in E2 as [E2 E2'].
    split_and!; [by left|by left|]. intros _. split; [|by left].
    intros Hf. rewrite Hf in E1. simpl in E1. by apply EMPTY_STRING_false. }
  destruct (has_flag flags PFLG_ABSOLUTE_PATH && negb (IS_ABSOLUTE_PATH v)) eqn:E3.
  { simpl. split_and!; [by right|by left|done]. }
  destruct (has_flag flags PFLG_NO_WILDCARDS && WILDCARDS_IN v) eqn:E4.
  { simpl. split_and!; [by right|by left|done]. }
  destruct (has_flag flags PFLG_MAIL && bad_mail v) eqn:E5.
  { simpl. split_and!; [by right|by left|done]. }
  assert (Hpost :
    (has_flag flags PFLG_NOT_EMPTY = true → v ≠ "") ∧
    (has_flag flags PFLG_ABSOLUTE_PATH = true → IS_ABSOLUTE_PATH v = true) ∧
    (has_flag flags PFLG_NO_WILDCARDS = true → WILDCARDS_IN v = false) ∧
    (has_flag flags PFLG_MAIL = true → bad_mail v = false)).
  { split_and!; intros Hf.
    - rewrite Hf in E1. simpl in E1. by apply EMPTY_STRING_false.
    - rewrite Hf in E3. simpl in E3. by apply negb_false_iff in E3.
    - by rewrite Hf in E4.
    - by rewrite Hf in E5. }
  destruct Hpost as (P1 & P3 & P4 & P5).
  destruct (has_flag flags PFLG_REMOVE_FINAL_SLASH && FINAL_SLASH v) eqn:E6; simpl.
  - apply andb_true_iff in E6 as [E6 E6'].
    split_and!; [by left|right; by split_and!|].
    intros _. split; [done|]. right. by split_and!.
  - split_and!; [by left|by left|].
    intros _. split; [done|]. right. split_and!; try done.
    intros Hf Hs. rewrite Hf, Hs in E6. done.
Qed.

Ltac solve_accept :=
  unfold value_of; unfold_run; split_run; simpl; intros Hrc; try done;
  try (subst; simpl in *; discriminate);
  repeat match goal with
         | Hb : negb (_ =? _) = false |- _ =>
             apply negb_false_iff, Z.eqb_eq in Hb; subst
         end;
  eexists _, _, _, _; (split; [reflexivity|]); (split; [eassumption|]); simpl;
  repeat match goal with
         | Hb : (_ =? _) = false |- _ => apply Z.eqb_neq in Hb
         | Hb : (_ <? _) = false |- _ => apply Z.ltb_ge in Hb
         | Hb : (_ <? _) = true |- _ => apply Z.ltb_lt in Hb
         | Hb : _ && _ = false |- _ => apply andb_false_iff in Hb
         | Hb : _ && _ = true |- _ => apply andb_true_iff in Hb as [? ?]
         | Hb : negb _ = true |- _ => apply negb_true_iff in Hb
         | Hb : negb _ = false |- _ => apply negb_false_iff in Hb
         end.

(** X7: what the target of an extractor holds when it returns 0.  The
    parameter is in the block and its value was read; a boolean is the
    truth value of [str2bool], which did not return -1; a duration and a
    size are what [str2duration] and [str2size] return, not their error
    values; an integer and a float are the number [sscanf] read, with no
    word behind it (but [%] for a float under [PFLG_ALLOW_PCT_SIGN]); and
    the value is not negative under [PFLG_POSITIVE], not zero under
    [PFLG_NOT_NULL], where the extractor tests these flags. *)
Theorem numeric_extractors_accept block block_name var_name flags :
  (∀ st, let r := GetBoolParam block block_name var_name flags st in
     fst r = 0 →
     value_of block var_name (λ value,
       str2bool value ≠ -1 ∧ target (snd r) = negb (str2bool value =? 0))) ∧
  (∀ st, let r := GetDurationParam block block_name var_name flags st in
     fst r = 0 →
     value_of block var_name (λ value,
       str2duration value ≠ -1 ∧ target (snd r) = str2duration value ∧
       (has_flag flags PFLG_POSITIVE = true → 0 ≤ target (snd r)) ∧
       (has_flag flags PFLG_NOT_NULL = true → target (snd r) ≠ 0))) ∧
  (∀ st, let r := GetSizeParam block block_name var_name flags st in
     fst r = 0 →
     value_of block var_name (λ value,
       u64 (str2size value) ≠ 2 ^ 64 - 1 ∧ target (snd r) = u64 (str2size value) ∧
       (has_flag flags PFLG_NOT_NULL = true → target (snd r) ≠ 0))) ∧
  (∀ st, let r := GetIntParam block block_name var_name flags st in
     fst r = 0 →
     value_of block var_name (λ value,
       1 ≤ fst (fst (sscanf_d_s value)) ∧
       (fst (fst (sscanf_d_s value)) = 1 ∨ snd (sscanf_d_s value) = "") ∧
       target (snd r) = snd (fst (sscanf_d_s value)) ∧
       (has_flag flags PFLG_POSITIVE = true → 0 ≤ target (snd r)) ∧
       (has_flag flags PFLG_NOT_NULL = true → target (snd r) ≠ 0))) ∧
  (∀ st, let r := GetFloatParam block block_name var_name flags st in
     fst r = 0 →
     value_of block var_name (λ value,
       1 ≤ fst (fst (sscanf_lf_s value)) ∧
       (fst (fst (sscanf_lf_s value)) = 1 ∨
        snd (sscanf_lf_s value) =
          (if has_flag flags PFLG_ALLOW_PCT_SIGN then "%" else "")) ∧
       target (snd r) = snd (fst (sscanf_lf_s value)) ∧
       (has_flag flags PFLG_POSITIVE = true → double_ltb0 (target (snd r)) = false) ∧
       (has_flag flags PFLG_NOT_NULL = true → double_eqb0 (target (snd r)) = false))).
Proof.
  split_and!; intros st r; subst r.
  - solve_accept; done.
  - solve_accept.
    all: split_and!; [done|done|intros Hf|intros Hf].
    all: first [ destruct Heqb1 as [Hb|Hb]; [congruence|]; by apply Z.ltb_ge in Hb
               | destruct Heqb2 as [Hb|Hb]; [congruence|]; by apply Z.eqb_neq in Hb ].
  - solve_accept.
    all: split_and!; [done|done|intros Hf].
    all: destruct Heqb1 as [Hb|Hb]; [congruence|]; by apply Z.eqb_neq in Hb.
  - solve_accept.
    all: rewrite Heqp2; simpl.
    all: split_and!; [done| |done|intros Hf|intros Hf].
    all: first [ destruct Heqb2 as [Hb|Hb]; [congruence|]; by apply Z.ltb_ge in Hb
               | destruct Heqb3 as [Hb|Hb]; [congruence|]; by apply Z.eqb_neq in Hb
               | idtac ].
    all: destruct Heqb1 as [Hb|Hb]; [apply Z.ltb_ge in Hb; left; lia|].
    all: right; apply negb_false_iff in Hb; by destruct s1.
  - solve_accept.
    all: rewrite Heqp2; simpl.
    all: split_and!; [done| |done|intros Hf|intros Hf].
    all: first [ by (destruct Heqb2 as [Hb|Hb]; [congruence|])
               | by (destruct Heqb3 as [Hb|Hb]; [congruence|])
               | idtac ].
    all: destruct Heqb1 as [Hb|Hb]; [apply Z.ltb_ge in Hb; left; lia|].
    all: right; simpl in Hb.
    all: first [ apply negb_false_iff in Hb; by apply String.eqb_eq in Hb
               | rewrite orb_false_r in Hb; apply negb_false_iff in Hb;
                 by destruct s1 ].
Qed.

End ScalarParamsTheorems.

(** ** The check of a mail address *)

Lemma strchr_app s c : ∀ a t,
  has_char c a = false → s = a +:+ String c t → strchr s c = Some (String c t).
Proof.
  intros a. revert s. induction a as [|x a IH]; intros s t Ha ->; simpl.
  - by rewrite Ascii.eqb_refl.
  - simpl in Ha. destruct (Ascii.eqb x c); [done|]. by apply IH.
Qed.

Lemma strchr_Some s c r :
  strchr s c = Some r →
  ∃ a t, s = a +:+ String c t ∧ r = String c t ∧ has_char c a = false.
Proof.
  induction s as [|x s IH]; simpl; [done|].
  destruct (Ascii.eqb_spec x c) as [->|Hx].
  - intros [= <-]. by exists "", s.
  - intros Hs. destruct (IH Hs) as (a & t & -> & -> & Ha).
    exists (String x a), t. split_and!; [done..|].
    simpl. by destruct (Ascii.eqb_spec x c).
Qed.

Lemma length_append (a b : string) :
  String.length (a +:+ b) = (String.length a + String.length b)%nat.
Proof. induction a as [|x a IH]; simpl; [done|]. by rewrite IH. Qed.

(** X6: under [PFLG_MAIL] a value passes exactly when there is text
    before its first arobase and text after it. *)
Theorem bad_mail_spec (s : string) :
  bad_mail s = false ↔
  ∃ a b, s = a +:+ String "@" b ∧ a ≠ "" ∧ b ≠ "" ∧ has_char "@" a = false.
Proof.
  unfold bad_mail. split.
  - destruct (strchr s "@") as [arob|] eqn:Hs; [|done].
    destruct (strchr_Some _ _ _ Hs) as (a & t & -> & -> & Ha).
    intros Hb. apply orb_false_iff in Hb as [Hlen Hend].
    exists a, t. split_and!; [done| | |done].
    + intros ->. simpl in Hlen. by rewrite Nat.eqb_refl in Hlen.
    + intros ->. done.
  - intros (a & b & -> & Ha & Hb & Hno).
    rewrite (strchr_app _ _ a b Hno eq_refl).
    apply orb_false_iff. split.
    + apply Nat.eqb_neq. rewrite length_append. destruct a; [done|]. simpl. lia.
    + by destruct b.
Qed.

(** ** The table reader *)

Section ReadScalarParams.

Context `{rbh_env}.

(** The extractors reset the message before anything else: a turn does
    not depend on the message it is given. *)
Lemma read_param_msg block block_name p mem m1 m2 :
  read_param block block_name p mem m1 = read_param block block_name p mem m2.
Proof. reflexivity. Qed.

Lemma same_kinds_refl mem : same_kinds mem mem.
Proof. done. Qed.

Lemma same_kinds_trans m1 m2 m3 : same_kinds m1 m2 → same_kinds m2 m3 → same_kinds m1 m3.
Proof. intros H1 H2 a. by rewrite H1. Qed.

Lemma same_kinds_sym m1 m2 : same_kinds m1 m2 → same_kinds m2 m1.
Proof. intros H1 a. by rewrite H1. Qed.

Lemma same_kinds_insert mem a v v0 :
  mem !! a = Some v0 → cfg_kind v = cfg_kind v0 → same_kinds mem (<[a := v]> mem).
Proof.
  intros Ha Hk b. destruct (decide (b = a)) as [->|Hne].
  - rewrite lookup_insert_eq, Ha. simpl. by rewrite Hk.
  - by rewrite lookup_insert_ne.
Qed.

(** A turn of the loop keeps the types of the objects, and changes no
    object but the one of the descriptor. *)
Lemma read_param_kinds block block_name p mem msg rc mem' msg' :
  read_param block block_name p mem msg = Some (rc, mem', msg') →
  same_kinds mem mem' ∧ ∀ a, a ≠ p_ptr p → mem' !! a = mem !! a.
Proof.
  unfold read_param.
  destruct (p_type p), (mem !! p_ptr p) as [[]|] eqn:Hl; try done.
  all: try match goal with
         | |- context [let '(_, _) := ?r in _] =>
             destruct r as [rc0 st0]; destruct (o_fault st0); [done|]
         end.
  all: intros [= <- <- <-].
  all: split; [|intros a Ha; by rewrite ?lookup_insert_ne].
  all: first [ by eapply same_kinds_insert | apply same_kinds_refl ].
Qed.

(** The code and the message of a turn depend on the types of the
    objects alone. *)
Lemma read_param_same block block_name p mem1 mem2 m1 m2 rc mem1' msg :
  read_param block block_name p mem1 m1 = Some (rc, mem1', msg) →
  same_kinds mem1 mem2 →
  ∃ mem2', read_param block block_name p mem2 m2 = Some (rc, mem2', msg).
Proof.
  intros Hr Hk. specialize (Hk (p_ptr p)). revert Hr. unfold read_param.
  destruct (p_type p) eqn:Hty.
  all: destruct (mem1 !! p_ptr p) as [[]|], (mem2 !! p_ptr p) as [[]|];
    simpl in Hk; try done.
  all: try (intros [= <- <- <-]; by eexists).
  - pose proof (GetStringParam_same_run block block_name (p_name p) (p_flags p)
                  (p_ptrsize p) s s0 m1 m2) as (Hrc & Hmsg & _ & Hft).
    destruct (GetStringParam _ _ _ _ _ _) as [rc1 st1].
    destruct (GetStringParam _ _ _ _ _ _) as [rc2 st2]. simpl in *.
    rewrite <- Hft. destruct (o_fault st1); [done|].
    intros [= <- <- <-]. subst. rewrite Hmsg. by eexists.
  - pose proof (GetBoolParam_same_run block block_name (p_name p) (p_flags p)
                  b b0 m1 m2) as (Hrc & Hmsg & _ & Hft).
    destruct (GetBoolParam _ _ _ _ _) as [rc1 st1].
    destruct (GetBoolParam _ _ _ _ _) as [rc2 st2]. simpl in *.
    rewrite <- Hft. destruct (o_fault st1); [done|].
    intros [= <- <- <-]. subst. rewrite Hmsg. by eexists.
  - pose proof (GetDurationParam_same_run block block_name (p_name p) (p_flags p)
                  t t0 m1 m2) as (Hrc & Hmsg & _ & Hft).
    destruct (GetDurationParam _ _ _ _ _) as [rc1 st1].
    destruct (GetDurationParam _ _ _ _ _) as [rc2 st2]. simpl in *.
    rewrite <- Hft. destruct (o_fault st1); [done|].
    intros [= <- <- <-]. subst. rewrite Hmsg. by eexists.
  - pose proof (GetSizeParam_same_run block block_name (p_name p) (p_flags p)
                  n n0 m1 m2) as (Hrc & Hmsg & _ & Hft).
    destruct (GetSizeParam _ _ _ _ _) as [rc1 st1].
    destruct (GetSizeParam _ _ _ _ _) as [rc2 st2]. simpl in *.
    rewrite <- Hft. destruct (o_fault st1); [done|].
    intros [= <- <- <-]. subst. rewrite Hmsg. by eexists.
  - pose proof (GetIntParam_same_run block block_name (p_name p) (p_flags p)
                  i i0 m1 m2) as (Hrc & Hmsg & _ & Hft).
    destruct (GetIntParam _ _ _ _ _) as [rc1 st1].
    destruct (GetIntParam _ _ _ _ _) as [rc2 st2]. simpl in *.
    rewrite <- Hft. destruct (o_fault st1); [done|].
    intros [= <- <- <-]. subst. rewrite Hmsg. by eexists.
  - pose proof (GetInt64Param_same_run block block_name (p_name p) (p_flags p)
                  n n0 m1 m2) as (Hrc & Hmsg & _ & Hft).
    destruct (GetInt64Param _ _ _ _ _) as [rc1 st1].
    destruct (GetInt64Param _ _ _ _ _) as [rc2 st2]. simpl in *.
    rewrite <- Hft. destruct (o_fault st1); [done|].
    intros [= <- <- <-]. subst. rewrite Hmsg. by eexists.
  - pose proof (GetFloatParam_same_run block block_name (p_name p) (p_flags p)
                  d d0 m1 m2) as (Hrc & Hmsg & _ & Hft).
    destruct (GetFloatParam _ _ _ _ _) as [rc1 st1].
    destruct (GetFloatParam _ _ _ _ _) as [rc2 st2]. simpl in *.
    rewrite <- Hft. destruct (o_fault st1); [done|].
    intros [= <- <- <-]. subst. rewrite Hmsg. by eexists.
Qed.

Lemma read_param_reports block block_name p mem msg rc mem' msg' :
  read_param block block_name p mem msg = Some (rc, mem', msg') →
  cfg_is_err rc (p_flags p) = true → msg' ≠ "".
Proof.
  unfold read_param, cfg_is_err.
  assert (Hrep : ∀ A (r : Z * param_out A),
            reports block (p_name p) (p_flags p) r →
            (negb (fst r =? 0) && negb (fst r =? ENOENT)
             || (fst r =? ENOENT) && has_flag (p_flags p) PFLG_MANDATORY) = true →
            o_err_msg (snd r) ≠ "").
  { intros A r [_ Hr] Herr Hmsg. destruct (Hr Hmsg) as [H0|(H0 & Hm & _)].
    - rewrite H0 in Herr. done.
    - rewrite H0, Hm in Herr. done. }
  destruct (p_type p), (mem !! p_ptr p) as [[]|]; try done.
  all: try (intros [= <- <- <-] _; done).
  - pose proof (Hrep _ _ (GetStringParam_reports block block_name (p_name p) (p_flags p)
                            (p_ptrsize p) (mk_param_out s None None msg false))) as Hr.
    destruct (GetStringParam _ _ _ _ _ _) as [rc1 st1]. destruct (o_fault st1); [done|].
    intros [= <- <- <-]. apply Hr.
  - pose proof (Hrep _ _ (GetBoolParam_reports block block_name (p_name p) (p_flags p)
                            (mk_param_out b None None msg false))) as Hr.
    destruct (GetBoolParam _ _ _ _ _) as [rc1 st1]. destruct (o_fault st1); [done|].
    intros [= <- <- <-]. apply Hr.
  - pose proof (Hrep _ _ (GetDurationParam_reports block block_name (p_name p) (p_flags p)
                            (mk_param_out t None None msg false))) as Hr.
    destruct (GetDurationParam _ _ _ _ _) as [rc1 st1]. destruct (o_fault st1); [done|].
    intros [= <- <- <-]. apply Hr.
  - pose proof (Hrep _ _ (GetSizeParam_reports block block_name (p_name p) (p_flags p)
                            (mk_param_out n None None msg false))) as Hr.
    destruct (GetSizeParam _ _ _ _ _) as [rc1 st1]. destruct (o_fault st1); [done|].
    intros [= <- <- <-]. apply Hr.
  - pose proof (Hrep _ _ (GetIntParam_reports block block_name (p_name p) (p_flags p)
                            (mk_param_out i None None msg false))) as Hr.
    destruct (GetIntParam _ _ _ _ _) as [rc1 st1]. destruct (o_fault st1); [done|].
    intros [= <- <- <-]. apply Hr.
  - pose proof (Hrep _ _ (GetInt64Param_reports block block_name (p_name p) (p_flags p)
                            (mk_param_out n None None msg false))) as Hr.
    destruct (GetInt64Param _ _ _ _ _) as [rc1 st1]. destruct (o_fault st1); [done|].
    intros [= <- <- <-]. apply Hr.
  - pose proof (Hrep _ _ (GetFloatParam_reports block block_name (p_name p) (p_flags p)
                            (mk_param_out d None None msg false))) as Hr.
    destruct (GetFloatParam _ _ _ _ _) as [rc1 st1]. destruct (o_fault st1); [done|].
    intros [= <- <- <-]. apply Hr.
Qed.

Lemma cfg_is_err_zero flags : cfg_is_err 0 flags = false.
Proof. done. Qed.

Lemma cfg_is_err_nonzero rc flags : cfg_is_err rc flags = true → rc ≠ 0.
Proof. intros He ->. done. Qed.

(** The loop from a memory with the types of [mem0]: it stops at the
    first descriptor in error, with its code and message. *)
Lemma read_scalar_params_run block block_name mem0 params : ∀ mem msg rc mem' msg',
  same_kinds mem0 mem →
  read_scalar_params block block_name params mem msg = Some (rc, mem', msg') →
  same_kinds mem0 mem' ∧
  (rc = 0 ∧ ∀ p, p ∈ params → param_ok block block_name mem0 p) ∨
  (rc ≠ 0 ∧ msg' ≠ "" ∧
   ∃ pre p post,
     params = (pre ++ p :: post)%list ∧
     (∀ q, q ∈ pre → param_ok block block_name mem0 q) ∧
     param_result block block_name p mem0 = Some (rc, msg') ∧
     cfg_is_err rc (p_flags p) = true).
Proof.
  induction params as [|p rest IH]; intros mem msg rc mem' msg' Hk; simpl.
  - intros [= <- <- <-]. left. split; [done|]. split; [done|]. intros p Hp.
    by apply elem_of_nil in Hp.
  - destruct (read_param block block_name p mem msg) as [[[rc1 mem1] msg1]|] eqn:Hp;
      [|done].
    destruct (read_param_kinds _ _ _ _ _ _ _ _ Hp) as [Hk1 _].
    destruct (read_param_same _ _ _ _ mem0 _ "" _ _ _ Hp (same_kinds_sym _ _ Hk))
      as [mem0' Hp0].
    assert (Hres : param_result block block_name p mem0 = Some (rc1, msg1)).
    { unfold param_result. by rewrite Hp0. }
    destruct (cfg_is_err rc1 (p_flags p)) eqn:Herr.
    + intros [= <- <- <-]. right. split_and!.
      * by eapply cfg_is_err_nonzero.
      * by eapply read_param_reports.
      * exists [], p, rest. split_and!; try done. intros q Hq.
        by apply elem_of_nil in Hq.
    + intros Hrest.
      destruct (IH _ _ _ _ _ (same_kinds_trans _ _ _ Hk Hk1) Hrest)
        as [(Hk' & -> & Hall)|(Hrc & Hmsg & pre & q & post & -> & Hpre & Hq & Hqe)].
      * left. split_and!; try done. intros q Hq.
        apply elem_of_cons in Hq as [->|Hq]; [|by apply Hall].
        by exists rc1, msg1.
      * right. split_and!; try done.
        exists (p :: pre), q, post. split_and!; try done.
        intros q' Hq'. apply elem_of_cons in Hq' as [->|Hq']; [|by apply Hpre].
        by exists rc1, msg1.
Qed.

(** A turn of the loop on an object of the type of its descriptor is
    undefined exactly when the extractor writes past its [tmpbuf]. *)
Lemma read_param_defined block block_name p mem msg :
  (p_type p ≠ PT_TYPE → cfg_kind <$> (mem !! p_ptr p) = Some (p_type p)) →
  match read_param block block_name p mem msg with
  | Some _ => param_overruns block p = false
  | None => param_overruns block p = true
  end.
Proof.
  unfold read_param, param_overruns. intros Hty.
  destruct (p_type p); [..|done].
  all: specialize (Hty ltac:(done)).
  all: destruct (mem !! p_ptr p) as [[]|]; simpl in Hty; try done.
  - match goal with |- context [GetStringParam ?a ?b ?c ?d ?e ?f] =>
      pose proof (GetStringParam_fault a b c d e f) as Hf;
      destruct (GetStringParam a b c d e f) as [rc st] end.
    simpl in Hf. by rewrite Hf.
  - match goal with |- context [GetBoolParam ?a ?b ?c ?d ?e] =>
      pose proof (GetBoolParam_fault a b c d e) as Hf;
      destruct (GetBoolParam a b c d e) as [rc st] end.
    simpl in Hf. by rewrite Hf.
  - match goal with |- context [GetDurationParam ?a ?b ?c ?d ?e] =>
      pose proof (GetDurationParam_fault a b c d e) as Hf;
      destruct (GetDurationParam a b c d e) as [rc st] end.
    simpl in Hf. by rewrite Hf.
  - match goal with |- context [GetSizeParam ?a ?b ?c ?d ?e] =>
      pose proof (GetSizeParam_fault a b c d e) as Hf;
      destruct (GetSizeParam a b c d e) as [rc st] end.
    simpl in Hf. by rewrite Hf.
  - match goal with |- context [GetIntParam ?a ?b ?c ?d ?e] =>
      pose proof (GetIntParam_fault a b c d e) as Hf;
      destruct (GetIntParam a b c d e) as [rc st] end.
    simpl in Hf. rewrite Hf. by destruct (overruns_tmpbuf _ _ _).
  - match goal with |- context [GetInt64Param ?a ?b ?c ?d ?e] =>
      pose proof (GetInt64Param_fault a b c d e) as Hf;
      destruct (GetInt64Param a b c d e) as [rc st] end.
    simpl in Hf. rewrite Hf. by destruct (overruns_tmpbuf _ _ _).
  - match goal with |- context [GetFloatParam ?a ?b ?c ?d ?e] =>
      pose proof (GetFloatParam_fault a b c d e) as Hf;
      destruct (GetFloatParam a b c d e) as [rc st] end.
    simpl in Hf. rewrite Hf. by destruct (overruns_tmpbuf _ _ _).
Qed.

Lemma well_typed_kinds params mem mem' :
  well_typed params mem → same_kinds mem mem' → well_typed params mem'.
Proof. intros Hwt Hk p Hp Hty. rewrite <- Hk. by apply Hwt. Qed.

(** The loop is undefined when it reaches a descriptor whose extractor
    writes past its [tmpbuf], the descriptors before it being read
    without an error. *)
Lemma read_scalar_params_undefined block block_name mem0 params : ∀ mem msg,
  same_kinds mem0 mem → well_typed params mem0 →
  read_scalar_params block block_name params mem msg = None →
  ∃ pre p post,
    params = (pre ++ p :: post)%list ∧
    (∀ q, q ∈ pre → param_ok block block_name mem0 q) ∧
    param_overruns block p = true.
Proof.
  induction params as [|p rest IH]; intros mem msg Hk Hwt; simpl; [done|].
  assert (Hp : p_type p ≠ PT_TYPE → cfg_kind <$> (mem !! p_ptr p) = Some (p_type p)).
  { intros Hty. rewrite <- Hk. apply Hwt; [|done]. apply elem_of_cons. by left. }
  pose proof (read_param_defined block block_name p mem msg Hp) as Hdef.
  destruct (read_param block block_name p mem msg) as [[[rc1 mem1] msg1]|] eqn:Hrp.
  - destruct (cfg_is_err rc1 (p_flags p)) eqn:Herr; [done|]. intros Hrest.
    destruct (read_param_kinds _ _ _ _ _ _ _ _ Hrp) as [Hk1 _].
    destruct (read_param_same _ _ _ _ mem0 _ "" _ _ _ Hrp (same_kinds_sym _ _ Hk))
      as [mem0' Hp0].
    destruct (IH mem1 msg1 (same_kinds_trans _ _ _ Hk Hk1)) as
      (pre & q & post & -> & Hpre & Hq); [|done|].
    { intros q Hq. apply Hwt. apply elem_of_cons. by right. }
    exists (p :: pre), q, post. split_and!; try done.
    intros q' Hq'. apply elem_of_cons in Hq' as [->|Hq']; [|by apply Hpre].
    exists rc1, msg1. unfold param_result. by rewrite Hp0.
  - intros _. exists [], p, rest. split_and!; try done.
    intros q Hq. by apply elem_of_nil in Hq.
Qed.

(** X8: on a table whose descriptors point to objects of their types,
    [read_scalar_params] returns 0 when no descriptor is in error
    ([cfg_is_err]), and otherwise the code of the first descriptor in
    error, in the order of the table, with the message of its extractor,
    which is not empty; the code and the message of a descriptor are
    those its extractor gives on the initial memory.  The one run this
    does not describe is the run that reaches, with no error before it,
    an integer, a long integer or a float whose value makes the extractor
    write past [tmpbuf]: its behaviour is undefined. *)
Theorem read_scalar_params_first_error block block_name params mem msg :
  well_typed params mem →
  match read_scalar_params block block_name params mem msg with
  | Some (rc, mem', msg') =>
      (rc = 0 ∧ ∀ p, p ∈ params → param_ok block block_name mem p) ∨
      (rc ≠ 0 ∧ msg' ≠ "" ∧
       ∃ pre p post,
         params = (pre ++ p :: post)%list ∧
         (∀ q, q ∈ pre → param_ok block block_name mem q) ∧
         param_result block block_name p mem = Some (rc, msg') ∧
         cfg_is_err rc (p_flags p) = true)
  | None =>
      ∃ pre p post,
        params = (pre ++ p :: post)%list ∧
        (∀ q, q ∈ pre → param_ok block block_name mem q) ∧
        param_overruns block p = true
  end.
Proof.
  intros Hwt.
  destruct (read_scalar_params block block_name params mem msg)
    as [[[rc mem'] msg']|] eqn:Hr.
  - destruct (read_scalar_params_run _ _ mem _ _ _ _ _ _ (same_kinds_refl mem) Hr)
      as [(_ & ? & ?)|?]; auto.
  - by eapply read_scalar_params_undefined.
Qed.

(** A turn of the loop reads the object of its descriptor only. *)
Lemma read_param_local block block_name p mem1 mem2 m rc mem1' msg :
  mem2 !! p_ptr p = mem1 !! p_ptr p →
  read_param block block_name p mem1 m = Some (rc, mem1', msg) →
  ∃ mem2', read_param block block_name p mem2 m = Some (rc, mem2', msg) ∧
           mem2' !! p_ptr p = mem1' !! p_ptr p.
Proof.
  unfold read_param. intros Heq. rewrite Heq.
  destruct (p_type p), (mem1 !! p_ptr p) as [[]|] eqn:Hl; try done.
  all: try match goal with
         | |- context [let '(_, _) := ?r in _] =>
             destruct r as [rc0 st0]; destruct (o_fault st0); [done|]
         end.
  all: intros [= <- <- <-]; eexists; split; [done|].
  all: rewrite ?lookup_insert_eq; congruence.
Qed.

Lemma read_scalar_params_frame block block_name params : ∀ mem msg rc mem' msg',
  read_scalar_params block block_name params mem msg = Some (rc, mem', msg') →
  ∀ a, a ∉ p_ptr <$> params → mem' !! a = mem !! a.
Proof.
  induction params as [|p rest IH]; intros mem msg rc mem' msg'; simpl.
  - by intros [= <- <- <-].
  - destruct (read_param block block_name p mem msg) as [[[rc1 mem1] msg1]|] eqn:Hp;
      [|done].
    destruct (read_param_kinds _ _ _ _ _ _ _ _ Hp) as [_ Hfr].
    intros Hr a Ha. apply not_elem_of_cons in Ha as [Ha1 Ha2].
    destruct (cfg_is_err rc1 (p_flags p)).
    + injection Hr as <- <- <-. by apply Hfr.
    + rewrite (IH _ _ _ _ _ Hr a Ha2). by apply Hfr.
Qed.

(** X9: when the targets of the descriptors are distinct and the table is
    read with success, every object outside the table is left as it was,
    every target holds what the extractor of its own descriptor stores
    when it runs alone on the initial memory, and the target of a
    parameter that is absent from the block holds its initial value. *)
Theorem read_scalar_params_targets block block_name params mem msg mem' msg' :
  read_scalar_params block block_name params mem msg = Some (0, mem', msg') →
  NoDup (p_ptr <$> params) →
  (∀ a, a ∉ p_ptr <$> params → mem' !! a = mem !! a) ∧
  (∀ p, p ∈ params →
     ∃ rc m1 msg1,
       read_param block block_name p mem "" = Some (rc, m1, msg1) ∧
       mem' !! p_ptr p = m1 !! p_ptr p) ∧
  (∀ p, p ∈ params → rh_config_GetItemByName block (p_name p) = None →
     mem' !! p_ptr p = mem !! p_ptr p).
Proof.
  intros Hr Hnd.
  assert (Hown : ∀ p, p ∈ params →
     ∃ rc m1 msg1,
       read_param block block_name p mem "" = Some (rc, m1, msg1) ∧
       mem' !! p_ptr p = m1 !! p_ptr p).
  { revert mem msg Hr Hnd.
    induction params as [|p rest IH]; intros mem msg Hr Hnd q Hq.
    { by apply elem_of_nil in Hq. }
    simpl in Hr, Hnd. apply NoDup_cons in Hnd as [Hp Hnd].
    destruct (read_param block block_name p mem msg) as [[[rc1 mem1] msg1]|] eqn:Hrp;
      [|done].
    destruct (read_param_kinds _ _ _ _ _ _ _ _ Hrp) as [_ Hfr].
    destruct (cfg_is_err rc1 (p_flags p)) eqn:Herr.
    { injection Hr as Hrc _ _. subst rc1. done. }
    apply elem_of_cons in Hq as [->|Hq].
    - exists rc1, mem1, msg1. split; [by rewrite (read_param_msg _ _ _ _ "" msg)|].
      by apply (read_scalar_params_frame _ _ _ _ _ _ _ _ Hr).
    - destruct (IH _ _ Hr Hnd q Hq) as (rc & m1 & msg2 & Hq1 & Hq2).
      assert (Hne : p_ptr q ≠ p_ptr p).
      { intros Heq. apply Hp. rewrite <- Heq. by apply list_elem_of_fmap_2. }
      destruct (read_param_local block block_name q mem1 mem "" rc m1 msg2)
        as (m2 & Hm2 & Hm2'); [symmetry; by apply Hfr|done|].
      exists rc, m2, msg2. split; [done|]. by rewrite Hm2'. }
  split_and!; [by eapply read_scalar_params_frame|done|].
  intros p Hp Habs. destruct (Hown p Hp) as (rc & m1 & msg1 & Hrp & ->).
  revert Hrp. unfold read_param.
  destruct (p_type p), (mem !! p_ptr p) as [[]|] eqn:Hl; try done.
  all: unfold GetStringParam, GetBoolParam, GetDurationParam, GetSizeParam,
    GetIntParam, GetInt64Param, GetFloatParam.
  all: rewrite ?find_param_missing by done.
  all: destruct (has_flag (p_flags p) PFLG_MANDATORY); simpl.
  all: intros [= <- <- <-]; rewrite ?lookup_insert_eq; done.
Qed.

End ReadScalarParams.

(** ** Expressions in the store and [FreeBoolExpr] *)

Lemma node_holds_alloc cs n e kids :
  node_holds cs n e kids → ∀ a, a ∈ kids → is_Some (cs !! a).
Proof.
  induction 1 as [n t Hty Hc|n Hty Hown|n n1 e k1 Hty Hown He1 Hh IH Hn
                 |n n1 n2 e1 e2 k1 k2 Hty Hown He1 He2 Hh1 IH1 Hh2 IH2 Hn1 Hn2 Hd];
    intros a Ha.
  - apply list_elem_of_singleton in Ha as ->. by eexists.
  - by apply elem_of_nil in Ha.
  - apply elem_of_app in Ha as [Ha|Ha]; [by apply IH|].
    apply list_elem_of_singleton in Ha as ->. by eexists.
  - rewrite !elem_of_app, !list_elem_of_singleton in Ha.
    destruct Ha as [[Ha| ->]|[Ha| ->]]; eauto.
Qed.

Lemma node_holds_NoDup cs n e kids : node_holds cs n e kids → NoDup kids.
Proof.
  induction 1 as [n t Hty Hc|n Hty Hown|n n1 e k1 Hty Hown He1 Hh IH Hn
                 |n n1 n2 e1 e2 k1 k2 Hty Hown He1 He2 Hh1 IH1 Hh2 IH2 Hn1 Hn2 Hd].
  - apply NoDup_singleton.
  - apply NoDup_nil_2.
  - apply NoDup_app. split_and!; [done| |apply NoDup_singleton].
    intros a Ha Hb. apply list_elem_of_singleton in Hb as ->. done.
  - assert (Hnd : ∀ (k : list N) a, NoDup k → a ∉ k → NoDup (k ++ [a])%list).
    { intros k a Hk Ha. apply NoDup_app. split_and!; [done| |apply NoDup_singleton].
      intros b Hb Hb'. apply list_elem_of_singleton in Hb' as ->. done. }
    apply NoDup_app. split_and!; [by apply Hnd|done|by apply Hnd].
Qed.

Lemma node_holds_length cs n e kids :
  node_holds cs n e kids → length kids = node_tree_size e.
Proof.
  induction 1; simpl; rewrite ?length_app; simpl; lia.
Qed.

Lemma node_holds_agree cs cs' n e kids :
  node_holds cs n e kids → (∀ a, a ∈ kids → cs' !! a = cs !! a) →
  node_holds cs' n e kids.
Proof.
  induction 1 as [n t Hty Hc|n Hty Hown|n n1 e k1 Hty Hown He1 Hh IH Hn
                 |n n1 n2 e1 e2 k1 k2 Hty Hown He1 He2 Hh1 IH1 Hh2 IH2 Hn1 Hn2 Hd];
    intros Hag.
  - constructor; [done|]. rewrite Hag; [done|set_solver].
  - by constructor.
  - econstructor; try done.
    + rewrite Hag; [done|set_solver].
    + apply IH. intros a Ha. apply Hag. set_solver.
  - econstructor; try done.
    + rewrite Hag; [done|set_solver].
    + rewrite Hag; [done|set_solver].
    + apply IH1. intros a Ha. apply Hag. set_solver.
    + apply IH2. intros a Ha. apply Hag. set_solver.
Qed.

Lemma free_all_snoc fp p w : free_all (fp ++ [p])%list w = free p (free_all fp w).
Proof. by rewrite free_all_app. Qed.

Lemma agree_not_null (cs : gmap N object) w (kids : list N) :
  cells w !! NULL = None →
  (∀ a, a ∈ kids → cells w !! a = cs !! a) →
  (∀ a, a ∈ kids → is_Some (cs !! a)) →
  NULL ∉ kids.
Proof.
  intros Hnull Hag Hal Hin. destruct (Hal _ Hin) as [o Ho].
  rewrite <- Hag in Ho by done. congruence.
Qed.

(** [FreeBoolExpr] releases the cells a node owns, and the node itself
    when it is asked to. *)
Lemma FreeBoolExpr_holds cs n e kids :
  node_holds cs n e kids →
  ∀ p fuel top w,
    cells w !! NULL = None →
    cells w !! p = Some (ObjNode n) → p ∉ kids →
    (∀ a, a ∈ kids → cells w !! a = cs !! a) →
    (length kids < fuel)%nat →
    FreeBoolExpr fuel p top w =
      Some (0, if top then free_all (kids ++ [p])%list w else free_all kids w).
Proof.
  induction 1 as [n t Hty Hc|n Hty Hown|n n1 e k1 Hty Hown He1 Hh IH Hn
                 |n n1 n2 e1 e2 k1 k2 Hty Hown He1 He2 Hh1 IH1 Hh2 IH2 Hn1 Hn2 Hd];
    intros p fuel top w Hnull Hp Hpk Hag Hfuel.
  all: assert (Hpn : (p =? NULL)%N = false)
    by (apply N.eqb_neq; intros ->; congruence).
  all: destruct fuel as [|fuel]; [simpl in Hfuel; lia|].
  all: cbn [FreeBoolExpr]; rewrite Hpn; rewrite (load_node_cells p w n Hp).
  - rewrite Hty. by destruct top.
  - rewrite Hown. destruct (node_type n) eqn:E; [done|reflexivity|reflexivity].
  - rewrite Hty, Hown. rewrite length_app in Hfuel. simpl in Hfuel.
    rewrite (IH (expr1 n) fuel true w); try done.
    + destruct top; [|done]. by rewrite (free_all_snoc (k1 ++ [expr1 n])).
    + rewrite Hag; [done|set_solver].
    + intros a Ha. apply Hag. set_solver.
    + lia.
  - rewrite Hty, Hown. rewrite !length_app in Hfuel. simpl in Hfuel.
    assert (Hnull1 : NULL ∉ (k1 ++ [expr1 n])%list).
    { apply (agree_not_null cs w); [done| |].
      - intros a Ha. apply Hag. set_solver.
      - intros a Ha. apply elem_of_app in Ha as [Ha|Ha].
        + by apply (node_holds_alloc _ _ _ _ Hh1).
        + apply list_elem_of_singleton in Ha as ->. by eexists. }
    rewrite (IH1 (expr1 n) fuel true w); try done.
    2:{ rewrite Hag; [done|set_solver]. }
    2:{ intros a Ha. apply Hag. set_solver. }
    2:{ lia. }
    assert (Hd' : ∀ a, a ∈ (k2 ++ [expr2 n])%list → a ∉ (k1 ++ [expr1 n])%list).
    { intros a Ha Hb. by apply (Hd a). }
    set (w1 := free_all (k1 ++ [expr1 n])%list w).
    assert (Hw1 : ∀ a, a ∉ (k1 ++ [expr1 n])%list → cells w1 !! a = cells w !! a).
    { intros a Ha. unfold w1. rewrite free_all_cells by done.
      by rewrite decide_False. }
    rewrite (load_node_cells p w1 n).
    2:{ rewrite Hw1; [done|]. set_solver. }
    rewrite (IH2 (expr2 n) fuel true w1); try done.
    + destruct top.
      * unfold w1. by rewrite !free_all_app.
      * unfold w1. by rewrite !free_all_app.
    + unfold w1. rewrite free_all_cells by done. by rewrite decide_False.
    + rewrite Hw1; [|apply (Hd' (expr2 n)); set_solver].
      rewrite Hag; [done|set_solver].
    + intros a Ha. rewrite Hw1; [|apply (Hd' a); set_solver].
      apply Hag. set_solver.
    + lia.
Qed.

(** ** Runs of the boolean builder *)

Lemma stored_fresh_first p f o w n w' :
  stored p n w w' → p ≠ brk w →
  stored_fresh p (f n) o w (store_node p f (alloc o w')).
Proof.
  intros (Hc & Hb & ? & Hj & ? & ? & ? & ? & ?) Hne.
  set (w1 := alloc _ w').
  assert (Hl : load_node p w1 = Some n).
  { apply load_node_Some. unfold w1, alloc. simpl.
    rewrite lookup_insert_ne by congruence. rewrite Hc. apply lookup_insert_eq. }
  destruct (store_node_ok p f w1 n Hl) as (Hc' & ? & ?).
  destruct (store_node_env p f w1) as (? & ? & ? & ? & ? & ? & ?).
  unfold stored_fresh. split_and!; try (unfold w1 in *; simpl in *; congruence).
  rewrite Hc'. unfold w1, alloc. simpl. rewrite Hc, Hb.
  rewrite (insert_insert_ne _ (brk w) p) by congruence.
  by rewrite insert_insert_eq.
Qed.

Lemma stored_fresh_next p f o w n w' :
  stored_fresh p n o w w' → stored_fresh p (f n) o w (store_node p f w').
Proof.
  intros (Hc & ? & ? & ? & ? & ? & ? & ? & ?).
  assert (Hl : load_node p w' = Some n).
  { apply load_node_Some. rewrite Hc. apply lookup_insert_eq. }
  destruct (store_node_ok p f w' n Hl) as (Hc' & ? & ?).
  destruct (store_node_env p f w') as (? & ? & ? & ? & ? & ? & ?).
  repeat split; try congruence.
  rewrite Hc', Hc. apply insert_insert_eq.
Qed.

Lemma stored_fresh_wf p n o' w w' o :
  wf_world w → cells w !! p = Some o → stored_fresh p n o' w w' → wf_world w'.
Proof.
  intros Hwf Hp (Hc & Hb & _).
  pose proof (wf_lt _ _ _ Hwf Hp) as Hlt.
  destruct Hwf as (Hnull & Hpos & Habove).
  unfold wf_world. rewrite Hc, Hb. split_and!.
  - rewrite !lookup_insert_ne by (unfold NULL; lia). done.
  - lia.
  - intros a Ha. rewrite !lookup_insert_ne by lia. apply Habove. lia.
Qed.

Lemma stored_wf p n w w' o :
  wf_world w → cells w !! p = Some o → stored p n w w' → wf_world w'.
Proof.
  intros Hwf Hp (Hc & Hb & _).
  pose proof (wf_lt _ _ _ Hwf Hp) as Hlt.
  destruct Hwf as (Hnull & Hpos & Habove).
  unfold wf_world. rewrite Hc, Hb. split_and!.
  - rewrite !lookup_insert_ne by (unfold NULL; lia). done.
  - lia.
  - intros a Ha. rewrite !lookup_insert_ne by lia. apply Habove. lia.
Qed.

Section BoolRunLemmas.

Context `{rbh_env}.

Lemma interpret_condition_at_run kv c smi w t :
  load_triplet c w = Some t →
  ∃ st, interpret_condition kv (mk_cond t (attr_mask w) (err_msg w) (fault w)) smi
        = (fst (interpret_condition_at kv c smi w), st) ∧
        cells (snd (interpret_condition_at kv c smi w))
        = <[c := ObjTriplet (c_triplet st)]> (cells w) ∧
        brk (snd (interpret_condition_at kv c smi w)) = brk w ∧
        limit (snd (interpret_condition_at kv c smi w)) = limit w ∧
        junk_node (snd (interpret_condition_at kv c smi w)) = junk_node w ∧
        junk_triplet (snd (interpret_condition_at kv c smi w)) = junk_triplet w ∧
        frees (snd (interpret_condition_at kv c smi w)) = frees w ∧
        fault (snd (interpret_condition_at kv c smi w)) = c_fault st.
Proof.
  intros Hl. unfold interpret_condition_at. rewrite Hl.
  destruct (interpret_condition _ _ _) as [rc st]. by exists st.
Qed.

(** The builder gives up after stores to [out] alone. *)
Lemma bool_run_stored smi e out n o w w' rc msg :
  wf_world w → cells w !! out = Some o → stored out n w w' → rc ≠ 0 →
  bool_run smi e out w (set_err_msg msg w') rc.
Proof.
  intros Hwf Hout S Hrc.
  pose proof (stored_wf _ _ _ _ _ Hwf Hout S) as Hwf'.
  destruct S as (Hc & Hb & ? & ? & ? & ? & ? & ? & Hf).
  unfold bool_run. simpl. split_and!; try done.
  - lia.
  - intros a Ha _. rewrite Hc. by rewrite lookup_insert_ne.
  - intros Hft. left. congruence.
  - exists n. split; [rewrite Hc; apply lookup_insert_eq|done].
  - exists []. rewrite app_nil_r. split_and!; [done|constructor|].
    intros a Ha. by apply elem_of_nil in Ha.
Qed.

(** The same after one allocation: the fresh cell is leaked. *)
Lemma bool_run_fresh smi e out n o o' w w' rc msg :
  wf_world w → cells w !! out = Some o → stored_fresh out n o' w w' → rc ≠ 0 →
  bool_run smi e out w (set_err_msg msg w') rc.
Proof.
  intros Hwf Hout S Hrc.
  pose proof (stored_fresh_wf _ _ _ _ _ _ Hwf Hout S) as Hwf'.
  pose proof (wf_lt _ _ _ Hwf Hout) as Hlt.
  destruct S as (Hc & Hb & ? & ? & ? & ? & ? & ? & Hf).
  unfold bool_run. simpl. split_and!; try done.
  - lia.
  - intros a Ha Hlt'. rewrite Hc. rewrite !lookup_insert_ne by lia. done.
  - intros Hft. left. congruence.
  - exists n. split; [rewrite Hc; apply lookup_insert_eq|done].
  - exists []. rewrite app_nil_r. split_and!; [done|constructor|].
    intros a Ha. by apply elem_of_nil in Ha.
Qed.

End BoolRunLemmas.
Section BoolRunMain.

Context `{rbh_env}.

Arguments store_node : simpl never.
Arguments malloc_node : simpl never.
Arguments malloc_triplet : simpl never.
Arguments free_expr1 : simpl never.
Arguments free_expr2 : simpl never.
Arguments free_condition : simpl never.
Arguments interpret_condition_at : simpl never.

Lemma bool_run_condition kv out smi w n0 :
  wf_world w → load_node out w = Some n0 →
  bool_run smi (BoolCondition kv) out w
           (snd (build_bool_expr (BoolCondition kv) out smi w))
           (fst (build_bool_expr (BoolCondition kv) out smi w)).
Proof.
  intros Hwf Hout. simpl.
  pose proof (stored_first out (set_node_type NODE_CONDITION) w n0 Hout) as S0.
  set (w1 := store_node _ _ w) in *.
  apply load_node_Some in Hout.
  pose proof (wf_lt _ _ _ Hwf Hout) as Hlt.
  unfold malloc_triplet, malloc.
  assert (Hb1 : brk w1 = brk w) by apply S0.
  assert (Hl1 : limit w1 = limit w) by apply S0.
  assert (Hj1 : junk_triplet w1 = junk_triplet w) by apply S0.
  rewrite Hb1, Hl1.
  destruct (N.ltb_spec (brk w) (limit w)) as [Hbl|Hbl].
  2:{ apply (stored_next out (set_condition NULL)) in S0.
      change (NULL =? NULL)%N with true. cbv iota.
      eapply bool_run_stored; try done. }
  pose proof (stored_fresh_first out (set_condition (brk w))
                (ObjTriplet (junk_triplet w1)) _ _ _ S0 ltac:(lia)) as S1.
  destruct (N.eqb_spec (brk w) NULL) as [Hbn|Hbn]; [unfold NULL in Hbn; lia|].
  set (w3 := store_node _ _ (alloc _ w1)) in *.
  pose proof (stored_fresh_wf _ _ _ _ _ _ Hwf Hout S1) as Hwf3.
  destruct S1 as (Hc3 & Hb3 & Hl3 & Hjn3 & Hjt3 & Hm3 & He3 & Hfr3 & Hf3).
  assert (Hlt3 : load_triplet (brk w) w3 = Some (junk_triplet w1)).
  { unfold load_triplet. rewrite Hc3. rewrite lookup_insert_ne by lia.
    by rewrite lookup_insert_eq. }
  destruct (interpret_condition_at_run kv (brk w) smi w3 _ Hlt3)
    as (st & Hst & Hc4 & Hb4 & Hl4 & Hjn4 & Hjt4 & Hfr4 & Hf4).
  destruct (interpret_condition_at kv (brk w) smi w3) as [rc w4]. simpl in *.
  set (n3 := set_condition (brk w) (set_node_type NODE_CONDITION n0)) in *.
  assert (Hout4 : cells w4 !! out = Some (ObjNode n3)).
  { rewrite Hc4. rewrite lookup_insert_ne by lia. rewrite Hc3. apply lookup_insert_eq. }
  assert (Hfault : fault w4 = true → fault w = true ∨ cond_faults smi (BoolCondition kv)).
  { rewrite Hf4. intros Hft. destruct (fault w) eqn:Hfw; [by left|right].
    exists kv, (mk_cond (junk_triplet w1) (attr_mask w3) (err_msg w3) (fault w3)).
    rewrite Hst. simpl. split_and!; [by apply list_elem_of_singleton|congruence|done]. }
  assert (Hwf4 : wf_world w4).
  { destruct Hwf3 as (Hnull & Hpos & Habove). unfold wf_world.
    rewrite Hc4, Hb4. split_and!.
    - rewrite lookup_insert_ne by (unfold NULL; lia). done.
    - done.
    - intros a Ha. rewrite lookup_insert_ne by lia. by apply Habove. }
  assert (Hframe : ∀ a, a ≠ out → (a < brk w)%N → cells w4 !! a = cells w !! a).
  { intros a Ha Hlt'. rewrite Hc4. rewrite lookup_insert_ne by lia.
    rewrite Hc3. rewrite !lookup_insert_ne by lia. done. }
  destruct (Z.eqb_spec rc 0) as [->|Hrc]; simpl.
  - unfold bool_run. split_and!; try done; try congruence; try lia.
    + exists n3. split; [done|]. intros _.
      exists (NCond (c_triplet st)), [condition n3]. split_and!.
      * constructor; [done|]. simpl. rewrite Hc4. apply lookup_insert_eq.
      * simpl. eexists. rewrite Hst. done.
      * congruence.
      * intros a. rewrite list_elem_of_singleton. simpl. lia.
    + exists []. rewrite app_nil_r. split_and!; [congruence|constructor|].
      intros a Ha. by apply elem_of_nil in Ha.
  - unfold free_condition. rewrite (load_node_cells out w4 n3 Hout4).
    change (condition n3) with (brk w).
    unfold free. destruct (N.eqb_spec (brk w) NULL) as [Hbn'|_]; [done|].
    unfold bool_run. simpl. split_and!; try done; try congruence.
    + destruct Hwf4 as (Hnull & Hpos & Habove). unfold wf_world. simpl. split_and!.
      * rewrite lookup_delete_ne by (unfold NULL; lia). done.
      * done.
      * intros a Ha. rewrite lookup_delete_ne by lia. by apply Habove.
    + lia.
    + intros a Ha Hlt'. rewrite lookup_delete_ne by lia. by apply Hframe.
    + rewrite Hc4 at 1. rewrite lookup_insert_eq. done.
    + exists n3. split; [|done]. rewrite lookup_delete_ne by lia. done.
    + exists [brk w]. split_and!; [congruence|apply NoDup_singleton|].
      intros a Ha. apply list_elem_of_singleton in Ha as ->.
      split; [lia|]. apply lookup_delete_eq.
Qed.

Lemma free_allocated p w o :
  cells w !! p = Some o → p ≠ NULL →
  free p w = mk_world (delete p (cells w)) (brk w) (limit w) (junk_node w)
                      (junk_triplet w) (attr_mask w) (err_msg w)
                      (frees w ++ [p]) (fault w).
Proof.
  intros Hp Hn. unfold free. destruct (N.eqb_spec p NULL); [done|]. by rewrite Hp.
Qed.

Lemma wf_world_delete p w cs :
  wf_world w → cs = delete p (cells w) →
  wf_world (mk_world cs (brk w) (limit w) (junk_node w) (junk_triplet w)
                     (attr_mask w) (err_msg w) (frees w ++ [p]) (fault w)).
Proof.
  intros (Hnull & Hpos & Habove) ->. unfold wf_world. simpl. split_and!; [|done|].
  - destruct (decide (p = NULL)) as [->|]; [apply lookup_delete_eq|].
    by rewrite lookup_delete_ne.
  - intros a Ha. destruct (decide (p = a)) as [->|]; [apply lookup_delete_eq|].
    rewrite lookup_delete_ne by done. by apply Habove.
Qed.

Lemma NoDup_snoc (l : list N) a : NoDup l → a ∉ l → NoDup (l ++ [a])%list.
Proof.
  intros Hl Ha. apply NoDup_app. split_and!; [done| |apply NoDup_singleton].
  intros b Hb Hb'. apply list_elem_of_singleton in Hb' as ->. done.
Qed.

Lemma bool_run_unary oper e1 out smi w n0 :
  (∀ out w n0, wf_world w → load_node out w = Some n0 →
     bool_run smi e1 out w (snd (build_bool_expr e1 out smi w))
              (fst (build_bool_expr e1 out smi w))) →
  wf_world w → load_node out w = Some n0 →
  bool_run smi (BoolUnary oper e1) out w
           (snd (build_bool_expr (BoolUnary oper e1) out smi w))
           (fst (build_bool_expr (BoolUnary oper e1) out smi w)).
Proof.
  intros IH Hwf Hout.
  assert (Hdec : oper = BOOL_OP_IDENTITY ∨ oper ≠ BOOL_OP_IDENTITY)
    by (destruct oper; auto).
  destruct Hdec as [->|Hid].
  { destruct (IH out w n0 Hwf Hout) as (? & ? & ? & ? & ? & ? & ? & ? & ?).
    unfold bool_run. simpl. split_and!; done. }
  pose proof (stored_first out (set_node_type NODE_UNARY_EXPR) w n0 Hout) as S0.
  apply (stored_next out (set_bool_op (syntax2conf_boolop oper))) in S0.
  apply load_node_Some in Hout.
  pose proof (wf_lt _ _ _ Hwf Hout) as Hlt.
  assert (Hdec : syntax2conf_boolop oper = BOOL_ERR ∨ syntax2conf_boolop oper ≠ BOOL_ERR)
    by (destruct oper; simpl; auto).
  destruct Hdec as [Herr|Herr].
  { destruct oper; try done; simpl; eapply bool_run_stored; try done. }
  apply (stored_next out (set_owner true)) in S0.
  assert (Hbody : build_bool_expr (BoolUnary oper e1) out smi w =
    let w := store_node out (set_owner true)
               (store_node out (set_bool_op (syntax2conf_boolop oper))
                  (store_node out (set_node_type NODE_UNARY_EXPR) w)) in
    let '(e1', w) := malloc_node w in
    let w := store_node out (set_expr1 e1') w in
    if (e1' =? NULL)%N then fail ENOMEM "Could not allocate memory" w
    else
      let w := store_node out (set_expr2 NULL) w in
      let '(rc, w) := build_bool_expr e1 e1' smi w in
      if rc =? 0 then (0, w) else (rc, free_expr1 out w)).
  { destruct oper; done. }
  rewrite Hbody. clear Hbody. cbv zeta.
  set (w2 := store_node _ _ (store_node _ _ (store_node _ _ w))) in *.
  unfold malloc_node, malloc.
  assert (Hb2 : brk w2 = brk w) by apply S0.
  assert (Hl2 : limit w2 = limit w) by apply S0.
  assert (Hj2 : junk_node w2 = junk_node w) by apply S0.
  rewrite Hb2, Hl2.
  destruct (N.ltb_spec (brk w) (limit w)) as [Hbl|Hbl].
  2:{ apply (stored_next out (set_expr1 NULL)) in S0.
      change (NULL =? NULL)%N with true. cbv iota.
      eapply bool_run_stored; try done. }
  pose proof (stored_fresh_first out (set_expr1 (brk w))
                (ObjNode (junk_node w2)) _ _ _ S0 ltac:(lia)) as S1.
  apply (stored_fresh_next out (set_expr2 NULL)) in S1.
  destruct (N.eqb_spec (brk w) NULL) as [Hbn|Hbn]; [unfold NULL in Hbn; lia|].
  set (w5 := store_node _ _ (store_node _ _ (alloc _ w2))) in *.
  pose proof (stored_fresh_wf _ _ _ _ _ _ Hwf Hout S1) as Hwf5.
  destruct S1 as (Hc5 & Hb5 & Hl5 & Hjn5 & Hjt5 & Hm5 & He5 & Hfr5 & Hf5).
  set (n5 := set_expr2 NULL _) in *.
  assert (Hld5 : load_node (brk w) w5 = Some (junk_node w2)).
  { apply load_node_Some. rewrite Hc5. rewrite lookup_insert_ne by lia.
    apply lookup_insert_eq. }
  destruct (IH (brk w) w5 _ Hwf5 Hld5)
    as (Hwf6 & Hb6 & Hl6 & Hjn6 & Hjt6 & Hframe6 & Hfault6 & (n1 & Hn1 & Htree) & (fr & Hfr6 & Hnd & Hfr)).
  destruct (build_bool_expr e1 (brk w) smi w5) as [rc w6]. simpl in *.
  assert (Hout6 : cells w6 !! out = Some (ObjNode n5)).
  { rewrite Hframe6 by lia. rewrite Hc5. apply lookup_insert_eq. }
  assert (Hframe : ∀ a, a ≠ out → (a < brk w)%N → cells w6 !! a = cells w !! a).
  { intros a Ha Hlt'. rewrite Hframe6 by lia. rewrite Hc5.
    rewrite !lookup_insert_ne by lia. done. }
  assert (Hfault : fault w6 = true → fault w = true ∨ cond_faults smi (BoolUnary oper e1)).
  { intros Hft. destruct (Hfault6 Hft) as [?|(kv & st & ? & ? & ?)]; [left; congruence|].
    right. exists kv, st. done. }
  destruct (Z.eqb_spec rc 0) as [->|Hrc]; simpl.
  - destruct (Htree eq_refl) as (t1 & k1 & Hh1 & Hsp1 & Hfrees & Hk1).
    unfold bool_run. split_and!; try done; try congruence; try lia.
    + exists n5. split; [done|]. intros _.
      exists (NUnary (bool_op n5) t1), (k1 ++ [expr1 n5])%list. split_and!.
      * eapply holds_unary; try done. intros Hin. apply Hk1 in Hin. simpl in Hin. lia.
      * destruct oper; done.
      * congruence.
      * intros a. rewrite elem_of_app, list_elem_of_singleton, Hk1. simpl. lia.
    + exists []. rewrite app_nil_r. split_and!; [congruence|constructor|].
      intros a Ha. by apply elem_of_nil in Ha.
  - unfold free_expr1. rewrite (load_node_cells out w6 n5 Hout6).
    change (expr1 n5) with (brk w).
    rewrite (free_allocated _ _ _ Hn1) by done.
    unfold bool_run. simpl. split_and!; try done; try congruence; try lia.
    + by apply wf_world_delete.
    + intros a Ha Hlt'. rewrite lookup_delete_ne by lia. by apply Hframe.
    + exists n5. split; [|done]. rewrite lookup_delete_ne by lia. done.
    + exists (fr ++ [brk w])%list. split_and!.
      * rewrite Hfr6, Hfr5. by rewrite <- app_assoc.
      * apply NoDup_snoc; [done|]. intros Hin. apply Hfr in Hin. lia.
      * intros a Ha. apply elem_of_app in Ha as [Ha|Ha].
        -- destruct (Hfr a Ha) as [Hr Hnone]. split; [lia|].
           rewrite lookup_delete_ne by lia. done.
        -- apply list_elem_of_singleton in Ha as ->. split; [lia|apply lookup_delete_eq].
Qed.

Lemma bool_run_binary oper e1 e2 out smi w n0 :
  (∀ out w n0, wf_world w → load_node out w = Some n0 →
     bool_run smi e1 out w (snd (build_bool_expr e1 out smi w))
              (fst (build_bool_expr e1 out smi w))) →
  (∀ out w n0, wf_world w → load_node out w = Some n0 →
     bool_run smi e2 out w (snd (build_bool_expr e2 out smi w))
              (fst (build_bool_expr e2 out smi w))) →
  wf_world w → load_node out w = Some n0 →
  bool_run smi (BoolBinary oper e1 e2) out w
           (snd (build_bool_expr (BoolBinary oper e1 e2) out smi w))
           (fst (build_bool_expr (BoolBinary oper e1 e2) out smi w)).
Proof.
  intros IH1 IH2 Hwf Hout.
  pose proof (stored_first out (set_node_type NODE_BINARY_EXPR) w n0 Hout) as S0.
  apply (stored_next out (set_bool_op (syntax2conf_boolop oper))) in S0.
  apply load_node_Some in Hout.
  pose proof (wf_lt _ _ _ Hwf Hout) as Hlt.
  assert (Hdec : syntax2conf_boolop oper = BOOL_ERR ∨ syntax2conf_boolop oper ≠ BOOL_ERR)
    by (destruct oper; simpl; auto).
  destruct Hdec as [Herr|Herr].
  { destruct oper; try done; simpl; eapply bool_run_stored; try done. }
  apply (stored_next out (set_owner true)) in S0.
  assert (Hbody : build_bool_expr (BoolBinary oper e1 e2) out smi w =
    let w := store_node out (set_owner true)
               (store_node out (set_bool_op (syntax2conf_boolop oper))
                  (store_node out (set_node_type NODE_BINARY_EXPR) w)) in
    let '(e1', w) := malloc_node w in
    let w := store_node out (set_expr1 e1') w in
    if (e1' =? NULL)%N then fail ENOMEM "Could not allocate memory" w
    else
      let '(rc, w) := build_bool_expr e1 e1' smi w in
      if rc =? 0 then
        let '(e2', w) := malloc_node w in
        let w := store_node out (set_expr2 e2') w in
        if (e2' =? NULL)%N then fail ENOMEM "Could not allocate memory" w
        else
          let '(rc, w) := build_bool_expr e2 e2' smi w in
          if rc =? 0 then (0, w)
          else (rc, free_expr1 out (free_expr2 out w))
      else (rc, free_expr1 out w)).
  { destruct oper; done. }
  rewrite Hbody. clear Hbody. cbv zeta.
  set (w2 := store_node _ _ (store_node _ _ (store_node _ _ w))) in *.
  assert (Hb2 : brk w2 = brk w) by apply S0.
  assert (Hl2 : limit w2 = limit w) by apply S0.
  assert (Hj2 : junk_node w2 = junk_node w) by apply S0.
  assert (Hm : malloc_node w2 = if (brk w <? limit w)%N
                                then (brk w, alloc (ObjNode (junk_node w2)) w2)
                                else (NULL, w2)).
  { unfold malloc_node, malloc. by rewrite Hb2, Hl2. }
  rewrite Hm. clear Hm.
  destruct (N.ltb_spec (brk w) (limit w)) as [Hbl|Hbl].
  2:{ apply (stored_next out (set_expr1 NULL)) in S0.
      change (NULL =? NULL)%N with true. cbv iota.
      eapply bool_run_stored; try done. }
  pose proof (stored_fresh_first out (set_expr1 (brk w))
                (ObjNode (junk_node w2)) _ _ _ S0 ltac:(lia)) as S1.
  destruct (N.eqb_spec (brk w) NULL) as [Hbn|Hbn]; [unfold NULL in Hbn; lia|].
  set (w5 := store_node _ _ (alloc _ w2)) in *.
  pose proof (stored_fresh_wf _ _ _ _ _ _ Hwf Hout S1) as Hwf5.
  destruct S1 as (Hc5 & Hb5 & Hl5 & Hjn5 & Hjt5 & Hm5 & He5 & Hfr5 & Hf5).
  set (n5 := set_expr1 (brk w) _) in *.
  assert (Hld5 : load_node (brk w) w5 = Some (junk_node w2)).
  { apply load_node_Some. rewrite Hc5. rewrite lookup_insert_ne by lia.
    apply lookup_insert_eq. }
  destruct (IH1 (brk w) w5 _ Hwf5 Hld5)
    as (Hwf6 & Hb6 & Hl6 & Hjn6 & Hjt6 & Hframe6 & Hfault6 & (n1 & Hn1 & Htree1)
        & (fr1 & Hfr6 & Hnd1 & Hfr1)).
  destruct (build_bool_expr e1 (brk w) smi w5) as [rc w6]. simpl in *.
  assert (Hout6 : cells w6 !! out = Some (ObjNode n5)).
  { rewrite Hframe6 by lia. rewrite Hc5. apply lookup_insert_eq. }
  assert (Hframe : ∀ a, a ≠ out → (a < brk w)%N → cells w6 !! a = cells w !! a).
  { intros a Ha Hlt'. rewrite Hframe6 by lia. rewrite Hc5.
    rewrite !lookup_insert_ne by lia. done. }
  assert (Hfault : fault w6 = true →
                   fault w = true ∨ cond_faults smi (BoolBinary oper e1 e2)).
  { intros Hft. destruct (Hfault6 Hft) as [?|(kv & st & ? & ? & ?)]; [left; congruence|].
    right. exists kv, st. simpl. split_and!; [apply elem_of_app; by left|done|done]. }
  destruct (Z.eqb_spec rc 0) as [->|Hrc]; simpl.
  2:{ unfold free_expr1. rewrite (load_node_cells out w6 n5 Hout6).
      change (expr1 n5) with (brk w).
      rewrite (free_allocated _ _ _ Hn1) by done.
      unfold bool_run. simpl. split_and!; try done; try congruence; try lia.
      + by apply wf_world_delete.
      + intros a Ha Hlt'. rewrite lookup_delete_ne by lia. by apply Hframe.
      + exists n5. split; [|done]. rewrite lookup_delete_ne by lia. done.
      + exists (fr1 ++ [brk w])%list. split_and!.
        * rewrite Hfr6, Hfr5. by rewrite <- app_assoc.
        * apply NoDup_snoc; [done|]. intros Hin. apply Hfr1 in Hin. lia.
        * intros a Ha. apply elem_of_app in Ha as [Ha|Ha].
          -- destruct (Hfr1 a Ha) as [Hr Hnone]. split; [lia|].
             rewrite lookup_delete_ne by lia. done.
          -- apply list_elem_of_singleton in Ha as ->.
             split; [lia|apply lookup_delete_eq]. }
  destruct (Htree1 eq_refl) as (t1 & k1 & Hh1 & Hsp1 & Hfrees1 & Hk1).
  clear Htree1.
  pose proof (stored_refl _ _ _ Hout6) as S6.
  unfold malloc_node, malloc.
  destruct (N.ltb_spec (brk w6) (limit w6)) as [Hbl6|Hbl6].
  2:{ apply (stored_next out (set_expr2 NULL)) in S6.
      change (NULL =? NULL)%N with true. cbv iota.
      destruct S6 as (Hc7 & Hb7 & Hl7 & Hjn7 & Hjt7 & Hm7 & He7 & Hfr7 & Hf7).
      assert (Hwf7 : wf_world (store_node out (set_expr2 NULL) w6)).
      { eapply stored_wf; [exact Hwf6|exact Hout6|]. by repeat split. }
      unfold bool_run. simpl. split_and!; try done; try congruence; try lia.
      + intros a Ha Hlt'. rewrite Hc7. rewrite lookup_insert_ne by done. by apply Hframe.
      + intros Hft. apply Hfault. congruence.
      + eexists. split; [rewrite Hc7; apply lookup_insert_eq|done].
      + exists []. rewrite app_nil_r. split_and!; [congruence|constructor|].
        intros a Ha. by apply elem_of_nil in Ha. }
  pose proof (stored_fresh_first out (set_expr2 (brk w6))
                (ObjNode (junk_node w6)) _ _ _ S6 ltac:(lia)) as S7.
  destruct (N.eqb_spec (brk w6) NULL) as [Hbn6|Hbn6]; [unfold NULL in Hbn6; lia|].
  set (w8 := store_node _ _ (alloc _ w6)) in *.
  pose proof (stored_fresh_wf _ _ _ _ _ _ Hwf6 Hout6 S7) as Hwf8.
  destruct S7 as (Hc8 & Hb8 & Hl8 & Hjn8 & Hjt8 & Hm8 & He8 & Hfr8 & Hf8).
  set (n8 := set_expr2 (brk w6) n5) in *.
  assert (Hld8 : load_node (brk w6) w8 = Some (junk_node w6)).
  { apply load_node_Some. rewrite Hc8. rewrite lookup_insert_ne by lia.
    apply lookup_insert_eq. }
  destruct (IH2 (brk w6) w8 _ Hwf8 Hld8)
    as (Hwf9 & Hb9 & Hl9 & Hjn9 & Hjt9 & Hframe9 & Hfault9 & (n2 & Hn2 & Htree2)
        & (fr2 & Hfr9 & Hnd2 & Hfr2)).
  destruct (build_bool_expr e2 (brk w6) smi w8) as [rc w9]. simpl in *.
  assert (Hout9 : cells w9 !! out = Some (ObjNode n8)).
  { rewrite Hframe9 by lia. rewrite Hc8. apply lookup_insert_eq. }
  assert (Hold9 : ∀ a, a ≠ out → (a < brk w6)%N → cells w9 !! a = cells w6 !! a).
  { intros a Ha Hlt'. rewrite Hframe9 by lia. rewrite Hc8.
    rewrite !lookup_insert_ne by lia. done. }
  assert (Hframe' : ∀ a, a ≠ out → (a < brk w)%N → cells w9 !! a = cells w !! a).
  { intros a Ha Hlt'. rewrite Hold9 by lia. by apply Hframe. }
  assert (Hfault' : fault w9 = true →
                    fault w = true ∨ cond_faults smi (BoolBinary oper e1 e2)).
  { intros Hft. destruct (Hfault9 Hft) as [?|(kv & st & ? & ? & ?)].
    - apply Hfault. congruence.
    - right. exists kv, st. simpl. split_and!; [apply elem_of_app; by right|done|done]. }
  assert (Hn1' : cells w9 !! brk w = Some (ObjNode n1)).
  { rewrite Hold9 by lia. done. }
  destruct (Z.eqb_spec rc 0) as [->|Hrc]; simpl.
  - destruct (Htree2 eq_refl) as (t2 & k2 & Hh2 & Hsp2 & Hfrees2 & Hk2).
    unfold bool_run. split_and!; try done; try congruence; try lia.
    + exists n8. split; [done|]. intros _.
      exists (NBinary (bool_op n8) t1 t2),
             ((k1 ++ [expr1 n8]) ++ k2 ++ [expr2 n8])%list. split_and!.
      * eapply holds_binary; try done.
        -- apply (node_holds_agree (cells w6)); [done|].
           intros a Ha. apply Hk1 in Ha. apply Hold9; lia.
        -- intros Hin. apply Hk1 in Hin. simpl in Hin. lia.
        -- intros Hin. apply Hk2 in Hin. simpl in Hin. lia.
        -- intros a. rewrite !elem_of_app, !list_elem_of_singleton, Hk1, Hk2.
           simpl. lia.
      * destruct oper; done.
      * congruence.
      * intros a. rewrite !elem_of_app, !list_elem_of_singleton, Hk1, Hk2. simpl. lia.
    + exists []. rewrite app_nil_r. split_and!; [congruence|constructor|].
      intros a Ha. by apply elem_of_nil in Ha.
  - unfold free_expr2. rewrite (load_node_cells out w9 n8 Hout9).
    change (expr2 n8) with (brk w6).
    rewrite (free_allocated _ _ _ Hn2) by done.
    unfold free_expr1, load_node. simpl.
    rewrite lookup_delete_ne by lia. rewrite Hout9.
    change (expr1 n8) with (brk w).
    erewrite free_allocated; [|simpl; rewrite lookup_delete_ne by lia; exact Hn1'|done].
    unfold bool_run. simpl. split_and!; try done; try congruence; try lia.
    + apply (wf_world_delete (brk w)
               (mk_world (delete (brk w6) (cells w9)) (brk w9) (limit w9) (junk_node w9)
                         (junk_triplet w9) (attr_mask w9) (err_msg w9)
                         (frees w9 ++ [brk w6]) (fault w9))); [|done].
      by apply wf_world_delete.
    + intros a Ha Hlt'. rewrite !lookup_delete_ne by lia. by apply Hframe'.
    + exists n8. split; [|done]. rewrite !lookup_delete_ne by lia. done.
    + exists (fr2 ++ [brk w6; brk w])%list. split_and!.
      * rewrite Hfr9, Hfr8, Hfrees1, Hfr5. by rewrite <- !app_assoc.
      * apply NoDup_app. split_and!; [done| |].
        -- intros a Ha Hb. apply Hfr2 in Ha.
           apply elem_of_cons in Hb as [->|Hb]; [lia|].
           apply list_elem_of_singleton in Hb as ->. lia.
        -- apply NoDup_cons. split; [|apply NoDup_singleton].
           intros Hin. apply list_elem_of_singleton in Hin. lia.
      * intros a Ha. apply elem_of_app in Ha as [Ha|Ha].
        -- destruct (Hfr2 a Ha) as [Hr Hnone]. split; [lia|].
           rewrite !lookup_delete_ne by lia. done.
        -- apply elem_of_cons in Ha as [->|Ha].
           ++ split; [lia|]. rewrite lookup_delete_ne by lia. apply lookup_delete_eq.
           ++ apply list_elem_of_singleton in Ha as ->.
              split; [lia|apply lookup_delete_eq].
Qed.

Lemma build_bool_expr_run e : ∀ out smi w n0,
  wf_world w → load_node out w = Some n0 →
  bool_run smi e out w (snd (build_bool_expr e out smi w))
           (fst (build_bool_expr e out smi w)).
Proof.
  induction e as [kv|oper e1 IH1|oper e1 IH1 e2 IH2|ty]; intros out smi w n0 Hwf Hout.
  - by eapply bool_run_condition.
  - eapply bool_run_unary; [|done..]. intros; by eapply IH1.
  - eapply bool_run_binary; [| |done..]; intros; [by eapply IH1|by eapply IH2].
  - simpl. apply load_node_Some in Hout.
    eapply bool_run_stored; [done|done| |done]. by apply stored_refl.
Qed.

End BoolRunMain.

(** ** What the boolean builder leaves in the store *)

Lemma range_length (l : list N) lo hi :
  NoDup l → (∀ a, a ∈ l → (lo ≤ a < hi)%N) → (length l ≤ N.to_nat (hi - lo))%nat.
Proof.
  intros Hnd Hin.
  set (k := N.of_nat <$> seq (N.to_nat lo) (N.to_nat (hi - lo))).
  assert (Hsub : l ⊆+ k).
  { apply NoDup_submseteq; [done|]. intros a Ha. apply Hin in Ha.
    unfold k. apply list_elem_of_fmap. exists (N.to_nat a). split; [lia|].
    apply elem_of_seq. lia. }
  apply submseteq_length in Hsub. unfold k in Hsub.
  by rewrite length_fmap, length_seq in Hsub.
Qed.

Section BoolRunTheorems.

Context `{rbh_env}.

(** X10: when [build_bool_expr] returns 0, the node [out] holds an
    expression that spells the syntax tree: identities dropped, the other
    operators translated by [syntax2conf_boolop], every leaf a triplet
    accepted by [interpret_condition].  The cells the expression owns are
    exactly the cells handed out during the call, each owned once; nothing
    was released, and the older cells other than [out] are as before. *)
Theorem build_bool_expr_tree e out smi w n0 w' :
  wf_world w → load_node out w = Some n0 →
  build_bool_expr e out smi w = (0, w') →
  ∃ n t kids,
    cells w' !! out = Some (ObjNode n) ∧ node_holds (cells w') n t kids ∧
    spells smi e t ∧ NoDup kids ∧ (∀ a, a ∈ kids ↔ (brk w ≤ a < brk w')%N) ∧
    frees w' = frees w ∧
    ∀ a, a ≠ out → (a < brk w)%N → cells w' !! a = cells w !! a.
Proof.
  intros Hwf Hout Hb.
  pose proof (build_bool_expr_run e out smi w n0 Hwf Hout) as Hrun.
  rewrite Hb in Hrun. simpl in Hrun.
  destruct Hrun as (_ & _ & _ & _ & _ & Hframe & _ & (n & Hn & Htree) & _).
  destruct (Htree eq_refl) as (t & kids & Hh & Hsp & Hfr & Hk).
  exists n, t, kids. split_and!; try done. by eapply node_holds_NoDup.
Qed.

(** X11: an expression that [build_bool_expr] has built is released in
    full by [FreeBoolExpr]: every cell handed out by the builder is freed
    exactly once, no free faults, and the store is back to what it was
    before the build, the node [out] apart (which is freed last when
    [free_top_node] is set). *)
Theorem build_bool_expr_then_free e out smi w n0 w' fuel top :
  wf_world w → load_node out w = Some n0 →
  build_bool_expr e out smi w = (0, w') →
  (N.to_nat (brk w' - brk w) < fuel)%nat →
  ∃ kids w'',
    FreeBoolExpr fuel out top w' = Some (0, w'') ∧
    NoDup kids ∧ (∀ a, a ∈ kids ↔ (brk w ≤ a < brk w')%N) ∧
    frees w'' = (frees w ++ kids ++ (if top then [out] else []))%list ∧
    fault w'' = fault w' ∧
    cells w'' !! out = (if top then None else cells w' !! out) ∧
    ∀ a, a ≠ out → cells w'' !! a = cells w !! a.
Proof.
  intros Hwf Hout Hb Hfuel.
  pose proof (build_bool_expr_run e out smi w n0 Hwf Hout) as Hrun.
  rewrite Hb in Hrun. simpl in Hrun.
  destruct Hrun as (Hwf' & Hbrk & _ & _ & _ & Hframe & _ & (n & Hn & Htree) & _).
  destruct (Htree eq_refl) as (t & kids & Hh & Hsp & Hfr & Hk).
  pose proof (node_holds_NoDup _ _ _ _ Hh) as Hnd.
  pose proof (node_holds_alloc _ _ _ _ Hh) as Hal.
  apply load_node_Some in Hout.
  pose proof (wf_lt _ _ _ Hwf Hout) as Hlt.
  assert (Hok : out ∉ kids) by (intros Hin; apply Hk in Hin; lia).
  assert (Hnull : NULL ∉ kids).
  { intros Hin. apply Hk in Hin. destruct Hwf as (_ & Hpos & _). unfold NULL in Hin. lia. }
  assert (Hlen : (length kids < fuel)%nat).
  { pose proof (range_length kids (brk w) (brk w') Hnd) as Hl.
    specialize (Hl (λ a Ha, proj1 (Hk a) Ha)). lia. }
  pose proof (FreeBoolExpr_holds _ _ _ _ Hh out fuel top w' (proj1 Hwf') Hn Hok
                (λ a _, eq_refl) Hlen) as Hfree.
  assert (Hrest : ∀ a, a ≠ out → cells (free_all kids w') !! a = cells w !! a).
  { intros a Ha. rewrite free_all_cells by done. case_decide as Hin.
    - apply Hk in Hin. destruct Hwf as (_ & _ & Habove). symmetry. apply Habove. lia.
    - destruct (N.lt_ge_cases a (brk w)) as [Hlo|Hhi]; [by apply Hframe|].
      assert (brk w' ≤ a)%N.
      { destruct (N.lt_ge_cases a (brk w')) as [Hlo'|]; [|done].
        destruct Hin. apply Hk. lia. }
      destruct Hwf as (_ & _ & Habove), Hwf' as (_ & _ & Habove').
      rewrite Habove, Habove'; done. }
  assert (Hfault : fault (free_all kids w') = fault w')
    by (by apply free_all_fault).
  assert (Hout' : cells (free_all kids w') !! out = cells w' !! out).
  { rewrite free_all_cells by done. by rewrite decide_False. }
  exists kids. destruct top.
  - exists (free out (free_all kids w')). rewrite free_all_snoc in Hfree.
    assert (Hon : out ≠ NULL) by (unfold NULL; lia).
    split_and!; try done.
    + erewrite free_allocated; [|rewrite Hout'; exact Hn|done]. simpl.
      rewrite free_all_frees by done. rewrite Hfr. by rewrite <- app_assoc.
    + erewrite free_allocated; [|rewrite Hout'; exact Hn|done]. done.
    + rewrite free_cells. by rewrite decide_True.
    + intros a Ha. rewrite free_cells. rewrite decide_False by naive_solver.
      by apply Hrest.
  - exists (free_all kids w'). split_and!; try done.
    rewrite free_all_frees by done. rewrite Hfr. by rewrite app_nil_r.
Qed.

(** X12: whatever [build_bool_expr] returns, it releases only cells that
    it has allocated itself, each at most once, and none when it returns 0;
    every older cell other than [out] is as before and [out] is still a
    node; and its own loads, stores and frees are defined: a fault was
    there before the call or comes from [interpret_condition]. *)
Theorem build_bool_expr_memory_safe e out smi w n0 :
  wf_world w → load_node out w = Some n0 →
  let rc := fst (build_bool_expr e out smi w) in
  let w' := snd (build_bool_expr e out smi w) in
  (∃ fr, frees w' = (frees w ++ fr)%list ∧ NoDup fr ∧ (rc = 0 → fr = []) ∧
         ∀ a, a ∈ fr → (brk w ≤ a < brk w')%N ∧ cells w' !! a = None) ∧
  (∀ a, a ≠ out → (a < brk w)%N → cells w' !! a = cells w !! a) ∧
  (∃ n, cells w' !! out = Some (ObjNode n)) ∧
  (fault w' = true → fault w = true ∨ cond_faults smi e).
Proof.
  intros Hwf Hout rc w'. subst rc w'.
  destruct (build_bool_expr_run e out smi w n0 Hwf Hout)
    as (_ & _ & _ & _ & _ & Hframe & Hfault & (n & Hn & Htree) & (fr & Hfr & Hnd & Hin)).
  split_and!; try done; [|by exists n].
  exists fr. split_and!; try done.
  intros Hrc. destruct (Htree Hrc) as (t & kids & _ & _ & Hfr' & _).
  rewrite Hfr' in Hfr. rewrite <- (app_nil_r (frees w)) in Hfr at 1.
  by apply app_inv_head in Hfr.
Qed.

End BoolRunTheorems.

(** X1: when a file class is defined by a single condition, the
    expression built for its name is a copy of the class's root that
    shares the class's triplet, and [FreeBoolExpr] on the built expression
    releases that triplet: the class definition is left with a dangling
    pointer. *)
Theorem FreeBoolExpr_leaf_class pol name c out w n0 t fuel top :
  wf_world w → load_node out w = Some n0 →
  find_fileset (fileset_list pol) name = Some c →
  node_type (definition c) = NODE_CONDITION →
  cells w !! condition (definition c) = Some (ObjTriplet t) →
  ∃ w' w'',
    build_set_expr (SetSingleton name) out pol w = (0, w') ∧
    FreeBoolExpr (S fuel) out top w' = Some (0, w'') ∧
    cells w' !! condition (definition c) = Some (ObjTriplet t) ∧
    cells w'' !! condition (definition c) = None ∧
    frees w'' = (frees w ++ condition (definition c) :: (if top then [out] else []))%list.
Proof.
  intros Hwf Hout Hc Hty Ht. simpl. rewrite Hc.
  pose proof (stored_first out (fun _ => definition c) w n0 Hout) as S0.
  set (w1 := store_node _ _ w) in *.
  assert (Hl1 : load_node out (set_attr_mask (Z.lor (attr_mask w1) (fs_attr_mask c)) w1)
                = Some (definition c)).
  { apply load_node_Some. simpl. destruct S0 as (-> & _). apply lookup_insert_eq. }
  pose proof (stored_first out (set_owner false) _ _ Hl1) as S1.
  set (w2 := store_node _ _ (set_attr_mask _ _)) in *.
  destruct S0 as (Hc0 & Hb0 & ? & ? & ? & Hm0 & ? & Hfr0 & ?).
  destruct S1 as (Hc1 & Hb1 & ? & ? & ? & Hm1 & ? & Hfr1 & ?). simpl in *.
  apply load_node_Some in Hout.
  pose proof (wf_lt _ _ _ Hwf Hout) as Hlt.
  pose proof (wf_lt _ _ _ Hwf Ht) as Hltc.
  assert (Hne : condition (definition c) ≠ out) by (intros E; rewrite E in Ht; congruence).
  assert (Hcells : cells w2 = <[out := ObjNode (set_owner false (definition c))]> (cells w)).
  { rewrite Hc1, Hc0. apply insert_insert_eq. }
  assert (Ht2 : cells w2 !! condition (definition c) = Some (ObjTriplet t)).
  { rewrite Hcells. by rewrite lookup_insert_ne. }
  eexists w2, _. split; [done|].
  cbn [FreeBoolExpr].
  destruct (N.eqb_spec out NULL) as [E|_]; [unfold NULL in E; lia|].
  rewrite (load_node_cells out w2 (set_owner false (definition c)))
    by (rewrite Hcells; apply lookup_insert_eq).
  change (node_type (set_owner false (definition c))) with (node_type (definition c)).
  rewrite Hty. change (condition (set_owner false (definition c)))
    with (condition (definition c)).
  rewrite (free_allocated _ _ _ Ht2) by (unfold NULL; lia).
  split; [reflexivity|]. split; [done|]. destruct top.
  - erewrite free_allocated; [|simpl; rewrite lookup_delete_ne by done;
                               rewrite Hcells; apply lookup_insert_eq
                              |unfold NULL; lia].
    simpl. split.
    + rewrite lookup_delete_ne by done. apply lookup_delete_eq.
    + rewrite Hfr1, Hfr0. by rewrite <- app_assoc.
  - simpl. split; [apply lookup_delete_eq|]. by rewrite Hfr1, Hfr0.
Qed.

(** ** [CreateBoolCond] and [AppendBoolCond] *)

Lemma store_triplet_cells c f w t :
  cells w !! c = Some (ObjTriplet t) →
  store_triplet c f w = set_cells (<[c := ObjTriplet (f t)]> (cells w)) w.
Proof. intros Hc. unfold store_triplet, load_triplet. by rewrite Hc. Qed.

Lemma store_triplet_set c f cs w t :
  store_triplet c f (set_cells (<[c := ObjTriplet t]> cs) w)
  = set_cells (<[c := ObjTriplet (f t)]> cs) w.
Proof.
  unfold store_triplet, load_triplet, set_cells. simpl.
  rewrite lookup_insert_eq. simpl. by rewrite insert_insert_eq.
Qed.

Lemma CreateBoolCond_ok p compar crit val w n0 :
  wf_world w → cells w !! p = Some (ObjNode n0) → (brk w < limit w)%N →
  let r := CreateBoolCond p compar crit val w in
  fst r = 0 ∧
  cells (snd r) =
    <[brk w := ObjTriplet (mk_triplet 0 crit compar val "")]>
      (<[p := ObjNode (set_condition (brk w) (set_node_type NODE_CONDITION n0))]>
         (cells w)) ∧
  brk (snd r) = (brk w + 1)%N ∧ limit (snd r) = limit w ∧
  junk_node (snd r) = junk_node w ∧ junk_triplet (snd r) = junk_triplet w ∧
  attr_mask (snd r) = attr_mask w ∧ err_msg (snd r) = err_msg w ∧
  frees (snd r) = frees w ∧ fault (snd r) = fault w.
Proof.
  intros Hwf Hp Hmem r. subst r. unfold CreateBoolCond.
  pose proof (wf_lt _ _ _ Hwf Hp) as Hlt.
  pose proof (stored_first p (set_node_type NODE_CONDITION) w n0
                (load_node_cells _ _ _ Hp)) as S0.
  set (w1 := store_node _ _ w) in *.
  unfold malloc_triplet, malloc.
  assert (Hb1 : brk w1 = brk w) by apply S0.
  assert (Hl1 : limit w1 = limit w) by apply S0.
  rewrite Hb1, Hl1.
  destruct (N.ltb_spec (brk w) (limit w)) as [_|?]; [|lia].
  pose proof (stored_fresh_first p (set_condition (brk w))
                (ObjTriplet (junk_triplet w1)) _ _ _ S0 ltac:(lia)) as S1.
  destruct (N.eqb_spec (brk w) NULL) as [Hbn|Hbn]; [unfold NULL in Hbn; lia|].
  set (w3 := store_node _ _ (alloc _ w1)) in *.
  destruct S1 as (Hc3 & Hb3 & Hl3 & Hjn3 & Hjt3 & Hm3 & He3 & Hfr3 & Hf3).
  assert (Ht3 : cells w3 !! brk w = Some (ObjTriplet (junk_triplet w1))).
  { rewrite Hc3. rewrite lookup_insert_ne by lia. apply lookup_insert_eq. }
  rewrite (store_triplet_cells _ _ w3 _ Ht3).
  rewrite !store_triplet_set. simpl. split_and!; try done.
  rewrite Hc3. rewrite insert_insert_ne by lia. rewrite insert_insert_eq.
  apply insert_insert_ne. lia.
Qed.

Lemma CreateBoolCond_no_memory p compar crit val w n0 :
  cells w !! p = Some (ObjNode n0) → (limit w ≤ brk w)%N →
  let r := CreateBoolCond p compar crit val w in
  fst r = - ENOMEM ∧
  stored p (set_condition NULL (set_node_type NODE_CONDITION n0)) w (snd r).
Proof.
  intros Hp Hmem r. subst r. unfold CreateBoolCond.
  pose proof (stored_first p (set_node_type NODE_CONDITION) w n0
                (load_node_cells _ _ _ Hp)) as S0.
  set (w1 := store_node _ _ w) in *.
  unfold malloc_triplet, malloc.
  assert (Hb1 : brk w1 = brk w) by apply S0.
  assert (Hl1 : limit w1 = limit w) by apply S0.
  rewrite Hb1, Hl1.
  destruct (N.ltb_spec (brk w) (limit w)) as [?|_]; [lia|].
  apply (stored_next p (set_condition NULL)) in S0.
  change (NULL =? NULL)%N with true. cbv iota. done.
Qed.

Lemma store_node_mk p f cs b l jn jt m e fr ft n :
  cs !! p = Some (ObjNode n) →
  store_node p f (mk_world cs b l jn jt m e fr ft)
  = mk_world (<[p := ObjNode (f n)]> cs) b l jn jt m e fr ft.
Proof. intros Hp. unfold store_node, load_node. simpl. by rewrite Hp. Qed.

Lemma malloc_node_mk cs b l jn jt m e fr ft :
  (b < l)%N →
  malloc_node (mk_world cs b l jn jt m e fr ft)
  = (b, mk_world (<[b := ObjNode jn]> cs) (b + 1) l jn jt m e fr ft).
Proof.
  intros Hb. unfold malloc_node, malloc. simpl.
  by destruct (N.ltb_spec b l); [|lia].
Qed.

Lemma malloc_node_full w : (limit w ≤ brk w)%N → malloc_node w = (NULL, w).
Proof.
  intros Hb. unfold malloc_node, malloc.
  by destruct (N.ltb_spec (brk w) (limit w)); [lia|].
Qed.

(** Lookups in a store written as a chain of inserts. *)
Ltac lookup_chain :=
  repeat (rewrite lookup_insert_ne by lia);
  first [apply lookup_insert_eq | eassumption | reflexivity].

Lemma appended_holds p n e kids w o :
  wf_world w → cells w !! p = Some o → node_holds (cells w) n e kids → p ∉ kids →
  ∀ cs, (∀ a, a ≠ p → (a < brk w)%N → cs !! a = cells w !! a) →
        node_holds cs n e kids ∧ (∀ a, a ∈ kids → (0 < a < brk w)%N).
Proof.
  intros Hwf Hp Hh Hpk cs Hcs.
  assert (Hlt : ∀ a, a ∈ kids → (0 < a < brk w)%N).
  { intros a Ha. destruct (node_holds_alloc _ _ _ _ Hh a Ha) as [oa Hoa].
    by eapply wf_lt. }
  split; [|done]. apply (node_holds_agree (cells w)); [done|].
  intros a Ha. apply Hcs; [by intros ->|]. by apply Hlt.
Qed.

(** X13: with memory for three cells, [AppendBoolCond] returns 0 and turns
    the expression [e] held by the node into [e AND (crit compar val)]: the
    previous node is copied to a fresh cell and becomes the first operand,
    still owning what it owned; the second operand is a fresh condition
    whose triplet has [flags = 0] and an empty [xattr_name].  Nothing is
    released and no older cell other than the node is written. *)
Theorem AppendBoolCond_appends fuel p compar crit val w n e kids :
  wf_world w → cells w !! p = Some (ObjNode n) →
  node_holds (cells w) n e kids → p ∉ kids →
  (brk w + 3 ≤ limit w)%N →
  ∃ w' n',
    AppendBoolCond fuel p compar crit val w = Some (0, w') ∧
    cells w' !! p = Some (ObjNode n') ∧
    node_holds (cells w') n'
      (NBinary BOOL_AND e (NCond (mk_triplet 0 crit compar val "")))
      ((kids ++ [brk w]) ++ [(brk w + 2)%N] ++ [(brk w + 1)%N])%list ∧
    brk w' = (brk w + 3)%N ∧ frees w' = frees w ∧ fault w' = fault w ∧
    ∀ a, a ≠ p → (a < brk w)%N → cells w' !! a = cells w !! a.
Proof.
  intros Hwf Hp Hh Hpk Hmem.
  pose proof (wf_lt _ _ _ Hwf Hp) as Hlt.
  assert (Hkids : ∀ a, a ∈ kids → (0 < a < brk w)%N).
  { intros a Ha. destruct (node_holds_alloc _ _ _ _ Hh a Ha) as [oa Hoa].
    by eapply wf_lt. }
  destruct w as [cs b l jn jt m em fr ft]. simpl in *.
  unfold AppendBoolCond. unfold load_node at 1. simpl cells. rewrite Hp.
  erewrite store_node_mk; [|lookup_chain].
  erewrite store_node_mk; [|lookup_chain].
  erewrite store_node_mk; [|lookup_chain].
  rewrite malloc_node_mk by lia.
  erewrite store_node_mk; [|lookup_chain].
  destruct (N.eqb_spec b NULL) as [Hbn|_]; [unfold NULL in Hbn; lia|].
  erewrite store_node_mk; [|lookup_chain].
  rewrite malloc_node_mk by lia.
  erewrite store_node_mk; [|lookup_chain].
  destruct (N.eqb_spec (b + 1) NULL) as [Hbn|_]; [unfold NULL in Hbn; lia|].
  match goal with |- context [CreateBoolCond ?q _ _ _ ?w8] =>
    assert (Hwf8 : wf_world w8);
    [|pose proof (CreateBoolCond_ok q compar crit val w8 jn Hwf8
                    ltac:(simpl; lookup_chain) ltac:(simpl; lia)) as Hcr;
      destruct (CreateBoolCond q compar crit val w8) as [rc w9]] end.
  { destruct Hwf as (Hnull & Hpos & Habove). unfold wf_world. simpl in *. split_and!.
    - unfold NULL in *. rewrite !lookup_insert_ne by lia. done.
    - lia.
    - intros a Ha. rewrite !lookup_insert_ne by lia. apply Habove. lia. }
  simpl in Hcr. destruct Hcr as (-> & Hc9 & Hb9 & _ & _ & _ & _ & _ & Hfr9 & Hf9).
  replace (b + 1 + 1)%N with (b + 2)%N in * by lia.
  simpl. eexists w9, _. split; [reflexivity|].
  assert (Hold : ∀ a, a ≠ p → (a < b)%N → cells w9 !! a = cs !! a).
  { intros a Ha Hab. rewrite Hc9. rewrite !lookup_insert_ne by lia. done. }
  split_and!; try done.
  - rewrite Hc9. lookup_chain.
  - apply (holds_binary (cells w9)
             (set_expr2 (b + 1)
                (set_expr1 b
                   (set_owner true
                      (set_bool_op BOOL_AND (set_node_type NODE_BINARY_EXPR n)))))
             n (set_condition (b + 2) (set_node_type NODE_CONDITION jn))
             e (NCond (mk_triplet 0 crit compar val "")) kids [(b + 2)%N]); simpl.
    + done.
    + done.
    + rewrite Hc9. lookup_chain.
    + rewrite Hc9. lookup_chain.
    + apply (node_holds_agree cs); [done|].
      intros a Ha. apply Hold; [by intros ->|by apply Hkids].
    + change [(b + 2)%N]
        with [condition (set_condition (b + 2) (set_node_type NODE_CONDITION jn))].
      constructor; [done|]. simpl. rewrite Hc9. lookup_chain.
    + intros Hin. apply Hkids in Hin. lia.
    + rewrite list_elem_of_singleton. lia.
    + intros a Ha Hb.
      assert (a < b + 1)%N.
      { apply elem_of_app in Ha as [Ha|Ha]; [apply Hkids in Ha; lia|].
        apply list_elem_of_singleton in Ha. lia. }
      apply elem_of_cons in Hb as [->|Hb]; [lia|].
      apply list_elem_of_singleton in Hb. lia.
  - lia.
Qed.

(** The previous expression, copied to the cell [b], is released by the
    error paths of [AppendBoolCond]. *)
Lemma free_prev_holds fuel p rc w n' n e kids :
  cells w !! NULL = None →
  cells w !! p = Some (ObjNode n') →
  cells w !! expr1 n' = Some (ObjNode n) →
  node_holds (cells w) n e kids → expr1 n' ∉ kids →
  (length kids < fuel)%nat →
  free_prev fuel p rc w = Some (rc, free_all (kids ++ [expr1 n'])%list w).
Proof.
  intros Hnull Hp He1 Hh Hnk Hfuel. unfold free_prev.
  rewrite (load_node_cells _ _ _ Hp).
  by rewrite (FreeBoolExpr_holds _ _ _ _ Hh (expr1 n') fuel true w Hnull He1 Hnk
                (λ a _, eq_refl) Hfuel).
Qed.

(** X14: when the first allocation of [AppendBoolCond] succeeds and the
    second or the third fails, it returns the negative code [-ENOMEM] and
    [FreeBoolExpr] has released the copy of the previous expression with
    every cell that expression owned: the caller's expression is lost, and
    the node is left as an owning [AND] whose [expr1] points to a released
    cell. *)
Theorem AppendBoolCond_out_of_memory fuel p compar crit val w n e kids :
  wf_world w → cells w !! p = Some (ObjNode n) →
  node_holds (cells w) n e kids → p ∉ kids →
  (length kids < fuel)%nat →
  (brk w < limit w < brk w + 3)%N →
  ∃ w' n',
    AppendBoolCond fuel p compar crit val w = Some (- ENOMEM, w') ∧
    frees w' = (frees w
                ++ (if (limit w =? brk w + 2)%N then [(brk w + 1)%N] else [])
                ++ kids ++ [brk w])%list ∧
    (∀ a, a ∈ kids → cells w' !! a = None) ∧
    cells w' !! p = Some (ObjNode n') ∧
    node_type n' = NODE_BINARY_EXPR ∧ owner n' = true ∧ expr1 n' = brk w ∧
    cells w' !! brk w = None ∧
    fault w' = fault w.
Proof.
  intros Hwf Hp Hh Hpk Hfuel Hmem.
  pose proof (wf_lt _ _ _ Hwf Hp) as Hlt.
  assert (Hkids : ∀ a, a ∈ kids → (0 < a < brk w)%N).
  { intros a Ha. destruct (node_holds_alloc _ _ _ _ Hh a Ha) as [oa Hoa].
    by eapply wf_lt. }
  pose proof (node_holds_NoDup _ _ _ _ Hh) as Hnd.
  destruct w as [cs b l jn jt m em fr ft]. simpl in *.
  destruct Hwf as (Hnull & Hpos & Habove). simpl in *. unfold NULL in Hnull.
  unfold AppendBoolCond. unfold load_node at 1. simpl cells. rewrite Hp.
  erewrite store_node_mk; [|lookup_chain].
  erewrite store_node_mk; [|lookup_chain].
  erewrite store_node_mk; [|lookup_chain].
  rewrite malloc_node_mk by lia.
  erewrite store_node_mk; [|lookup_chain].
  destruct (N.eqb_spec b NULL) as [Hbn|_]; [unfold NULL in Hbn; lia|].
  erewrite store_node_mk; [|lookup_chain].
  assert (Hnull' : NULL ∉ (kids ++ [b])%list).
  { intros Hin. apply elem_of_app in Hin as [Hin|Hin].
    - apply Hkids in Hin. unfold NULL in Hin. lia.
    - apply list_elem_of_singleton in Hin. unfold NULL in Hin. lia. }
  assert (Hnd' : NoDup (kids ++ [b])%list).
  { apply NoDup_snoc; [done|]. intros Hin. apply Hkids in Hin. lia. }
  destruct (N.eqb_spec l (b + 2)) as [Hl|Hl].
  - (* the triplet of the new condition cannot be allocated *)
    rewrite malloc_node_mk by lia.
    erewrite store_node_mk; [|lookup_chain].
    destruct (N.eqb_spec (b + 1) NULL) as [Hbn|_]; [unfold NULL in Hbn; lia|].
    match goal with |- context [CreateBoolCond ?q _ _ _ ?w8] =>
      destruct (CreateBoolCond_no_memory q compar crit val w8 jn
                  ltac:(simpl; lookup_chain) ltac:(simpl; lia)) as [Hrc S9];
      destruct (CreateBoolCond q compar crit val w8) as [rc w9] end.
    simpl in Hrc, S9. subst rc. change (- ENOMEM =? 0) with false. cbv iota.
    destruct S9 as (Hc9 & Hb9 & Hl9 & Hjn9 & Hjt9 & Hm9 & He9 & Hfr9 & Hf9).
    simpl in *.
    set (n8 := set_expr2 (b + 1) _) in *.
    assert (Hp9 : cells w9 !! p = Some (ObjNode n8)) by (rewrite Hc9; lookup_chain).
    unfold free_expr2. rewrite (load_node_cells _ _ _ Hp9).
    change (expr2 n8) with (b + 1)%N.
    erewrite free_allocated; [|rewrite Hc9; lookup_chain|unfold NULL; lia].
    set (w10 := mk_world _ _ _ _ _ _ _ _ _).
    assert (Hold : ∀ a, a ≠ p → (a < b)%N → cells w10 !! a = cs !! a).
    { intros a Ha Hab. simpl. rewrite lookup_delete_ne by lia. rewrite Hc9.
      rewrite !lookup_insert_ne by lia. done. }
    assert (Hp10 : cells w10 !! p = Some (ObjNode n8)).
    { simpl. rewrite lookup_delete_ne by lia. done. }
    assert (Hb10 : cells w10 !! b = Some (ObjNode n)).
    { simpl. rewrite lookup_delete_ne by lia. rewrite Hc9. lookup_chain. }
    rewrite (free_prev_holds fuel p (- ENOMEM) w10 n8 n e kids); try done.
    + change (expr1 n8) with b.
      eexists _, n8. split; [reflexivity|]. split_and!; try done.
      * rewrite free_all_frees by done. simpl. rewrite Hfr9.
        by rewrite <- !app_assoc.
      * intros a Ha. rewrite free_all_cells by done.
        rewrite decide_True; [done|]. apply elem_of_app. by left.
      * rewrite free_all_cells by done. rewrite decide_False; [done|].
        intros Hin. apply elem_of_app in Hin as [Hin|Hin]; [done|].
        apply list_elem_of_singleton in Hin. lia.
      * rewrite free_all_cells by done. rewrite decide_True; [done|].
        apply elem_of_app. right. by apply list_elem_of_singleton.
      * rewrite free_all_fault; try done.
        intros a Ha. apply elem_of_app in Ha as [Ha|Ha].
        -- rewrite Hold; [by apply (node_holds_alloc _ _ _ _ Hh)
                         |by intros ->|by apply Hkids].
        -- apply list_elem_of_singleton in Ha as ->. by eexists.
    + simpl. rewrite lookup_delete_ne by (unfold NULL; lia). rewrite Hc9.
      unfold NULL. rewrite !lookup_insert_ne by lia. done.
    + apply (node_holds_agree cs); [done|].
      intros a Ha. apply Hold; [by intros ->|by apply Hkids].
    + change (expr1 n8) with b. intros Hin. apply Hkids in Hin. lia.
  - (* the node of the new condition cannot be allocated *)
    rewrite malloc_node_full by (simpl; lia).
    erewrite store_node_mk; [|lookup_chain].
    change (NULL =? NULL)%N with true. cbv iota.
    set (n8 := set_expr2 NULL _) in *.
    set (w8 := mk_world _ _ _ _ _ _ _ _ _).
    assert (Hold : ∀ a, a ≠ p → (a < b)%N → cells w8 !! a = cs !! a).
    { intros a Ha Hab. simpl. rewrite !lookup_insert_ne by lia. done. }
    assert (Hp8 : cells w8 !! p = Some (ObjNode n8)) by (simpl; lookup_chain).
    assert (Hb8 : cells w8 !! b = Some (ObjNode n)) by (simpl; lookup_chain).
    rewrite (free_prev_holds fuel p (- ENOMEM) w8 n8 n e kids); try done.
    + change (expr1 n8) with b.
      eexists _, n8. split; [reflexivity|]. split_and!; try done.
      * rewrite free_all_frees by done. done.
      * intros a Ha. rewrite free_all_cells by done.
        rewrite decide_True; [done|]. apply elem_of_app. by left.
      * rewrite free_all_cells by done. rewrite decide_False; [done|].
        intros Hin. apply elem_of_app in Hin as [Hin|Hin]; [done|].
        apply list_elem_of_singleton in Hin. lia.
      * rewrite free_all_cells by done. rewrite decide_True; [done|].
        apply elem_of_app. right. by apply list_elem_of_singleton.
      * rewrite free_all_fault; try done.
        intros a Ha. apply elem_of_app in Ha as [Ha|Ha].
        -- rewrite Hold; [by apply (node_holds_alloc _ _ _ _ Hh)
                         |by intros ->|by apply Hkids].
        -- apply list_elem_of_singleton in Ha as ->. by eexists.
    + simpl. unfold NULL. rewrite !lookup_insert_ne by lia. done.
    + apply (node_holds_agree cs); [done|].
      intros a Ha. apply Hold; [by intros ->|by apply Hkids].
    + change (expr1 n8) with b. intros Hin. apply Hkids in Hin. lia.
Qed.

(** X15: [CreateBoolCond] either returns 0, the node being a condition
    whose fresh triplet is [(flags 0, crit, compar, val)] with an empty
    [xattr_name], nothing else written or released; or, when [malloc]
    fails, returns the negative code [-ENOMEM], the node being left as a
    condition with a [NULL] triplet. *)
Theorem CreateBoolCond_result p compar crit val w n0 :
  wf_world w → cells w !! p = Some (ObjNode n0) →
  let r := CreateBoolCond p compar crit val w in
  ∃ n, cells (snd r) !! p = Some (ObjNode n) ∧ node_type n = NODE_CONDITION ∧
       frees (snd r) = frees w ∧ fault (snd r) = fault w ∧
       (∀ a, a ≠ p → (a < brk w)%N → cells (snd r) !! a = cells w !! a) ∧
       if (brk w <? limit w)%N then
         fst r = 0 ∧ condition n = brk w ∧ brk (snd r) = (brk w + 1)%N ∧
         cells (snd r) !! brk w = Some (ObjTriplet (mk_triplet 0 crit compar val ""))
       else
         fst r = - ENOMEM ∧ condition n = NULL ∧ brk (snd r) = brk w.
Proof.
  intros Hwf Hp r. subst r.
  pose proof (wf_lt _ _ _ Hwf Hp) as Hlt.
  destruct (N.ltb_spec (brk w) (limit w)) as [Hmem|Hmem].
  - destruct (CreateBoolCond_ok p compar crit val w n0 Hwf Hp Hmem)
      as (Hrc & Hc & Hb & _ & _ & _ & _ & _ & Hfr & Hf).
    eexists. split_and!; try done.
    + rewrite Hc. rewrite lookup_insert_ne by lia. apply lookup_insert_eq.
    + done.
    + intros a Ha Hab. rewrite Hc. rewrite !lookup_insert_ne by lia. done.
    + done.
    + rewrite Hc. apply lookup_insert_eq.
  - destruct (CreateBoolCond_no_memory p compar crit val w n0 Hp Hmem)
      as (Hrc & Hc & Hb & _ & _ & _ & _ & _ & Hfr & Hf).
    eexists. split_and!; try done.
    + rewrite Hc. apply lookup_insert_eq.
    + done.
    + intros a Ha Hab. rewrite Hc. rewrite !lookup_insert_ne by lia. done.
    + done.
Qed.

(** ** [GetSetExpr] *)

Lemma append_line_not_empty (msg tail : string) : msg +:+ ", line " +:+ tail ≠ "".
Proof. by destruct msg. Qed.

Lemma string_app_assoc (a b c : string) : (a +:+ b) +:+ c = a +:+ b +:+ c.
Proof.
  induction a as [|x a IH]; [done|].
  change (String x a +:+ b) with (String x (a +:+ b)).
  change (String x (a +:+ b) +:+ c) with (String x ((a +:+ b) +:+ c)).
  by rewrite IH.
Qed.

Section SetBlockTheorems.

Context `{rbh_env}.

(** X16: [GetSetExpr] returns 0 only for a block whose single child is a
    set expression, and then the store spells at the output node the tree
    of that expression and the attribute mask is exactly the union of the
    masks of the classes it names, whatever the mask held on entry; the
    error message is left as it was.  A non-zero return comes with a
    message that is not empty; for an undefined class it is [ENOENT] with
    the builder's message followed by the line of the expression. *)
Theorem GetSetExpr_outcome block block_name out pol w n0 :
  wf_world w → load_node out w = Some n0 →
  let r := GetSetExpr block block_name out pol w in
  (fst r = 0 →
     ∃ l name line s t fp,
       block = Some (TYPE_BLOCK l name [TYPE_SET line s]) ∧
       set_expr_tree_with (find_fileset (fileset_list pol)) s = inr t ∧
       tree_at (cells (snd r)) out t fp ∧
       attr_mask (snd r) = set_expr_mask_with (find_fileset (fileset_list pol)) s 0 ∧
       err_msg (snd r) = err_msg w ∧ frees (snd r) = frees w) ∧
  (fst r ≠ 0 → err_msg (snd r) ≠ "") ∧
  (∀ l name line cls,
     block = Some (TYPE_BLOCK l name [TYPE_SET line (SetSingleton cls)]) →
     find_fileset (fileset_list pol) cls = None →
     fst r = ENOENT ∧
     err_msg (snd r) = "FileClass '" +:+ cls +:+ "' is undefined, line "
                       +:+ pretty (rh_config_GetItemLine
                                     (Some (TYPE_SET line (SetSingleton cls))))).
Proof.
  intros Hwf Hout r. subst r. split_and!.
  - unfold GetSetExpr.
    destruct block as [[l name content| | |]|]; try discriminate.
    destruct content as [|sub next]; [discriminate|].
    destruct sub as [| | |line s]; try discriminate.
    destruct next as [|sub' next']; [|discriminate].
    destruct (build_set_expr s out pol (set_attr_mask 0 w)) as [rc w1] eqn:Hb.
    destruct (Z.eqb_spec rc 0) as [->|Hrc]; simpl; [|done].
    intros _.
    destruct (build_set_expr_ok pol s out (set_attr_mask 0 w) n0 w1 Hwf Hout Hb)
      as (_ & _ & Henv & Hm & _ & t & fp & Ht & Htree & _).
    destruct Henv as (_ & _ & _ & He & Hfr & _).
    by exists l, name, line, s, t, fp.
  - unfold GetSetExpr.
    destruct block as [[l name content| | |]|]; simpl; try done.
    destruct content as [|sub next]; simpl; [done|].
    destruct sub as [| | |line s]; simpl; try done.
    destruct next as [|sub' next']; simpl; [|done].
    destruct (build_set_expr s out pol (set_attr_mask 0 w)) as [rc w1] eqn:Hb.
    destruct (Z.eqb_spec rc 0) as [->|Hrc]; simpl; [done|].
    intros _. apply append_line_not_empty.
  - intros l name line cls -> Hfind. unfold GetSetExpr. simpl. rewrite Hfind. simpl.
    split; [done|].
    exact (eq_trans (string_app_assoc "FileClass '" (cls +:+ "' is undefined") _)
                    (f_equal (String.append "FileClass '")
                             (string_app_assoc cls "' is undefined" _))).
Qed.

End SetBlockTheorems.

(** ** Printing expressions *)

Lemma substring_all s : substring 0 (String.length s) s = s.
Proof. induction s as [|c s IH]; [done|]. simpl. by rewrite IH. Qed.

Lemma strlen_app s1 s2 : strlen (s1 +:+ s2) = strlen s1 + strlen s2.
Proof.
  unfold strlen. induction s1 as [|c s1 IH].
  { change ("" +:+ s2) with s2. simpl String.length. lia. }
  change (String c s1 +:+ s2) with (String c (s1 +:+ s2)).
  simpl String.length. lia.
Qed.

Lemma strlen_nonneg s : 0 ≤ strlen s.
Proof. unfold strlen. lia. Qed.

Lemma char_at_app_l s1 s2 i :
  0 ≤ i < strlen s1 → char_at i (s1 +:+ s2) = char_at i s1.
Proof.
  intros Hi. unfold char_at, strlen in *.
  rewrite <- (append_correct1 s1 s2); [done|lia].
Qed.

Lemma char_at_app_r s1 s2 i :
  0 ≤ i → char_at (strlen s1 + i) (s1 +:+ s2) = char_at i s2.
Proof.
  intros Hi. unfold char_at, strlen.
  replace (Z.to_nat (Z.of_nat (String.length s1) + i))
    with (Z.to_nat i + String.length s1)%nat by lia.
  by rewrite <- (append_correct2 s1 s2).
Qed.

Lemma int32_small z : 0 ≤ z < 2 ^ 31 → int32 z = z.
Proof.
  intros Hz. unfold int32. rewrite Z.mod_small; lia.
Qed.

Lemma size_t_small z : 0 ≤ z < 2 ^ 64 → size_t z = z.
Proof. intros Hz. unfold size_t. by rewrite Z.mod_small. Qed.

Lemma put_printed off text b :
  0 ≤ off → off + strlen text + 1 ≤ cap b → printed b (put off text b) off text.
Proof.
  intros Hoff Hcap. pose proof (strlen_nonneg text) as Hlen.
  unfold printed, holds_text, put. simpl. split_and!.
  - destruct (Z.leb_spec 0 off); [|lia].
    destruct (Z.leb_spec (off + strlen text + 1) (cap b)); [|lia].
    simpl. by rewrite orb_false_r.
  - done.
  - intros i Hi.
    destruct (Z.leb_spec off (off + i)); [|lia].
    destruct (Z.ltb_spec (off + i) (off + strlen text)); [|lia].
    simpl. f_equal. lia.
  - destruct (Z.ltb_spec (off + strlen text) (off + strlen text)); [lia|].
    rewrite andb_false_r. by rewrite Z.eqb_refl.
  - intros j Hj.
    destruct (Z.leb_spec off j), (Z.ltb_spec j (off + strlen text)); simpl; try lia.
    all: destruct (Z.eqb_spec j (off + strlen text)); [lia|done].
Qed.

Lemma snprintf_printed off size text b :
  0 ≤ off → off + size ≤ cap b → strlen text < size → size < 2 ^ 31 →
  ∃ b', snprintf off size text b = (strlen text, b') ∧ printed b b' off text.
Proof.
  intros Hoff Hcap Hlen Hsize. pose proof (strlen_nonneg text) as Hnn.
  unfold snprintf. rewrite int32_small by lia.
  destruct (Z.eqb_spec size 0); [lia|].
  rewrite Z.min_l by lia. unfold strlen at 2. rewrite Nat2Z.id, substring_all.
  eexists. split; [done|]. apply put_printed; lia.
Qed.

Lemma printed_app b b1 b2 off s1 s2 :
  printed b b1 off s1 → printed b1 b2 (off + strlen s1) s2 →
  printed b b2 off (s1 +:+ s2).
Proof.
  intros (Hu1 & Hc1 & [Ht1 Hz1] & Ho1) (Hu2 & Hc2 & [Ht2 Hz2] & Ho2).
  pose proof (strlen_nonneg s1). pose proof (strlen_nonneg s2).
  unfold printed, holds_text. rewrite strlen_app. split_and!; try congruence.
  - intros i Hi. destruct (Z.lt_ge_cases i (strlen s1)) as [Hlo|Hhi].
    + rewrite char_at_app_l by lia. rewrite Ho2 by lia. apply Ht1. lia.
    + replace i with (strlen s1 + (i - strlen s1)) at 2 by lia.
      rewrite char_at_app_r by lia.
      replace (off + i) with (off + strlen s1 + (i - strlen s1)) by lia.
      apply Ht2. lia.
  - by rewrite Z.add_assoc.
  - intros j Hj. rewrite Ho2 by lia. apply Ho1. lia.
Qed.

Section PrintingLemmas.

Context `{print_env}.

Lemma print_condition_printed t s off size b :
  condition_text t = CText s →
  0 ≤ off → off + size ≤ cap b → strlen s < size → size < 2 ^ 31 →
  ∃ b', print_condition t off size b = (strlen s, b') ∧ printed b b' off s.
Proof.
  intros Ht Hoff Hcap Hlen Hsize. unfold print_condition. rewrite Ht.
  by apply snprintf_printed.
Qed.

(** With room for the whole text, [BoolExpr2str] stores it and returns
    its length. *)
Lemma BoolExpr2str_printed cs n e kids :
  node_holds cs n e kids →
  ∀ s, render e = Some s →
  ∀ p fuel off size b,
    cs !! p = Some (ObjNode n) →
    0 ≤ off → off + size ≤ cap b → strlen s < size → size < 2 ^ 31 →
    (node_tree_size e < fuel)%nat →
    ∃ b', BoolExpr2str fuel cs p off size b = Some (strlen s, b') ∧
          printed b b' off s.
Proof.
  induction 1 as [n t Hty Hc|n Hty Hown|n n1 e k1 Hty Hown He1 Hh IH Hn
                 |n n1 n2 e1 e2 k1 k2 Hty Hown He1 He2 Hh1 IH1 Hh2 IH2 Hn1 Hn2 Hd];
    intros s Hs p fuel off size b Hp Hoff Hcap Hlen Hsize Hfuel.
  2: done.
  all: destruct fuel as [|fuel]; [simpl in Hfuel; lia|].
  all: cbn [BoolExpr2str]; rewrite Hp, Hty.
  - rewrite Hc. simpl in Hs.
    destruct (condition_text t) as [s'| |] eqn:Ht; try done.
    injection Hs as <-.
    destruct (print_condition_printed t s' off size b) as (b' & -> & Hpr); try done.
    by exists b'.
  - simpl in Hs. destruct (bool_op n); try done.
    destruct (render e) as [s1|] eqn:Hs1; [|done]. injection Hs as <-.
    rewrite !strlen_app in Hlen. change (strlen "NOT (") with 5 in Hlen.
    change (strlen ")") with 1 in Hlen.
    pose proof (strlen_nonneg s1) as Hnn.
    destruct (snprintf_printed off size "NOT (" b) as (b1 & -> & Hp1); try done.
    { change (strlen "NOT (") with 5. lia. }
    change (strlen "NOT (") with 5. rewrite !size_t_small by lia.
    assert (Hc1 := proj1 (proj2 Hp1)).
    destruct (IH s1 eq_refl (expr1 n) fuel (off + 5) (size - 5) b1)
      as (b2 & -> & Hp2); try done; try lia.
    { simpl in Hfuel. lia. }
    destruct (Z.ltb_spec (strlen s1) 0); [lia|].
    rewrite !size_t_small by lia.
    assert (Hc2 := proj1 (proj2 Hp2)).
    destruct (snprintf_printed (off + (5 + strlen s1)) (size - (5 + strlen s1)) ")" b2)
      as (b3 & -> & Hp3); try done; try lia.
    { change (strlen ")") with 1. lia. }
    change (strlen ")") with 1. rewrite size_t_small by lia.
    rewrite int32_small by lia.
    exists b3. split.
    { rewrite !strlen_app. change (strlen "NOT (") with 5.
      change (strlen ")") with 1. do 2 f_equal. lia. }
    apply (printed_app b b1 b3); [done|].
    apply (printed_app b1 b2 b3); [done|].
    change (strlen "NOT (") with 5. by rewrite <- Z.add_assoc.
  - simpl in Hs.
    destruct (render e1) as [s1|] eqn:Hs1; [|done].
    destruct (render e2) as [s2|] eqn:Hs2; [|done]. injection Hs as <-.
    set (mid := match bool_op n with BOOL_OR => ") OR (" | _ => ") AND (" end) in *.
    rewrite !strlen_app in Hlen. change (strlen "(") with 1 in Hlen.
    change (strlen ")") with 1 in Hlen.
    pose proof (strlen_nonneg s1) as Hnn1.
    pose proof (strlen_nonneg s2) as Hnn2.
    pose proof (strlen_nonneg mid) as Hnnm.
    simpl in Hfuel.
    destruct (snprintf_printed off size "(" b) as (b1 & -> & Hp1); try done.
    { change (strlen "(") with 1. lia. }
    change (strlen "(") with 1. rewrite !size_t_small by lia.
    assert (Hc1 := proj1 (proj2 Hp1)).
    destruct (IH1 s1 eq_refl (expr1 n) fuel (off + 1) (size - 1) b1)
      as (b2 & -> & Hp2); try done; try lia.
    destruct (Z.ltb_spec (strlen s1) 0); [lia|].
    rewrite !size_t_small by lia.
    assert (Hc2 := proj1 (proj2 Hp2)).
    assert (Hmid : ∃ b3,
      match bool_op n with
      | BOOL_OR => snprintf (off + (1 + strlen s1)) (size - (1 + strlen s1)) ") OR (" b2
      | _ => snprintf (off + (1 + strlen s1)) (size - (1 + strlen s1)) ") AND (" b2
      end = (strlen mid, b3) ∧ printed b2 b3 (off + (1 + strlen s1)) mid).
    { unfold mid in *. destruct (bool_op n); apply snprintf_printed; lia. }
    destruct Hmid as (b3 & -> & Hp3).
    rewrite !size_t_small by lia.
    assert (Hc3 := proj1 (proj2 Hp3)).
    destruct (IH2 s2 eq_refl (expr2 n) fuel (off + (1 + strlen s1 + strlen mid))
                (size - (1 + strlen s1 + strlen mid)) b3)
      as (b4 & -> & Hp4); try done; try lia.
    destruct (Z.ltb_spec (strlen s2) 0); [lia|].
    rewrite !size_t_small by lia.
    assert (Hc4 := proj1 (proj2 Hp4)).
    destruct (snprintf_printed (off + (1 + strlen s1 + strlen mid + strlen s2))
                (size - (1 + strlen s1 + strlen mid + strlen s2)) ")" b4)
      as (b5 & -> & Hp5); try done; try lia.
    { change (strlen ")") with 1. lia. }
    change (strlen ")") with 1. rewrite size_t_small by lia.
    rewrite int32_small by lia.
    exists b5. split.
    { rewrite !strlen_app. change (strlen "(") with 1.
      change (strlen ")") with 1. do 2 f_equal. lia. }
    apply (printed_app b b1 b5); [done|].
    apply (printed_app b1 b2 b5); [done|].
    apply (printed_app b2 b3 b5).
    { change (strlen "(") with 1. by rewrite <- Z.add_assoc. }
    apply (printed_app b3 b4 b5).
    { change (strlen "(") with 1.
      replace (off + 1 + strlen s1 + strlen mid)
        with (off + (1 + strlen s1 + strlen mid)) by lia. done. }
    change (strlen "(") with 1.
    replace (off + 1 + strlen s1 + strlen mid + strlen s2)
      with (off + (1 + strlen s1 + strlen mid + strlen s2)) by lia. done.
Qed.

Lemma snprintf_sticky off size text b :
  fst (snprintf off size text b) = int32 (strlen text) ∧
  cap (snd (snprintf off size text b)) = cap b ∧
  (undefined b = true → undefined (snd (snprintf off size text b)) = true).
Proof.
  unfold snprintf. simpl. split; [done|].
  destruct (size =? 0); [done|]. simpl. split; [done|]. by intros ->.
Qed.

(** Whatever the size, [BoolExpr2str] returns the length of the whole
    text. *)
Lemma BoolExpr2str_returns cs n e kids :
  node_holds cs n e kids →
  ∀ s, render e = Some s → strlen s < 2 ^ 31 →
  ∀ p fuel off size b,
    cs !! p = Some (ObjNode n) → (node_tree_size e < fuel)%nat →
    ∃ b', BoolExpr2str fuel cs p off size b = Some (strlen s, b') ∧
          cap b' = cap b ∧ (undefined b = true → undefined b' = true).
Proof.
  induction 1 as [n t Hty Hc|n Hty Hown|n n1 e k1 Hty Hown He1 Hh IH Hn
                 |n n1 n2 e1 e2 k1 k2 Hty Hown He1 He2 Hh1 IH1 Hh2 IH2 Hn1 Hn2 Hd];
    intros s Hs Hlen p fuel off size b Hp Hfuel.
  2: done.
  all: destruct fuel as [|fuel]; [simpl in Hfuel; lia|].
  all: cbn [BoolExpr2str]; rewrite Hp, Hty.
  - rewrite Hc. simpl in Hs. unfold print_condition.
    destruct (condition_text t) as [s'| |] eqn:Ht; try done.
    injection Hs as <-.
    destruct (snprintf_sticky off size s' b) as (Hr & Hcap & Hu).
    destruct (snprintf off size s' b) as [r b']. simpl in *. subst r.
    rewrite int32_small by (pose proof (strlen_nonneg s'); lia).
    by exists b'.
  - simpl in Hs. destruct (bool_op n); try done.
    destruct (render e) as [s1|] eqn:Hs1; [|done]. injection Hs as <-.
    rewrite !strlen_app in *. change (strlen "NOT (") with 5 in *.
    change (strlen ")") with 1 in *.
    pose proof (strlen_nonneg s1) as Hnn.
    destruct (snprintf_sticky off size "NOT (" b) as (Hr0 & Hc0 & Hu0).
    destruct (snprintf off size "NOT (" b) as [r0 b1]. simpl in Hr0, Hc0, Hu0.
    subst r0. change (size_t (int32 (strlen "NOT ("))) with 5.
    destruct (IH s1 eq_refl ltac:(lia) (expr1 n) fuel (off + 5) (size_t (size - 5)) b1)
      as (b2 & -> & Hc2 & Hu2); try done.
    { simpl in Hfuel. lia. }
    destruct (Z.ltb_spec (strlen s1) 0); [lia|].
    rewrite (size_t_small (5 + strlen s1)) by lia.
    match goal with |- context [snprintf ?o ?z ")" b2] =>
      destruct (snprintf_sticky o z ")" b2) as (Hr3 & Hc3 & Hu3);
      destruct (snprintf o z ")" b2) as [r3 b3] end.
    simpl in Hr3, Hc3, Hu3. subst r3. change (int32 (strlen ")")) with 1.
    rewrite size_t_small by lia. rewrite int32_small by lia.
    exists b3. split_and!; [do 2 f_equal; lia|congruence|tauto].
  - simpl in Hs.
    destruct (render e1) as [s1|] eqn:Hs1; [|done].
    destruct (render e2) as [s2|] eqn:Hs2; [|done]. injection Hs as <-.
    set (mid := match bool_op n with BOOL_OR => ") OR (" | _ => ") AND (" end) in *.
    rewrite !strlen_app in *. change (strlen "(") with 1 in *.
    change (strlen ")") with 1 in *.
    pose proof (strlen_nonneg s1) as Hnn1.
    pose proof (strlen_nonneg s2) as Hnn2.
    assert (Hmidlen : 6 ≤ strlen mid ≤ 7) by (unfold mid; destruct (bool_op n); done).
    simpl in Hfuel.
    destruct (snprintf_sticky off size "(" b) as (Hr0 & Hc0 & Hu0).
    destruct (snprintf off size "(" b) as [r0 b1]. simpl in Hr0, Hc0, Hu0.
    subst r0. change (size_t (int32 (strlen "("))) with 1.
    destruct (IH1 s1 eq_refl ltac:(lia) (expr1 n) fuel (off + 1) (size_t (size - 1)) b1)
      as (b2 & -> & Hc2 & Hu2); try done; try lia.
    destruct (Z.ltb_spec (strlen s1) 0); [lia|].
    rewrite (size_t_small (1 + strlen s1)) by lia.
    assert (Hmid : ∃ b3,
      match bool_op n with
      | BOOL_OR => snprintf (off + (1 + strlen s1))
                            (size_t (size - (1 + strlen s1))) ") OR (" b2
      | _ => snprintf (off + (1 + strlen s1))
                      (size_t (size - (1 + strlen s1))) ") AND (" b2
      end = (strlen mid, b3) ∧ cap b3 = cap b2 ∧
      (undefined b2 = true → undefined b3 = true)).
    { unfold mid. destruct (bool_op n).
      all: match goal with |- context [snprintf ?o ?z ?t ?bb] =>
             destruct (snprintf_sticky o z t bb) as (Hr3 & Hc3 & Hu3);
             destruct (snprintf o z t bb) as [r3 b3] end.
      all: simpl in Hr3, Hc3, Hu3; subst r3; by exists b3. }
    destruct Hmid as (b3 & -> & Hc3 & Hu3).
    rewrite (size_t_small (1 + strlen s1 + strlen mid)) by lia.
    destruct (IH2 s2 eq_refl ltac:(lia) (expr2 n) fuel
                (off + (1 + strlen s1 + strlen mid))
                (size_t (size - (1 + strlen s1 + strlen mid))) b3)
      as (b4 & -> & Hc4 & Hu4); try done; try lia.
    destruct (Z.ltb_spec (strlen s2) 0); [lia|].
    rewrite (size_t_small (1 + strlen s1 + strlen mid + strlen s2)) by lia.
    match goal with |- context [snprintf ?o ?z ")" b4] =>
      destruct (snprintf_sticky o z ")" b4) as (Hr5 & Hc5 & Hu5);
      destruct (snprintf o z ")" b4) as [r5 b5] end.
    simpl in Hr5, Hc5, Hu5. subst r5. change (int32 (strlen ")")) with 1.
    rewrite size_t_small by lia. rewrite int32_small by lia.
    exists b5. split_and!; [do 2 f_equal; lia|congruence|tauto].
Qed.

End PrintingLemmas.

Lemma size_t_negative z : - 2 ^ 64 < z < 0 → size_t z = z + 2 ^ 64.
Proof.
  intros Hz. unfold size_t. rewrite <- (Z.mod_add z 1) by lia.
  rewrite Z.mod_small; lia.
Qed.

Lemma snprintf_paren_overrun off size b :
  2 ≤ size → cap b < off + 2 →
  undefined (snd (snprintf off size ")" b)) = true.
Proof.
  intros Hsize Hcap. unfold snprintf. simpl snd.
  destruct (Z.eqb_spec size 0); [lia|].
  change (strlen ")") with 1. rewrite Z.min_l by lia.
  change (substring 0 (Z.to_nat 1) ")") with ")". unfold put. simpl.
  change (strlen ")") with 1.
  destruct (Z.leb_spec (off + 1 + 1) (cap b)); [lia|].
  by rewrite andb_false_r, orb_true_r.
Qed.

Section PrintingTheorems.

Context `{print_env}.

(** X17: when the text of the expression, with its final NUL, fits in
    [str_size] bytes and the array has that many bytes from [out_str] on,
    [BoolExpr2str] returns the length of the text and the array holds the
    text: operands in parentheses, [NOT (] before a negation, [) OR (]
    between the operands of an OR and [) AND (] between those of any other
    binary node, each condition as [print_condition] formats it.  Nothing
    is written outside the text and its NUL. *)
Theorem BoolExpr2str_fits cs n e kids s p fuel off str_size b :
  node_holds cs n e kids → render e = Some s → cs !! p = Some (ObjNode n) →
  0 ≤ off → off + str_size ≤ cap b → strlen s < str_size → str_size < 2 ^ 31 →
  (node_tree_size e < fuel)%nat →
  ∃ b', BoolExpr2str fuel cs p off str_size b = Some (strlen s, b') ∧
        undefined b' = undefined b ∧ holds_text b' off s ∧
        ∀ j, j < off ∨ off + strlen s < j → mem b' j = mem b j.
Proof.
  intros Hh Hs Hp Hoff Hcap Hlen Hsize Hfuel.
  destruct (BoolExpr2str_printed cs n e kids Hh s Hs p fuel off str_size b)
    as (b' & Hrun & Hu & _ & Ht & Hout); try done.
  by exists b'.
Qed.

(** X18: [BoolExpr2str] on a negation or a binary node whose text is
    longer than [str_size + 1], in an array that ends at
    [out_str + str_size]: the count of characters written so far exceeds
    [str_size], the size [str_size - written] passed to the last
    [snprintf] wraps around, and the closing parenthesis is stored
    outside the array.  The return value is the length of the whole
    text. *)
Theorem BoolExpr2str_overrun cs n e kids s p fuel off str_size b :
  node_holds cs n e kids → render e = Some s → cs !! p = Some (ObjNode n) →
  node_type n ≠ NODE_CONDITION →
  0 ≤ str_size → cap b ≤ off + str_size →
  str_size + 1 < strlen s → strlen s < 2 ^ 31 →
  (node_tree_size e < fuel)%nat →
  ∃ b', BoolExpr2str fuel cs p off str_size b = Some (strlen s, b') ∧
        undefined b' = true.
Proof.
  intros Hh Hs Hp Hty Hsize Hcap Hlong Hlen Hfuel.
  destruct Hh as [n t Hty' Hc|n Hty' Hown|n n1 e k1 Hty' Hown He1 Hh Hn
                 |n n1 n2 e1 e2 k1 k2 Hty' Hown He1 He2 Hh1 Hh2 Hn1 Hn2 Hd];
    [done|done| |].
  all: destruct fuel as [|fuel]; [simpl in Hfuel; lia|].
  all: cbn [BoolExpr2str]; rewrite Hp, Hty'.
  - simpl in Hs. destruct (bool_op n); try done.
    destruct (render e) as [s1|] eqn:Hs1; [|done]. injection Hs as <-.
    rewrite !strlen_app in *. change (strlen "NOT (") with 5 in *.
    change (strlen ")") with 1 in *.
    pose proof (strlen_nonneg s1) as Hnn.
    destruct (snprintf_sticky off str_size "NOT (" b) as (Hr0 & Hc0 & Hu0).
    destruct (snprintf off str_size "NOT (" b) as [r0 b1]. simpl in Hr0, Hc0, Hu0.
    subst r0. change (size_t (int32 (strlen "NOT ("))) with 5.
    destruct (BoolExpr2str_returns _ _ _ _ Hh s1 Hs1 ltac:(lia) (expr1 n) fuel
                (off + 5) (size_t (str_size - 5)) b1)
      as (b2 & -> & Hc2 & Hu2); try done.
    { simpl in Hfuel. lia. }
    destruct (Z.ltb_spec (strlen s1) 0); [lia|].
    rewrite (size_t_small (5 + strlen s1)) by lia.
    rewrite (size_t_negative (str_size - (5 + strlen s1))) by lia.
    match goal with |- context [snprintf ?o ?z ")" b2] =>
      pose proof (snprintf_paren_overrun o z b2 ltac:(lia) ltac:(lia)) as Hover;
      destruct (snprintf_sticky o z ")" b2) as (Hr3 & _ & _);
      destruct (snprintf o z ")" b2) as [r3 b3] end.
    simpl in Hr3, Hover. subst r3. change (int32 (strlen ")")) with 1.
    rewrite size_t_small by lia. rewrite int32_small by lia.
    exists b3. split; [do 2 f_equal; lia|done].
  - simpl in Hs.
    destruct (render e1) as [s1|] eqn:Hs1; [|done].
    destruct (render e2) as [s2|] eqn:Hs2; [|done]. injection Hs as <-.
    set (mid := match bool_op n with BOOL_OR => ") OR (" | _ => ") AND (" end) in *.
    rewrite !strlen_app in *. change (strlen "(") with 1 in *.
    change (strlen ")") with 1 in *.
    pose proof (strlen_nonneg s1) as Hnn1.
    pose proof (strlen_nonneg s2) as Hnn2.
    assert (Hmidlen : 6 ≤ strlen mid ≤ 7) by (unfold mid; destruct (bool_op n); done).
    simpl in Hfuel.
    destruct (snprintf_sticky off str_size "(" b) as (Hr0 & Hc0 & Hu0).
    destruct (snprintf off str_size "(" b) as [r0 b1]. simpl in Hr0, Hc0, Hu0.
    subst r0. change (size_t (int32 (strlen "("))) with 1.
    destruct (BoolExpr2str_returns _ _ _ _ Hh1 s1 Hs1 ltac:(lia) (expr1 n) fuel
                (off + 1) (size_t (str_size - 1)) b1)
      as (b2 & -> & Hc2 & Hu2); try done; try lia.
    destruct (Z.ltb_spec (strlen s1) 0); [lia|].
    rewrite (size_t_small (1 + strlen s1)) by lia.
    assert (Hmid : ∃ b3,
      match bool_op n with
      | BOOL_OR => snprintf (off + (1 + strlen s1))
                            (size_t (str_size - (1 + strlen s1))) ") OR (" b2
      | _ => snprintf (off + (1 + strlen s1))
                      (size_t (str_size - (1 + strlen s1))) ") AND (" b2
      end = (strlen mid, b3) ∧ cap b3 = cap b2).
    { unfold mid. destruct (bool_op n).
      all: match goal with |- context [snprintf ?o ?z ?t ?bb] =>
             destruct (snprintf_sticky o z t bb) as (Hr3 & Hc3 & _);
             destruct (snprintf o z t bb) as [r3 b3] end.
      all: simpl in Hr3, Hc3; subst r3; by exists b3. }
    destruct Hmid as (b3 & -> & Hc3).
    rewrite (size_t_small (1 + strlen s1 + strlen mid)) by lia.
    destruct (BoolExpr2str_returns _ _ _ _ Hh2 s2 Hs2 ltac:(lia) (expr2 n) fuel
                (off + (1 + strlen s1 + strlen mid))
                (size_t (str_size - (1 + strlen s1 + strlen mid))) b3)
      as (b4 & -> & Hc4 & Hu4); try done; try lia.
    destruct (Z.ltb_spec (strlen s2) 0); [lia|].
    rewrite (size_t_small (1 + strlen s1 + strlen mid + strlen s2)) by lia.
    rewrite (size_t_negative (str_size - (1 + strlen s1 + strlen mid + strlen s2)))
      by lia.
    match goal with |- context [snprintf ?o ?z ")" b4] =>
      pose proof (snprintf_paren_overrun o z b4 ltac:(lia) ltac:(lia)) as Hover;
      destruct (snprintf_sticky o z ")" b4) as (Hr5 & _ & _);
      destruct (snprintf o z ")" b4) as [r5 b5] end.
    simpl in Hr5, Hover. subst r5. change (int32 (strlen ")")) with 1.
    rewrite size_t_small by lia. rewrite int32_small by lia.
    exists b5. split; [do 2 f_equal; lia|done].
Qed.

(** X19: [build_bool_expr] accepts [AND] and [OR] as unary operators,
    and [BoolExpr2str] cannot print the node it builds for them: it
    returns [-EINVAL] and writes nothing. *)
Theorem unary_and_or_is_not_printed `{rbh_env} oper e1 out smi w n0 w' fuel off
    str_size b :
  wf_world w → load_node out w = Some n0 →
  oper = BOOL_OP_AND ∨ oper = BOOL_OP_OR →
  build_bool_expr (BoolUnary oper e1) out smi w = (0, w') →
  BoolExpr2str (S fuel) (cells w') out off str_size b = Some (- EINVAL, b).
Proof.
  intros Hwf Hout Hop Hb.
  pose proof (build_bool_expr_run (BoolUnary oper e1) out smi w n0 Hwf Hout) as Hrun.
  rewrite Hb in Hrun. simpl fst in Hrun. simpl snd in Hrun.
  destruct Hrun as (_ & _ & _ & _ & _ & _ & _ & (n & Hn & Htree) & _).
  destruct (Htree eq_refl) as (t & kids & Hh & Hsp & _).
  assert (Hnode : node_type n = NODE_UNARY_EXPR ∧ bool_op n ≠ BOOL_NOT).
  { destruct Hop as [-> | ->]; simpl in Hsp.
    all: destruct t as [| |op t1|]; try done.
    all: destruct Hsp as (-> & _ & _).
    all: inversion Hh; subst; split; [done|congruence]. }
  destruct Hnode as [Hty Hop'].
  cbn [BoolExpr2str]. rewrite Hn, Hty. by destruct (bool_op n).
Qed.

End PrintingTheorems.

(** ** The module drivers *)

Lemma string_app_empty_r (s : string) : s +:+ "" = s.
Proof.
  induction s as [|c r IH]; [done|].
  change (String c r +:+ "") with (String c (r +:+ "")). by rewrite IH.
Qed.

Section ModuleLemmas.

Context `{rbh_env}.

Variables St Tree : Type.
Variable MODULE_MASK_ALWAYS : Z.




Lemma last_failure_all_zero (calls : list (module_config_def_t St Tree * Z)) : ∀ rc,
  (∀ c, c ∈ calls → snd c = 0) → last_failure St Tree rc calls = rc.
Proof.
  induction calls as [|c calls IH]; intros rc Hz; [done|].
  unfold last_failure. simpl. rewrite (Hz c) by (apply elem_of_cons; by left). simpl.
  apply IH. intros c' Hc'. apply Hz. apply elem_of_cons. by right.
Qed.

Lemma last_failure_is_zero (calls : list (module_config_def_t St Tree * Z)) : ∀ rc,
  last_failure St Tree rc calls = 0 → rc = 0 ∧ ∀ c, c ∈ calls → snd c = 0.
Proof.
  induction calls as [|c calls IH]; intros rc; unfold last_failure; simpl.
  { intros ->. split; [done|]. intros c Hc. by apply elem_of_nil in Hc. }
  intros Hl. apply IH in Hl as [Hrc Hz].
  destruct (Z.eqb_spec (snd c) 0) as [Hc|Hc]; [|done].
  split; [done|]. intros c' Hc'. apply elem_of_cons in Hc' as [->|Hc']; [done|].
  by apply Hz.
Qed.

Lemma last_failure_split (pre post : list (module_config_def_t St Tree * Z)) c rc :
  snd c ≠ 0 → (∀ c', c' ∈ post → snd c' = 0) →
  last_failure St Tree rc (pre ++ c :: post) = snd c.
Proof.
  intros Hc Hz. unfold last_failure. rewrite foldl_app. simpl.
  destruct (Z.eqb_spec (snd c) 0) as [|_]; [done|].
  by apply last_failure_all_zero.
Qed.

Lemma reload_calls_app sel (pre post : list (module_config_def_t St Tree)) : ∀ st,
  reload_calls St Tree sel (pre ++ post) st =
    (fst (reload_calls St Tree sel pre st)
     ++ fst (reload_calls St Tree sel post (snd (reload_calls St Tree sel pre st))),
     snd (reload_calls St Tree sel post (snd (reload_calls St Tree sel pre st))))%list.
Proof.
  induction pre as [|m pre IH]; intros st; simpl.
  { by destruct (reload_calls St Tree sel post st). }
  destruct (sel m); [|apply IH].
  destruct (reload_func m st) as [rc st1]. rewrite IH.
  by destruct (reload_calls St Tree sel pre st1).
Qed.

Lemma reload_calls_modules sel (mods : list (module_config_def_t St Tree)) : ∀ st,
  (fst <$> fst (reload_calls St Tree sel mods st)) = filter (λ m, sel m = true) mods.
Proof.
  induction mods as [|m mods IH]; intros st; simpl; [done|].
  destruct (sel m) eqn:Hsel.
  - rewrite filter_cons_True by done.
    destruct (reload_func m st) as [rc st1]. specialize (IH st1).
    destruct (reload_calls St Tree sel mods st1) as [calls st2].
    simpl in *. f_equal. exact IH.
  - rewrite filter_cons_False by (by rewrite Hsel). apply IH.
Qed.

(** The loop of [ReloadRobinhoodConfig] makes the calls of [reload_calls]:
    it returns the code of the last that failed, ends in the state of the
    last, and logs one entry for each. *)
Lemma reload_modules_calls (mods : list (module_config_def_t St Tree)) mask : ∀ rc d,
  let sel := module_selected St Tree MODULE_MASK_ALWAYS mask in
  let r := reload_modules St Tree MODULE_MASK_ALWAYS mods mask rc d in
  let c := reload_calls St Tree sel mods (d_state d) in
  fst r = last_failure St Tree rc (fst c) ∧
  d_state (snd r) = snd c ∧
  d_log (snd r) = (d_log d ++ (reload_entry St Tree <$> fst c))%list ∧
  d_err_msg (snd r) = d_err_msg d ∧ d_freed (snd r) = d_freed d.
Proof.
  induction mods as [|m mods IH]; intros rc d; simpl.
  { by rewrite app_nil_r. }
  destruct (module_selected St Tree MODULE_MASK_ALWAYS mask m); simpl; [|apply IH].
  destruct (reload_func m (d_state d)) as [rc1 st1].
  destruct (Z.eqb_spec rc1 0) as [->|Hrc1]; simpl.
  - match goal with |- context [reload_modules _ _ _ _ _ ?r ?d'] =>
      destruct (IH r d') as (Hrc & Hst & Hlog & Hmsg & Hfr) end.
    simpl in *. destruct (reload_calls St Tree _ mods st1) as [calls st2]. simpl in *.
    rewrite Hrc, Hst, Hlog, Hmsg, Hfr. rewrite <- app_assoc. done.
  - match goal with |- context [reload_modules _ _ _ _ _ ?r ?d'] =>
      destruct (IH r d') as (Hrc & Hst & Hlog & Hmsg & Hfr) end.
    simpl in *. destruct (reload_calls St Tree _ mods st1) as [calls st2]. simpl in *.
    rewrite Hrc, Hst, Hlog, Hmsg, Hfr. rewrite <- app_assoc.
    unfold last_failure, reload_entry. simpl.
    destruct (Z.eqb_spec rc1 0) as [|_]; done.
Qed.

(** The two loops on a table whose writers all return 0, and on a table
    where the writer of [m] is the first to fail. *)
Lemma write_template_modules_all (mods : list (module_config_def_t St Tree)) :
  ∀ stream st out st1,
  all_written St Tree (template_header St Tree) write_template_func mods st
  = Some (out, st1) →
  write_template_modules St Tree mods stream st = (0, stream +:+ out, st1).
Proof.
  induction mods as [|m mods IH]; intros stream st out st1;
    cbn [all_written write_template_modules].
  { intros [= <- <-]. by rewrite string_app_empty_r. }
  destruct (write_template_func m st) as [[rc text] st2].
  destruct (Z.eqb_spec rc 0) as [->|Hrc]; cbn [negb]; [|done].
  destruct (all_written _ _ _ _ mods st2) as [[out' st3]|] eqn:Hall; [|done].
  intros [= <- <-]. rewrite (IH _ _ _ _ Hall). unfold template_header.
  by rewrite !string_app_assoc.
Qed.

Lemma write_template_modules_fails (pre post : list (module_config_def_t St Tree)) m :
  ∀ stream st out st1 rc text st2,
  all_written St Tree (template_header St Tree) write_template_func pre st
  = Some (out, st1) →
  write_template_func m st1 = (rc, text, st2) → rc ≠ 0 →
  write_template_modules St Tree (pre ++ m :: post) stream st
  = (rc, stream +:+ out +:+ template_header St Tree m +:+ text +:+ newline, st2).
Proof.
  induction pre as [|m' pre IH]; intros stream st out st1 rc text st2;
    cbn [all_written write_template_modules app].
  { intros [= <- <-] Hm Hrc. rewrite Hm.
    destruct (Z.eqb_spec rc 0) as [|_]; [done|]. cbn [negb]. unfold template_header.
    change ("" +:+ ?x) with x. by rewrite !string_app_assoc. }
  destruct (write_template_func m' st) as [[rc' text'] st'].
  destruct (Z.eqb_spec rc' 0) as [->|Hrc']; cbn [negb]; [|done].
  destruct (all_written _ _ _ _ pre st') as [[out' st3]|] eqn:Hall; [|done].
  intros [= <- <-] Hm Hrc. rewrite (IH _ _ _ _ _ _ _ Hall Hm Hrc).
  unfold template_header. by rewrite !string_app_assoc.
Qed.

Lemma write_default_modules_all (mods : list (module_config_def_t St Tree)) :
  ∀ stream st out st1,
  all_written St Tree (λ _, "") write_default_func mods st = Some (out, st1) →
  write_default_modules St Tree mods stream st = (0, stream +:+ out, st1).
Proof.
  induction mods as [|m mods IH]; intros stream st out st1;
    cbn [all_written write_default_modules].
  { intros [= <- <-]. by rewrite string_app_empty_r. }
  destruct (write_default_func m st) as [[rc text] st2].
  destruct (Z.eqb_spec rc 0) as [->|Hrc]; cbn [negb]; [|done].
  destruct (all_written _ _ _ _ mods st2) as [[out' st3]|] eqn:Hall; [|done].
  intros [= <- <-]. rewrite (IH _ _ _ _ Hall).
  change ("" +:+ ?x) with x. by rewrite !string_app_assoc.
Qed.

Lemma write_default_modules_fails (pre post : list (module_config_def_t St Tree)) m :
  ∀ stream st out st1 rc text st2,
  all_written St Tree (λ _, "") write_default_func pre st = Some (out, st1) →
  write_default_func m st1 = (rc, text, st2) → rc ≠ 0 →
  write_default_modules St Tree (pre ++ m :: post) stream st
  = (rc, stream +:+ out +:+ text +:+ newline, st2).
Proof.
  induction pre as [|m' pre IH]; intros stream st out st1 rc text st2;
    cbn [all_written write_default_modules app].
  { intros [= <- <-] Hm Hrc. rewrite Hm.
    destruct (Z.eqb_spec rc 0) as [|_]; [done|]. cbn [negb].
    by change ("" +:+ ?x) with x. }
  destruct (write_default_func m' st) as [[rc' text'] st'].
  destruct (Z.eqb_spec rc' 0) as [->|Hrc']; cbn [negb]; [|done].
  destruct (all_written _ _ _ _ pre st') as [[out' st3]|] eqn:Hall; [|done].
  intros [= <- <-] Hm Hrc. rewrite (IH _ _ _ _ _ _ _ Hall Hm Hrc).
  change ("" +:+ ?x) with x. by rewrite !string_app_assoc.
Qed.

(** A table has a first writer that fails, unless all return 0. *)
Lemma all_written_None hdr f (mods : list (module_config_def_t St Tree)) : ∀ st,
  all_written St Tree hdr f mods st = None →
  ∃ pre m post out st1 rc text st2,
    mods = (pre ++ m :: post)%list ∧
    all_written St Tree hdr f pre st = Some (out, st1) ∧
    f m st1 = (rc, text, st2) ∧ rc ≠ 0.
Proof.
  induction mods as [|m mods IH]; intros st; simpl; [done|].
  destruct (f m st) as [[rc text] st1] eqn:Hm.
  destruct (Z.eqb_spec rc 0) as [->|Hrc]; simpl.
  - destruct (all_written St Tree hdr f mods st1) as [[out st2]|] eqn:Hall; [done|].
    intros _. destruct (IH st1 Hall)
      as (pre & m' & post & out & st2 & rc & text' & st3 & -> & Hpre & Hm' & Hrc).
    exists (m :: pre), m', post, (hdr m +:+ text +:+ newline +:+ out), st2, rc, text', st3.
    split_and!; try done. simpl. rewrite Hm. simpl. by rewrite Hpre.
  - intros _. exists [], m, mods, "", st, rc, text, st1. done.
Qed.

End ModuleLemmas.

Section ModuleTheorems.

Context `{rbh_env}.

Variables St Tree : Type.
Variable MODULE_MASK_ALWAYS : Z.
Variable rh_config_ParseFile : string → option Tree.


(** X21: [ReloadRobinhoodConfig] calls [reload_func] of every module that
    the mask selects, and of no other, in the order of the table, each on
    the state that the call before it has left, whatever that call
    returned: it does not stop at an error.  It returns the code of the
    last call that failed, 0 when none did; each call leaves one entry in
    the log, [Configuration of module '<name>' successfully reloaded] or
    [Error <rc> reloading configuration for module '<name>']; [err_msg]
    and the list of freed trees are not touched. *)
Theorem ReloadRobinhoodConfig_continues (table : list (module_config_def_t St Tree))
    module_mask d :
  let sel := module_selected St Tree MODULE_MASK_ALWAYS module_mask in
  let r := ReloadRobinhoodConfig St Tree table MODULE_MASK_ALWAYS module_mask d in
  let calls := fst (reload_calls St Tree sel table (d_state d)) in
  (fst <$> calls) = filter (λ m, sel m = true) table ∧
  (∀ pre m post, table = (pre ++ m :: post)%list → sel m = true →
     ∃ c1 s1 rc s2 c2 s3,
       reload_calls St Tree sel pre (d_state d) = (c1, s1) ∧
       reload_func m s1 = (rc, s2) ∧
       reload_calls St Tree sel post s2 = (c2, s3) ∧
       reload_calls St Tree sel table (d_state d) = (c1 ++ (m, rc) :: c2, s3)%list) ∧
  d_state (snd r) = snd (reload_calls St Tree sel table (d_state d)) ∧
  d_log (snd r) = (d_log d ++ (reload_entry St Tree <$> calls))%list ∧
  d_err_msg (snd r) = d_err_msg d ∧ d_freed (snd r) = d_freed d ∧
  (fst r = 0 ↔ ∀ c, c ∈ calls → snd c = 0) ∧
  (∀ pre c post, calls = (pre ++ c :: post)%list → snd c ≠ 0 →
     (∀ c', c' ∈ post → snd c' = 0) → fst r = snd c).
Proof.
  intros sel r calls. subst r calls. unfold ReloadRobinhoodConfig.
  destruct (reload_modules_calls St Tree MODULE_MASK_ALWAYS table module_mask 0 d)
    as (Hrc & Hst & Hlog & Hmsg & Hfr).
  fold sel in Hrc, Hst, Hlog.
  split_and!; try done.
  - apply reload_calls_modules.
  - intros pre m post -> Hsel. rewrite reload_calls_app. simpl. rewrite Hsel.
    destruct (reload_calls St Tree sel pre (d_state d)) as [c1 s1]. simpl.
    destruct (reload_func m s1) as [rc s2] eqn:Hm.
    destruct (reload_calls St Tree sel post s2) as [c2 s3] eqn:Hpost. simpl.
    by exists c1, s1, rc, s2, c2, s3.
  - rewrite Hrc. split.
    + intros Hz. by apply last_failure_is_zero in Hz as [_ Hz].
    + by apply last_failure_all_zero.
  - intros pre c post Hcalls Hc Hz. rewrite Hrc, Hcalls.
    by apply last_failure_split.
Qed.

(** X22: [WriteConfigTemplate] and [WriteConfigDefault] call the writers
    of the modules in the order of the table, each on the state that the
    writer before it has left, and print a new line behind the text of
    each.  When every writer returns 0 they return 0 and the stream holds,
    behind what it held, the lines the file starts with and the texts of
    all the modules.  When the writer of [m] is the first that fails they
    return its code: the stream holds the texts of the modules before
    [m], the text of [m] and the new line behind it, and nothing of the
    modules after [m], whose writers are not called.  One of the two
    cases applies to every table. *)
Theorem write_modules_stop_at_first_error (table : list (module_config_def_t St Tree))
    stream st :
  (∀ out st1,
     all_written St Tree (template_header St Tree) write_template_func table st
     = Some (out, st1) →
     WriteConfigTemplate St Tree table stream st
     = (0, stream +:+ template_banner +:+ out, st1)) ∧
  (∀ pre m post out st1 rc text st2,
     table = (pre ++ m :: post)%list →
     all_written St Tree (template_header St Tree) write_template_func pre st
     = Some (out, st1) →
     write_template_func m st1 = (rc, text, st2) → rc ≠ 0 →
     WriteConfigTemplate St Tree table stream st
     = (rc, stream +:+ template_banner +:+ out +:+ template_header St Tree m
            +:+ text +:+ newline, st2)) ∧
  (∀ out st1,
     all_written St Tree (λ _, "") write_default_func table st = Some (out, st1) →
     WriteConfigDefault St Tree table stream st
     = (0, stream +:+ default_banner +:+ out, st1)) ∧
  (∀ pre m post out st1 rc text st2,
     table = (pre ++ m :: post)%list →
     all_written St Tree (λ _, "") write_default_func pre st = Some (out, st1) →
     write_default_func m st1 = (rc, text, st2) → rc ≠ 0 →
     WriteConfigDefault St Tree table stream st
     = (rc, stream +:+ default_banner +:+ out +:+ text +:+ newline, st2)) ∧
  (∀ hdr f,
     all_written St Tree hdr f table st = None →
     ∃ pre m post out st1 rc text st2,
       table = (pre ++ m :: post)%list ∧
       all_written St Tree hdr f pre st = Some (out, st1) ∧
       f m st1 = (rc, text, st2) ∧ rc ≠ 0).
Proof.
  split_and!.
  - intros out st1 Hall. unfold WriteConfigTemplate. cbv zeta.
    rewrite (write_template_modules_all St Tree _ _ _ _ _ Hall).
    unfold template_banner. by rewrite !string_app_assoc.
  - intros pre m post out st1 rc text st2 -> Hall Hm Hrc.
    unfold WriteConfigTemplate. cbv zeta.
    rewrite (write_template_modules_fails St Tree _ _ _ _ _ _ _ _ _ _ Hall Hm Hrc).
    unfold template_banner. by rewrite !string_app_assoc.
  - intros out st1 Hall. unfold WriteConfigDefault. cbv zeta.
    rewrite (write_default_modules_all St Tree _ _ _ _ _ Hall).
    unfold default_banner. by rewrite !string_app_assoc.
  - intros pre m post out st1 rc text st2 -> Hall Hm Hrc.
    unfold WriteConfigDefault. cbv zeta.
    rewrite (write_default_modules_fails St Tree _ _ _ _ _ _ _ _ _ _ Hall Hm Hrc).
    unfold default_banner. by rewrite !string_app_assoc.
  - intros hdr f. apply all_written_None.
Qed.

End ModuleTheorems.

(** ** Numeric criteria, and the messages that are not written *)

Section NumericTheorems.

Context `{rbh_env}.

(** X23: a condition on a size, integer or duration criterion compiles
    exactly when the parser does not return its error value, the value is
    not negative under [PFLG_POSITIVE] and not zero under [PFLG_NOT_NULL],
    and the criterion is comparable or the operator is [==] or [!=].  The
    triplet then holds the criterion, the translated operator and the
    parsed value, its flags and [xattr_name] as they were; the mask gains
    the mask of the criterion and the message is untouched.  Any other
    condition is refused with [EINVAL] and a message. *)
Theorem criteria2condition_numeric kv st crit type attr_mask flags smi :
  has_flag flags PFLG_STATUS = false →
  type = PT_SIZE ∨ type = PT_INT ∨ type = PT_DURATION →
  let r := criteria2condition kv st crit type attr_mask flags smi in
  (fst r = 0 ↔ number_accepted type flags kv = true) ∧
  (fst r = 0 →
     c_triplet (snd r) =
       mk_triplet (t_flags (c_triplet st)) crit
                  (syntax2conf_comparator (op_type kv))
                  (number_member type (parsed_number type (varvalue kv)))
                  (t_xattr_name (c_triplet st)) ∧
     c_attr_mask (snd r) = Z.lor (c_attr_mask st) (u64 attr_mask) ∧
     c_err_msg (snd r) = c_err_msg st ∧ c_fault (snd r) = c_fault st) ∧
  (fst r ≠ 0 →
     fst r = EINVAL ∧ c_err_msg (snd r) ≠ "" ∧ c_fault (snd r) = c_fault st ∧
     c_attr_mask (snd r) = Z.lor (c_attr_mask st) (u64 attr_mask)).
Proof.
  intros Hs Hty r. subst r.
  rewrite criteria2condition_no_status by done.
  assert (Hmask : ∀ m, Z.lor (Z.lor m (u64 attr_mask)) (u64 attr_mask)
                       = Z.lor m (u64 attr_mask)).
  { intros m. rewrite <- Z.lor_assoc. by rewrite Z.lor_diag. }
  unfold number_accepted.
  set (v := parsed_number type (varvalue kv)).
  set (st0 := entering kv crit attr_mask (or_attr_mask attr_mask st)).
  assert (Hval : criteria2condition_value kv type flags smi st0 =
    let st1 := with_triplet (set_t_val (number_member type v)) st0 in
    if v =? number_error type then
      inl (EINVAL,
           sprintf_err
             (varname kv +:+
              match type with
              | PT_SIZE => " criteria: invalid format for size: '"
              | PT_INT => " criteria: integer expected: '"
              | _ => " criteria: duration expected: '"
              end +:+ varvalue kv +:+ "'") st1)
    else
      match CHECK_INT_VALUE v flags kv st1 with
      | Some r => inl r
      | None => inr st1
      end).
  { unfold v. by destruct Hty as [-> | [-> | ->]]. }
  rewrite Hval. clear Hval. cbv zeta.
  set (st1 := with_triplet (set_t_val (number_member type v)) st0).
  assert (Hst1 : c_triplet st1 =
            mk_triplet (t_flags (c_triplet st)) crit
                       (syntax2conf_comparator (op_type kv))
                       (number_member type v) (t_xattr_name (c_triplet st)) ∧
          c_attr_mask st1 = Z.lor (c_attr_mask st) (u64 attr_mask) ∧
          c_err_msg st1 = c_err_msg st ∧ c_fault st1 = c_fault st).
  { unfold st1, st0, entering. simpl. split_and!; try done; try apply Hmask. }
  destruct Hst1 as (Ht1 & Hm1 & He1 & Hf1).
  destruct (Z.eqb_spec v (number_error type)) as [Herr|Herr]; simpl.
  { split_and!; [done|done|]. intros _. split_and!; try done.
    destruct (varname kv); [|done]. by destruct type. }
  unfold CHECK_INT_VALUE.
  destruct (has_flag flags PFLG_POSITIVE && (v <? 0)); simpl.
  { split_and!; [done|done|]. intros _. by split_and!. }
  destruct (has_flag flags PFLG_NOT_NULL && (v =? 0)); simpl.
  { split_and!; [done|done|]. intros _. by split_and!. }
  unfold check_comparable. rewrite Ht1. simpl t_op.
  destruct (has_flag flags PFLG_COMPARABLE); simpl.
  { by split_and!. }
  destruct (op_type kv); simpl.
  all: try (by split_and!).
  all: split_and!; [done|done|]; intros _; by split_and!.
Qed.

Lemma criteria2condition_unwritten kv st crit attr_mask flags smi :
  has_flag flags PFLG_STATUS = false →
  has_flag flags PFLG_NOT_EMPTY && EMPTY_STRING (varvalue kv)
  || has_flag flags PFLG_NO_SLASH && SLASH_IN (varvalue kv) = true →
  let r := criteria2condition kv st crit PT_STRING attr_mask flags smi in
  fst r = EINVAL ∧ c_err_msg (snd r) = c_err_msg st ∧ c_fault (snd r) = true.
Proof.
  intros Hs Hbad r. subst r.
  rewrite criteria2condition_no_status by done.
  unfold criteria2condition_value, criteria2condition_string.
  destruct (has_flag flags PFLG_NOT_EMPTY && EMPTY_STRING (varvalue kv)); [done|].
  simpl in Hbad. by rewrite Hbad.
Qed.

(** X24: two error returns of the string case call [sprintf] with the
    format where the buffer belongs: for an empty value under
    [PFLG_NOT_EMPTY] and for a [/] in the value under [PFLG_NO_SLASH],
    [criteria2condition] returns [EINVAL] without writing [err_msg], which
    keeps the text it held before the call, and the call itself is
    undefined behaviour. *)
Theorem criteria2condition_unwritten_message kv st crit attr_mask flags smi :
  has_flag flags PFLG_STATUS = false →
  has_flag flags PFLG_NOT_EMPTY && EMPTY_STRING (varvalue kv)
  || has_flag flags PFLG_NO_SLASH && SLASH_IN (varvalue kv) = true →
  let r := criteria2condition kv st crit PT_STRING attr_mask flags smi in
  fst r = EINVAL ∧ c_err_msg (snd r) = c_err_msg st ∧ c_fault (snd r) = true.
Proof. apply criteria2condition_unwritten. Qed.

(** X25: a status criterion ([PFLG_STATUS], with a status manager, no
    other check requested by the flags) accepts the empty value without
    looking it up, and a non-empty value exactly when [get_status_str]
    knows it; an unknown status is refused with [EINVAL] and the list of
    the allowed values.  Without a status manager the criterion is
    refused with [EINVAL] before anything is written to the triplet or
    the mask.  The mask of an accepted condition gains both the mask of
    the status manager instance and the mask of the criterion. *)
Theorem criteria2condition_status_value kv st crit attr_mask flags smi :
  has_flag flags PFLG_STATUS = true →
  has_flag flags PFLG_XATTR = false →
  has_flag flags PFLG_NOT_EMPTY = false →
  has_flag flags PFLG_NO_SLASH = false →
  has_flag flags PFLG_NO_WILDCARDS = false →
  let r := criteria2condition kv st crit PT_STRING attr_mask flags smi in
  let str := rh_strncpy (varvalue kv) RBH_PATH_MAX in
  match smi with
  | None =>
      r = (EINVAL,
           sprintf_err ("'" +:+ varname kv
                        +:+ "' criteria is not expected in this context") st)
  | Some s =>
      (str ≠ "" → get_status_str (sm s) str = None →
         fst r = EINVAL ∧
         c_err_msg (snd r) =
           "Invalid status '" +:+ varvalue kv +:+ "' for '" +:+ sm_name (sm s)
           +:+ "' status manager: allowed values are "
           +:+ allowed_status_str (sm s)) ∧
      (fst r = 0 →
         (str = "" ∨ get_status_str (sm s) str ≠ None) ∧
         t_val (c_triplet (snd r)) = VAL_STR str ∧
         t_crit (c_triplet (snd r)) = crit ∧
         c_attr_mask (snd r) =
           Z.lor (Z.lor (c_attr_mask st) (u64 (SMI_MASK (smi_index s))))
                 (u64 attr_mask) ∧
         c_err_msg (snd r) = c_err_msg st) ∧
      (has_flag flags PFLG_COMPARABLE = true →
       str = "" ∨ get_status_str (sm s) str ≠ None → fst r = 0)
  end.
Proof.
  intros Hs Hx Hne Hsl Hnw r str. subst r.
  unfold criteria2condition, criteria2condition_status. rewrite Hs.
  destruct smi as [s|]; [|done].
  unfold criteria2condition_value, criteria2condition_string.
  rewrite Hne, Hsl. simpl andb. cbv iota.
  set (st0 := or_attr_mask attr_mask _).
  assert (Hw : ∃ st1, string_wildcards kv flags st0 = inr st1 ∧
                      c_attr_mask st1 = c_attr_mask st0 ∧
                      c_err_msg st1 = c_err_msg st0 ∧
                      t_crit (c_triplet st1) = crit).
  { unfold string_wildcards. rewrite Hnw.
    destruct (WILDCARDS_IN (varvalue kv)); [|by eexists].
    destruct (t_op (c_triplet st0)); by eexists. }
  destruct Hw as (st1 & -> & Hm1 & He1 & Hc1).
  unfold string_value. rewrite Hx, Hs. fold str.
  assert (Hlen : (0 <? String.length str)%nat = negb (bool_decide (str = ""))).
  { by destruct str. }
  rewrite Hlen.
  destruct (get_status_str (sm s) str) as [status|] eqn:Hget.
  - split_and!.
    + done.
    + intros Hrc. split_and!; [by right| | | |].
      all: unfold check_comparable in *.
      all: destruct (_ && _); simpl in *; try done.
      all: by rewrite ?Hm1, ?He1.
    + intros Hcmp _. unfold check_comparable. by rewrite Hcmp.
  - destruct (decide (str = "")) as [Hempty|Hempty].
    + rewrite bool_decide_true by done. simpl. split_and!.
      * done.
      * intros Hrc. split_and!; [by left| | | |].
        all: unfold check_comparable in *.
        all: destruct (_ && _); simpl in *; try done.
        all: by rewrite ?Hm1, ?He1.
      * intros Hcmp _. unfold check_comparable. by rewrite Hcmp.
    + rewrite bool_decide_false by done. simpl. split_and!; [done|done|].
      intros _ [?|?]; done.
Qed.

(** X26: the same through [GetBoolExpr]: for a block whose single
    expression is a condition on a string criterion with an empty value
    under [PFLG_NOT_EMPTY], or with a [/] in the value under
    [PFLG_NO_SLASH], the caller gets [EINVAL] and, as the message, the
    text that [err_msg] held on entry followed by [, line <n>]: no
    message about the condition has been written.  The triplet allocated
    for the condition is freed. *)
Theorem GetBoolExpr_stale_message l name line kv block_name out smi w n0 :
  wf_world w → load_node out w = Some n0 → (brk w < limit w)%N →
  str2criteria (varname kv) ≠ NO_CRITERIA →
  cd_type (criteria_descr (str2criteria (varname kv))) = PT_STRING →
  has_flag (cd_parsing_flags (criteria_descr (str2criteria (varname kv)))) PFLG_STATUS
  = false →
  has_flag (cd_parsing_flags (criteria_descr (str2criteria (varname kv)))) PFLG_NOT_EMPTY
  && EMPTY_STRING (varvalue kv)
  || has_flag (cd_parsing_flags (criteria_descr (str2criteria (varname kv)))) PFLG_NO_SLASH
     && SLASH_IN (varvalue kv) = true →
  let item := TYPE_BOOL_EXPR line (BoolCondition kv) in
  let r := GetBoolExpr (Some (TYPE_BLOCK l name [item])) block_name out smi w in
  fst r = EINVAL ∧
  err_msg (snd r) = err_msg w +:+ ", line " +:+ pretty (rh_config_GetItemLine (Some item)) ∧
  fault (snd r) = true ∧
  frees (snd r) = (frees w ++ [brk w])%list.
Proof.
  intros Hwf Hout Hlim Hcrit Hty Hs Hbad item r. subst item r.
  assert (Hic : ∀ st, let r := interpret_condition kv st smi in
            fst r = EINVAL ∧ c_err_msg (snd r) = c_err_msg st ∧ c_fault (snd r) = true).
  { intros st. unfold interpret_condition.
    destruct (str2criteria (varname kv)) eqn:Hc; [done|..].
    all: rewrite Hty.
    all: match goal with
         | Hs' : has_flag ?f PFLG_STATUS = false, Hbad' : _ || _ = true
           |- context [criteria2condition ?k ?s ?c PT_STRING ?a ?f ?i] =>
             destruct (criteria2condition_unwritten k s c a f i Hs' Hbad')
               as (Hrc & He & Hf)
         end.
    all: by split_and!. }
  apply load_node_Some in Hout.
  pose proof (wf_lt _ _ _ Hwf Hout) as Hlt.
  destruct Hwf as (Hnull & Hpos & Habove).
  destruct w as [cs b lim jn jt m e fr fl]. simpl in *.
  unfold GetBoolExpr, GetBoolExpr_with, build_bool_expr, malloc_triplet, malloc,
    store_node, load_node. simpl.
  rewrite Hout. simpl.
  apply N.ltb_lt in Hlim. rewrite Hlim. simpl.
  rewrite lookup_insert_ne by lia. rewrite lookup_insert_eq. simpl.
  destruct (N.eqb_spec b NULL) as [Hb|Hb]; [unfold NULL in Hb; lia|].
  unfold interpret_condition_at, load_triplet. simpl.
  rewrite lookup_insert_ne by lia. rewrite lookup_insert_eq.
  destruct (Hic (mk_cond jt 0 e fl)) as (Hrc & He & Hf).
  destruct (interpret_condition kv _ smi) as [rc st]. simpl in Hrc, He, Hf. subst rc.
  simpl. unfold free_condition, load_node. simpl.
  rewrite lookup_insert_ne by lia. rewrite lookup_insert_eq. simpl.
  unfold free. rewrite (proj2 (N.eqb_neq b NULL)) by done. simpl.
  rewrite He. split_and!; try done.
  rewrite lookup_insert_eq. done.
Qed.

End NumericTheorems.

(** ** Indentation *)

Lemma spaces_snoc n : spaces n +:+ " " = spaces (S n).
Proof.
  induction n as [|n IH]; [done|].
  change (spaces (S n) +:+ " ") with (String " " (spaces n +:+ " ")).
  by rewrite IH.
Qed.

Lemma indent_spaces indent :
  0 ≤ indent < 2 ^ 29 →
  fmt_star_s (indent_width indent) (indent_char indent)
  = spaces (Z.to_nat (INDENT_STEP * indent)).
Proof.
  intros Hi. unfold indent_width, u32, INDENT_STEP, fmt_star_s, indent_char.
  rewrite Z.mod_small by lia. unfold int32. rewrite Z.mod_small by lia.
  replace (indent * 4 + 2 ^ 31 - 2 ^ 31) with (4 * indent) by lia.
  destruct (Z.leb_spec 0 (4 * indent)); [|lia].
  destruct (Z.eqb_spec indent 0) as [->|Hne]; [done|].
  change (strlen " ") with 1.
  replace (Z.to_nat (4 * indent)) with (S (Z.to_nat (4 * indent - 1))) by lia.
  apply spaces_snoc.
Qed.

(** X27: for an indentation level below 2^29, each line that
    [print_begin_block], [print_end_block] and [print_line] write starts
    with exactly four spaces per level, and none at level 0:
    [print_begin_block] writes the block name, a tab and the identifier
    when there is one, then a line with the opening brace;
    [print_end_block] a line with the closing brace; [print_line] the
    formatted text and a new line. *)
Theorem print_block_indentation output indent blockname id formatted :
  0 ≤ indent < 2 ^ 29 →
  let margin := spaces (Z.to_nat (INDENT_STEP * indent)) in
  print_begin_block output indent blockname id =
    output +:+ margin +:+ blockname
    +:+ match id with Some id => String (ascii_of_N 9) id | None => "" end
    +:+ newline +:+ margin +:+ "{" +:+ newline ∧
  print_end_block output indent = output +:+ margin +:+ "}" +:+ newline ∧
  print_line output indent formatted = output +:+ margin +:+ formatted +:+ newline ∧
  String.length margin = Z.to_nat (4 * indent).
Proof.
  intros Hi margin. subst margin.
  unfold print_begin_block, print_end_block, print_line.
  rewrite !indent_spaces by done. split_and!.
  - destruct id as [id|]; by rewrite !string_app_assoc.
  - done.
  - by rewrite !string_app_assoc.
  - unfold INDENT_STEP. induction (Z.to_nat (4 * indent)) as [|n IH]; [done|].
    simpl. by rewrite IH.
Qed.

(** ** [CheckUnknownParameters] *)

Lemma name_found_spec param_array name :
  (∀ p, p ∈ param_array → cstring p) → cstring name →
  name_found param_array name = true ↔
  ∃ p, p ∈ param_array ∧ string_lower p = string_lower name.
Proof.
  intros Hps Hname. induction param_array as [|p rest IH]; simpl.
  { split; [done|]. intros (p & Hp & _). by apply elem_of_nil in Hp. }
  assert (Hp : cstring p) by (apply Hps; set_solver).
  pose proof (strcasecmp_zero p name Hp Hname) as Hz.
  destruct (Z.eqb_spec (strcasecmp p name) 0) as [H0|H0].
  - split; [|done]. intros _. exists p. split; [set_solver|]. by apply Hz.
  - rewrite IH by (intros; apply Hps; set_solver). split.
    + intros (q & Hq & Heq). exists q. split; [set_solver|done].
    + intros (q & Hq & Heq). apply elem_of_cons in Hq as [->|Hq].
      * destruct H0. by apply Hz.
      * by exists q.
Qed.

Section UnknownParametersTheorems.

Context `{rbh_env}.

Variable rh_config_GetNbItems : config_item_t → Z.
Variable rh_config_GetItemByIndex : config_item_t → Z → generic_item.
Variable rh_config_ItemType : generic_item → config_item_type.
Variable rh_config_GetBlockName : generic_item → option string.

Lemma check_item_cases block_name param_array item log :
  let log' := check_item rh_config_ItemType rh_config_GetBlockName block_name
                param_array item log in
  match checked_name rh_config_ItemType rh_config_GetBlockName item with
  | Some name =>
      if name_found param_array name then log' = log
      else ∃ entry, log' = (log ++ [entry])%list
  | None => log' = log
  end.
Proof.
  unfold check_item, checked_name.
  destruct (rh_config_ItemType item); simpl.
  - destruct (rh_config_GetBlockName item) as [name|]; [|done].
    destruct (name_found param_array name); [done|by eexists].
  - destruct (rh_config_GetKeyValue item) as [[[rc name] value] flg].
    destruct (rc =? 0); [|done].
    destruct (name_found param_array name); [done|by eexists].
  - done.
Qed.

Lemma check_items_log block block_name param_array : ∀ todo i log,
  let log' := check_items rh_config_GetItemByIndex rh_config_ItemType
                rh_config_GetBlockName todo i block block_name param_array log in
  (∃ added, log' = (log ++ added)%list ∧ (length added ≤ todo)%nat) ∧
  (log' = log ↔
   ∀ k, (k < todo)%nat →
        match checked_name rh_config_ItemType rh_config_GetBlockName
                (rh_config_GetItemByIndex block (i + Z.of_nat k)) with
        | Some name => name_found param_array name = true
        | None => True
        end).
Proof.
  induction todo as [|todo IH]; intros i log; simpl.
  { split; [exists []; by rewrite app_nil_r|]. split; [intros _ k Hk; lia|done]. }
  set (item := rh_config_GetItemByIndex block i).
  pose proof (check_item_cases block_name param_array item log) as Hit.
  set (log1 := check_item _ _ _ _ item log) in *.
  destruct (IH (i + 1) log1) as ((added & Hadd & Hlen) & Hiff).
  simpl in Hit, Hadd, Hiff.
  assert (Hshift : ∀ k, i + 1 + Z.of_nat k = i + Z.of_nat (S k)) by (intros; lia).
  destruct (checked_name _ _ item) as [name|] eqn:Hname.
  1: destruct (name_found param_array name) eqn:Hfound.
  1, 3: rewrite Hit in *.
  - split; [exists added; split; [done|lia]|].
    rewrite Hiff. split.
    + intros Hall [|k] Hk.
      * rewrite Z.add_0_r. fold item. by rewrite Hname.
      * rewrite <- Hshift. apply Hall. lia.
    + intros Hall k Hk. rewrite Hshift. apply Hall. lia.
  - split; [exists added; split; [done|lia]|].
    rewrite Hiff. split.
    + intros Hall [|k] Hk.
      * rewrite Z.add_0_r. fold item. by rewrite Hname.
      * rewrite <- Hshift. apply Hall. lia.
    + intros Hall k Hk. rewrite Hshift. apply Hall. lia.
  - destruct Hit as [entry Hentry]. rewrite Hadd, Hentry. split.
    + exists (entry :: added). split; [by rewrite <- app_assoc|simpl; lia].
    + split.
      * intros Heq. apply (f_equal length) in Heq.
        rewrite !length_app in Heq. simpl in Heq. lia.
      * intros Hall. specialize (Hall 0%nat ltac:(lia)).
        rewrite Z.add_0_r in Hall. fold item in Hall. rewrite Hname in Hall.
        congruence.
Qed.

(** X28: [CheckUnknownParameters] only warns: it keeps the log and adds
    at most one entry per item of the block.  It adds none exactly when
    every parameter and every named sub-block of the block has a name
    found in the array of allowed names, and a name is found when it
    equals an allowed name up to letter case.  Items that are neither
    parameters nor blocks, parameters whose key cannot be read and blocks
    without a name are not looked at. *)
Theorem CheckUnknownParameters_warnings block block_name param_array log :
  let log' := CheckUnknownParameters rh_config_GetNbItems rh_config_GetItemByIndex
                rh_config_ItemType rh_config_GetBlockName
                block block_name param_array log in
  (∃ added, log' = (log ++ added)%list ∧
            (length added ≤ Z.to_nat (rh_config_GetNbItems block))%nat) ∧
  (log' = log ↔
   ∀ k, 0 ≤ k < rh_config_GetNbItems block →
        match checked_name rh_config_ItemType rh_config_GetBlockName
                (rh_config_GetItemByIndex block k) with
        | Some name => name_found param_array name = true
        | None => True
        end) ∧
  (∀ name, (∀ p, p ∈ param_array → cstring p) → cstring name →
           (name_found param_array name = true ↔
            ∃ p, p ∈ param_array ∧ string_lower p = string_lower name)).
Proof.
  intros log'. subst log'. unfold CheckUnknownParameters.
  destruct (check_items_log block block_name param_array
              (Z.to_nat (rh_config_GetNbItems block)) 0 log) as (Hpre & Hiff).
  split; [done|]. split.
  - rewrite Hiff. split.
    + intros Hall k Hk. specialize (Hall (Z.to_nat k) ltac:(lia)).
      rewrite Z.add_0_l, Z2Nat.id in Hall by lia. done.
    + intros Hall k Hk. rewrite Z.add_0_l. apply Hall. lia.
  - intros name Hps Hname. by apply name_found_spec.
Qed.

End UnknownParametersTheorems.

(** ** A leak on the error path of the boolean builder *)

Lemma malloc_triplet_mk cs b l jn jt m e fr ft :
  (b < l)%N →
  malloc_triplet (mk_world cs b l jn jt m e fr ft)
  = (b, mk_world (<[b := ObjTriplet jt]> cs) (b + 1) l jn jt m e fr ft).
Proof.
  intros Hb. unfold malloc_triplet, malloc. simpl.
  by destruct (N.ltb_spec b l); [|lia].
Qed.

Section LeakTheorem.

Context `{rbh_env}.

Lemma interpret_condition_at_mk kv c smi cs b l jn jt m e fr ft t :
  cs !! c = Some (ObjTriplet t) →
  interpret_condition_at kv c smi (mk_world cs b l jn jt m e fr ft) =
    (fst (interpret_condition kv (mk_cond t m e ft) smi),
     mk_world (<[c := ObjTriplet
                       (c_triplet (snd (interpret_condition kv (mk_cond t m e ft) smi)))]> cs)
              b l jn jt
              (c_attr_mask (snd (interpret_condition kv (mk_cond t m e ft) smi)))
              (c_err_msg (snd (interpret_condition kv (mk_cond t m e ft) smi)))
              fr
              (c_fault (snd (interpret_condition kv (mk_cond t m e ft) smi)))).
Proof.
  intros Hc. unfold interpret_condition_at, load_triplet. simpl. rewrite Hc.
  by destruct (interpret_condition kv _ smi).
Qed.

(** X29: [build_bool_expr] on a binary expression whose first operand is
    a condition that compiles and whose second operand is a condition
    that is refused: the error path frees the triplet and the node of the
    second operand and the node of the first, but not the triplet of the
    first operand, which stays allocated with no pointer left to it.  The
    caller's node is left owning two freed cells. *)
Theorem build_bool_expr_leaks_first_operand oper kv1 kv2 out smi w n0 :
  wf_world w → load_node out w = Some n0 → (brk w + 4 ≤ limit w)%N →
  syntax2conf_boolop oper ≠ BOOL_ERR →
  (∀ st, fst (interpret_condition kv1 st smi) = 0) →
  (∀ st, fst (interpret_condition kv2 st smi) ≠ 0) →
  let r := build_bool_expr (BoolBinary oper (BoolCondition kv1) (BoolCondition kv2))
             out smi w in
  fst r ≠ 0 ∧
  frees (snd r) = (frees w ++ [(brk w + 3)%N; (brk w + 2)%N; brk w])%list ∧
  (∃ t, cells (snd r) !! (brk w + 1)%N = Some (ObjTriplet t)) ∧
  cells (snd r) !! brk w = None ∧
  (∃ n, cells (snd r) !! out = Some (ObjNode n) ∧ owner n = true ∧
        expr1 n = brk w ∧ expr2 n = (brk w + 2)%N).
Proof.
  intros Hwf Hout Hmem Hop Hok Hbad r. subst r.
  apply load_node_Some in Hout.
  pose proof (wf_lt _ _ _ Hwf Hout) as Hlt.
  destruct w as [cs b l jn jt m e fr ft]. cbn [brk limit frees cells] in *.
  assert (Hbody : ∀ w0,
    build_bool_expr (BoolBinary oper (BoolCondition kv1) (BoolCondition kv2)) out smi w0 =
    let w := store_node out (set_owner true)
               (store_node out (set_bool_op (syntax2conf_boolop oper))
                  (store_node out (set_node_type NODE_BINARY_EXPR) w0)) in
    let '(e1', w) := malloc_node w in
    let w := store_node out (set_expr1 e1') w in
    if (e1' =? NULL)%N then fail ENOMEM "Could not allocate memory" w
    else
      let '(rc, w) := build_bool_expr (BoolCondition kv1) e1' smi w in
      if rc =? 0 then
        let '(e2', w) := malloc_node w in
        let w := store_node out (set_expr2 e2') w in
        if (e2' =? NULL)%N then fail ENOMEM "Could not allocate memory" w
        else
          let '(rc, w) := build_bool_expr (BoolCondition kv2) e2' smi w in
          if rc =? 0 then (0, w)
          else (rc, free_expr1 out (free_expr2 out w))
      else (rc, free_expr1 out w)).
  { intros w0. destruct oper; done. }
  rewrite Hbody. clear Hbody. cbv zeta.
  erewrite store_node_mk; [|lookup_chain].
  erewrite store_node_mk; [|lookup_chain].
  erewrite store_node_mk; [|lookup_chain].
  rewrite malloc_node_mk by lia.
  erewrite store_node_mk; [|lookup_chain].
  destruct (N.eqb_spec b NULL) as [Hbn|_]; [unfold NULL in Hbn; lia|].
  (* the first operand *)
  cbn [build_bool_expr].
  erewrite store_node_mk; [|lookup_chain].
  rewrite malloc_triplet_mk by lia.
  erewrite store_node_mk; [|lookup_chain].
  destruct (N.eqb_spec (b + 1) NULL) as [Hbn|_]; [unfold NULL in Hbn; lia|].
  erewrite interpret_condition_at_mk; [|lookup_chain].
  rewrite Hok. change (0 =? 0) with true. cbv iota.
  (* the second operand *)
  rewrite malloc_node_mk by lia.
  erewrite store_node_mk; [|lookup_chain].
  destruct (N.eqb_spec (b + 1 + 1) NULL) as [Hbn|_]; [unfold NULL in Hbn; lia|].
  erewrite store_node_mk; [|lookup_chain].
  rewrite malloc_triplet_mk by lia.
  erewrite store_node_mk; [|lookup_chain].
  destruct (N.eqb_spec (b + 1 + 1 + 1) NULL) as [Hbn|_]; [unfold NULL in Hbn; lia|].
  erewrite interpret_condition_at_mk; [|lookup_chain].
  match goal with |- context [interpret_condition kv2 ?st smi] =>
    pose proof (Hbad st) as Hrc2;
    destruct (interpret_condition kv2 st smi) as [rc2 st2] end.
  simpl in Hrc2. simpl fst. simpl snd.
  assert (Hf2 : (rc2 =? 0) = false) by (by apply Z.eqb_neq).
  rewrite Hf2. cbv iota beta. rewrite ?Hf2. cbv iota.
  unfold free_condition.
  erewrite load_node_cells; [|simpl; lookup_chain].
  simpl condition.
  erewrite free_allocated; [|simpl; lookup_chain|unfold NULL; lia].
  unfold free_expr2.
  erewrite load_node_cells; [|simpl; rewrite lookup_delete_ne by lia; lookup_chain].
  simpl expr2.
  erewrite free_allocated;
    [|simpl; rewrite lookup_delete_ne by lia; lookup_chain|unfold NULL; lia].
  unfold free_expr1.
  erewrite load_node_cells;
    [|simpl; rewrite !lookup_delete_ne by lia; lookup_chain].
  simpl expr1.
  erewrite free_allocated;
    [|simpl; rewrite !lookup_delete_ne by lia; lookup_chain|unfold NULL; lia].
  simpl. replace (b + 1 + 1 + 1)%N with (b + 3)%N by lia.
  replace (b + 1 + 1)%N with (b + 2)%N by lia.
  split_and!.
  - done.
  - by rewrite <- !app_assoc.
  - eexists. rewrite !lookup_delete_ne by lia. lookup_chain.
  - apply lookup_delete_eq.
  - eexists. split; [rewrite !lookup_delete_ne by lia; lookup_chain|done].
Qed.

End LeakTheorem.

(** ** The any-level token where the code leaves defined behaviour *)

Section AnyLevelFaults.

Context `{rbh_env}.

Lemma any_level_not_empty value n :
  ANY_LEVEL_MATCH (rh_strncpy value n) = true → EMPTY_STRING value = false.
Proof.
  destruct value as [|c r]; [|done].
  unfold rh_strncpy. by destruct (n - 1)%nat.
Qed.

Lemma check_comparable_fault kv flags st :
  c_fault (snd (check_comparable kv flags st)) = c_fault st.
Proof. unfold check_comparable. by case_match. Qed.

(** X30: a string condition that is neither an extended attribute nor a
    status, whose value holds the token [**] and passes the checks made
    before the token is looked at.  Without [PFLG_ALLOW_ANY_DEPTH] the
    refusal is a [sprintf] call that has no buffer argument: the format
    literal is written over, [err_msg] is left as it was, and [EINVAL]
    is what the code then returns.  With the flag, when the rewriting of
    the value does not fit in [val.str], the text is written past the end
    of this array. *)
Theorem criteria2condition_any_level_undefined kv st crit attr_mask flags smi :
  has_flag flags PFLG_XATTR = false →
  has_flag flags PFLG_STATUS = false →
  has_flag flags PFLG_NO_WILDCARDS = false →
  has_flag flags PFLG_NO_SLASH && SLASH_IN (varvalue kv) = false →
  let str := rh_strncpy (varvalue kv) RBH_PATH_MAX in
  ANY_LEVEL_MATCH str = true →
  let r := criteria2condition kv st crit PT_STRING attr_mask flags smi in
  (has_flag flags PFLG_ALLOW_ANY_DEPTH = false →
     fst r = EINVAL ∧ c_err_msg (snd r) = c_err_msg st ∧ c_fault (snd r) = true) ∧
  (has_flag flags PFLG_ALLOW_ANY_DEPTH = true → val_str_overrun str = true →
     c_fault (snd r) = true).
Proof.
  intros Hx Hs Hnw Hslash str Hany r. subst r.
  rewrite criteria2condition_no_status by done.
  unfold criteria2condition_value, criteria2condition_string.
  set (st0 := entering _ _ _ _).
  assert (Hm0 : c_err_msg st0 = c_err_msg st) by done.
  rewrite (any_level_not_empty _ _ Hany), andb_false_r, Hslash.
  destruct (string_wildcards kv flags st0) as [r|st1] eqn:Hw.
  { revert Hw. unfold string_wildcards. rewrite Hnw.
    destruct (WILDCARDS_IN (varvalue kv)); [|done].
    by destruct (t_op (c_triplet st0)). }
  destruct (string_wildcards_inv _ _ _ _ Hw eq_refl) as (_ & _ & _ & _ & Hm1).
  rewrite (string_value_any_level kv flags smi st1 Hx Hs Hany). fold str.
  split.
  - intros ->. simpl. split_and!; [done|congruence|done].
  - intros -> Hover. rewrite Hover.
    assert (Hloop : any_level_loop str 0 = true).
    { unfold val_str_overrun in Hover. by apply andb_true_iff in Hover as [? _]. }
    rewrite Hloop, check_comparable_fault. simpl. apply orb_true_r.
Qed.

End AnyLevelFaults.

(** ** The extractors and the table reader on concrete inputs *)

(** A log file given as an absolute path with a final slash. *)
Lemma GetStringParam_checks_witness :
  let flags := Z.lor PFLG_ABSOLUTE_PATH PFLG_REMOVE_FINAL_SLASH in
  let r := GetStringParam (H := spec_env) block_log_file "log" "log_file" flags 1024
             (no_extra "") in
  fst r = 0 ∧ target (snd r) = "/var/log/robinhood".
Proof.
  cbv zeta.
  destruct (@GetStringParam_checks spec_env block_log_file "log" "log_file"
              (Z.lor PFLG_ABSOLUTE_PATH PFLG_REMOVE_FINAL_SLASH) 1024 (no_extra "")
              (TYPE_AFFECT 2 (cond_of "log_file" "/var/log/robinhood/" OP_EQUAL))
              "log_file" "/var/log/robinhood/" 0 eq_refl eq_refl)
    as (_ & _ & Hok).
  split; [reflexivity|].
  destruct (Hok eq_refl) as [_ [(Hstd & _)|(_ & _ & _ & Hrm)]].
  - vm_compute in Hstd. discriminate.
  - apply Hrm; reflexivity.
Defined.

Lemma well_typed_table_db : well_typed (H := spec_env) table_db memory_db.
Proof.
  intros p Hp _. unfold table_db in Hp.
  apply elem_of_cons in Hp as [->|Hp]; [reflexivity|].
  apply elem_of_cons in Hp as [->|Hp]; [reflexivity|].
  by apply elem_of_nil in Hp.
Qed.

(** The table on [db { max_size = 5k; }]: the mandatory name is missing. *)
Lemma read_scalar_params_first_error_witness :
  ∃ mem',
    read_scalar_params (H := spec_env) (block_db "5k") "db" table_db memory_db ""
    = Some (ENOENT, mem',
            "Missing mandatory parameter 'db_name' in block 'db', line 1") ∧
    ∃ pre p post,
      table_db = (pre ++ p :: post)%list ∧
      (∀ q, q ∈ pre → param_ok (H := spec_env) (block_db "5k") "db" memory_db q) ∧
      cfg_is_err ENOENT (p_flags p) = true.
Proof.
  pose proof (@read_scalar_params_first_error spec_env (block_db "5k") "db" table_db
                memory_db "" well_typed_table_db) as Hx.
  assert (Hc : (λ r, (fst (fst r), snd r)) <$>
                 read_scalar_params (H := spec_env) (block_db "5k") "db" table_db
                   memory_db "" =
               Some (ENOENT,
                     "Missing mandatory parameter 'db_name' in block 'db', line 1"))
    by (vm_compute; reflexivity).
  destruct (read_scalar_params (H := spec_env) (block_db "5k") "db" table_db
              memory_db "") as [[[rc mem'] msg']|]; [|discriminate Hc].
  simpl in Hc. injection Hc as -> ->.
  exists mem'. split; [reflexivity|].
  destruct Hx as [[Hrc _]|(_ & _ & pre & p & post & Hparams & Hpre & _ & Herr)];
    [discriminate Hrc|].
  exists pre, p, post. split_and!; [exact Hparams|exact Hpre|exact Herr].
Defined.

Lemma well_typed_table_db_optional :
  well_typed (H := spec_env) table_db_optional memory_db.
Proof.
  intros p Hp _. unfold table_db_optional in Hp.
  apply elem_of_cons in Hp as [->|Hp]; [reflexivity|].
  apply elem_of_cons in Hp as [->|Hp]; [reflexivity|].
  by apply elem_of_nil in Hp.
Qed.

(** The same block with the name optional: the size is read, the name
    keeps its default. *)
Lemma read_scalar_params_targets_witness :
  ∃ mem' msg',
    read_scalar_params (H := spec_env) (block_db "5k") "db" table_db_optional
      memory_db "" = Some (0, mem', msg') ∧
    mem' !! 2%N = memory_db !! 2%N ∧
    (∀ a, a ∉ [1%N; 2%N] → mem' !! a = memory_db !! a).
Proof.
  assert (Hc : (λ r, fst (fst r)) <$>
                 read_scalar_params (H := spec_env) (block_db "5k") "db"
                   table_db_optional memory_db "" = Some 0)
    by (vm_compute; reflexivity).
  destruct (read_scalar_params (H := spec_env) (block_db "5k") "db"
              table_db_optional memory_db "") as [[[rc mem'] msg']|] eqn:Hr;
    [|discriminate Hc].
  injection Hc as Hc. change (rc = 0) in Hc. subst rc.
  assert (Hnd : NoDup (p_ptr <$> table_db_optional)).
  { apply (bool_decide_unpack _). vm_compute. reflexivity. }
  destruct (@read_scalar_params_targets spec_env (block_db "5k") "db"
              table_db_optional memory_db "" mem' msg' Hr Hnd) as (Hfr & _ & Habs).
  assert (Hin : mk_cfg_param "db_name" PT_STRING 0 2 64 ∈ table_db_optional).
  { apply elem_of_cons. right. apply elem_of_cons. by left. }
  pose proof (Habs _ Hin eq_refl) as Hp2.
  change (p_ptr _) with 2%N in Hp2.
  exists mem', msg'. split; [reflexivity|]. split; [exact Hp2|exact Hfr].
Defined.

(** ** The builder on [depth == 3 and not (depth > 5)] *)

Lemma build_expr_depth :
  build_bool_expr (H := spec_env) expr_depth 7 None world5 =
    (0, snd (build_bool_expr (H := spec_env) expr_depth 7 None world5)).
Proof. vm_compute. reflexivity. Qed.

Lemma build_bool_expr_tree_witness :
  ∃ n t kids,
    cells (snd (build_bool_expr (H := spec_env) expr_depth 7 None world5)) !! 7%N
      = Some (ObjNode n) ∧
    node_holds (cells (snd (build_bool_expr (H := spec_env) expr_depth 7 None world5)))
               n t kids ∧
    spells (H := spec_env) None expr_depth t ∧ NoDup kids ∧
    (∀ a, a ∈ kids ↔
          (brk world5 ≤ a
           < brk (snd (build_bool_expr (H := spec_env) expr_depth 7 None world5)))%N) ∧
    frees (snd (build_bool_expr (H := spec_env) expr_depth 7 None world5)) = frees world5 ∧
    ∀ a, a ≠ 7%N → (a < brk world5)%N →
         cells (snd (build_bool_expr (H := spec_env) expr_depth 7 None world5)) !! a
         = cells world5 !! a.
Proof.
  apply (build_bool_expr_tree (H := spec_env) expr_depth 7 None world5 (leaf NULL)).
  - exact wf_world5.
  - reflexivity.
  - exact build_expr_depth.
Defined.

Lemma build_bool_expr_then_free_witness :
  ∃ kids w'',
    FreeBoolExpr 6 7 true (snd (build_bool_expr (H := spec_env) expr_depth 7 None world5))
      = Some (0, w'') ∧
    NoDup kids ∧
    (∀ a, a ∈ kids ↔
          (brk world5 ≤ a
           < brk (snd (build_bool_expr (H := spec_env) expr_depth 7 None world5)))%N) ∧
    frees w'' = (frees world5 ++ kids ++ [7%N])%list ∧
    fault w'' = fault (snd (build_bool_expr (H := spec_env) expr_depth 7 None world5)) ∧
    cells w'' !! 7%N = None ∧
    ∀ a, a ≠ 7%N → cells w'' !! a = cells world5 !! a.
Proof.
  apply (build_bool_expr_then_free (H := spec_env) expr_depth 7 None world5 (leaf NULL)
           _ 6 true).
  - exact wf_world5.
  - reflexivity.
  - exact build_expr_depth.
  - vm_compute. lia.
Defined.

Lemma build_bool_expr_memory_safe_witness :
  fst (build_bool_expr (H := spec_env) expr_depth_bad 7 None world5) = EINVAL ∧
  frees (snd (build_bool_expr (H := spec_env) expr_depth_bad 7 None world5))
    = [12; 11; 10; 8]%N ∧
  ∀ a, a ≠ 7%N → (a < brk world5)%N →
       cells (snd (build_bool_expr (H := spec_env) expr_depth_bad 7 None world5)) !! a
       = cells world5 !! a.
Proof.
  split; [vm_compute; reflexivity|]. split; [vm_compute; reflexivity|].
  exact (proj1 (proj2 (build_bool_expr_memory_safe (H := spec_env) expr_depth_bad 7 None
                         world5 (leaf NULL) wf_world5 eq_refl))).
Defined.

Lemma FreeBoolExpr_leaf_class_witness :
  ∃ w' w'',
    build_set_expr (SetSingleton "cold") 7 policies5_leaf world5 = (0, w') ∧
    FreeBoolExpr 1 7 true w' = Some (0, w'') ∧
    cells w' !! 4%N = Some (ObjTriplet size_gt_10) ∧
    cells w'' !! 4%N = None ∧
    frees w'' = [4; 7]%N.
Proof.
  apply (FreeBoolExpr_leaf_class policies5_leaf "cold" cold_leaf 7 world5 (leaf NULL)
           size_gt_10 0 true).
  - exact wf_world5.
  - reflexivity.
  - reflexivity.
  - reflexivity.
  - reflexivity.
Defined.

(** ** Appending [size > 10] to the condition at cell 1 *)

Lemma wf_world5_tight : wf_world world5_tight.
Proof.
  unfold wf_world, world5_tight, cells5; simpl. split_and!; [done|done|].
  intros a Ha. rewrite !lookup_insert_ne by lia. apply lookup_empty.
Qed.

Lemma holds_leaf5 : node_holds cells5 (leaf 2) (NCond size_gt_10) [2%N].
Proof. by apply (holds_cond cells5 (leaf 2) size_gt_10). Qed.

Lemma not_in_leaf5 : 1%N ∉ [2%N].
Proof. intros Hin. by apply list_elem_of_singleton in Hin. Qed.

Lemma AppendBoolCond_appends_witness :
  ∃ w' n',
    AppendBoolCond 0 1 COMP_GRTHAN CRITERIA_SIZE (VAL_SIZE 10) world5 = Some (0, w') ∧
    cells w' !! 1%N = Some (ObjNode n') ∧
    node_holds (cells w') n'
      (NBinary BOOL_AND (NCond size_gt_10) (NCond size_gt_10))
      (([2%N] ++ [brk world5]) ++ [(brk world5 + 2)%N] ++ [(brk world5 + 1)%N])%list ∧
    brk w' = (brk world5 + 3)%N ∧ frees w' = frees world5 ∧ fault w' = fault world5 ∧
    ∀ a, a ≠ 1%N → (a < brk world5)%N → cells w' !! a = cells world5 !! a.
Proof.
  apply (AppendBoolCond_appends 0 1 COMP_GRTHAN CRITERIA_SIZE (VAL_SIZE 10) world5
           (leaf 2) (NCond size_gt_10) [2%N]).
  - exact wf_world5.
  - reflexivity.
  - exact holds_leaf5.
  - exact not_in_leaf5.
  - vm_compute. discriminate.
Defined.

Lemma AppendBoolCond_out_of_memory_witness :
  ∃ w' n',
    AppendBoolCond 2 1 COMP_GRTHAN CRITERIA_SIZE (VAL_SIZE 10) world5_tight
      = Some (- ENOMEM, w') ∧
    frees w' = [9; 2; 8]%N ∧
    (∀ a, a ∈ [2%N] → cells w' !! a = None) ∧
    cells w' !! 1%N = Some (ObjNode n') ∧
    node_type n' = NODE_BINARY_EXPR ∧ owner n' = true ∧ expr1 n' = 8%N ∧
    cells w' !! 8%N = None ∧
    fault w' = false.
Proof.
  apply (AppendBoolCond_out_of_memory 2 1 COMP_GRTHAN CRITERIA_SIZE (VAL_SIZE 10)
           world5_tight (leaf 2) (NCond size_gt_10) [2%N]).
  - exact wf_world5_tight.
  - reflexivity.
  - exact holds_leaf5.
  - exact not_in_leaf5.
  - simpl. lia.
  - simpl. lia.
Defined.

Lemma CreateBoolCond_result_witness :
  ∃ n, cells (snd (CreateBoolCond 7 COMP_GRTHAN CRITERIA_SIZE (VAL_SIZE 10) world5)) !! 7%N
       = Some (ObjNode n) ∧ node_type n = NODE_CONDITION ∧
       frees (snd (CreateBoolCond 7 COMP_GRTHAN CRITERIA_SIZE (VAL_SIZE 10) world5)) = [] ∧
       fault (snd (CreateBoolCond 7 COMP_GRTHAN CRITERIA_SIZE (VAL_SIZE 10) world5)) = false ∧
       (∀ a, a ≠ 7%N → (a < 8)%N →
             cells (snd (CreateBoolCond 7 COMP_GRTHAN CRITERIA_SIZE (VAL_SIZE 10) world5)) !! a
             = cells world5 !! a) ∧
       fst (CreateBoolCond 7 COMP_GRTHAN CRITERIA_SIZE (VAL_SIZE 10) world5) = 0 ∧
       condition n = 8%N ∧
       brk (snd (CreateBoolCond 7 COMP_GRTHAN CRITERIA_SIZE (VAL_SIZE 10) world5)) = 9%N ∧
       cells (snd (CreateBoolCond 7 COMP_GRTHAN CRITERIA_SIZE (VAL_SIZE 10) world5)) !! 8%N
       = Some (ObjTriplet size_gt_10).
Proof.
  exact (CreateBoolCond_result 7 COMP_GRTHAN CRITERIA_SIZE (VAL_SIZE 10) world5 (leaf NULL)
           wf_world5 eq_refl).
Defined.

(** ** [GetSetExpr] on scenario 5 *)

Lemma GetSetExpr_outcome_witness :
  ∃ l name line s t fp,
    block_scenario5 = Some (TYPE_BLOCK l name [TYPE_SET line s]) ∧
    set_expr_tree_with (find_fileset (fileset_list policies5)) s = inr t ∧
    tree_at (cells (snd (GetSetExpr (H := spec_env) block_scenario5 "definition" 7
                           policies5 world5))) 7 t fp ∧
    attr_mask (snd (GetSetExpr (H := spec_env) block_scenario5 "definition" 7
                      policies5 world5))
    = set_expr_mask_with (find_fileset (fileset_list policies5)) s 0 ∧
    err_msg (snd (GetSetExpr (H := spec_env) block_scenario5 "definition" 7
                    policies5 world5)) = err_msg world5 ∧
    frees (snd (GetSetExpr (H := spec_env) block_scenario5 "definition" 7
                  policies5 world5)) = frees world5.
Proof.
  apply (proj1 (GetSetExpr_outcome (H := spec_env) block_scenario5 "definition" 7
                  policies5 world5 (leaf NULL) wf_world5 eq_refl)).
  vm_compute. reflexivity.
Defined.

(** ** Printing [size > 10] and [NOT (size > 10)] *)

Lemma BoolExpr2str_fits_witness :
  ∃ b', BoolExpr2str (H := example_print_env) 2 cells5 1 0 16 (blank 16)
        = Some (strlen "size > 10", b') ∧
        undefined b' = undefined (blank 16) ∧ holds_text b' 0 "size > 10" ∧
        ∀ j, j < 0 ∨ 0 + strlen "size > 10" < j → mem b' j = mem (blank 16) j.
Proof.
  apply (BoolExpr2str_fits (H := example_print_env) cells5 (leaf 2) (NCond size_gt_10)
           [2%N] "size > 10" 1 2 0 16 (blank 16)).
  - exact holds_leaf5.
  - reflexivity.
  - reflexivity.
  - lia.
  - simpl. lia.
  - vm_compute. reflexivity.
  - lia.
  - simpl. lia.
Defined.

Lemma holds_not5 :
  node_holds cells5_not not_leaf3 (NUnary BOOL_NOT (NCond size_gt_10)) ([4%N] ++ [3%N]).
Proof.
  apply (holds_unary cells5_not not_leaf3 (leaf 4) (NCond size_gt_10) [4%N]);
    try reflexivity.
  - by apply (holds_cond cells5_not (leaf 4) size_gt_10).
  - intros Hin. by apply list_elem_of_singleton in Hin.
Qed.

Lemma BoolExpr2str_overrun_witness :
  ∃ b', BoolExpr2str (H := example_print_env) 3 cells5_not 1 0 8 (blank 8)
        = Some (strlen "NOT (size > 10)", b') ∧
        undefined b' = true.
Proof.
  apply (BoolExpr2str_overrun (H := example_print_env) cells5_not not_leaf3
           (NUnary BOOL_NOT (NCond size_gt_10)) ([4%N] ++ [3%N]) "NOT (size > 10)"
           1 3 0 8 (blank 8)).
  - exact holds_not5.
  - reflexivity.
  - reflexivity.
  - discriminate.
  - lia.
  - simpl. lia.
  - vm_compute. reflexivity.
  - vm_compute. reflexivity.
  - simpl. lia.
Defined.

(** [and (depth == 3)] with a unary [and]. *)
Lemma unary_and_or_is_not_printed_witness :
  BoolExpr2str (H := example_print_env) 1
    (cells (snd (build_bool_expr (H := spec_env)
                   (BoolUnary BOOL_OP_AND (BoolCondition (cond_of "depth" "3" OP_EQUAL)))
                   7 None world5)))
    7 0 16 (blank 16)
  = Some (- EINVAL, blank 16).
Proof.
  apply (unary_and_or_is_not_printed (H := example_print_env) (H0 := spec_env)
           BOOL_OP_AND (BoolCondition (cond_of "depth" "3" OP_EQUAL)) 7 None world5
           (leaf NULL)).
  - exact wf_world5.
  - reflexivity.
  - by left.
  - vm_compute. reflexivity.
Defined.

(** ** [size > 10], an empty path, and a status *)

Lemma criteria2condition_numeric_witness :
  let r := criteria2condition (H := spec_env) (cond_of "size" "10" OP_GT) cond0
             CRITERIA_SIZE PT_SIZE 4 PFLG_COMPARABLE None in
  fst r = 0 ∧ t_val (c_triplet (snd r)) = VAL_SIZE 10 ∧ c_attr_mask (snd r) = 4.
Proof.
  pose proof (criteria2condition_numeric (H := spec_env) (cond_of "size" "10" OP_GT)
                cond0 CRITERIA_SIZE PT_SIZE 4 PFLG_COMPARABLE None
                eq_refl (or_introl eq_refl)) as (Hrc & Hok & _).
  cbv zeta. split; [by apply Hrc|]. destruct (Hok (proj2 Hrc eq_refl)) as (-> & -> & _).
  split; reflexivity.
Defined.

Lemma criteria2condition_unwritten_message_witness :
  let r := criteria2condition (H := spec_env) (cond_of "path" "" OP_EQUAL) cond0
             CRITERIA_PATH PT_STRING 2 PFLG_NOT_EMPTY None in
  fst r = EINVAL ∧ c_err_msg (snd r) = c_err_msg cond0 ∧ c_fault (snd r) = true.
Proof.
  apply (criteria2condition_unwritten_message (H := spec_env)
           (cond_of "path" "" OP_EQUAL) cond0 CRITERIA_PATH 2 PFLG_NOT_EMPTY None).
  - reflexivity.
  - reflexivity.
Defined.

(** A status manager with the statuses [new] and [synchro]. *)
Lemma criteria2condition_status_value_witness :
  let smi := mk_sm_instance 0 (mk_status_manager "lhsm" ["new"; "synchro"]) in
  let r := criteria2condition (H := spec_env) (cond_of "status" "archived" OP_EQUAL)
             cond0 CRITERIA_STATUS PT_STRING 0 PFLG_STATUS (Some smi) in
  fst r = EINVAL ∧
  c_err_msg (snd r) =
    "Invalid status 'archived' for 'lhsm' status manager: allowed values are "
    +:+ allowed_status_str (rbh_env := spec_env) (sm smi).
Proof.
  cbv zeta.
  apply (proj1 (criteria2condition_status_value (H := spec_env)
                  (cond_of "status" "archived" OP_EQUAL) cond0 CRITERIA_STATUS 0
                  PFLG_STATUS
                  (Some (mk_sm_instance 0 (mk_status_manager "lhsm" ["new"; "synchro"])))
                  eq_refl eq_refl eq_refl eq_refl eq_refl)).
  - vm_compute. discriminate.
  - vm_compute. reflexivity.
Defined.

(** The block [condition { owner == "" }], its expression at line 2. *)
Lemma GetBoolExpr_stale_message_witness :
  let item := TYPE_BOOL_EXPR 2 (BoolCondition (cond_of "owner" "" OP_EQUAL)) in
  let r := GetBoolExpr (H := spec_env) (Some (TYPE_BLOCK 1 "condition" [item]))
             "condition" 7 None world5 in
  fst r = EINVAL ∧
  err_msg (snd r) = err_msg world5 +:+ ", line "
                    +:+ pretty (rh_config_GetItemLine (rbh_env := spec_env) (Some item)) ∧
  fault (snd r) = true ∧
  frees (snd r) = (frees world5 ++ [brk world5])%list.
Proof.
  apply (GetBoolExpr_stale_message (H := spec_env) 1 "condition" 2
           (cond_of "owner" "" OP_EQUAL) "condition" 7 None world5 (leaf NULL)).
  - exact wf_world5.
  - reflexivity.
  - reflexivity.
  - discriminate.
  - reflexivity.
  - reflexivity.
  - reflexivity.
Defined.

(** ** A block at level 2 *)

Lemma print_block_indentation_witness :
  print_begin_block "" 2 "FileClass" (Some "hot") =
    "" +:+ spaces 8 +:+ "FileClass" +:+ String (ascii_of_N 9) "hot" +:+ newline
    +:+ spaces 8 +:+ "{" +:+ newline ∧
  print_end_block "" 2 = "" +:+ spaces 8 +:+ "}" +:+ newline ∧
  print_line "" 2 "size > 10" = "" +:+ spaces 8 +:+ "size > 10" +:+ newline ∧
  String.length (spaces 8) = 8%nat.
Proof.
  apply (print_block_indentation "" 2 "FileClass" (Some "hot") "size > 10"). lia.
Defined.

(** ** [depth == 3 and depth == -1] *)

Lemma build_bool_expr_leaks_first_operand_witness :
  let r := build_bool_expr (H := spec_env)
             (BoolBinary BOOL_OP_AND (BoolCondition (cond_of "depth" "3" OP_EQUAL))
                         (BoolCondition (cond_of "depth" "-1" OP_EQUAL)))
             7 None world5 in
  fst r ≠ 0 ∧
  frees (snd r) = (frees world5 ++ [(brk world5 + 3)%N; (brk world5 + 2)%N; brk world5])%list ∧
  (∃ t, cells (snd r) !! (brk world5 + 1)%N = Some (ObjTriplet t)) ∧
  cells (snd r) !! brk world5 = None ∧
  (∃ n, cells (snd r) !! 7%N = Some (ObjNode n) ∧ owner n = true ∧
        expr1 n = brk world5 ∧ expr2 n = (brk world5 + 2)%N).
Proof.
  apply (build_bool_expr_leaks_first_operand (H := spec_env) BOOL_OP_AND
           (cond_of "depth" "3" OP_EQUAL) (cond_of "depth" "-1" OP_EQUAL)
           7 None world5 (leaf NULL)).
  - exact wf_world5.
  - reflexivity.
  - vm_compute. discriminate.
  - discriminate.
  - intros st. reflexivity.
  - intros st. vm_compute. discriminate.
Defined.

(** ** The module drivers on a table of three modules *)

(** The second module fails to reload: the third is reloaded all the same,
    and the code of the second is returned. *)
Lemma ReloadRobinhoodConfig_continues_witness :
  let r := ReloadRobinhoodConfig Z unit example_modules 0 0 driver0 in
  fst r = EINVAL ∧ d_state (snd r) = 111 ∧
  d_log (snd r)
  = [(LVL_EVENT, RELOAD_TAG, "Configuration of module 'Log' successfully reloaded");
     (LVL_CRIT, RELOAD_TAG, "Error 22 reloading configuration for module 'ListManager'");
     (LVL_EVENT, RELOAD_TAG, "Configuration of module 'FS_Scan' successfully reloaded")].
Proof.
  destruct (ReloadRobinhoodConfig_continues Z unit 0 example_modules 0 driver0)
    as (_ & _ & Hst & Hlog & _ & _ & _ & Hlast).
  split_and!.
  - exact (Hlast [(example_module "Log" 1 0 "log { }", 0)]
                 (example_module "ListManager" 10 EINVAL "db { }", EINVAL)
                 [(example_module "FS_Scan" 100 0 "scan { }", 0)]
                 eq_refl ltac:(discriminate)
                 ltac:(intros c' Hc'; apply list_elem_of_singleton in Hc'; by subst c')).
  - exact Hst.
  - exact Hlog.
Defined.

(** The template is written in full; the default values stop at the
    second module, whose text is the last in the stream. *)
Lemma write_modules_stop_at_first_error_witness :
  WriteConfigTemplate Z unit example_modules "" 0
  = (0, template_banner
        +:+ "# Log configuration" +:+ newline +:+ "log { }" +:+ newline
        +:+ "# ListManager configuration" +:+ newline +:+ "db { }" +:+ newline
        +:+ "# FS_Scan configuration" +:+ newline +:+ "scan { }" +:+ newline, 111) ∧
  WriteConfigDefault Z unit example_modules "" 0
  = (EINVAL, default_banner +:+ "log { }" +:+ newline +:+ "db { }" +:+ newline, 11).
Proof.
  destruct (write_modules_stop_at_first_error Z unit example_modules "" 0)
    as (Hall & _ & _ & Hfail & _).
  split.
  - exact (Hall _ _ eq_refl).
  - exact (Hfail [example_module "Log" 1 0 "log { }"]
                 (example_module "ListManager" 10 EINVAL "db { }")
                 [example_module "FS_Scan" 100 0 "scan { }"]
                 _ _ _ _ _ eq_refl eq_refl eq_refl ltac:(discriminate)).
Defined.

(** ** The limits of the arrays on concrete inputs *)

(** [12] followed by 256 letters fills [tmpbuf]; [12abc] is refused with
    a message. *)
Lemma extractors_report_errors_witness :
  let get value := GetIntParam (H := spec_env) (block_db value) "db" "max_size" 0
                     (no_extra 7) in
  o_fault (snd (get ("12" +:+ long_word))) = true ∧
  fst (get "12abc") = EINVAL ∧ o_fault (snd (get "12abc")) = false ∧
  o_err_msg (snd (get "12abc")) ≠ "".
Proof.
  cbv zeta.
  destruct (@extractors_report_errors spec_env (block_db ("12" +:+ long_word)) "db"
              "max_size" 0) as (_ & _ & _ & _ & Hlong & _).
  destruct (@extractors_report_errors spec_env (block_db "12abc") "db"
              "max_size" 0) as (_ & _ & _ & _ & Hshort & _).
  destruct (Hshort (no_extra 7)) as [Hft Hrep].
  split_and!.
  - exact (proj1 (Hlong (no_extra 7))).
  - reflexivity.
  - exact Hft.
  - intros Hmsg. destruct (proj2 (Hrep eq_refl) Hmsg) as [Hrc|[Hrc _]]; discriminate Hrc.
Defined.

(** [12abc] is refused and the target keeps its value. *)
Lemma numeric_extractors_keep_target_witness :
  let r := GetIntParam (H := spec_env) (block_db "12abc") "db" "max_size" 0
             (no_extra 7) in
  fst r = EINVAL ∧ target (snd r) = 7 ∧ o_fault (snd r) = false.
Proof.
  cbv zeta.
  destruct (@numeric_extractors_keep_target spec_env (block_db "12abc") "db"
              "max_size" 0) as (_ & _ & _ & Hint & _).
  destruct (Hint (no_extra 7) eq_refl) as [Hft Hkeep].
  split_and!; [reflexivity| |exact Hft].
  destruct (Hkeep ltac:(discriminate)) as [Ht|(item & _ & _ & Hmsg)]; [exact Ht|].
  vm_compute in Hmsg. discriminate Hmsg.
Defined.

(** [owner == a**] is refused through the call without buffer; with 12
    bytes for the value, the rewriting of [/**/a?b?c] does not fit. *)
Lemma criteria2condition_any_level_undefined_witness :
  (let r := criteria2condition (H := spec_env) (cond_of "owner" "a**" OP_EQUAL) cond0
              CRITERIA_OWNER PT_STRING 8 PFLG_NOT_EMPTY None in
   fst r = EINVAL ∧ c_err_msg (snd r) = "" ∧ c_fault (snd r) = true) ∧
  (let r := criteria2condition (H := tight_env) (cond_of "path" "/**/a?b?c" OP_EQUAL)
              cond0 CRITERIA_PATH PT_STRING 1
              (Z.lor PFLG_ALLOW_ANY_DEPTH PFLG_NOT_EMPTY) None in
   val_str_overrun (H := tight_env) "/**/a?b?c" = true ∧
   fst r = 0 ∧ c_fault (snd r) = true).
Proof.
  split.
  - exact (proj1 (@criteria2condition_any_level_undefined spec_env
                    (cond_of "owner" "a**" OP_EQUAL) cond0 CRITERIA_OWNER 8
                    PFLG_NOT_EMPTY None eq_refl eq_refl eq_refl eq_refl eq_refl)
                 eq_refl).
  - cbv zeta. split; [reflexivity|]. split; [reflexivity|].
    exact (proj2 (@criteria2condition_any_level_undefined tight_env
                    (cond_of "path" "/**/a?b?c" OP_EQUAL) cond0 CRITERIA_PATH 1
                    (Z.lor PFLG_ALLOW_ANY_DEPTH PFLG_NOT_EMPTY) None
                    eq_refl eq_refl eq_refl eq_refl eq_refl)
                 eq_refl eq_refl).
Defined.

